(** * S-expression library for Python: a shallow embedding and its properties

    The development follows [sxprlib.py] and [ratcomplex.py].

    - Python [int] is [Z]; a [str] is the list of its code points ([N]).
    - A [Cons] is a mutable cell with an identity: cells live in a heap
      keyed by their [id], and [car]/[cdr] hold references, so that shared
      and circular chains exist in the model as they do in the program.
    - Exceptions are values of [exn]; a call returns a [result]. *)

From Stdlib Require Import ZArith QArith List Lia String Ascii.
From Stdlib Require Import DecimalZ DecimalPos.
From stdpp Require Import gmap list fin_maps.

Set Default Proof Using "Type".
#[local] Set Warnings "-clear-no-such-hyp".

(** ** Exceptions *)

(** The exception classes the two source files raise.  Messages that carry
    a position keep it as [line] and [col]. *)
Inductive exn :=
| IndexError
| NotImplementedError
| PermissionError (name : list N)
| AttributeError (name : list N)
| ValueError
| TypeError
| ZeroDivisionError
| EOFError_UnexpectedEOF (line col : Z)
| SyntaxError_UnexpectedEOF (line col : Z)
| SyntaxError_InvalidComplex (line col : Z)
| SyntaxError_InvalidArray (line col : Z)
| SyntaxError_RParExpected (line col : Z)
| SyntaxError_UnexpectedToken (line col : Z).

Inductive result (A : Type) :=
| Ok (a : A)
| Raise (e : exn).
Arguments Ok {A} a.
Arguments Raise {A} e.

(** ** Cons cells *)

(** [id(c)] of a Cons cell. *)
Abbreviation loc := positive.

(** What a [car] or [cdr] field refers to.  An [atom] is any object that
    is neither [Nil] nor a [Cons]: the functions below look at such an
    object's type only. *)
Inductive ref (atom : Type) :=
| RNil
| RCons (l : loc)
| RAtom (a : atom).
Arguments RNil {atom}.
Arguments RCons {atom} l.
Arguments RAtom {atom} a.

Record cell (atom : Type) := Cell { car : ref atom; cdr : ref atom }.
Arguments Cell {atom} car cdr.
Arguments car {atom} c.
Arguments cdr {atom} c.

(** The heap maps the id of every live Cons to its two fields. *)
Abbreviation heap atom := (gmap loc (cell atom)).

Section ConsCells.
Context {atom : Type}.
Local Abbreviation ref := (ref atom).
Local Abbreviation heap := (heap atom).

(** [c.car] and [c.cdr] for a reference [c] that is a Cons or Nil
    ([Nil.car = Nil.cdr = Nil], class attributes set in [Nil.__new__]). *)
Definition ref_car (h : heap) (c : ref) : option ref :=
  match c with
  | RNil => Some RNil
  | RCons l => car <$> h !! l
  | RAtom _ => None
  end.

Definition ref_cdr (h : heap) (c : ref) : option ref :=
  match c with
  | RNil => Some RNil
  | RCons l => cdr <$> h !! l
  | RAtom _ => None
  end.

(** [Cons.__len__], the [while] loop: [c] is the current cell, [n] the
    count so far.  [None] stands for a reference to a cell the heap does
    not hold, or for fuel run out; neither happens on a closed heap
    (see [Cons_len_total]). *)
Fixpoint len_loop (fuel : nat) (h : heap) (n : Z) (c : loc)
    (occurence : gset loc) : option Z :=
  match fuel with
  | O => None
  | S fuel' =>
    match h !! c with
    | None => None
    | Some cl =>
      match cdr cl with
      | RCons d =>
        if decide (d ∈ occurence) then Some n
        else len_loop fuel' h (n + 1) d ({[d]} ∪ occurence)
      | _ => Some n
      end
    end
  end.

Definition Cons_len (h : heap) (self : loc) : option Z :=
  len_loop (S (size h)) h 1 self {[self]}.

(** [Cons.__getitem__], the [while m > 0] loop.  A reference whose type
    is neither Cons nor Nil raises; [Nil.cdr] is [Nil]. *)
Fixpoint getitem_loop (h : heap) (m : nat) (c : ref) : option (result ref) :=
  match m with
  | O => Some (Ok c)
  | S m' =>
    match c with
    | RAtom _ => Some (Raise IndexError)
    | _ =>
      match ref_cdr h c with
      | Some c' => getitem_loop h m' c'
      | None => None
      end
    end
  end.

(** [Cons.__getitem__(self, n)] for an integer [n] (a slice raises
    [NotImplementedError] before anything else is looked at). *)
Definition Cons_getitem (h : heap) (self : loc) (n : Z) : option (result ref) :=
  if (n <? 0)%Z then Some (Raise IndexError)
  else
    match getitem_loop h (Z.to_nat n) (RCons self) with
    | Some (Ok (RCons l)) => Ok <$> ref_car h (RCons l)
    | r => r
    end.

(** [_ConsIterator]: the cell to visit next and the ids already visited. *)
Record ConsIterator := MkIter { it_cons : ref; it_occurence : gset loc }.

Definition ConsIterator_init (cons : ref) : ConsIterator :=
  MkIter cons ∅.

(** [_ConsIterator.__next__]: [Some (None, _)] is [StopIteration]. *)
Definition ConsIterator_next (h : heap) (it : ConsIterator)
    : option (option ref * ConsIterator) :=
  match it_cons it with
  | RNil => Some (None, MkIter (it_cons it) ∅)
  | RCons l =>
    if decide (l ∈ it_occurence it) then Some (None, MkIter (it_cons it) ∅)
    else
      match h !! l with
      | Some cl =>
        Some (Some (car cl), MkIter (cdr cl) ({[l]} ∪ it_occurence it))
      | None => None
      end
  | RAtom a => Some (Some (RAtom a), MkIter RNil (it_occurence it))
  end.

(** [for v in c]: call [__next__] until it raises [StopIteration] and
    collect what it returned. *)
Fixpoint for_loop (fuel : nat) (h : heap) (it : ConsIterator)
    : option (list ref) :=
  match fuel with
  | O => None
  | S fuel' =>
    match ConsIterator_next h it with
    | None => None
    | Some (None, _) => Some []
    | Some (Some v, it') => (v ::.) <$> for_loop fuel' h it'
    end
  end.

(** [list(c)] for [c] a Cons or Nil: [Cons.__iter__] and [Nil.__iter__]
    both return [_ConsIterator(self)]. *)
Definition Cons_iter (h : heap) (c : ref) : option (list ref) :=
  for_loop (size h + 2) h (ConsIterator_init c).

(** *** What the claims speak of *)

(** Every reference held in the heap is to a cell of the heap: Python
    has no dangling reference. *)
Definition ref_live (h : heap) (r : ref) : Prop :=
  match r with
  | RCons l => is_Some (h !! l)
  | _ => True
  end.

Definition heap_closed (h : heap) : Prop :=
  ∀ l cl, h !! l = Some cl → ref_live h (car cl) ∧ ref_live h (cdr cl).

(** [x] is reached from [c] by following [cdr] through Cons cells. *)
Inductive cdr_reach (h : heap) (c : loc) : loc → Prop :=
| cdr_reach_here : cdr_reach h c c
| cdr_reach_next x cl d :
    cdr_reach h c x → h !! x = Some cl → cdr cl = RCons d →
    cdr_reach h c d.

(** [chain h c cells t]: [cells] are [c], [c.cdr], [c.cdr.cdr], ... in
    this order, and [t] is the [cdr] of the last of them. *)
Inductive chain (h : heap) : loc → list loc → ref → Prop :=
| chain_last c cl :
    h !! c = Some cl → chain h c [c] (cdr cl)
| chain_next c cl d cells t :
    h !! c = Some cl → cdr cl = RCons d → chain h d cells t →
    chain h c (c :: cells) t.

(** The walk from [c] stops at [cells]' last cell: its [cdr] is Nil, an
    atom, or a cell of the walk (the chain is circular). *)
Definition chain_stops (cells : list loc) (t : ref) : Prop :=
  ∀ d, t = RCons d → d ∈ cells.

(** [cdr_walk h k c r]: following [cdr] [k] times from [c], through Cons
    cells only, leads to [r]. *)
Inductive cdr_walk (h : heap) : nat → ref → ref → Prop :=
| cdr_walk_O c : cdr_walk h 0 c c
| cdr_walk_S k l cl r :
    h !! l = Some cl → cdr_walk h k (cdr cl) r →
    cdr_walk h (S k) (RCons l) r.

(** The [car]s of a list of cells. *)
Fixpoint cars (h : heap) (cells : list loc) : list ref :=
  match cells with
  | [] => []
  | l :: ls =>
    match h !! l with
    | Some cl => car cl :: cars h ls
    | None => cars h ls
    end
  end.

(** The terminal atom of a dotted chain, as the last element iterated. *)
Definition dotted_tail (t : ref) : list ref :=
  match t with
  | RAtom a => [RAtom a]
  | _ => []
  end.

(** *** Making and changing cells *)

(** [Cons(car, cdr)]: a new cell, with an id no live cell has. *)
Definition Cons_init (h : heap) (a d : ref) : loc * heap :=
  let l := fresh (dom h) in (l, <[l := Cell a d]> h).

(** [c.car = x] and [c.cdr = x] for a reference [c].  On Nil,
    [Nil.__setattr__] raises [PermissionError(name)]; the objects that
    stand for atoms here have no such attribute to set. *)
Definition set_car (h : heap) (c : ref) (x : ref) : option (result unit * heap) :=
  match c with
  | RCons l => (λ cl, (Ok tt, <[l := Cell x (cdr cl)]> h)) <$> h !! l
  | RNil => Some (Raise (PermissionError [99%N; 97%N; 114%N]), h)
  | RAtom _ => Some (Raise (AttributeError [99%N; 97%N; 114%N]), h)
  end.

Definition set_cdr (h : heap) (c : ref) (x : ref) : option (result unit * heap) :=
  match c with
  | RCons l => (λ cl, (Ok tt, <[l := Cell (car cl) x]> h)) <$> h !! l
  | RNil => Some (Raise (PermissionError [99%N; 100%N; 114%N]), h)
  | RAtom _ => Some (Raise (AttributeError [99%N; 100%N; 114%N]), h)
  end.

(** [Cons.__setitem__], the [while m > 0] loop: [p] is the cell before
    [c].  Unlike the loop of [__getitem__], this one raises on Nil too. *)
Fixpoint setitem_loop (h : heap) (m : nat) (p c : ref) : option (result (ref * ref)) :=
  match m with
  | O => Some (Ok (p, c))
  | S m' =>
    match c with
    | RCons l =>
      match h !! l with
      | Some cl => setitem_loop h m' c (cdr cl)
      | None => None
      end
    | _ => Some (Raise IndexError)
    end
  end.

(** [Cons.__setitem__(self, n, x)] for an integer [n]: when the walk ends
    on a cell, its [car] is set; when it ends past the last cell, the
    [cdr] of the cell before is. *)
Definition Cons_setitem (h : heap) (self : loc) (n : Z) (x : ref)
    : option (result unit * heap) :=
  if (n <? 0)%Z then Some (Raise IndexError, h)
  else
    match setitem_loop h (Z.to_nat n) RNil (RCons self) with
    | None => None
    | Some (Raise e) => Some (Raise e, h)
    | Some (Ok (p, c)) =>
      match c with
      | RCons _ => set_car h c x
      | _ => set_cdr h p x
      end
    end.

(** [mkcons(a, d)] *)
Definition mkcons (h : heap) (a d : ref) : ref * heap :=
  let '(l, h') := Cons_init h a d in (RCons l, h').

(** [mklist] on its arguments [args]:
    [r = NIL; for v in args[::-1]: r = Cons(v, r)]. *)
Definition mklist (h : heap) (args : list ref) : ref * heap :=
  fold_left (λ (s : ref * heap) v, mkcons (snd s) v (fst s)) (rev args) (RNil, h).

(** [len(l)] for [l] a list: [Nil.__len__] returns 0. *)
Definition list_len (h : heap) (l : ref) : option Z :=
  match l with
  | RCons c => Cons_len h c
  | _ => Some 0%Z
  end.

(** [mkreverse], the loop [for v in l: if n < 1: break; r = Cons(v, r);
    n = n - 1]. *)
Fixpoint mkreverse_loop (fuel : nat) (h : heap) (it : ConsIterator) (n : Z) (r : ref)
    : option (ref * heap) :=
  match fuel with
  | O => None
  | S fuel' =>
    match ConsIterator_next h it with
    | None => None
    | Some (None, _) => Some (r, h)
    | Some (Some v, it') =>
      if (n <? 1)%Z then Some (r, h)
      else
        let '(r', h') := mkcons h v r in
        mkreverse_loop fuel' h' it' (n - 1) r'
    end
  end.

(** [mkreverse(l)] *)
Definition mkreverse (h : heap) (l : ref) : option (result ref * heap) :=
  match l with
  | RAtom _ => Some (Raise TypeError, h)
  | _ =>
    match list_len h l with
    | None => None
    | Some n =>
      match mkreverse_loop (size h + 2) h (ConsIterator_init l) n RNil with
      | None => None
      | Some (r, h') => Some (Ok r, h')
      end
    end
  end.

(** [mkappend], the loop [while n > 0: c.cdr = Cons(l.car); c = c.cdr;
    l = l.cdr; n = n - 1].  [len] has counted the cells, so [l] is a
    cell at every turn. *)
Fixpoint mkappend_loop (h : heap) (n : nat) (c : ref) (l : ref)
    : option (ref * heap) :=
  match n with
  | O => Some (c, h)
  | S n' =>
    match ref_car h l, ref_cdr h l with
    | Some a, Some d =>
      let '(k, h1) := mkcons h a RNil in
      match set_cdr h1 c k with
      | Some (Ok _, h2) => mkappend_loop h2 n' k d
      | _ => None
      end
    | _, _ => None
    end
  end.

(** [mkappend(l1, l2)]: a copy of the cells of [l1], ended by [l2]. *)
Definition mkappend (h : heap) (l1 l2 : ref) : option (result ref * heap) :=
  match l1 with
  | RNil => Some (Ok l2, h)
  | RCons c1 =>
    match Cons_len h c1, ref_car h l1, ref_cdr h l1 with
    | Some len, Some a, Some d =>
      let '(ret, h1) := mkcons h a RNil in
      match mkappend_loop h1 (Z.to_nat (len - 1)) ret d with
      | Some (c, h2) =>
        match set_cdr h2 c l2 with
        | Some (Ok _, h3) => Some (Ok ret, h3)
        | _ => None
        end
      | None => None
      end
    | _, _, _ => None
    end
  | RAtom _ => Some (Raise TypeError, h)
  end.

(** [nconc], the loop [while n > 0: l1 = l1.cdr; n = n - 1]. *)
Fixpoint nconc_loop (h : heap) (n : nat) (l1 : ref) : option ref :=
  match n with
  | O => Some l1
  | S n' =>
    match ref_cdr h l1 with
    | Some d => nconc_loop h n' d
    | None => None
    end
  end.

(** [nconc(l1, l2)]: the [cdr] of the last cell [len] counts is set. *)
Definition nconc (h : heap) (l1 l2 : ref) : option (result ref * heap) :=
  match l1 with
  | RNil => Some (Ok l2, h)
  | RCons c1 =>
    match Cons_len h c1 with
    | None => None
    | Some len =>
      match nconc_loop h (Z.to_nat (len - 1)) l1 with
      | None => None
      | Some c =>
        match set_cdr h c l2 with
        | Some (Ok _, h') => Some (Ok l1, h')
        | _ => None
        end
      end
    end
  | RAtom _ => Some (Raise TypeError, h)
  end.

(** [r] is a proper list: Nil, or the chain of the distinct cells
    [cells] that ends in Nil. *)
Definition proper_list (h : heap) (r : ref) (cells : list loc) : Prop :=
  match r with
  | RNil => cells = []
  | RCons c => chain h c cells RNil ∧ NoDup cells
  | RAtom _ => False
  end.

End ConsCells.

Arguments ConsIterator : clear implicits.

(** ** Text *)

(** A Python [str] is the list of its code points; [py] reads a literal. *)
Definition py (s : string) : list N :=
  map N_of_ascii (list_ascii_of_string s).

(** [ord] of a literal character. *)
Definition ord (a : ascii) : N := N_of_ascii a.

(** The double quote, code point 34. *)
Definition DQUOTE : N := 34%N.

(** [c in l] for a character and a collection of characters. *)
Definition inb (c : N) (l : list N) : bool := existsb (N.eqb c) l.

(** [bool(s)] for a string: it is not empty. *)
Definition nonempty (s : list N) : bool :=
  match s with
  | [] => false
  | _ => true
  end.

(** [s == t] on strings. *)
Fixpoint str_eqb (s t : list N) : bool :=
  match s, t with
  | [], [] => true
  | c :: s', d :: t' => (c =? d)%N && str_eqb s' t'
  | _, _ => false
  end.

(** [s.startswith(p)] *)
Fixpoint startswith (p s : list N) : bool :=
  match p, s with
  | [], _ => true
  | c :: p', d :: s' => (c =? d)%N && startswith p' s'
  | _ :: _, [] => false
  end.

(** [s.replace(old, new)] for a non-empty [old]: every occurrence, left to
    right, without overlap.  [skip] counts the characters of an occurrence
    still to be dropped. *)
Fixpoint replace_from (old new : list N) (skip : nat) (s : list N) : list N :=
  match s with
  | [] => []
  | c :: s' =>
    match skip with
    | S k => replace_from old new k s'
    | O =>
      if startswith old s then new ++ replace_from old new (length old - 1) s'
      else c :: replace_from old new 0 s'
    end
  end.

Definition replace (old new s : list N) : list N := replace_from old new 0 s.

(** [s.split(sep)] for a one-character [sep]. *)
Fixpoint split (sep : N) (s : list N) : list (list N) :=
  match s with
  | [] => [[]]
  | c :: s' =>
    if (c =? sep)%N then [] :: split sep s'
    else
      match split sep s' with
      | [] => [[c]]
      | w :: ws => (c :: w) :: ws
      end
  end.

(** [s.split(sep, 1)]: at the first [sep] only. *)
Fixpoint split1 (sep : N) (s : list N) : list (list N) :=
  match s with
  | [] => [[]]
  | c :: s' =>
    if (c =? sep)%N then [[]; s']
    else
      match split1 sep s' with
      | [] => [[c]]
      | w :: ws => (c :: w) :: ws
      end
  end.

(** Character classes of the regular expressions (all compiled with the
    [ASCII] flag) and of [__is_oct_digit] and [__is_hex_digit]. *)
Definition is_digit (c : N) : bool := (48 <=? c)%N && (c <=? 57)%N.
Definition is_bin_digit (c : N) : bool := (48 <=? c)%N && (c <=? 49)%N.
Definition is_oct_digit (c : N) : bool := (48 <=? c)%N && (c <=? 55)%N.
Definition is_lower_letter (c : N) : bool := (97 <=? c)%N && (c <=? 122)%N.
Definition is_upper_letter (c : N) : bool := (65 <=? c)%N && (c <=? 90)%N.
Definition is_hex_digit (c : N) : bool :=
  is_digit c || ((97 <=? c)%N && (c <=? 102)%N) || ((65 <=? c)%N && (c <=? 70)%N).
Definition is_alnum (c : N) : bool :=
  is_digit c || is_lower_letter c || is_upper_letter c.

(** Case mapping on ASCII. *)
Definition ascii_lower (c : N) : N := if is_upper_letter c then (c + 32)%N else c.
Definition ascii_upper (c : N) : N := if is_lower_letter c then (c - 32)%N else c.
Definition is_ascii (s : list N) : bool := forallb (λ c, (c <? 128)%N) s.

(** One or more characters of a class, and nothing else. *)
Definition all1 (P : N → bool) (s : list N) : bool :=
  match s with
  | [] => false
  | _ => forallb P s
  end.

(** [[+-]?]: the string after an optional sign. *)
Definition strip_sign (s : list N) : list N :=
  match s with
  | c :: s' => if inb c (py "+-") then s' else s
  | [] => s
  end.

(** The longest prefix of a class, and what follows it. *)
Fixpoint span (P : N → bool) (s : list N) : list N * list N :=
  match s with
  | c :: s' => if P c then let '(a, b) := span P s' in (c :: a, b) else ([], s)
  | [] => ([], [])
  end.

(** [P+(/P+)?] *)
Definition ratio_of (P : N → bool) (s : list N) : bool :=
  match split (ord "/") s with
  | [a] => all1 P a
  | [a; b] => all1 P a && all1 P b
  | _ => false
  end.

(** [_is_integer]: [[+-]?\d+] *)
Definition _is_integer (s : list N) : bool := all1 is_digit (strip_sign s).

(** [[+-]?#[xX]P+(/P+)?] for the letter [x] and the digit class [P]. *)
Definition is_prefixed (letters : list N) (P : N → bool) (s : list N) : bool :=
  match strip_sign s with
  | h :: l :: s' => (h =? ord "#")%N && inb l letters && ratio_of P s'
  | _ => false
  end.

Definition _is_bin : list N → bool := is_prefixed (py "bB") is_bin_digit.
Definition _is_oct : list N → bool := is_prefixed (py "oO") is_oct_digit.
Definition _is_hex : list N → bool := is_prefixed (py "xX") is_hex_digit.

(** [_is_radix]: [[+-]?#[1-9][0-9]?[rR][0-9a-zA-Z]+(/[0-9a-zA-Z]+)?] *)
Definition _is_radix (s : list N) : bool :=
  match strip_sign s with
  | h :: d1 :: s' =>
    (h =? ord "#")%N && ((49 <=? d1)%N && (d1 <=? 57)%N) &&
    match s' with
    | c :: s'' =>
      if inb c (py "rR") then ratio_of is_alnum s''
      else
        is_digit c &&
        match s'' with
        | r :: s3 => inb r (py "rR") && ratio_of is_alnum s3
        | [] => false
        end
    | [] => false
    end
  | _ => false
  end.

(** [_is_number]: an optional sign; then digits, optionally followed by a
    point and more digits, or a point followed by digits; then optionally
    an exponent: one of [defsDEFS], an optional sign, digits. *)
Definition _is_number (s : list N) : bool :=
  let '(a, r) := span is_digit (strip_sign s) in
  let '(mantissa, r) :=
    match r with
    | c :: r' =>
      if (c =? ord ".")%N then
        let '(b, r'') := span is_digit r' in
        (nonempty a || nonempty b, r'')
      else (nonempty a, r)
    | [] => (nonempty a, r)
    end in
  mantissa &&
  match r with
  | [] => true
  | m :: e => inb m (py "defsDEFS") && all1 is_digit (strip_sign e)
  end.

(** [_is_fraction]: [[+-]?\d+/\d+] *)
Definition _is_fraction (s : list N) : bool :=
  match split (ord "/") (strip_sign s) with
  | [a; b] => all1 is_digit a && all1 is_digit b
  | _ => false
  end.

(** [_is_arrayprefix]: [#[0-9]+[aA]] *)
Definition _is_arrayprefix (s : list N) : bool :=
  match s with
  | h :: s' =>
    (h =? ord "#")%N &&
    let '(a, r) := span is_digit s' in
    nonempty a &&
    match r with
    | [c] => inb c (py "aA")
    | _ => false
    end
  | [] => false
  end.

(** [_is_charhex]: [#\\[uxUX][0-9a-fA-F]+] *)
Definition _is_charhex (s : list N) : bool :=
  match s with
  | h :: b :: l :: s' =>
    (h =? ord "#")%N && (b =? ord "\")%N && inb l (py "uxUX") && all1 is_hex_digit s'
  | _ => false
  end.

(** *** Integers and text *)

(** The value of a digit in [int(s, base)]. *)
Definition digit_value (c : N) : option Z :=
  if is_digit c then Some (Z.of_N c - 48)%Z
  else if is_lower_letter c then Some (Z.of_N c - 87)%Z
  else if is_upper_letter c then Some (Z.of_N c - 55)%Z
  else None.

Fixpoint digits_value (base : Z) (acc : Z) (s : list N) : option Z :=
  match s with
  | [] => Some acc
  | c :: s' =>
    match digit_value c with
    | Some d => if (d <? base)%Z then digits_value base (acc * base + d)%Z s' else None
    | None => None
    end
  end.

(** The literal prefix [int] accepts for the bases 2, 8 and 16. *)
Definition base_prefix (base : Z) : list N :=
  if (base =? 2)%Z then py "bB"
  else if (base =? 8)%Z then py "oO"
  else if (base =? 16)%Z then py "xX"
  else [].

(** [int(s, base)] for a string of an optional sign and alphanumerics, as
    the regular expressions let through; [None] is [ValueError]. *)
Definition int_of_str (base : Z) (s : list N) : option Z :=
  if (base <? 2)%Z || (36 <? base)%Z then None
  else
    let body :=
      match strip_sign s with
      | z :: l :: r =>
        if (z =? ord "0")%N && inb l (base_prefix base) then r else strip_sign s
      | r => r
      end in
    match body with
    | [] => None
    | _ =>
      match digits_value base 0 body with
      | Some n =>
        match s with
        | c :: _ => if (c =? ord "-")%N then Some (- n)%Z else Some n
        | [] => Some n
        end
      | None => None
      end
    end.

(** The characters of a decimal numeral. *)
Fixpoint uint_chars (d : Decimal.uint) : list N :=
  match d with
  | Decimal.Nil => []
  | Decimal.D0 d => 48%N :: uint_chars d
  | Decimal.D1 d => 49%N :: uint_chars d
  | Decimal.D2 d => 50%N :: uint_chars d
  | Decimal.D3 d => 51%N :: uint_chars d
  | Decimal.D4 d => 52%N :: uint_chars d
  | Decimal.D5 d => 53%N :: uint_chars d
  | Decimal.D6 d => 54%N :: uint_chars d
  | Decimal.D7 d => 55%N :: uint_chars d
  | Decimal.D8 d => 56%N :: uint_chars d
  | Decimal.D9 d => 57%N :: uint_chars d
  end.

(** [str(n)] for an int. *)
Definition int_str (n : Z) : list N :=
  match Z.to_int n with
  | Decimal.Pos d => uint_chars d
  | Decimal.Neg d => ord "-" :: uint_chars d
  end.

(** A hexadecimal digit, lower case. *)
Definition hex_char (d : N) : N := if (d <? 10)%N then (48 + d)%N else (87 + d)%N.

(** ["{:0wx}".format(n)]: at least [w] hexadecimal digits. *)
Fixpoint hex_digits (fuel : nat) (n : N) : list N :=
  match fuel with
  | O => []
  | S fuel' =>
    if (n <? 16)%N then [hex_char n]
    else hex_digits fuel' (n / 16)%N ++ [hex_char (n mod 16)%N]
  end.

Definition hex_str (w : nat) (n : N) : list N :=
  let ds := hex_digits (S (N.to_nat (N.log2 n))) n in
  repeat 48%N (w - length ds) ++ ds.

(** [json.dumps(s, ensure_ascii=False)]: quotes around the characters,
    with the quote, the backslash and the control characters escaped. *)
Definition json_escape (c : N) : list N :=
  if (c =? DQUOTE)%N then [ord "\"; DQUOTE]
  else if (c =? ord "\")%N then py "\\"
  else if (c =? 10)%N then py "\n"
  else if (c =? 13)%N then py "\r"
  else if (c =? 9)%N then py "\t"
  else if (c =? 8)%N then py "\b"
  else if (c =? 12)%N then py "\f"
  else if (c <? 32)%N then py "\u" ++ hex_str 4 c
  else [c].

Definition _dumps (s : list N) : list N :=
  DQUOTE :: flat_map json_escape s ++ [DQUOTE].

(** ** The host *)

(** What the program takes from Python itself and the model leaves
    abstract: floating point numbers and the Unicode tables.  Every field
    names the Python expression it stands for. *)
Class Host := {
  float : Type;
  float_eq_dec :: EqDecision float;
  float_countable :: Countable float;
  (** [float(n)] for an int [n] *)
  float_of_int : Z → float;
  (** [a / b] for ints [a] and [b != 0]: true division *)
  int_truediv : Z → Z → float;
  (** [x + y], [x - y], [x * y] on floats, and [x / y] for [y != 0] *)
  float_add : float → float → float;
  float_sub : float → float → float;
  float_mul : float → float → float;
  float_truediv : float → float → float;
  (** [x == 0] *)
  float_is_zero : float → bool;
  (** the int [n] with [x == n], if there is one: a float and an int that
      compare equal are the same dictionary key *)
  float_as_int : float → option Z;
  (** [float(s)] for a string the tokenizer has matched as a number *)
  float_of_str : list N → float;
  (** [str(x)] *)
  float_str : float → list N;
  (** [eawcolumncount[east_asian_width(c)]] *)
  east_asian_columns : N → Z;
  (** [s.lower()], [s.upper()] and [s.capitalize()] for a string that is
      not pure ASCII *)
  unicode_lower : list N → list N;
  unicode_upper : list N → list N;
  unicode_capitalize : list N → list N;
}.

(** ** Numbers *)

(** A [fractions.Fraction] is a [Q] in lowest terms, as [Qred] leaves it;
    its denominator is positive by type. *)

(** [Fraction(n, d)]: lowest terms, positive denominator. *)
Definition Fraction_of (n d : Z) : result Q :=
  match d with
  | Z0 => Raise ZeroDivisionError
  | Zpos p => Ok (Qred (n # p))
  | Zneg p => Ok (Qred ((- n) # p))
  end.

Definition numerator (q : Q) : Z := Qnum q.
Definition denominator (q : Q) : Z := Zpos (Qden q).

(** The fractions Python holds: [Qred] leaves them as they are. *)
Definition lowest_terms (q : Q) : bool :=
  (Qnum (Qred q) =? Qnum q)%Z && (Qden (Qred q) =? Qden q)%positive.
Arguments numerator : simpl never.
Arguments denominator : simpl never.

Section Numbers.
Context `{Host}.

(** A real number of the program: a Python [int], a
    [fractions.Fraction] or a [float]. *)
Inductive number :=
| Int (z : Z)
| Fraction (q : Q)
| Float (f : float).

(** [float(x)]; [float] of a Fraction is [numerator / denominator]. *)
Definition to_float (x : number) : float :=
  match x with
  | Int z => float_of_int z
  | Fraction q => int_truediv (numerator q) (denominator q)
  | Float f => f
  end.

(** [x + y], [x - y], [x * y]: ints stay ints, a Fraction with an int or
    a Fraction is a Fraction, anything with a float is a float. *)
Definition num_add (x y : number) : number :=
  match x, y with
  | Int a, Int b => Int (a + b)
  | Int a, Fraction q => Fraction (Qred (inject_Z a + q))
  | Fraction p, Int b => Fraction (Qred (p + inject_Z b))
  | Fraction p, Fraction q => Fraction (Qred (p + q))
  | _, _ => Float (float_add (to_float x) (to_float y))
  end.

Definition num_sub (x y : number) : number :=
  match x, y with
  | Int a, Int b => Int (a - b)
  | Int a, Fraction q => Fraction (Qred (inject_Z a - q))
  | Fraction p, Int b => Fraction (Qred (p - inject_Z b))
  | Fraction p, Fraction q => Fraction (Qred (p - q))
  | _, _ => Float (float_sub (to_float x) (to_float y))
  end.

Definition num_mul (x y : number) : number :=
  match x, y with
  | Int a, Int b => Int (a * b)
  | Int a, Fraction q => Fraction (Qred (inject_Z a * q))
  | Fraction p, Int b => Fraction (Qred (p * inject_Z b))
  | Fraction p, Fraction q => Fraction (Qred (p * q))
  | _, _ => Float (float_mul (to_float x) (to_float y))
  end.

(** [x == 0] *)
Definition num_is_zero (x : number) : bool :=
  match x with
  | Int z => (z =? 0)%Z
  | Fraction q => (numerator q =? 0)%Z
  | Float f => float_is_zero f
  end.

(** [x / y].  On two ints [/] is Python's true division and gives a
    float; with a Fraction on either side of an int or a Fraction it gives
    a Fraction.  Division by zero raises. *)
Definition num_truediv (x y : number) : result number :=
  if num_is_zero y then Raise ZeroDivisionError
  else
    match x, y with
    | Int a, Int b => Ok (Float (int_truediv a b))
    | Int a, Fraction q => Ok (Fraction (Qred (inject_Z a / q)))
    | Fraction p, Int b => Ok (Fraction (Qred (p / inject_Z b)))
    | Fraction p, Fraction q => Ok (Fraction (Qred (p / q)))
    | _, _ => Ok (Float (float_truediv (to_float x) (to_float y)))
    end.

(** An exact number: an int or a Fraction, not a float. *)
Definition is_exact (x : number) : bool :=
  match x with
  | Float _ => false
  | _ => true
  end.

(** ** Complex ([ratcomplex.py]) *)

(** What [Complex(...)] returns, by value: a real number, or a Complex
    with its two attributes. *)
Inductive complex_value :=
| CReal (x : number)
| CComplex (real imag : number).

(** An argument of [Complex(real, imag)] and of the arithmetic methods: a
    real number, or an object whose type is [Complex] or the built-in
    [complex], given by its attributes [.real] and [.imag] (two floats for
    a built-in [complex]). *)
Inductive complex_arg :=
| ArgReal (x : number)
| ArgComplex (real imag : number).

(** [Complex.__reduce_frac] *)
Definition reduce_frac (x : number) : number :=
  match x with
  | Fraction q => if (denominator q =? 1)%Z then Int (numerator q) else x
  | _ => x
  end.

(** [Complex.__new__] down to the two calls of [__reduce_frac]: the
    components the arguments stand for. *)
Definition Complex_components (v1 v2 : complex_arg) : number * number :=
  let '(real, imag) :=
    match v1, v2 with
    | ArgComplex re1 im1, ArgComplex re2 im2 => (num_sub re1 im2, num_add im1 re2)
    | ArgComplex re1 im1, ArgReal x2 => (re1, num_add im1 x2)
    | ArgReal x1, ArgComplex re2 im2 => (num_sub x1 im2, re2)
    | ArgReal x1, ArgReal x2 => (x1, x2)
    end in
  (reduce_frac real, reduce_frac imag).

(** [Complex(real, imag)] by value: the real component alone when the
    imaginary one is zero, else the Complex made of the two.  Which object
    holds the Complex is the intern table's business ([Complex_new]). *)
Definition Complex_value (v1 v2 : complex_arg) : complex_value :=
  let '(real, imag) := Complex_components v1 v2 in
  if num_is_zero imag then CReal real else CComplex real imag.

(** [Complex.__reduce_comp] *)
Definition reduce_comp (real imag : number) : complex_value :=
  let real := reduce_frac real in
  let imag := reduce_frac imag in
  if num_is_zero imag then CReal real
  else Complex_value (ArgReal real) (ArgReal imag).

(** [Complex.__truediv__(self, v)] for [self] with attributes [real] and
    [imag], by value: the components the method computes and hands to
    [Complex(...)] ([store_truediv] below looks them up in the intern
    table). *)
Definition Complex_truediv (self_real self_imag : number) (v : complex_arg)
    : result complex_value :=
  match v with
  | ArgComplex v_real v_imag =>
    let d := num_add (num_mul v_real v_real) (num_mul v_imag v_imag) in
    match num_truediv (num_add (num_mul self_real v_real) (num_mul self_imag v_imag)) d with
    | Raise e => Raise e
    | Ok real =>
      match num_truediv (num_sub (num_mul self_imag v_real) (num_mul self_real v_imag)) d with
      | Raise e => Raise e
      | Ok imag => Ok (reduce_comp real imag)
      end
    end
  | ArgReal x =>
    match num_truediv self_real x with
    | Raise e => Raise e
    | Ok real =>
      match num_truediv self_imag x with
      | Raise e => Raise e
      | Ok imag => Ok (reduce_comp real imag)
      end
    end
  end.

(** The components of a value are exact: ints or Fractions, no float. *)
Definition exact_components (c : complex_value) : bool :=
  match c with
  | CReal x => is_exact x
  | CComplex re im => is_exact re && is_exact im
  end.

(** The components of a value are floats. *)
Definition float_components (c : complex_value) : bool :=
  match c with
  | CReal x => negb (is_exact x)
  | CComplex re im => negb (is_exact re) && negb (is_exact im)
  end.

(** A number as the constructor leaves it: no Fraction of denominator 1. *)
Definition reduced (x : number) : Prop :=
  match x with
  | Fraction q => denominator q ≠ 1%Z
  | _ => True
  end.

End Numbers.

(** ** Complex arithmetic ([ratcomplex.py]) *)

Section ComplexArithmetic.
Context `{Host}.
(** [-x] for a float [x]. *)
Context (float_neg : float → float).

(** [-x]: the negative of a Fraction is a Fraction. *)
Definition num_neg (x : number) : number :=
  match x with
  | Int a => Int (- a)
  | Fraction q => Fraction (Qred (- q))
  | Float f => Float (float_neg f)
  end.



(** [Complex.__add__]; [__radd__] has the same body. *)
Definition Complex_add (self_real self_imag : number) (v : complex_arg)
    : complex_value :=
  match v with
  | ArgComplex v_real v_imag =>
    reduce_comp (num_add self_real v_real) (num_add self_imag v_imag)
  | ArgReal x => reduce_comp (num_add self_real x) self_imag
  end.

(** [Complex.__sub__] *)
Definition Complex_sub (self_real self_imag : number) (v : complex_arg)
    : complex_value :=
  match v with
  | ArgComplex v_real v_imag =>
    reduce_comp (num_sub self_real v_real) (num_sub self_imag v_imag)
  | ArgReal x => reduce_comp (num_sub self_real x) self_imag
  end.


(** [Complex.__mul__]; [__rmul__] has the same body. *)
Definition Complex_mul (self_real self_imag : number) (v : complex_arg)
    : complex_value :=
  match v with
  | ArgComplex v_real v_imag =>
    reduce_comp (num_sub (num_mul self_real v_real) (num_mul self_imag v_imag))
                (num_add (num_mul self_real v_imag) (num_mul self_imag v_real))
  | ArgReal x => reduce_comp (num_mul self_real x) (num_mul self_imag x)
  end.


(** [Complex.conjugate]: [Complex(self.real, -self.imag)]. *)
Definition conjugate (self_real self_imag : number) : complex_value :=
  Complex_value (ArgReal self_real) (ArgReal (num_neg self_imag)).

End ComplexArithmetic.

Section NumbersSpec.
Context `{Host}.


(** An exact number as Python holds it: an int, or a Fraction in lowest
    terms. *)
Definition exact_number (x : number) : Prop :=
  match x with
  | Int _ => True
  | Fraction q => Qred q = q
  | Float _ => False
  end.

(** The rational an exact number stands for. *)
Definition num_Q (x : number) : Q :=
  match x with
  | Int a => inject_Z a
  | Fraction q => q
  | Float _ => 0
  end.

End NumbersSpec.

(** ** The dialect options *)

(** The module-level flags of [sxprlib.py]. *)
Record Dialect := {
  sxprlib_enableLineComment : bool;
  sxprlib_enableBlockComment : bool;
  sxprlib_enableEscape : bool;
  sxprlib_enableQuote : bool;
  sxprlib_enableFuncRef : bool;
  sxprlib_enableBin : bool;
  sxprlib_enableOct : bool;
  sxprlib_enableHex : bool;
  sxprlib_enableRadix : bool;
  sxprlib_enableComplex : bool;
  sxprlib_enableArray : bool;
  sxprlib_enableFrac : bool;
  sxprlib_enableChar : bool;
  sxprlib_ignoreCase : bool;
}.

(** The values the module sets when it is loaded. *)
Definition default_dialect : Dialect := {|
  sxprlib_enableLineComment := true;
  sxprlib_enableBlockComment := false;
  sxprlib_enableEscape := false;
  sxprlib_enableQuote := false;
  sxprlib_enableFuncRef := false;
  sxprlib_enableBin := false;
  sxprlib_enableOct := false;
  sxprlib_enableHex := false;
  sxprlib_enableRadix := false;
  sxprlib_enableComplex := false;
  sxprlib_enableArray := false;
  sxprlib_enableFrac := false;
  sxprlib_enableChar := false;
  sxprlib_ignoreCase := false;
|}.

(** ** Symbol, Char and String by value *)

(** [Char.__NameToCharDic] and [Char.__CharToNameDic] *)
Definition NameToCharDic : list (list N * list N) :=
  [ (py "Backspace", [8%N]); (py "Escape", [27%N]); (py "Linefeed", [10%N]);
    (py "Newline", [10%N]); (py "Page", [12%N]); (py "Return", [13%N]);
    (py "Rubout", [31%N]); (py "Space", [32%N]); (py "Tab", [9%N]) ].

Definition CharToNameDic : list (list N * list N) :=
  [ ([8%N], py "Backspace"); ([9%N], py "Tab"); ([10%N], py "Linefeed");
    ([12%N], py "Page"); ([13%N], py "Return"); ([27%N], py "Escape");
    ([31%N], py "Rubout"); ([32%N], py "Space") ].

(** [d.get(k)] on a dictionary with string keys. *)
Fixpoint dict_get {A} (k : list N) (d : list (list N * A)) : option A :=
  match d with
  | [] => None
  | (k', a) :: d' => if str_eqb k k' then Some a else dict_get k d'
  end.

Section Atoms.
Context `{Host}.

(** [s.lower()], [s.upper()], [s.capitalize()]: the ASCII mapping on an
    ASCII string, the host's tables otherwise. *)
Definition str_lower (s : list N) : list N :=
  if is_ascii s then map ascii_lower s else unicode_lower s.

Definition str_upper (s : list N) : list N :=
  if is_ascii s then map ascii_upper s else unicode_upper s.

Definition str_capitalize (s : list N) : list N :=
  if is_ascii s then
    match s with
    | c :: r => ascii_upper c :: map ascii_lower r
    | [] => []
    end
  else unicode_capitalize s.

(** [Symbol.__new__] on a string, down to the look-up in the intern
    table: the canonical string of the symbol. *)
Definition Symbol_value (cfg : Dialect) (v : list N) : result (list N) :=
  let v := if sxprlib_ignoreCase cfg then str_lower v else v in
  if nonempty v then Ok v else Raise ValueError.

(** [v.startswith("#\\")] then [v.replace("#\\", "")] *)
Definition strip_char_prefix (v : list N) : list N :=
  if startswith (py "#\") v then replace (py "#\") [] v else v.

(** [Char.IsChar] on a string *)
Definition IsChar (s : list N) : bool :=
  if _is_charhex s then
    match int_of_str 16 (drop 3 s) with
    | Some x => (0 <=? x)%Z && (x <=? 1114111)%Z
    | None => false
    end
  else
    let s := strip_char_prefix s in
    if (length s =? 1)%nat then true
    else bool_decide (is_Some (dict_get (str_capitalize s) NameToCharDic)).

(** [Char.__new__] on a string, down to the look-up in the intern table:
    the canonical string of the character. *)
Definition Char_value (v : list N) : result (list N) :=
  if negb (IsChar v) then Raise ValueError
  else
    let v :=
      if _is_charhex v then
        match int_of_str 16 (drop 3 v) with
        | Some n => [Z.to_N n]
        | None => v
        end
      else strip_char_prefix v in
    Ok (default v (dict_get (str_capitalize v) NameToCharDic)).

End Atoms.

(** ** Objects, attributes and the intern tables *)

(** The classes with write-once attributes. *)
Inductive class_tag := cls_Symbol | cls_Char | cls_String | cls_Complex.

#[global] Instance class_tag_eq_dec : EqDecision class_tag.
Proof. solve_decision. Defined.

Section Objects.
Context `{Host}.

(** What an attribute holds. *)
Inductive attr_value :=
| AStr (s : list N)
| ANum (x : number).

(** An instance: its class and its [__dict__]. *)
Record object := Object {
  obj_class : class_tag;
  obj_dict : gmap (list N) attr_value;
}.

(** The names [__setattr__] and [__delattr__] guard: ["value"] for
    Symbol, Char and String, ["real"] and ["imag"] for Complex. *)
Definition write_once (c : class_tag) : list (list N) :=
  match c with
  | cls_Complex => [py "real"; py "imag"]
  | _ => [py "value"]
  end.

(** [__setattr__(self, name, value)]: the same body in the four classes.
    It returns the outcome and the object as the call leaves it. *)
Definition setattr (self : object) (name : list N) (value : attr_value)
    : result unit * object :=
  if bool_decide (name ∈ write_once (obj_class self)) &&
     bool_decide (is_Some (obj_dict self !! name))
  then (Raise (PermissionError name), self)
  else (Ok tt, Object (obj_class self) (<[name := value]> (obj_dict self))).

(** [__delattr__(self, name)]; [super().__delattr__] removes an instance
    attribute and raises [AttributeError] when there is none. *)
Definition delattr (self : object) (name : list N) : result unit * object :=
  if bool_decide (name ∈ write_once (obj_class self))
  then (Raise (PermissionError name), self)
  else
    match obj_dict self !! name with
    | Some _ => (Ok tt, Object (obj_class self) (delete name (obj_dict self)))
    | None => (Raise (AttributeError name), self)
    end.

(** The key of [Complex.__ComplexInstance]: [(rnu, rde, inu, ide)].  A
    component that is an int or a float stands in the key as it is; equal
    keys are one key, and a float equal to an int is that int. *)
Definition key_part (x : number) : (Z + float) * Z :=
  match x with
  | Int z => (inl z, 1%Z)
  | Fraction q => (inl (numerator q), denominator q)
  | Float f =>
    match float_as_int f with
    | Some z => (inl z, 1%Z)
    | None => (inr f, 1%Z)
    end
  end.

Definition complex_key (real imag : number)
    : (Z + float) * Z * ((Z + float) * Z) :=
  (key_part real, key_part imag).

(** The live objects and the three intern tables.  The tables are
    [WeakValueDictionary]s: an entry lasts as long as its object.  The
    model reclaims nothing, so every object made stays live. *)
Record store := Store {
  objects : gmap loc object;
  SymbolInstance : gmap (list N) loc;
  CharInstance : gmap (list N) loc;
  ComplexInstance : gmap ((Z + float) * Z * ((Z + float) * Z)) loc;
}.

Definition empty_store : store := Store ∅ ∅ ∅ ∅.

(** [super().__new__(self)]: the id of a new object. *)
Definition new_id (σ : store) : loc := fresh (dom (objects σ)).

(** The argument of [Symbol(...)], [Char(...)] and [String(...)]: a
    [str], an object of the store, or anything else, given by its
    [str()]. *)
Inductive text_arg :=
| ArgStr (s : list N)
| ArgObject (l : loc)
| ArgOther (s : list N).

(** The first lines of [Symbol.__new__] and [Char.__new__]: the object
    itself when its type is the class [c], else the string [v] to go on
    with ([None]: an object of a class not modelled here; pass its
    [str()] as [ArgOther]). *)
Definition arg_text (σ : store) (c : class_tag) (value : text_arg)
    : option (loc + list N) :=
  match value with
  | ArgStr s => Some (inr s)
  | ArgOther s => Some (inr s)
  | ArgObject l =>
    match objects σ !! l with
    | Some o =>
      if decide (obj_class o = c) then Some (inl l)
      else
        match obj_class o, obj_dict o !! py "value" with
        | cls_String, Some (AStr v) => Some (inr v)
        | _, _ => None
        end
    | None => None
    end
  end.

(** [obj = super().__new__(self); obj.value = v]: the assignment goes
    through [__setattr__]. *)
Definition new_object (c : class_tag) (attrs : list (list N * attr_value)) : object :=
  fold_left (λ o '(name, value), snd (setattr o name value)) attrs (Object c ∅).

(** [Symbol.__new__] *)
Definition Symbol_new (cfg : Dialect) (value : text_arg) (σ : store)
    : option (result loc * store) :=
  match arg_text σ cls_Symbol value with
  | None => None
  | Some (inl l) => Some (Ok l, σ)
  | Some (inr v) =>
    match Symbol_value cfg v with
    | Raise e => Some (Raise e, σ)
    | Ok v =>
      match SymbolInstance σ !! v with
      | Some obj => Some (Ok obj, σ)
      | None =>
        let obj := new_id σ in
        Some (Ok obj,
              Store (<[obj := new_object cls_Symbol [(py "value", AStr v)]]> (objects σ))
                    (<[v := obj]> (SymbolInstance σ))
                    (CharInstance σ) (ComplexInstance σ))
      end
    end
  end.

(** [Char.__new__] *)
Definition Char_new (value : text_arg) (σ : store)
    : option (result loc * store) :=
  match arg_text σ cls_Char value with
  | None => None
  | Some (inl l) => Some (Ok l, σ)
  | Some (inr v) =>
    match Char_value v with
    | Raise e => Some (Raise e, σ)
    | Ok v =>
      match CharInstance σ !! v with
      | Some obj => Some (Ok obj, σ)
      | None =>
        let obj := new_id σ in
        Some (Ok obj,
              Store (<[obj := new_object cls_Char [(py "value", AStr v)]]> (objects σ))
                    (SymbolInstance σ)
                    (<[v := obj]> (CharInstance σ))
                    (ComplexInstance σ))
      end
    end
  end.

(** [String(value)]: [object.__new__] and [String.__init__]; a String is
    not interned. *)
Definition String_new (value : text_arg) (σ : store) : option (loc * store) :=
  let text :=
    match value with
    | ArgStr s => Some s
    | ArgOther s => Some s
    | ArgObject l =>
      match objects σ !! l with
      | Some o =>
        match obj_class o, obj_dict o !! py "value" with
        | (cls_Symbol | cls_String), Some (AStr v) => Some v
        | _, _ => None
        end
      | None => None
      end
    end in
  match text with
  | Some v =>
    let obj := new_id σ in
    Some (obj,
          Store (<[obj := new_object cls_String [(py "value", AStr v)]]> (objects σ))
                (SymbolInstance σ) (CharInstance σ) (ComplexInstance σ))
  | None => None
  end.

(** [Complex.__new__]: a real number, or the interned object. *)
Definition Complex_new (v1 v2 : complex_arg) (σ : store)
    : (number + loc) * store :=
  match Complex_value v1 v2 with
  | CReal real => (inl real, σ)
  | CComplex real imag =>
    let v := complex_key real imag in
    match ComplexInstance σ !! v with
    | Some obj => (inr obj, σ)
    | None =>
      let obj := new_id σ in
      (inr obj,
       Store (<[obj := new_object cls_Complex
                         [(py "real", ANum real); (py "imag", ANum imag)]]> (objects σ))
             (SymbolInstance σ) (CharInstance σ)
             (<[v := obj]> (ComplexInstance σ)))
    end
  end.

(** [obj.name = value] and [del obj.name] on an object of the store. *)
Definition store_setattr (l : loc) (name : list N) (value : attr_value) (σ : store)
    : option (result unit * store) :=
  match objects σ !! l with
  | Some o =>
    let '(r, o') := setattr o name value in
    Some (r, Store (<[l := o']> (objects σ))
                   (SymbolInstance σ) (CharInstance σ) (ComplexInstance σ))
  | None => None
  end.

Definition store_delattr (l : loc) (name : list N) (σ : store)
    : option (result unit * store) :=
  match objects σ !! l with
  | Some o =>
    let '(r, o') := delattr o name in
    Some (r, Store (<[l := o']> (objects σ))
                   (SymbolInstance σ) (CharInstance σ) (ComplexInstance σ))
  | None => None
  end.

(** One call of the program on the store. *)
Inductive store_step (cfg : Dialect) : store → store → Prop :=
| step_Symbol value σ r σ' :
    Symbol_new cfg value σ = Some (r, σ') → store_step cfg σ σ'
| step_Char value σ r σ' :
    Char_new value σ = Some (r, σ') → store_step cfg σ σ'
| step_String value σ l σ' :
    String_new value σ = Some (l, σ') → store_step cfg σ σ'
| step_Complex v1 v2 σ r σ' :
    Complex_new v1 v2 σ = (r, σ') → store_step cfg σ σ'
| step_setattr l name value σ r σ' :
    store_setattr l name value σ = Some (r, σ') → store_step cfg σ σ'
| step_delattr l name σ r σ' :
    store_delattr l name σ = Some (r, σ') → store_step cfg σ σ'.

(** The stores a run of the program passes through. *)
Inductive reachable (cfg : Dialect) : store → Prop :=
| reachable_empty : reachable cfg empty_store
| reachable_step σ σ' :
    reachable cfg σ → store_step cfg σ σ' → reachable cfg σ'.

(** The attribute [name] of the object [l]. *)
Definition getattr (σ : store) (l : loc) (name : list N) : option attr_value :=
  o ← objects σ !! l; obj_dict o !! name.

(** [self / v] for the Complex object [self]: [__truediv__] computes the
    two components from the attributes of [self] and hands them to
    [Complex(...)], which looks them up in the intern table.  The result
    is a real number or an object of the store. *)
Definition store_truediv (self : loc) (v : complex_arg) (σ : store)
    : option (result (number + loc) * store) :=
  match getattr σ self (py "real"), getattr σ self (py "imag") with
  | Some (ANum real), Some (ANum imag) =>
    match Complex_truediv real imag v with
    | Raise e => Some (Raise e, σ)
    | Ok (CReal x) => Some (Ok (inl x), σ)
    | Ok (CComplex real' imag') =>
      let '(r, σ') := Complex_new (ArgReal real') (ArgReal imag') σ in
      Some (Ok r, σ')
    end
  | _, _ => None
  end.

(** [type(l) is c] *)
Definition has_class (σ : store) (l : loc) (c : class_tag) : Prop :=
  obj_class <$> objects σ !! l = Some c.

(** An object as its constructor leaves it: the attributes its class
    guards are set. *)
Definition constructed (o : object) : Prop :=
  ∀ name, name ∈ write_once (obj_class o) → is_Some (obj_dict o !! name).

(** The canonical key an interned object was made from, read off its
    attributes. *)
Definition object_key_text (o : object) : option (list N) :=
  match obj_dict o !! py "value" with
  | Some (AStr v) => Some v
  | _ => None
  end.

Definition object_key_complex (o : object)
    : option ((Z + float) * Z * ((Z + float) * Z)) :=
  match obj_dict o !! py "real", obj_dict o !! py "imag" with
  | Some (ANum real), Some (ANum imag) => Some (complex_key real imag)
  | _, _ => None
  end.


(** An intern table and the objects of its class answer each other:
    every entry leads to a live object of the class made from that key,
    and every live object of the class is the entry of its key. *)
Definition table_ok {K} `{Countable K} (c : class_tag) (key_of : object → option K)
    (table : gmap K loc) (objs : gmap loc object) : Prop :=
  (∀ k l, table !! k = Some l →
     ∃ o, objs !! l = Some o ∧ obj_class o = c ∧ key_of o = Some k) ∧
  (∀ l o, objs !! l = Some o → obj_class o = c →
     ∃ k, key_of o = Some k ∧ table !! k = Some l).

Definition store_ok (σ : store) : Prop :=
  (∀ l o, objects σ !! l = Some o → constructed o) ∧
  table_ok cls_Symbol object_key_text (SymbolInstance σ) (objects σ) ∧
  table_ok cls_Char object_key_text (CharInstance σ) (objects σ) ∧
  table_ok cls_Complex object_key_complex (ComplexInstance σ) (objects σ).

(** Two objects agree on their class and on what the class guards. *)
Definition same_guarded (o o' : object) : Prop :=
  obj_class o' = obj_class o ∧
  ∀ name, name ∈ write_once (obj_class o) → obj_dict o' !! name = obj_dict o !! name.

End Objects.

(** ** Values *)

Section Values.
Context `{Host}.

(** An S-expression without sharing or cycles, as the reader builds it
    and the printer takes it apart.  [None_] is Python's [None], which the
    reader returns at the end of the input and which a [Cons] can hold. *)
Inductive value :=
| None_
| NIL
| Cons (car cdr : value)
| Number (x : number)
| Complex (real imag : number)
| Symbol (v : list N)
| String (v : list N)
| Char (v : list N)
| Array (dim : Z) (val : value).

(** [Symbol(s)] and [Char(s)] on a string, by value. *)
Definition mkSymbol (cfg : Dialect) (s : list N) : result value :=
  match Symbol_value cfg s with
  | Ok v => Ok (Symbol v)
  | Raise e => Raise e
  end.

Definition mkChar (s : list N) : result value :=
  match Char_value s with
  | Ok v => Ok (Char v)
  | Raise e => Raise e
  end.

(** [Complex(re, im)] on two real numbers, by value. *)
Definition mkComplex (re im : number) : value :=
  match Complex_value (ArgReal re) (ArgReal im) with
  | CReal x => Number x
  | CComplex real imag => Complex real imag
  end.

(** *** Printing ([str]) *)

(** [str(x)] for an int, a Fraction or a float. *)
Definition number_str (x : number) : list N :=
  match x with
  | Int z => int_str z
  | Fraction q =>
    if (denominator q =? 1)%Z then int_str (numerator q)
    else int_str (numerator q) ++ py "/" ++ int_str (denominator q)
  | Float f => float_str f
  end.

(** [Complex.__str__] with [str_format_spec = "#C({0} {1})"]. *)
Definition Complex_str (real imag : number) : list N :=
  py "#C(" ++ number_str real ++ py " " ++ number_str imag ++ py ")".

(** The table of [str.translate] in [Symbol.__str__]. *)
Definition symbol_escape (c : N) : list N :=
  if (c =? ord "(")%N then py "\("
  else if (c =? ord ")")%N then py "\)"
  else if (c =? ord " ")%N then py "_"
  else if (c =? ord "|")%N then py "\|"
  else if (c =? DQUOTE)%N then [ord "\"; DQUOTE]
  else if (c =? 7)%N then py "\a"
  else if (c =? 8)%N then py "\b"
  else if (c =? 12)%N then py "\f"
  else if (c =? 10)%N then py "\n"
  else if (c =? 13)%N then py "\r"
  else if (c =? 9)%N then py "\t"
  else if (c =? 11)%N then py "\v"
  else [c].

(** The test of [Symbol.__str__]: the text reads as a number. *)
Definition number_like (cfg : Dialect) (s : list N) : bool :=
  _is_integer s
  || (sxprlib_enableBin cfg && _is_bin s)
  || (sxprlib_enableOct cfg && _is_oct s)
  || (sxprlib_enableHex cfg && _is_hex s)
  || (sxprlib_enableRadix cfg && _is_radix s)
  || (sxprlib_enableFrac cfg && _is_fraction s)
  || _is_number s.

(** [Symbol.__str__] *)
Definition Symbol_str (cfg : Dialect) (v : list N) : list N :=
  if str_eqb v (py ".") then py "\."
  else
    let s := flat_map symbol_escape v in
    if number_like cfg s then py "|" ++ s ++ py "|" else s.

(** [String.__str__] *)
Definition String_str (cfg : Dialect) (v : list N) : list N :=
  let s := _dumps v in
  if negb (sxprlib_enableEscape cfg) then replace (py "\\") (py "\") s else s.

(** [Char.__str__]; a Char holds one character. *)
Definition Char_str (v : list N) : list N :=
  match v with
  | [c] =>
    if (c <=? 32)%N || ((127 <=? c)%N && (c <=? 255)%N) then
      py "#\" ++ default (py "x" ++ hex_str 2 c) (dict_get v CharToNameDic)
    else
      let v := py "#\" ++ flat_map json_escape v in
      let v := replace (py "\\") (py "\") v in
      if (12 <=? length v)%nat then py "#\U" ++ hex_str 8 c else v
  | _ => v
  end.

(** [str(ex)] for [ex] that holds no other value: [Nil.__str__] and the
    atoms. *)
Definition atom_str (cfg : Dialect) (ex : value) : list N :=
  match ex with
  | None_ => py "None"
  | NIL => py "()"
  | Number x => number_str x
  | Complex real imag => Complex_str real imag
  | Symbol v => Symbol_str cfg v
  | String v => String_str cfg v
  | Char v => Char_str v
  | _ => []
  end.

(** [Array.__str__], given [str(self.value)]. *)
Definition Array_str (dim : Z) (body : list N) : list N :=
  if (dim =? 1)%Z then py "#" ++ body
  else py "#" ++ int_str dim ++ py "A" ++ body.

(** [Cons.__Sxpr2Str] and the loop of [Cons.__Cons2SeqStr] from its
    second turn on ([Cons2SeqStr c] is what follows the first element of a
    chain whose rest is [c]).  A value has no cycle, so the [occurence]
    sets never hold the cell at hand and the ["..."] branch is not
    taken. *)
Fixpoint Sxpr2Str (cfg : Dialect) (ex : value) {struct ex} : list N :=
  match ex with
  | Cons a d =>
    let seq := py "(" ++ Sxpr2Str cfg a ++ Cons2SeqStr cfg d ++ py ")" in
    match a, d with
    | Symbol q, Cons x NIL =>
      if sxprlib_enableQuote cfg && str_eqb q (py "quote") then
        py "'" ++ Sxpr2Str cfg x
      else if sxprlib_enableFuncRef cfg && str_eqb q (py "function") then
        match x with
        | Symbol _ => py "#'" ++ Sxpr2Str cfg x
        | _ => seq
        end
      else seq
    | _, _ => seq
    end
  | Array dim val => Array_str dim (Sxpr2Str cfg val)
  | _ => atom_str cfg ex
  end
with Cons2SeqStr (cfg : Dialect) (c : value) {struct c} : list N :=
  match c with
  | NIL => []
  | Cons a d => py " " ++ Sxpr2Str cfg a ++ Cons2SeqStr cfg d
  | Array dim val => py " " ++ py ". " ++ Array_str dim (Sxpr2Str cfg val)
  | _ => py " " ++ py ". " ++ atom_str cfg c
  end.

(** [str(v)] *)
Definition str (cfg : Dialect) (v : value) : list N := Sxpr2Str cfg v.

End Values.

(** ** The streamer *)

Section Reader.
Context `{Host}.

(** What [_next_token] returns and [lookahead_token] holds: the markers
    [__LPar] ... [__Complex] and [_Undef], [None] at the end of the input,
    or a value (a number, a Symbol, a String, a Char, or an [Array] whose
    [value] is still Nil). *)
Inductive token :=
| Undef
| TNone
| LPar
| RPar
| Dot
| Quote
| FuncRef
| ComplexPrefix
| TValue (v : value).

(** [SxprStreamerBaseClass] over a string.  [unread] is the text from
    [lookahead_char] on: [lookahead_char] is its first character, or [""]
    ([None]) when nothing is left. *)
Record streamer := Streamer {
  unread : list N;
  lookahead_token : token;
  lookahead_line : Z;
  lookahead_col : Z;
  line : Z;
  col : Z;
}.

(** [_StringStreamer(text)] *)
Definition StringStreamer (text : list N) : streamer :=
  Streamer text Undef 1 0 1 0.

Definition lookahead_char (st : streamer) : option N := head (unread st).

(** [streamer.read()] *)
Definition read (st : streamer) : option N * streamer :=
  match unread st with
  | [] => (None, st)
  | v :: rest =>
    if inb v [13%N; 10%N] then
      (Some v, Streamer rest (lookahead_token st)
                 (lookahead_line st + 1) 0 (line st) (col st))
    else
      (Some v, Streamer rest (lookahead_token st)
                 (lookahead_line st)
                 (lookahead_col st + east_asian_columns v) (line st) (col st))
  end.

(** A reader's step: it returns or raises, and leaves the streamer
    changed; [None] is fuel run out. *)
Definition M (A : Type) : Type := streamer → option (result A * streamer).

Definition ret {A} (a : A) : M A := λ st, Some (Ok a, st).
Definition raise {A} (e : exn) : M A := λ st, Some (Raise e, st).
Definition bind {A B} (m : M A) (k : A → M B) : M B :=
  λ st,
    match m st with
    | Some (Ok a, st') => k a st'
    | Some (Raise e, st') => Some (Raise e, st')
    | None => None
    end.
(** A call that cannot raise. *)
Definition lift {A} (f : streamer → A * streamer) : M A :=
  λ st, let '(a, st') := f st in Some (Ok a, st').
(** A look at the streamer. *)
Definition gets {A} (f : streamer → A) : M A := λ st, Some (Ok (f st), st).
(** A result of a constructor that may raise. *)
Definition of_result {A} (r : result A) : M A := λ st, Some (r, st).

Notation "'let*' x := m 'in' k" := (bind m (λ x, k))
  (at level 10, x name, m at level 100, k at level 200).

(** ** The tokenizer *)

Definition WHITESPACES : list N := [32%N; 9%N; 13%N; 10%N].
Definition DELIMITERS : list N := [40%N; 41%N; DQUOTE] ++ WHITESPACES.

(** [lookahead_char in l]; [""] is in none of the sets. *)
Definition lookahead_in (l : list N) (st : streamer) : bool :=
  match lookahead_char st with
  | Some c => inb c l
  | None => false
  end.

(** [lookahead_char == c] *)
Definition lookahead_is (c : N) (st : streamer) : bool :=
  match lookahead_char st with
  | Some d => (d =? c)%N
  | None => false
  end.

(** [d = read(); while d in WHITESPACES: d = read()] *)
Fixpoint skip_whitespaces (fuel : nat) (st : streamer) : option N * streamer :=
  let '(d, st') := read st in
  match fuel, d with
  | S fuel', Some c => if inb c WHITESPACES then skip_whitespaces fuel' st' else (d, st')
  | _, _ => (d, st')
  end.

(** [while not d in {CR, LF, ""}: d = read()], after [d] was [";"] *)
Fixpoint skip_line (fuel : nat) (st : streamer) : streamer :=
  let '(d, st') := read st in
  match fuel, d with
  | S fuel', Some c => if inb c [13%N; 10%N] then st' else skip_line fuel' st'
  | _, _ => st'
  end.

(** [while d != "|" or lookahead_char != "#": d = read(); if d == "":
    raise EOFError(...)] *)
Fixpoint skip_block (fuel : nat) (d : option N) (st : streamer)
    : result unit * streamer :=
  if match d with Some c => (c =? ord "|")%N | None => false end
     && lookahead_is (ord "#") st
  then (Ok tt, st)
  else
    let '(d', st') := read st in
    match d' with
    | None => (Raise (EOFError_UnexpectedEOF (line st') (col st')), st')
    | Some _ =>
      match fuel with
      | S fuel' => skip_block fuel' d' st'
      | O => (Raise (EOFError_UnexpectedEOF (line st') (col st')), st')
      end
    end.

(** [while lookahead_char in WHITESPACES: d = read()] *)
Fixpoint skip_lookahead_whitespaces (fuel : nat) (st : streamer) : streamer :=
  match fuel with
  | S fuel' =>
    if lookahead_in WHITESPACES st then skip_lookahead_whitespaces fuel' (snd (read st))
    else st
  | O => st
  end.

(** [while lookahead_char != "" and not (lookahead_char in DELIMITERS):
    d = read(); s = s + d] *)
Fixpoint read_run (fuel : nat) (s : list N) (st : streamer) : list N * streamer :=
  match fuel, lookahead_char st with
  | S fuel', Some c =>
    if inb c DELIMITERS then (s, st)
    else read_run fuel' (s ++ [c]) (snd (read st))
  | _, _ => (s, st)
  end.

(** [for _ in (1, ..., k): if not P(lookahead_char): break;
    digit = digit + read()] *)
Fixpoint read_digits (k : nat) (P : N → bool) (digit : list N) (st : streamer)
    : list N * streamer :=
  match k, lookahead_char st with
  | S k', Some c =>
    if P c then read_digits k' P (digit ++ [c]) (snd (read st))
    else (digit, st)
  | _, _ => (digit, st)
  end.

(** ["{:c}".format(n)]: the character of code point [n]. *)
Definition format_c (n : Z) : result (list N) :=
  if (0 <=? n)%Z && (n <=? 1114111)%Z then Ok [Z.to_N n] else Raise ValueError.

(** The escape table of the string literal. *)
Definition escape_char (d : N) : N :=
  if (d =? ord "a")%N then 7%N
  else if (d =? ord "b")%N then 8%N
  else if (d =? ord "e")%N then 27%N
  else if (d =? ord "f")%N then 12%N
  else if (d =? ord "n")%N then 10%N
  else if (d =? ord "r")%N then 13%N
  else if (d =? ord "t")%N then 9%N
  else if (d =? ord "v")%N then 11%N
  else d.

(** What follows a backslash in a string literal when [enableEscape] is
    set: the text it stands for. *)
Definition read_escape (st : streamer) : result (list N) * streamer :=
  let '(d, st) := read st in
  match d with
  | None => (Ok [], st)
  | Some d =>
    let numeric (base : Z) (digit : list N) (st : streamer) :=
      match int_of_str base digit with
      | Some n => (format_c n, st)
      | None => (Raise ValueError, st)
      end in
    if is_oct_digit d then
      let '(digit, st) := read_digits 2 is_oct_digit [d] st in
      numeric 8%Z digit st
    else if inb d (py "xX") && match lookahead_char st with Some c => is_hex_digit c | None => false end then
      let '(digit, st) := read_digits 2 is_hex_digit [] st in
      numeric 16%Z digit st
    else if (d =? ord "u")%N && match lookahead_char st with Some c => is_hex_digit c | None => false end then
      let '(digit, st) := read_digits 4 is_hex_digit [] st in
      numeric 16%Z digit st
    else if (d =? ord "U")%N && match lookahead_char st with Some c => is_hex_digit c | None => false end then
      let '(digit, st) := read_digits 8 is_hex_digit [] st in
      numeric 16%Z digit st
    else (Ok [escape_char d], st)
  end.

(** The loop of the string literal: [while lookahead_char != "" and
    lookahead_char != DQUOTE: ...]. *)
Fixpoint read_string (fuel : nat) (cfg : Dialect) (s : list N) (st : streamer)
    : result (list N) * streamer :=
  match fuel, lookahead_char st with
  | S fuel', Some c =>
    if (c =? DQUOTE)%N then (Ok s, st)
    else
      let '(_, st) := read st in
      if sxprlib_enableEscape cfg && (c =? ord "\")%N then
        match read_escape st with
        | (Ok d, st) => read_string fuel' cfg (s ++ d) st
        | (Raise e, st) => (Raise e, st)
        end
      else read_string fuel' cfg (s ++ [c]) st
  | _, _ => (Ok s, st)
  end.

(** The branches [_is_bin], [_is_oct] and [_is_hex] of the tokenizer, for
    the prefix [p] (["#b"], ["#o"], ["#x"]) and the base. *)
Definition based_number (p : list N) (base : Z) (s : list N) : result value :=
  match split (ord "/") s with
  | v0 :: vs =>
    match int_of_str base (replace p [] (map ascii_lower v0)) with
    | None => Raise ValueError
    | Some ret =>
      match vs with
      | [v1] =>
        match int_of_str base v1 with
        | None => Raise ValueError
        | Some x =>
          match Fraction_of ret x with
          | Raise e => Raise e
          | Ok q => Ok (Number (reduce_frac (Fraction q)))
          end
        end
      | _ => Ok (Number (Int ret))
      end
    end
  | [] => Raise ValueError
  end.

(** The [_is_radix] branch; whatever goes wrong inside its [try] makes
    the token a Symbol. *)
Definition radix_number (cfg : Dialect) (s : list N) : result value :=
  let parsed :=
    match split (ord "#") (map ascii_lower s) with
    | [sign; body] =>
      let sgn := if str_eqb sign (py "-") then (-1)%Z else 1%Z in
      match split1 (ord "r") body with
      | [b; digits] =>
        match int_of_str 10 b, split (ord "/") digits with
        | Some base, v0 :: vs =>
          match int_of_str base v0 with
          | None => None
          | Some n =>
            let ret := (sgn * n)%Z in
            match vs with
            | [v1] =>
              match int_of_str base v1 with
              | None => None
              | Some x =>
                match Fraction_of ret x with
                | Raise _ => None
                | Ok q => Some (Number (reduce_frac (Fraction q)))
                end
              end
            | _ => Some (Number (Int ret))
            end
          end
        | _, _ => None
        end
      | _ => None
      end
    | _ => None
    end in
  match parsed with
  | Some v => Ok v
  | None => mkSymbol cfg s
  end.

(** [Fraction(s)] for [s] matched by [_is_fraction], then the reduction. *)
Definition fraction_number (s : list N) : result value :=
  match split (ord "/") s with
  | [a; b] =>
    match int_of_str 10 a, int_of_str 10 b with
    | Some n, Some d =>
      match Fraction_of n d with
      | Raise e => Raise e
      | Ok q => Ok (Number (reduce_frac (Fraction q)))
      end
    | _, _ => Raise ValueError
    end
  | _ => Raise ValueError
  end.

(** [float(s.lower().replace("d", "e").replace("f", "e").replace("s", "e"))] *)
Definition float_number (s : list N) : value :=
  Number (Float (float_of_str
    (replace (py "s") (py "e") (replace (py "f") (py "e")
      (replace (py "d") (py "e") (map ascii_lower s)))))).

(** [_sxpr_tokenizer]: the last [else] branch, once the run of
    characters [s] is read. *)
Definition classify (cfg : Dialect) (s : list N) : M token :=
  if _is_integer s then
    match int_of_str 10 s with
    | Some n => ret (TValue (Number (Int n)))
    | None => raise ValueError
    end
  else if _is_number s then ret (TValue (float_number s))
  else if _is_bin s && sxprlib_enableBin cfg then
    let* v := of_result (based_number (py "#b") 2 s) in ret (TValue v)
  else if _is_oct s && sxprlib_enableOct cfg then
    let* v := of_result (based_number (py "#o") 8 s) in ret (TValue v)
  else if _is_hex s && sxprlib_enableHex cfg then
    let* v := of_result (based_number (py "#x") 16 s) in ret (TValue v)
  else if _is_radix s && sxprlib_enableRadix cfg then
    let* v := of_result (radix_number cfg s) in ret (TValue v)
  else if _is_fraction s && sxprlib_enableFrac cfg then
    let* v := of_result (fraction_number s) in ret (TValue v)
  else if startswith (py "#") s then
    if sxprlib_enableChar cfg && startswith (py "#\") s then
      if IsChar s then let* v := of_result (mkChar s) in ret (TValue v)
      else let* v := of_result (mkSymbol cfg s) in ret (TValue v)
    else
      let* array1 := gets (λ st, sxprlib_enableArray cfg && str_eqb s (py "#")
                                 && lookahead_is (ord "(") st) in
      if array1 then ret (TValue (Array 1 NIL))
      else
        let* _ := lift (λ st, (tt, skip_lookahead_whitespaces (length (unread st)) st)) in
        let* lpar := gets (lookahead_is (ord "(")) in
        if sxprlib_enableComplex cfg && str_eqb (str_upper s) (py "#C") && lpar then
          ret ComplexPrefix
        else if sxprlib_enableArray cfg && _is_arrayprefix s && lpar then
          match int_of_str 10 (replace (py "A") [] (replace (py "#") [] (str_upper s))) with
          | Some n => ret (TValue (Array n NIL))
          | None => raise ValueError
          end
        else let* v := of_result (mkSymbol cfg s) in ret (TValue v)
  else let* v := of_result (mkSymbol cfg s) in ret (TValue v).

(** [_sxpr_tokenizer] from [if d == ""] on, for a first character [d]
    that is there: the branches that make a token. *)
Definition token_from (cfg : Dialect) (d : N) : M token :=
  λ st,
  if sxprlib_enableQuote cfg && (d =? ord "'")%N then
    if lookahead_in WHITESPACES st then
      (let* v := of_result (mkSymbol cfg [d]) in ret (TValue v)) st
    else Some (Ok Quote, st)
  else if sxprlib_enableFuncRef cfg && (d =? ord "#")%N && lookahead_is (ord "'") st then
    let '(_, st) := read st in
    if lookahead_in DELIMITERS st then
      (let* v := of_result (mkSymbol cfg (py "#'")) in ret (TValue v)) st
    else Some (Ok FuncRef, st)
  else if (d =? ord "(")%N then Some (Ok LPar, st)
  else if (d =? ord ")")%N then Some (Ok RPar, st)
  else if (d =? ord ".")%N && lookahead_in DELIMITERS st then Some (Ok Dot, st)
  else if (d =? DQUOTE)%N then
    match read_string (length (unread st)) cfg [] st with
    | (Raise e, st) => Some (Raise e, st)
    | (Ok s, st) =>
      match lookahead_char st with
      | None => Some (Raise (EOFError_UnexpectedEOF (line st) (col st)), st)
      | Some _ =>
        let '(_, st) := read st in
        Some (Ok (TValue (String s)), st)
      end
    end
  else
    let '(s, st) := read_run (length (unread st)) [d] st in
    classify cfg s st.

(** [_sxpr_tokenizer]: whitespace and comments, then the token. *)
Fixpoint _sxpr_tokenizer (fuel : nat) (cfg : Dialect) : M token :=
  λ st,
  match fuel with
  | O => None
  | S fuel' =>
    let '(d, st) := skip_whitespaces (length (unread st)) st in
    if sxprlib_enableLineComment cfg &&
       match d with Some c => (c =? ord ";")%N | None => false end
    then _sxpr_tokenizer fuel' cfg (skip_line (length (unread st)) st)
    else if sxprlib_enableBlockComment cfg &&
            match d with Some c => (c =? ord "#")%N | None => false end &&
            lookahead_is (ord "|") st
    then
      let '(_, st) := read st in
      let '(d, st) := read st in
      match skip_block (length (unread st)) d st with
      | (Raise e, st) => Some (Raise e, st)
      | (Ok _, st) =>
        let '(_, st) := read st in
        _sxpr_tokenizer fuel' cfg st
      end
    else
      match d with
      | None => Some (Ok TNone, st)
      | Some d => token_from cfg d st
      end
  end.

(** The tokenizer as [_next_token] calls it: a comment is at least one
    character long, so the recursion is no deeper than the text is long. *)
Definition tokenize (cfg : Dialect) : M token :=
  λ st, _sxpr_tokenizer (S (length (unread st))) cfg st.

Definition set_lookahead_token (t : token) (st : streamer) : streamer :=
  Streamer (unread st) t (lookahead_line st) (lookahead_col st) (line st) (col st).

(** [streamer.col = streamer.lookahead_col;
    streamer.line = streamer.lookahead_line] *)
Definition set_position (st : streamer) : streamer :=
  Streamer (unread st) (lookahead_token st) (lookahead_line st) (lookahead_col st)
           (lookahead_line st) (lookahead_col st).

(** [streamer.lookahead_token = _sxpr_tokenizer(streamer)] *)
Definition fill_lookahead (cfg : Dialect) : M unit :=
  let* t := tokenize cfg in lift (λ st, (tt, set_lookahead_token t st)).

(** [_next_token] *)
Definition _next_token (cfg : Dialect) : M token :=
  let* undef := gets (λ st, match lookahead_token st with Undef => true | _ => false end) in
  let* _ := (if undef then fill_lookahead cfg else ret tt) in
  let* r := gets lookahead_token in
  let* _ := lift (λ st, (tt, set_position st)) in
  match r with
  | TNone => ret r
  | _ => let* _ := fill_lookahead cfg in ret r
  end.

(** ** The parser *)

(** [realp(tkn)] for a token; the number when it holds. *)
Definition real_token (t : token) : option number :=
  match t with
  | TValue (Number x) => Some x
  | _ => None
  end.

Definition is_RPar (t : token) : bool :=
  match t with RPar => true | _ => false end.

(** [_sxpr_read_obj] and [_sxpr_read_list]; [consseq] is the [while] loop
    of [_sxpr_read_list], which gives the [cdr] of the cell [c] at hand.
    The cells are new and nothing else refers to them, so assigning
    [c.cdr] is consing the rest of the chain. *)
Fixpoint _sxpr_read_obj (fuel : nat) (cfg : Dialect) {struct fuel} : M value :=
  match fuel with
  | O => λ _, None
  | S fuel' =>
    let* tkn := _next_token cfg in
    match tkn with
    | TNone => ret None_
    | Quote =>
      let* q := of_result (mkSymbol cfg (py "quote")) in
      let* x := _sxpr_read_obj fuel' cfg in
      ret (Cons q (Cons x NIL))
    | FuncRef =>
      let* q := of_result (mkSymbol cfg (py "function")) in
      let* x := _sxpr_read_obj fuel' cfg in
      ret (Cons q (Cons x NIL))
    | TValue (Array dim _) =>
      let* la := gets lookahead_token in
      match la with
      | LPar =>
        let* _ := _next_token cfg in
        let* val := _sxpr_read_list fuel' cfg in
        ret (Array dim val)
      | _ =>
        let* _ := _next_token cfg in
        let* e := gets (λ st, SyntaxError_InvalidArray (line st) (col st)) in
        raise e
      end
    | TValue v => ret v
    | ComplexPrefix =>
      let invalid : M value :=
        let* e := gets (λ st, SyntaxError_InvalidComplex (line st) (col st)) in
        raise e in
      let* tkn := _next_token cfg in
      match tkn with
      | LPar =>
        let* tkn := _next_token cfg in
        match real_token tkn with
        | Some re =>
          let* tkn := _next_token cfg in
          match real_token tkn with
          | Some im =>
            let* tkn := _next_token cfg in
            match tkn with
            | RPar => ret (mkComplex re im)
            | _ => invalid
            end
          | None => invalid
          end
        | None => invalid
        end
      | _ => invalid
      end
    | LPar => _sxpr_read_list fuel' cfg
    | _ =>
      let* e := gets (λ st, SyntaxError_UnexpectedToken (line st) (col st)) in
      raise e
    end
  end
with _sxpr_read_list (fuel : nat) (cfg : Dialect) {struct fuel} : M value :=
  match fuel with
  | O => λ _, None
  | S fuel' =>
    let* la := gets lookahead_token in
    if is_RPar la then let* _ := _next_token cfg in ret NIL
    else
      let* a := _sxpr_read_obj fuel' cfg in
      let* d := consseq fuel' cfg in
      ret (Cons a d)
  end
with consseq (fuel : nat) (cfg : Dialect) {struct fuel} : M value :=
  match fuel with
  | O => λ _, None
  | S fuel' =>
    let* la := gets lookahead_token in
    match la with
    | RPar => let* _ := _next_token cfg in ret NIL
    | TNone =>
      let* _ := _next_token cfg in
      let* e := gets (λ st, SyntaxError_UnexpectedEOF (line st) (col st)) in
      raise e
    | Dot =>
      let* _ := _next_token cfg in
      let* d := _sxpr_read_obj fuel' cfg in
      let* la := gets lookahead_token in
      if is_RPar la then let* _ := _next_token cfg in ret d
      else
        let* _ := _next_token cfg in
        let* e := gets (λ st, SyntaxError_RParExpected (line st) (col st)) in
        raise e
    | _ =>
      let* a := _sxpr_read_obj fuel' cfg in
      let* d := consseq fuel' cfg in
      ret (Cons a d)
    end
  end.

(** *** What the tokenizer does with a first character *)

(** The tokenizer, at the first character [c] of a token with [more]
    after it, reaches its last branch: [c] opens no comment, is no quote
    or function reference, no parenthesis, no lone dot, no string
    literal. *)
Definition run_start (cfg : Dialect) (c : N) (more : list N) : bool :=
  negb (inb c WHITESPACES)
  && negb (sxprlib_enableLineComment cfg && (c =? ord ";")%N)
  && negb (sxprlib_enableBlockComment cfg && (c =? ord "#")%N
           && match more with d :: _ => (d =? ord "|")%N | [] => false end)
  && negb (sxprlib_enableQuote cfg && (c =? ord "'")%N)
  && negb (sxprlib_enableFuncRef cfg && (c =? ord "#")%N
           && match more with d :: _ => (d =? ord "'")%N | [] => false end)
  && negb (c =? ord "(")%N
  && negb (c =? ord ")")%N
  && negb ((c =? ord ".")%N
           && match more with d :: _ => inb d DELIMITERS | [] => false end)
  && negb (c =? DQUOTE)%N.

(** *** Values that read back *)

(** The characters [Symbol.__str__] rewrites; the delimiters are among
    them. *)
Definition symbol_special : list N :=
  [40%N; 41%N; 32%N; 124%N; DQUOTE; 7%N; 8%N; 12%N; 10%N; 13%N; 9%N; 11%N].

(** A symbol whose name is printed as it is and read as a symbol: no
    character that [Symbol.__str__] rewrites, not number-like under the
    dialect, not the lone dot, not opening a comment or a quote, not
    starting with [#], and in lower case when the dialect folds case. *)
Definition symbol_reads_back (cfg : Dialect) (v : list N) : bool :=
  match v with
  | [] => false
  | c :: w =>
    forallb (λ d, negb (inb d symbol_special)) v
    && negb (number_like cfg v)
    && negb (str_eqb v (py "."))
    && run_start cfg c w
    && negb (c =? ord "#")%N
    && (negb (sxprlib_ignoreCase cfg) || str_eqb (str_lower v) v)
  end.

(** A string whose printed form the reader takes back: any string when
    the dialect reads escapes; else one without quote or control
    character, which are printed as escapes whatever the dialect. *)
Definition string_reads_back (cfg : Dialect) (v : list N) : bool :=
  sxprlib_enableEscape cfg
  || forallb (λ c, negb (c =? DQUOTE)%N && negb (c <? 32)%N) v.

(** What [String.__str__] writes for the character [c] of such a string:
    the character as [json.dumps] escapes it when the dialect reads
    escapes, else the character. *)
Definition written_char (cfg : Dialect) (c : N) : list N :=
  if sxprlib_enableEscape cfg then json_escape c else [c].

(** The numbers [str] prints in a form the reader takes back: ints, and
    fractions of denominator 1, which are printed as ints, or any
    fraction when the dialect reads fractions. *)
Definition number_reads_back (cfg : Dialect) (x : number) : bool :=
  match x with
  | Int _ => true
  | Fraction q => lowest_terms q && ((denominator q =? 1)%Z || sxprlib_enableFrac cfg)
  | Float _ => false
  end.

(** The values [str] prints in a form the reader takes back, under the
    dialect [cfg]: Nil, the numbers above, Complex numbers of such
    components when the dialect reads them, the symbols and strings
    above, and the chains, proper or dotted, made of such values. *)
Fixpoint reads_back (cfg : Dialect) (v : value) : bool :=
  match v with
  | NIL => true
  | Number x => number_reads_back cfg x
  | Complex real imag =>
    sxprlib_enableComplex cfg && number_reads_back cfg real && number_reads_back cfg imag
  | Symbol s => symbol_reads_back cfg s
  | String s => string_reads_back cfg s
  | Cons a d => reads_back cfg a && reads_back cfg d
  | _ => false
  end.

(** A value as the reader makes it: a fraction of denominator 1 is the
    int ([Fraction(3, 1) == 3] in Python), and a Complex is what
    [Complex(real, imag)] returns, its real part when the imaginary part
    is zero. *)
Fixpoint canonical (v : value) : value :=
  match v with
  | Number x => Number (reduce_frac x)
  | Complex real imag => mkComplex real imag
  | Cons a d => Cons (canonical a) (canonical d)
  | _ => v
  end.

(** *** Positions *)

(** The streamer's [(lookahead_line, lookahead_col)] once it has read the
    character [c] at [p]. *)
Definition advance_position (p : Z * Z) (c : N) : Z * Z :=
  if inb c [13%N; 10%N] then (fst p + 1, 0)%Z
  else (fst p, snd p + east_asian_columns c)%Z.

(** The position after a text read from the start of the input: lines
    count from 1 and columns from 0. *)
Definition position_after (text : list N) : Z * Z :=
  fold_left advance_position text (1, 0)%Z.

(** The streamer that has read [done] and holds [rest]; [prev] is what it
    had read when [_next_token] last set [line] and [col]. *)
Definition state_at (done prev : list N) (t : token) (rest : list N) : streamer :=
  Streamer rest t
           (fst (position_after done)) (snd (position_after done))
           (fst (position_after prev)) (snd (position_after prev)).

(** The tokenizer, started on [text] after any text [done], returns the
    token [t], having read [w] and left [rest]. *)
Definition tokenizes (cfg : Dialect) (text : list N) (t : token) (w rest : list N)
    : Prop :=
  text = w ++ rest ∧
  ∀ done prev t0,
    tokenize cfg (state_at done prev t0 text) =
    Some (Ok t, state_at (done ++ w) prev t0 rest).

(** A text stops at a delimiter or at the end of the input. *)
Definition stops_run (rest : list N) : Prop :=
  match rest with
  | [] => True
  | c :: _ => c ∈ DELIMITERS
  end.

(** A character that starts a run whatever the dialect and whatever
    follows. *)
Definition plain_start (c : N) : Prop :=
  c ∉ [32%N; 9%N; 13%N; 10%N; 59%N; 35%N; 39%N; 40%N; 41%N; 46%N; 34%N].

(** A token a form begins with. *)
Definition starts_form (t : token) : Prop :=
  match t with
  | Undef | TNone | RPar | Dot => False
  | _ => True
  end.

(** The short forms of [Cons.__Sxpr2Str]: the prefix and the value that
    follows it, when [Cons(a, d)] is printed so. *)
Definition abbreviation (cfg : Dialect) (a d : value) : option (list N * value) :=
  match a, d with
  | Symbol q, Cons x NIL =>
    if sxprlib_enableQuote cfg && str_eqb q (py "quote") then Some (py "'", x)
    else if sxprlib_enableFuncRef cfg && str_eqb q (py "function") then
      match x with
      | Symbol _ => Some (py "#'", x)
      | _ => None
      end
    else None
  | _, _ => None
  end.

(** The nesting of a value, counting a chain's cells one below the
    other: reading the printed value, the reader recurs no deeper. *)
Fixpoint depth (v : value) : nat :=
  match v with
  | Cons a d => 2 + max (depth a) (depth d)
  | Array _ val => 2 + depth val
  | _ => 2
  end.

(** A value the tokenizer makes: no chain, array or Complex, and not
    Nil. *)
Definition atomic (v : value) : bool :=
  match v with
  | NIL | Cons _ _ | Array _ _ | Complex _ _ => false
  | _ => true
  end.


(** The reader takes the printed form of [v] back in one call of
    [_sxpr_read_obj]. *)
Definition reads_at_once (cfg : Dialect) (v : value) : Prop :=
  ∀ fuel ws rest done prev t1 w1 text1 t_r w_r rest_r,
    Forall (λ c, c ∈ WHITESPACES) ws → stops_run rest →
    tokenizes cfg (ws ++ str cfg v ++ rest) t1 w1 text1 →
    tokenizes cfg rest t_r w_r rest_r →
    _sxpr_read_obj (S fuel) cfg (state_at (done ++ w1) prev t1 text1) =
    Some (Ok (canonical v), state_at (done ++ ws ++ str cfg v ++ w_r)
                                     (done ++ ws ++ str cfg v) t_r rest_r).

(** The reader takes the printed form of [v] back: with the first token
    of the form in hand, [_sxpr_read_obj] returns [v] as the reader makes
    it, has read the form and the token after it, and has noted the
    position of the form's end. *)
Definition reads_form (cfg : Dialect) (v : value) : Prop :=
  ∀ fuel ws rest done prev t1 w1 text1 t_r w_r rest_r,
    depth v ≤ fuel →
    Forall (λ c, c ∈ WHITESPACES) ws → stops_run rest →
    tokenizes cfg (ws ++ str cfg v ++ rest) t1 w1 text1 →
    tokenizes cfg rest t_r w_r rest_r →
    _sxpr_read_obj fuel cfg (state_at (done ++ w1) prev t1 text1) =
    Some (Ok (canonical v), state_at (done ++ ws ++ str cfg v ++ w_r)
                                     (done ++ ws ++ str cfg v) t_r rest_r).

(** The same for the rest [d] of a chain, printed after the chain's first
    element and closed by a right parenthesis, and the loop of
    [_sxpr_read_list]. *)
Definition reads_rest (cfg : Dialect) (d : value) : Prop :=
  ∀ fuel rest done prev t1 w1 text1 t_r w_r rest_r,
    depth d ≤ fuel →
    tokenizes cfg (Cons2SeqStr cfg d ++ py ")" ++ rest) t1 w1 text1 →
    tokenizes cfg rest t_r w_r rest_r →
    consseq fuel cfg (state_at (done ++ w1) prev t1 text1) =
    Some (Ok (canonical d), state_at (done ++ Cons2SeqStr cfg d ++ py ")" ++ w_r)
                                     (done ++ Cons2SeqStr cfg d ++ py ")") t_r rest_r).

(** What is left of the text inside a list that is not closed: blanks up
    to the end of the input; or a form that reads back, ending at a
    delimiter, and more of the same; or a left parenthesis and more of
    the same. *)
Inductive open_items (cfg : Dialect) : list N → Prop :=
| open_end ws :
    Forall (λ c, c ∈ WHITESPACES) ws → open_items cfg ws
| open_form ws v text :
    Forall (λ c, c ∈ WHITESPACES) ws → reads_back cfg v = true →
    stops_run text → open_items cfg text →
    open_items cfg (ws ++ str cfg v ++ text)
| open_list ws text :
    Forall (λ c, c ∈ WHITESPACES) ws → open_items cfg text →
    open_items cfg (ws ++ py "(" ++ text).

(** [SyntaxError("Unexpected EOF: {}, {}".format(streamer.line,
    streamer.col))] when the streamer has read [text]. *)
Definition eof_at (text : list N) : exn :=
  SyntaxError_UnexpectedEOF (fst (position_after text)) (snd (position_after text)).

(** [sxparse(text)]: [SxprStringReader(text)()].  A form of the text
    makes the reader recur no deeper than four times the text's length. *)
Definition sxparse (cfg : Dialect) (text : list N) : option (result value) :=
  fst <$> _sxpr_read_obj (4 * length text + 4) cfg (StringStreamer text).


(** *** Reading all the forms of a text *)

(** [SxprReaderBaseClass.__next__]: the next form, or [None] for
    [StopIteration], which is raised when [_sxpr_read_obj] returns
    [None]. *)
Definition Reader_next (fuel : nat) (cfg : Dialect) : M (option value) :=
  bind (_sxpr_read_obj fuel cfg)
       (λ obj, match obj with None_ => ret None | _ => ret (Some obj) end).

(** [list(reader)], or [for s in reader]: [__next__] is called until it
    raises [StopIteration]; [n] bounds the number of calls. *)
Fixpoint Reader_list (n fuel : nat) (cfg : Dialect) : M (list value) :=
  match n with
  | O => λ _, None
  | S n' =>
    bind (Reader_next fuel cfg)
         (λ obj, match obj with
                 | None => ret []
                 | Some v => bind (Reader_list n' fuel cfg) (λ r, ret (v :: r))
                 end)
  end.

(** [list(SxprStringReader(text))].  Every form takes a character at
    least, so there are no more calls than the text is long, and one. *)
Definition read_all (cfg : Dialect) (text : list N) : option (result (list value)) :=
  fst <$> Reader_list (length text + 1) (4 * length text + 4) cfg (StringStreamer text).

(** The text of a block comment, between ["#|"] and ["|#"]: no bar in it
    is followed by a hash, so the comment is not closed earlier.  It may
    hold ["#|"]: comments do not nest. *)
Fixpoint block_body (body : list N) : bool :=
  match body with
  | c :: (d :: _) as body' =>
    negb ((c =? ord "|")%N && (d =? ord "#")%N) && block_body body'
  | _ => true
  end.

(** A text that holds the forms [vs] and nothing else: blanks, line
    comments and block comments when the dialect has them, and the
    printed forms of values that read back, each ending at a delimiter
    or at the end of the input. *)
Inductive forms_text (cfg : Dialect) : list value → list N → Prop :=
| forms_end ws :
    Forall (λ c, c ∈ WHITESPACES) ws → forms_text cfg [] ws
| forms_end_comment ws comment :
    sxprlib_enableLineComment cfg = true →
    Forall (λ c, c ∈ WHITESPACES) ws →
    Forall (λ c, c ∉ [13%N; 10%N]) comment →
    forms_text cfg [] (ws ++ py ";" ++ comment)
| forms_comment ws comment nl vs text :
    sxprlib_enableLineComment cfg = true →
    Forall (λ c, c ∈ WHITESPACES) ws →
    Forall (λ c, c ∉ [13%N; 10%N]) comment → nl ∈ [13%N; 10%N] →
    forms_text cfg vs text →
    forms_text cfg vs (ws ++ py ";" ++ comment ++ nl :: text)
| forms_block ws body vs text :
    sxprlib_enableBlockComment cfg = true →
    Forall (λ c, c ∈ WHITESPACES) ws → block_body body = true →
    forms_text cfg vs text →
    forms_text cfg vs (ws ++ py "#|" ++ body ++ py "|#" ++ text)
| forms_form ws v vs text :
    Forall (λ c, c ∈ WHITESPACES) ws → reads_back cfg v = true →
    stops_run text → forms_text cfg vs text →
    forms_text cfg (v :: vs) (ws ++ str cfg v ++ text).


(** A value that [str] prints in parentheses: Nil, or a chain that has
    no short form. *)
Definition printed_list (cfg : Dialect) (v : value) : bool :=
  match v with
  | NIL => true
  | Cons a d => match abbreviation cfg a d with None => true | Some _ => false end
  | _ => false
  end.


(** *** Numbers with a prefix *)

(** The dialect reads the letter [l], after a hash, as the prefix of
    numbers in [base]: [#b], [#o] and [#x], in either case. *)
Definition prefix_base (cfg : Dialect) (l : N) (base : Z) : Prop :=
  (sxprlib_enableBin cfg = true ∧ l ∈ py "bB" ∧ base = 2%Z) ∨
  (sxprlib_enableOct cfg = true ∧ l ∈ py "oO" ∧ base = 8%Z) ∨
  (sxprlib_enableHex cfg = true ∧ l ∈ py "xX" ∧ base = 16%Z).

End Reader.

(** ** Data for the examples *)

(** A host for the closed examples, which hold ASCII text and no float:
    the float carrier is trivial, every character is one column wide (as
    the ASCII characters are), and the Unicode tables are not
    consulted. *)
Definition ascii_host : Host := {|
  float := unit;
  float_of_int _ := tt;
  int_truediv _ _ := tt;
  float_add _ _ := tt;
  float_sub _ _ := tt;
  float_mul _ _ := tt;
  float_truediv _ _ := tt;
  float_is_zero _ := false;
  float_as_int _ := None;
  float_of_str _ := tt;
  float_str _ := py "float";
  east_asian_columns _ := 1%Z;
  unicode_lower s := s;
  unicode_upper s := s;
  unicode_capitalize s := s;
|}.

(** Four cells with integer atoms: the proper list [(10 20)] at 1, the
    dotted pair [(1 . 5)] at 3, and at 4 the circular chain built by
    [c = Cons(1, Nil); c.cdr = c]. *)
Definition cells4 : heap Z :=
  <[1%positive := Cell (RAtom 10%Z) (RCons 2)]>
  (<[2%positive := Cell (RAtom 20%Z) RNil]>
  (<[3%positive := Cell (RAtom 1%Z) (RAtom 5%Z)]>
  (<[4%positive := Cell (RAtom 1%Z) (RCons 4)]> ∅))).

(** The default dialect with the quote option set. *)
Definition quote_dialect : Dialect := {|
  sxprlib_enableLineComment := true;
  sxprlib_enableBlockComment := false;
  sxprlib_enableEscape := false;
  sxprlib_enableQuote := true;
  sxprlib_enableFuncRef := false;
  sxprlib_enableBin := false;
  sxprlib_enableOct := false;
  sxprlib_enableHex := false;
  sxprlib_enableRadix := false;
  sxprlib_enableComplex := false;
  sxprlib_enableArray := false;
  sxprlib_enableFrac := false;
  sxprlib_enableChar := false;
  sxprlib_ignoreCase := false;
|}.


(** The default dialect with array literals. *)
Definition array_dialect : Dialect := {|
  sxprlib_enableLineComment := true;
  sxprlib_enableBlockComment := false;
  sxprlib_enableEscape := false;
  sxprlib_enableQuote := false;
  sxprlib_enableFuncRef := false;
  sxprlib_enableBin := false;
  sxprlib_enableOct := false;
  sxprlib_enableHex := false;
  sxprlib_enableRadix := false;
  sxprlib_enableComplex := false;
  sxprlib_enableArray := true;
  sxprlib_enableFrac := false;
  sxprlib_enableChar := false;
  sxprlib_ignoreCase := false;
|}.

(** The default dialect with block comments. *)
Definition block_dialect : Dialect := {|
  sxprlib_enableLineComment := true;
  sxprlib_enableBlockComment := true;
  sxprlib_enableEscape := false;
  sxprlib_enableQuote := false;
  sxprlib_enableFuncRef := false;
  sxprlib_enableBin := false;
  sxprlib_enableOct := false;
  sxprlib_enableHex := false;
  sxprlib_enableRadix := false;
  sxprlib_enableComplex := false;
  sxprlib_enableArray := false;
  sxprlib_enableFrac := false;
  sxprlib_enableChar := false;
  sxprlib_ignoreCase := false;
|}.

(** The default dialect with character literals. *)
Definition char_dialect : Dialect := {|
  sxprlib_enableLineComment := true;
  sxprlib_enableBlockComment := false;
  sxprlib_enableEscape := false;
  sxprlib_enableQuote := false;
  sxprlib_enableFuncRef := false;
  sxprlib_enableBin := false;
  sxprlib_enableOct := false;
  sxprlib_enableHex := false;
  sxprlib_enableRadix := false;
  sxprlib_enableComplex := false;
  sxprlib_enableArray := false;
  sxprlib_enableFrac := false;
  sxprlib_enableChar := true;
  sxprlib_ignoreCase := false;
|}.

(** The default dialect with fractions and numbers in other bases. *)
Definition number_dialect : Dialect := {|
  sxprlib_enableLineComment := true;
  sxprlib_enableBlockComment := false;
  sxprlib_enableEscape := false;
  sxprlib_enableQuote := false;
  sxprlib_enableFuncRef := false;
  sxprlib_enableBin := true;
  sxprlib_enableOct := true;
  sxprlib_enableHex := true;
  sxprlib_enableRadix := true;
  sxprlib_enableComplex := false;
  sxprlib_enableArray := false;
  sxprlib_enableFrac := true;
  sxprlib_enableChar := false;
  sxprlib_ignoreCase := false;
|}.

Section ExampleData.
Local Existing Instance ascii_host.


(** The store after [Symbol("a")], and the object the call made. *)
Definition symbol_a : object := new_object cls_Symbol [(py "value", AStr (py "a"))].

Definition store_a : store :=
  Store {[1%positive := symbol_a]} {[py "a" := 1%positive]} ∅ ∅.

(** The store after [z = Complex(1, 2)]. *)
Definition store_z : store :=
  snd (Complex_new (ArgReal (Int 1)) (ArgReal (Int 2)) empty_store).

End ExampleData.

(** * Properties *)

Section ConsCellsFacts.
Context {atom : Type}.
Implicit Types (h : heap atom) (c d x : loc) (t : ref atom).

Lemma chain_head h c cells t : chain h c cells t → ∃ tl, cells = c :: tl.
Proof. destruct 1; eauto. Qed.

Lemma chain_live h c cells t x : chain h c cells t → x ∈ cells → is_Some (h !! x).
Proof.
  intros Hch. induction Hch as [c cl Hc|c cl d cells t Hc Hd Hch IH]; intros Hx.
  - apply list_elem_of_singleton in Hx as ->. eauto.
  - apply elem_of_cons in Hx as [->|Hx]; eauto.
Qed.

Lemma cdr_reach_cons h c cl d x :
  h !! c = Some cl → cdr cl = RCons d → cdr_reach h d x → cdr_reach h c x.
Proof.
  intros Hc Hd. induction 1 as [|y cl' e Hy IHy Hcl' He].
  - eapply cdr_reach_next; [constructor|eauto..].
  - eapply cdr_reach_next; eauto.
Qed.

(** Every cell of a chain is reached from its head. *)
Lemma chain_reach h c cells t x : chain h c cells t → x ∈ cells → cdr_reach h c x.
Proof.
  intros Hch. revert x.
  induction Hch as [c cl Hc|c cl d cells t Hc Hd Hch IH]; intros x Hx.
  - apply list_elem_of_singleton in Hx as ->. constructor.
  - apply elem_of_cons in Hx as [->|Hx]; [constructor|].
    eapply cdr_reach_cons; eauto.
Qed.

(** The [cdr] of a cell of a chain is the next cell, or the chain's end. *)
Lemma chain_step h c cells t x cl d :
  chain h c cells t → x ∈ cells → h !! x = Some cl → cdr cl = RCons d →
  d ∈ cells ∨ t = RCons d.
Proof.
  intros Hch. induction Hch as [c cl' Hc|c cl' e cells t Hc He Hch IH]; intros Hx Hcl Hd.
  - apply list_elem_of_singleton in Hx as ->. right. congruence.
  - apply elem_of_cons in Hx as [->|Hx].
    + left. assert (e = d) as -> by congruence.
      destruct (chain_head _ _ _ _ Hch) as [tl ->]. set_solver.
    + destruct (IH Hx Hcl Hd); [left; set_solver|by right].
Qed.

(** A chain that stops holds every cell reached from its head. *)
Lemma chain_closed h c cells t x :
  chain h c cells t → chain_stops cells t → cdr_reach h c x → x ∈ cells.
Proof.
  intros Hch Hstop. induction 1 as [|y cl d Hy IHy Hcl Hd].
  - destruct (chain_head _ _ _ _ Hch) as [tl ->]. set_solver.
  - destruct (chain_step _ _ _ _ _ _ _ Hch IHy Hcl Hd) as [|Ht]; [done|].
    by apply Hstop.
Qed.

Lemma chain_inv h c cells t :
  chain h c cells t →
  ∃ cl, h !! c = Some cl ∧
    ((cells = [c] ∧ t = cdr cl) ∨
     ∃ d cells2, cdr cl = RCons d ∧ cells = c :: cells2 ∧ chain h d cells2 t).
Proof. destruct 1; eauto 10. Qed.

(** A repeated cell cannot close a chain that has no repetition. *)
Lemma chain_stop_fresh h pre c d cells2 t2 :
  chain h d cells2 t2 → NoDup (pre ++ c :: cells2) → d ∈ pre ++ [c] → False.
Proof.
  intros Hch Hnd Hin. destruct (chain_head _ _ _ _ Hch) as [tl ->].
  apply NoDup_app in Hnd as (_ & Hdisj & Hnd2).
  apply elem_of_app in Hin as [Hin|Hin].
  - apply (Hdisj d Hin). set_solver.
  - apply list_elem_of_singleton in Hin as ->.
    apply NoDup_cons in Hnd2 as [Hnin _]. set_solver.
Qed.

(** A chain without repetition that stops is the only one from its head. *)
Lemma chain_unique_from h pre c cells t cells' t' :
  chain h c cells t → chain h c cells' t' →
  NoDup (pre ++ cells) → NoDup (pre ++ cells') →
  (∀ d, t = RCons d → d ∈ pre ++ cells) →
  (∀ d, t' = RCons d → d ∈ pre ++ cells') →
  cells = cells' ∧ t = t'.
Proof.
  intros Hch. revert pre cells' t'.
  induction Hch as [c cl Hc|c cl d cells t Hc Hd Hch IH];
    intros pre cells' t' Hch' Hnd Hnd' Hst Hst';
    destruct (chain_inv _ _ _ _ Hch') as (cl' & Hc' & [[-> ->]|(d' & cells2 & Hd' & -> & Hch2)]);
    assert (cl' = cl) as -> by congruence.
  - done.
  - exfalso. exact (chain_stop_fresh _ _ _ _ _ _ Hch2 Hnd' (Hst _ Hd')).
  - exfalso. exact (chain_stop_fresh _ _ _ _ _ _ Hch Hnd (Hst' _ Hd)).
  - assert (d' = d) as -> by congruence.
    destruct (IH (pre ++ [c]) cells2 t') as [-> ->]; try done.
    + by rewrite <-app_assoc.
    + by rewrite <-app_assoc.
    + intros e He. rewrite <-app_assoc. by apply Hst.
    + intros e He. rewrite <-app_assoc. by apply Hst'.
Qed.

Lemma chain_unique h c cells t cells' t' :
  chain h c cells t → chain h c cells' t' →
  NoDup cells → NoDup cells' → chain_stops cells t → chain_stops cells' t' →
  cells = cells' ∧ t = t'.
Proof. intros. by eapply (chain_unique_from h []). Qed.

(** The loop of [Cons.__len__] counts the cells of the chain that starts
    at the current cell and stops at the first cell seen before. *)
Lemma len_loop_chain h :
  heap_closed h →
  ∀ fuel c occ n,
    is_Some (h !! c) → c ∈ occ → occ ⊆ dom h →
    size (dom h ∖ occ) < fuel →
    ∃ cells t,
      chain h c cells t ∧ NoDup cells ∧
      (∀ x, x ∈ cells → x = c ∨ x ∉ occ) ∧
      (∀ d, t = RCons d → d ∈ occ ∨ d ∈ cells) ∧
      len_loop fuel h n c occ = Some (n + Z.of_nat (length cells) - 1)%Z.
Proof.
  intros Hclosed. induction fuel as [|fuel IH]; intros c occ n [cl Hc] Hin Hsub Hfuel; [lia|].
  simpl. rewrite Hc.
  destruct (cdr cl) as [|d|a] eqn:Hcdr.
  - exists [c], RNil. rewrite <-Hcdr. split_and!; [by constructor|apply NoDup_singleton|set_solver|by rewrite Hcdr|f_equal; simpl; lia].
  - destruct (decide (d ∈ occ)) as [Hd|Hd].
    + exists [c], (RCons d). rewrite <-Hcdr.
      split_and!; [by constructor|apply NoDup_singleton|set_solver| |f_equal; simpl; lia].
      rewrite Hcdr. intros ? [= <-]. by left.
    + assert (is_Some (h !! d)) as Hlive.
      { destruct (Hclosed c cl Hc) as [_ Hl]. by rewrite Hcdr in Hl. }
      assert (d ∈ (dom h : gset loc)) as Hdom by (by apply elem_of_dom).
      destruct (IH d ({[d]} ∪ occ) (n + 1)%Z) as (cells & t & Hch & Hnd & Hfresh & Hstop & Hres);
        [done|set_solver|set_solver| |].
      { assert (dom h ∖ ({[d]} ∪ occ) ⊂ dom h ∖ occ) as Hlt by set_solver.
        apply subset_size in Hlt. lia. }
      exists (c :: cells), t. split_and!.
      * by econstructor.
      * apply NoDup_cons. split; [|done].
        intros Hc'. destruct (Hfresh c Hc') as [->|Hn]; set_solver.
      * intros x [->|Hx]%elem_of_cons; [by left|].
        right. destruct (Hfresh x Hx) as [->|Hn]; set_solver.
      * intros e He. destruct (Hstop e He) as [Ho|Hc']; [|set_solver].
        apply elem_of_union in Ho as [->%elem_of_singleton|Ho]; [|by left].
        right. destruct (chain_head _ _ _ _ Hch) as [tl ->]. set_solver.
      * rewrite Hres. f_equal. simpl length. lia.
  - exists [c], (RAtom a). rewrite <-Hcdr. split_and!; [by constructor|apply NoDup_singleton|set_solver|by rewrite Hcdr|f_equal; simpl; lia].
Qed.

(** [Cons.__len__] returns, and what it returns is the length of the
    chain of distinct cells from [self]. *)
Lemma Cons_len_chain h c :
  heap_closed h → is_Some (h !! c) →
  ∃ cells t,
    chain h c cells t ∧ NoDup cells ∧ chain_stops cells t ∧
    Cons_len h c = Some (Z.of_nat (length cells)).
Proof.
  intros Hclosed Hc.
  destruct (len_loop_chain h Hclosed (S (size h)) c {[c]} 1%Z)
    as (cells & t & Hch & Hnd & _ & Hstop & Hres); [done|set_solver| | |].
  { apply singleton_subseteq_l. by apply elem_of_dom. }
  { rewrite <-size_dom. assert (size (dom h ∖ {[c]}) ≤ size (dom h)); [|lia].
    apply subseteq_size. set_solver. }
  exists cells, t. split_and!; [done..| |].
  - intros d Hd. destruct (Hstop d Hd) as [->%elem_of_singleton|]; [|done].
    destruct (chain_head _ _ _ _ Hch) as [tl ->]. set_solver.
  - unfold Cons_len. rewrite Hres. f_equal. lia.
Qed.

(** C5.  For every Cons [c] of a closed heap, proper, dotted or circular,
    [len(c)] returns the number of distinct Cons cells reached from [c] by
    following [cdr]: there is a finite set [X] holding exactly these cells,
    and [len(c)] is its size. *)
Theorem Cons_len_counts_reachable h c :
  heap_closed h → is_Some (h !! c) →
  ∃ X : gset loc,
    (∀ x, x ∈ X ↔ cdr_reach h c x) ∧
    Cons_len h c = Some (Z.of_nat (size X)).
Proof.
  intros Hclosed Hc.
  destruct (Cons_len_chain h c Hclosed Hc) as (cells & t & Hch & Hnd & Hstop & Hlen).
  exists (list_to_set cells). split.
  - intros x. rewrite elem_of_list_to_set. split.
    + by eapply chain_reach.
    + by eapply chain_closed.
  - by rewrite size_list_to_set.
Qed.

(** The loop of [for v in c] from a cell not yet visited. *)
Lemma for_loop_chain h :
  heap_closed h →
  ∀ fuel c occ,
    is_Some (h !! c) → c ∉ occ → occ ⊆ dom h →
    size (dom h ∖ occ) + 1 < fuel →
    ∃ cells t,
      chain h c cells t ∧ NoDup cells ∧
      (∀ x, x ∈ cells → x ∉ occ) ∧
      (∀ d, t = RCons d → d ∈ occ ∨ d ∈ cells) ∧
      for_loop fuel h (MkIter (RCons c) occ) = Some (cars h cells ++ dotted_tail t).
Proof.
  intros Hclosed. induction fuel as [|fuel IH]; intros c occ [cl Hc] Hin Hsub Hfuel; [lia|].
  assert (c ∈ (dom h : gset loc)) as Hcdom by (by apply elem_of_dom).
  assert (1 ≤ size (dom h ∖ occ)) as Hpos.
  { assert (size ({[c]} : gset loc) ≤ size (dom h ∖ occ)) as Hle
      by (apply subseteq_size; set_solver).
    by rewrite size_singleton in Hle. }
  cbn [for_loop]. unfold ConsIterator_next. cbn [it_cons it_occurence].
  rewrite decide_False by done. rewrite Hc.
  destruct fuel as [|fuel]; [lia|].
  destruct (cdr cl) as [|d|a] eqn:Hcdr.
  - exists [c], RNil. rewrite <-Hcdr.
    split_and!; [by constructor|apply NoDup_singleton|set_solver|by rewrite Hcdr|].
    rewrite Hcdr. simpl. by rewrite Hc.
  - destruct (decide (d ∈ {[c]} ∪ occ)) as [Hd|Hd].
    + exists [c], (RCons d). rewrite <-Hcdr.
      split_and!; [by constructor|apply NoDup_singleton|set_solver| |].
      * rewrite Hcdr. intros ? [= <-]. set_solver.
      * rewrite Hcdr. cbn [for_loop]. unfold ConsIterator_next. cbn [it_cons it_occurence].
        rewrite decide_True by done. simpl. by rewrite Hc.
    + assert (is_Some (h !! d)) as Hlive.
      { destruct (Hclosed c cl Hc) as [_ Hl]. by rewrite Hcdr in Hl. }
      destruct (IH d ({[c]} ∪ occ)) as (cells & t & Hch & Hnd & Hfresh & Hstop & Hres);
        [done|done|set_solver| |].
      { assert (dom h ∖ ({[c]} ∪ occ) ⊂ dom h ∖ occ) as Hlt by set_solver.
        apply subset_size in Hlt. lia. }
      exists (c :: cells), t. split_and!.
      * by econstructor.
      * apply NoDup_cons. split; [|done].
        intros Hc'. specialize (Hfresh c Hc'). set_solver.
      * intros x [->|Hx]%elem_of_cons; [done|].
        specialize (Hfresh x Hx). set_solver.
      * intros e He. destruct (Hstop e He) as [Ho|Hc']; [|set_solver].
        apply elem_of_union in Ho as [->%elem_of_singleton|Ho]; [|by left].
        right. set_solver.
      * rewrite Hres. simpl. by rewrite Hc.
  - exists [c], (RAtom a). rewrite <-Hcdr.
    split_and!; [by constructor|apply NoDup_singleton|set_solver|by rewrite Hcdr|].
    rewrite Hcdr. destruct fuel as [|fuel]; [lia|]. simpl. by rewrite Hc.
Qed.

(** C10.  Iterating Nil yields nothing.  Iterating a Cons [c] of a closed
    heap terminates and yields the [car] of each cell of the chain from
    [c], in [cdr] order, each distinct cell once ([NoDup]); the walk ends at
    the first [cdr] that is Nil, an atom or a cell already visited
    ([chain_stops]), and the terminal atom of a dotted chain is the last
    element yielded. *)
Theorem Cons_iter_yields h :
  heap_closed h →
  Cons_iter h RNil = Some [] ∧
  ∀ c, is_Some (h !! c) →
    ∃ cells t,
      chain h c cells t ∧ NoDup cells ∧ chain_stops cells t ∧
      Cons_iter h (RCons c) = Some (cars h cells ++ dotted_tail t).
Proof.
  intros Hclosed. split.
  { unfold Cons_iter. by rewrite Nat.add_comm. }
  intros c Hc.
  destruct (for_loop_chain h Hclosed (size h + 2) c ∅)
    as (cells & t & Hch & Hnd & _ & Hstop & Hres); [done|set_solver|set_solver| |].
  { rewrite <-size_dom. assert (size (dom h ∖ (∅ : gset loc)) ≤ size (dom h)); [|lia].
    apply subseteq_size. set_solver. }
  exists cells, t. split_and!; [done..| |done].
  intros d Hd. destruct (Hstop d Hd); set_solver.
Qed.

(** *** Indexing *)

Lemma getitem_loop_Nil h m : getitem_loop h m RNil = Some (Ok RNil).
Proof. induction m; simpl; auto. Qed.

Lemma getitem_loop_walk h k m (r0 r : ref atom) :
  cdr_walk h k r0 r → getitem_loop h (k + m) r0 = getitem_loop h m r.
Proof.
  induction 1 as [|k l cl r Hl Hw IH]; [done|].
  simpl. by rewrite Hl.
Qed.

Lemma getitem_loop_total h :
  heap_closed h →
  ∀ m (r0 : ref atom), ref_live h r0 →
    ∃ res, getitem_loop h m r0 = Some res ∧ ∀ r, res = Ok r → ref_live h r.
Proof.
  intros Hclosed. induction m as [|m IH]; intros r0 Hr0; simpl.
  { exists (Ok r0). split; [done|]. by intros ? [= <-]. }
  destruct r0 as [|l|a]; simpl in *; [by apply IH| |by eexists].
  destruct Hr0 as [cl Hl]. rewrite Hl. simpl. apply IH.
  by destruct (Hclosed l cl Hl).
Qed.

(** [c[n]] returns or raises on a closed heap. *)
Lemma Cons_getitem_total h self n :
  heap_closed h → is_Some (h !! self) → is_Some (Cons_getitem h self n).
Proof.
  intros Hclosed Hself. unfold Cons_getitem.
  destruct (n <? 0)%Z; [eauto|].
  destruct (getitem_loop_total h Hclosed (Z.to_nat n) (RCons self) Hself)
    as (res & -> & Hlive).
  destruct res as [[|l|a]|e]; eauto.
  destruct (Hlive (RCons l) eq_refl) as [cl Hl]. simpl. rewrite Hl. eauto.
Qed.

(** On a closed heap the walk of [n] steps ends in one of four ways. *)
Lemma cdr_walk_cases h :
  heap_closed h →
  ∀ (n : nat) (r0 : ref atom), ref_live h r0 →
    (∃ k a, k < n ∧ cdr_walk h k r0 (RAtom a)) ∨
    (∃ k, k ≤ n ∧ cdr_walk h k r0 RNil) ∨
    (∃ l cl, cdr_walk h n r0 (RCons l) ∧ h !! l = Some cl) ∨
    (∃ a, cdr_walk h n r0 (RAtom a)).
Proof.
  intros Hclosed. induction n as [|n IH]; intros r0 Hr0.
  - destruct r0 as [|l|a].
    + right; left. exists 0. split; [lia|constructor].
    + destruct Hr0 as [cl Hl]. right; right; left. exists l, cl. split; [constructor|done].
    + right; right; right. exists a. constructor.
  - destruct r0 as [|l|a].
    + right; left. exists 0. split; [lia|constructor].
    + destruct Hr0 as [cl Hl].
      destruct (IH (cdr cl)) as [(k & a & Hk & Hw)|[(k & Hk & Hw)|[(l' & cl' & Hw & Hl')|(a & Hw)]]].
      * by destruct (Hclosed l cl Hl).
      * left. exists (S k), a. split; [lia|by econstructor].
      * right; left. exists (S k). split; [lia|by econstructor].
      * right; right; left. exists l', cl'. split; [by econstructor|done].
      * right; right; right. exists a. by econstructor.
    + left. exists 0, a. split; [lia|constructor].
Qed.

(** C6, as the code has it.  A negative index raises [IndexError].  For
    [n >= 0] the read walks [cdr] [n] times from [self] and ends in exactly
    one of these ways:
    - the walk is at an atom other than Nil while indexing remains: it
      raises [IndexError];
    - the walk reaches Nil, at the [n]-th step or before: the read returns
      Nil ([Nil.cdr] is Nil, so the walk stays there and nothing is
      raised);
    - the walk ends on a Cons: the read returns that cell's [car];
    - the walk ends exactly on the terminal atom: the read returns it. *)
Theorem Cons_getitem_walk h self (n : Z) :
  heap_closed h → is_Some (h !! self) →
  ((n < 0)%Z → Cons_getitem h self n = Some (Raise IndexError)) ∧
  (∀ k a, cdr_walk h k (RCons self) (RAtom a) → (Z.of_nat k < n)%Z →
     Cons_getitem h self n = Some (Raise IndexError)) ∧
  (∀ k, cdr_walk h k (RCons self) RNil → (Z.of_nat k ≤ n)%Z →
     Cons_getitem h self n = Some (Ok RNil)) ∧
  (∀ l cl, cdr_walk h (Z.to_nat n) (RCons self) (RCons l) → (0 ≤ n)%Z →
     h !! l = Some cl → Cons_getitem h self n = Some (Ok (car cl))) ∧
  (∀ a, cdr_walk h (Z.to_nat n) (RCons self) (RAtom a) → (0 ≤ n)%Z →
     Cons_getitem h self n = Some (Ok (RAtom a))) ∧
  ((0 ≤ n)%Z →
     (∃ k a, (Z.of_nat k < n)%Z ∧ cdr_walk h k (RCons self) (RAtom a)) ∨
     (∃ k, (Z.of_nat k ≤ n)%Z ∧ cdr_walk h k (RCons self) RNil) ∨
     (∃ l cl, cdr_walk h (Z.to_nat n) (RCons self) (RCons l) ∧ h !! l = Some cl) ∨
     (∃ a, cdr_walk h (Z.to_nat n) (RCons self) (RAtom a))).
Proof.
  intros Hclosed Hself. unfold Cons_getitem. split_and!.
  - intros Hn. by rewrite (proj2 (Z.ltb_lt _ _) Hn).
  - intros k a Hw Hk. rewrite (proj2 (Z.ltb_ge _ _)) by lia.
    replace (Z.to_nat n) with (k + S (Z.to_nat n - S k)) by lia.
    by rewrite (getitem_loop_walk _ _ _ _ _ Hw).
  - intros k Hw Hk. rewrite (proj2 (Z.ltb_ge _ _)) by lia.
    replace (Z.to_nat n) with (k + (Z.to_nat n - k)) by lia.
    by rewrite (getitem_loop_walk _ _ _ _ _ Hw), getitem_loop_Nil.
  - intros l cl Hw Hn Hl. rewrite (proj2 (Z.ltb_ge _ _)) by lia.
    rewrite <-(Nat.add_0_r (Z.to_nat n)), (getitem_loop_walk _ _ _ _ _ Hw).
    simpl. by rewrite Hl.
  - intros a Hw Hn. rewrite (proj2 (Z.ltb_ge _ _)) by lia.
    by rewrite <-(Nat.add_0_r (Z.to_nat n)), (getitem_loop_walk _ _ _ _ _ Hw).
  - intros Hn.
    destruct (cdr_walk_cases h Hclosed (Z.to_nat n) (RCons self) Hself)
      as [(k & a & Hk & Hw)|[(k & Hk & Hw)|[?|?]]]; [|right; left|by auto..].
    + left. exists k, a. split; [lia|done].
    + exists k. split; [lia|done].
Qed.


(** *** Heaps that grow and cells that change *)

Lemma ref_live_mono h h' (r : ref atom) : h ⊆ h' → ref_live h r → ref_live h' r.
Proof.
  intros Hsub. destruct r as [|l|a]; simpl; [done| |done].
  intros [cl Hl]. exists cl. by eapply lookup_weaken.
Qed.

Lemma fresh_cell h : h !! fresh (dom h) = None.
Proof. apply not_elem_of_dom. apply is_fresh. Qed.

Lemma Cons_init_sub h (a d : ref atom) : h ⊆ snd (Cons_init h a d).
Proof. apply insert_subseteq. apply fresh_cell. Qed.

Lemma heap_closed_alloc h (a d : ref atom) :
  heap_closed h → ref_live h a → ref_live h d →
  heap_closed (<[fresh (dom h) := Cell a d]> h).
Proof.
  intros Hclosed Ha Hd l cl Hl.
  assert (h ⊆ <[fresh (dom h) := Cell a d]> h) as Hsub
    by (apply insert_subseteq, fresh_cell).
  apply lookup_insert_Some in Hl as [[<- <-]|[_ Hl]]; simpl.
  - split; by eapply ref_live_mono.
  - destruct (Hclosed l cl Hl). split; by eapply ref_live_mono.
Qed.

Lemma ref_live_insert h l cl (r : ref atom) :
  is_Some (h !! l) → ref_live h r → ref_live (<[l := cl]> h) r.
Proof.
  intros Hl. destruct r as [|l'|a]; simpl; [done| |done].
  intros Hl'. destruct (decide (l = l')) as [->|Hne].
  - rewrite lookup_insert_eq. eauto.
  - by rewrite lookup_insert_ne.
Qed.

Lemma heap_closed_update h l cl cl' :
  heap_closed h → h !! l = Some cl →
  ref_live h (car cl') → ref_live h (cdr cl') →
  heap_closed (<[l := cl']> h).
Proof.
  intros Hclosed Hl Ha Hd l' cl'' Hl'.
  apply lookup_insert_Some in Hl' as [[<- <-]|[_ Hl']].
  - split; apply ref_live_insert; eauto.
  - destruct (Hclosed l' cl'' Hl'). split; apply ref_live_insert; eauto.
Qed.

Lemma chain_mono h h' c cells t : h ⊆ h' → chain h c cells t → chain h' c cells t.
Proof.
  intros Hsub. induction 1 as [c cl Hc|c cl d cells t Hc Hd Hch IH].
  - constructor. by eapply lookup_weaken.
  - econstructor; [by eapply lookup_weaken|done..].
Qed.

Lemma cars_mono h h' (cells : list loc) :
  h ⊆ h' → (∀ x, x ∈ cells → is_Some (h !! x)) → cars h' cells = cars h cells.
Proof.
  intros Hsub. induction cells as [|x cells IH]; intros Hlive; [done|].
  destruct (Hlive x) as [cl Hx]; [set_solver|].
  simpl. rewrite Hx, (lookup_weaken _ _ _ _ Hx Hsub). f_equal.
  apply IH. intros y Hy. apply Hlive. set_solver.
Qed.

Lemma cars_length h c cells t : chain h c cells t → length (cars h cells) = length cells.
Proof.
  induction 1 as [c cl Hc|c cl d cells t Hc Hd Hch IH]; simpl; rewrite Hc; simpl; auto.
Qed.

(** A chain of distinct cells that stops is what [len] counts and what
    the iterator walks. *)
Lemma Cons_len_of_chain h c cells t :
  heap_closed h → chain h c cells t → NoDup cells → chain_stops cells t →
  Cons_len h c = Some (Z.of_nat (length cells)).
Proof.
  intros Hclosed Hch Hnd Hstop.
  destruct (Cons_len_chain h c Hclosed) as (cells' & t' & Hch' & Hnd' & Hstop' & Hlen).
  { eapply chain_live; [done|]. destruct (chain_head _ _ _ _ Hch) as [tl ->]. set_solver. }
  by destruct (chain_unique _ _ _ _ _ _ Hch Hch' Hnd Hnd' Hstop Hstop') as [-> ->].
Qed.

Lemma Cons_iter_of_chain h c cells t :
  heap_closed h → chain h c cells t → NoDup cells → chain_stops cells t →
  Cons_iter h (RCons c) = Some (cars h cells ++ dotted_tail t).
Proof.
  intros Hclosed Hch Hnd Hstop.
  destruct (for_loop_chain h Hclosed (size h + 2) c ∅)
    as (cells' & t' & Hch' & Hnd' & _ & Hstop' & Hres); [|set_solver|set_solver| |].
  { eapply chain_live; [done|]. destruct (chain_head _ _ _ _ Hch) as [tl ->]. set_solver. }
  { rewrite <-size_dom. assert (size (dom h ∖ (∅ : gset loc)) ≤ size (dom h)); [|lia].
    apply subseteq_size. set_solver. }
  assert (chain_stops cells' t') as Hstop''.
  { intros d Hd. destruct (Hstop' d Hd); set_solver. }
  by destruct (chain_unique _ _ _ _ _ _ Hch Hch' Hnd Hnd' Hstop Hstop'') as [-> ->].
Qed.

Lemma proper_list_iter h (r : ref atom) cells :
  heap_closed h → proper_list h r cells →
  Cons_iter h r = Some (cars h cells) ∧ list_len h r = Some (Z.of_nat (length cells)).
Proof.
  intros Hclosed. destruct r as [|c|a]; simpl; [|intros [Hch Hnd]|done].
  - intros ->. split; [|done]. unfold Cons_iter. by rewrite Nat.add_comm.
  - split.
    + rewrite (Cons_iter_of_chain h c cells RNil); [by rewrite app_nil_r|done..].
    + by apply (Cons_len_of_chain h c cells RNil).
Qed.

(** *** Item assignment *)

Lemma setitem_loop_walk h k m (p r0 : ref atom) l cl :
  cdr_walk h k r0 (RCons l) → h !! l = Some cl →
  setitem_loop h (k + S m) p r0 = setitem_loop h m (RCons l) (cdr cl).
Proof.
  intros Hw. revert p. remember (RCons l) as r eqn:Hr.
  induction Hw as [|k l' cl' r Hl' Hw IH]; intros p Hl.
  - subst. simpl. by rewrite Hl.
  - simpl. rewrite Hl'. by apply IH.
Qed.

Lemma setitem_loop_cell h k (p r0 : ref atom) l :
  cdr_walk h k r0 (RCons l) → ∃ p', setitem_loop h k p r0 = Some (Ok (p', RCons l)).
Proof.
  intros Hw. revert p. remember (RCons l) as r eqn:Hr.
  induction Hw as [|k l' cl' r Hl' Hw IH]; intros p.
  - subst. simpl. eauto.
  - simpl. rewrite Hl'. by apply IH.
Qed.

(** A walk sees the [cdr] fields only. *)
Lemma cdr_walk_same_cdr h h' k (r0 r : ref atom) :
  (∀ l cl, h !! l = Some cl → ∃ cl', h' !! l = Some cl' ∧ cdr cl' = cdr cl) →
  cdr_walk h k r0 r → cdr_walk h' k r0 r.
Proof.
  intros Hsame. induction 1 as [|k l cl r Hl Hw IH]; [constructor|].
  destruct (Hsame l cl Hl) as (cl' & Hl' & Hcdr).
  econstructor; [done|]. by rewrite Hcdr.
Qed.

Lemma len_loop_same_cdr h h' :
  (∀ l, cdr <$> h' !! l = cdr <$> h !! l) →
  ∀ fuel n c occ, len_loop fuel h' n c occ = len_loop fuel h n c occ.
Proof.
  intros Hsame. induction fuel as [|fuel IH]; intros n c occ; [done|].
  simpl. pose proof (Hsame c) as Hc.
  destruct (h' !! c) as [cl'|], (h !! c) as [cl|]; simplify_eq/=; [|done].
  rewrite Hc. destruct (cdr cl); [done| |done].
  destruct (decide _); [done|]. apply IH.
Qed.

(** X3.  Assigning [c[k] = x] where the walk of [k] steps ends on a cell sets
    that cell's [car] and nothing else: reading [c[k]] then returns [x],
    the length of [c] is what it was, and every other cell is as it
    was. *)
Lemma Cons_setitem_then_getitem h self k l (x : ref atom) :
  heap_closed h → ref_live h x →
  cdr_walk h k (RCons self) (RCons l) → is_Some (h !! l) →
  ∃ h', Cons_setitem h self (Z.of_nat k) x = Some (Ok tt, h') ∧
        heap_closed h' ∧
        Cons_getitem h' self (Z.of_nat k) = Some (Ok x) ∧
        Cons_len h' self = Cons_len h self ∧
        (∀ l', l' ≠ l → h' !! l' = h !! l').
Proof.
  intros Hclosed Hx Hw [cl Hl].
  exists (<[l := Cell x (cdr cl)]> h).
  assert (∀ l0 cl0, h !! l0 = Some cl0 →
            ∃ cl', <[l := Cell x (cdr cl)]> h !! l0 = Some cl' ∧ cdr cl' = cdr cl0) as Hsame.
  { intros l0 cl0 Hl0. destruct (decide (l = l0)) as [->|Hne].
    - rewrite lookup_insert_eq. eexists. split; [done|]. simpl. congruence.
    - rewrite lookup_insert_ne by done. eauto. }
  split_and!.
  - unfold Cons_setitem. rewrite (proj2 (Z.ltb_ge _ _)) by lia. rewrite Nat2Z.id.
    destruct (setitem_loop_cell h k RNil (RCons self) l Hw) as [p' ->].
    simpl. by rewrite Hl.
  - apply (heap_closed_update h l cl); [done..| |]; simpl; [done|].
    by destruct (Hclosed l cl Hl).
  - unfold Cons_getitem. rewrite (proj2 (Z.ltb_ge _ _)) by lia. rewrite Nat2Z.id.
    rewrite <-(Nat.add_0_r k).
    rewrite (getitem_loop_walk _ _ _ _ _ (cdr_walk_same_cdr _ _ _ _ _ Hsame Hw)).
    simpl. by rewrite lookup_insert_eq.
  - unfold Cons_len.
    assert (size (<[l := Cell x (cdr cl)]> h) = size h) as ->.
    { rewrite <-!size_dom. f_equal. apply dom_insert_lookup_L. eauto. }
    apply len_loop_same_cdr. intros l0. destruct (decide (l = l0)) as [->|Hne].
    + by rewrite lookup_insert_eq, Hl.
    + by rewrite lookup_insert_ne.
  - intros l' Hne. by rewrite lookup_insert_ne.
Qed.

(** X4.  Assigning at the index one past the last cell of a chain that ends
    in Nil or in an atom raises nothing: it replaces what ends the chain,
    setting the [cdr] of the last cell.  Any index further on, and any
    negative index, raises [IndexError] and changes nothing. *)
Lemma Cons_setitem_past_last h self k p cl (x : ref atom) :
  cdr_walk h k (RCons self) (RCons p) → h !! p = Some cl →
  (∀ d, cdr cl ≠ RCons d) →
  Cons_setitem h self (Z.of_nat k + 1) x = Some (Ok tt, <[p := Cell (car cl) x]> h) ∧
  (∀ n, (Z.of_nat k + 1 < n)%Z → Cons_setitem h self n x = Some (Raise IndexError, h)) ∧
  (∀ n, (n < 0)%Z → Cons_setitem h self n x = Some (Raise IndexError, h)).
Proof.
  intros Hw Hp Hend. split_and!.
  - unfold Cons_setitem. rewrite (proj2 (Z.ltb_ge _ _)) by lia.
    replace (Z.to_nat (Z.of_nat k + 1)) with (k + 1) by lia.
    rewrite (setitem_loop_walk h k 0 RNil (RCons self) p cl Hw Hp). simpl.
    destruct (cdr cl) as [|d|a] eqn:E; simpl; rewrite ?Hp; try done.
    by destruct (Hend d).
  - intros n Hn. unfold Cons_setitem. rewrite (proj2 (Z.ltb_ge _ _)) by lia.
    replace (Z.to_nat n) with (k + S (S (Z.to_nat n - k - 2))) by lia.
    rewrite (setitem_loop_walk h k _ RNil (RCons self) p cl Hw Hp). simpl.
    destruct (cdr cl) as [|d|a] eqn:E; try done. by destruct (Hend d).
  - intros n Hn. unfold Cons_setitem. by rewrite (proj2 (Z.ltb_lt _ _) Hn).
Qed.

(** *** Making lists *)

(** Consing a new cell before a proper list gives a proper list. *)
Lemma proper_list_cons h (r : ref atom) cells (a : ref atom) :
  proper_list h r cells → (∀ x, x ∈ cells → is_Some (h !! x)) →
  proper_list (<[fresh (dom h) := Cell a r]> h) (RCons (fresh (dom h)))
              (fresh (dom h) :: cells).
Proof.
  intros Hr Hlive.
  assert (h ⊆ <[fresh (dom h) := Cell a r]> h) as Hsub
    by (apply insert_subseteq, fresh_cell).
  assert (fresh (dom h) ∉ cells) as Hnew.
  { intros Hin. destruct (Hlive _ Hin) as [cl Hcl]. by rewrite fresh_cell in Hcl. }
  destruct r as [|c|b]; simpl in *; [subst|destruct Hr as [Hch Hnd]|done].
  - split; [|apply NoDup_singleton].
    apply (chain_last _ _ (Cell a RNil)). by rewrite lookup_insert_eq.
  - split; [|by apply NoDup_cons].
    eapply (chain_next _ _ (Cell a (RCons c))); [by rewrite lookup_insert_eq|done|].
    by eapply chain_mono.
Qed.

Lemma proper_list_live h (r : ref atom) cells x :
  proper_list h r cells → x ∈ cells → is_Some (h !! x).
Proof.
  destruct r as [|c|a]; simpl; [intros ->; set_solver| |done].
  intros [Hch _]. by eapply chain_live.
Qed.

Lemma proper_list_ref_live h (r : ref atom) cells : proper_list h r cells → ref_live h r.
Proof.
  destruct r as [|c|a]; simpl; [done| |done].
  intros [Hch _]. eapply chain_live; [done|].
  destruct (chain_head _ _ _ _ Hch) as [tl ->]. set_solver.
Qed.

(** The loop of [mklist], and of [mkreverse] once the values are in
    hand: consing the values [vs] one by one before the proper list
    [r]. *)
Lemma cons_loop h0 (vs : list (ref atom)) :
  ∀ h (r : ref atom) cells,
    heap_closed h → h0 ⊆ h → Forall (ref_live h0) vs → proper_list h r cells →
    ∃ r' h' cells',
      fold_left (λ (s : ref atom * heap atom) v, mkcons (snd s) v (fst s)) vs (r, h)
        = (r', h') ∧
      heap_closed h' ∧ h ⊆ h' ∧ proper_list h' r' (cells' ++ cells) ∧
      length cells' = length vs ∧
      (∀ x, x ∈ cells' → h !! x = None) ∧
      cars h' (cells' ++ cells) = rev vs ++ cars h cells.
Proof.
  induction vs as [|v vs IH]; intros h r cells Hclosed Hsub Hvs Hr.
  { exists r, h, []. by split_and!; [done..|set_solver|]. }
  apply Forall_cons in Hvs as [Hv Hvs]. simpl.
  unfold mkcons at 2. simpl.
  set (k := fresh (dom h)). set (h1 := <[k := Cell v r]> h).
  assert (h ⊆ h1) as Hsub1 by (apply insert_subseteq, fresh_cell).
  destruct (IH h1 (RCons k) (k :: cells)) as (r' & h' & cells' & Hfold & Hcl' & Hsub' & Hpl & Hlen & Hfresh & Hcars).
  - apply heap_closed_alloc; [done| |].
    + by eapply ref_live_mono.
    + by eapply proper_list_ref_live.
  - by etrans.
  - done.
  - apply proper_list_cons; [done|]. intros x Hx. by eapply proper_list_live.
  - exists r', h', (cells' ++ [k]). split_and!.
    + done.
    + done.
    + by etrans.
    + by rewrite <-app_assoc.
    + rewrite length_app. simpl. lia.
    + intros x [Hx|Hx]%elem_of_app.
      * specialize (Hfresh x Hx). by eapply lookup_weaken_None.
      * apply list_elem_of_singleton in Hx as ->. apply fresh_cell.
    + rewrite <-app_assoc. simpl app. rewrite Hcars. simpl.
      subst h1. rewrite lookup_insert_eq. simpl. rewrite <-app_assoc. simpl. do 2 f_equal.
      apply cars_mono; [done|]. intros x Hx. by eapply proper_list_live.
Qed.

(** X5.  [mklist] makes a proper list of new cells that holds its arguments
    in order: iterating it yields them, its length is their number, and
    the cells that were there are as they were. *)
Lemma mklist_iter h (args : list (ref atom)) :
  heap_closed h → Forall (ref_live h) args →
  ∃ r h', mklist h args = (r, h') ∧ heap_closed h' ∧ h ⊆ h' ∧
          Cons_iter h' r = Some args ∧
          list_len h' r = Some (Z.of_nat (length args)).
Proof.
  intros Hclosed Hargs. unfold mklist.
  destruct (cons_loop h (rev args) h RNil []) as (r & h' & cells & Hfold & Hcl' & Hsub & Hpl & Hlen & _ & Hcars);
    [done|done|by apply Forall_rev|done|].
  exists r, h'. split_and!; [done..| |].
  - rewrite (proj1 (proper_list_iter h' r _ Hcl' Hpl)), Hcars. simpl.
    by rewrite rev_involutive, app_nil_r.
  - rewrite (proj2 (proper_list_iter h' r _ Hcl' Hpl)).
    rewrite app_nil_r, Hlen, length_rev. done.
Qed.

(** *** Reversing *)

Lemma chain_length_le h c cells t : chain h c cells t → NoDup cells → length cells ≤ size h.
Proof.
  intros Hch Hnd. rewrite <-(size_list_to_set (C:=gset loc)) by done.
  rewrite <-size_dom. apply subseteq_size.
  intros x Hx%elem_of_list_to_set. apply elem_of_dom. by eapply chain_live.
Qed.

(** The loop of [mkreverse] on the cells [suf] of a chain still to
    visit, [occ] being the cells visited. *)
Lemma mkreverse_loop_chain h0 :
  heap_closed h0 →
  ∀ suf x t (occ : gset loc) h (r : ref atom) rcells fuel,
    chain h0 x suf t → NoDup suf →
    (∀ y, y ∈ suf → y ∉ occ) → (∀ d, t = RCons d → d ∈ occ ∨ d ∈ suf) →
    heap_closed h → h0 ⊆ h → proper_list h r rcells →
    length suf + 1 < fuel →
    ∃ r' h' cells',
      mkreverse_loop fuel h (MkIter (RCons x) occ) (Z.of_nat (length suf)) r =
        Some (r', h') ∧
      heap_closed h' ∧ h ⊆ h' ∧ proper_list h' r' (cells' ++ rcells) ∧
      length cells' = length suf ∧
      cars h' (cells' ++ rcells) = rev (cars h0 suf) ++ cars h rcells.
Proof.
  intros Hclosed0 suf x t occ h r rcells fuel Hch.
  revert occ h r rcells fuel.
  induction Hch as [x cl Hx|x cl d suf t Hx Hd Hch IH];
    intros occ h r rcells fuel Hnd Hfresh Hstop Hclosed Hsub Hr Hfuel;
    (destruct fuel as [|fuel]; [simpl in Hfuel; lia|]);
    cbn [mkreverse_loop]; unfold ConsIterator_next; cbn [it_cons it_occurence];
    (rewrite decide_False by (apply Hfresh; set_solver));
    rewrite (lookup_weaken _ _ _ _ Hx Hsub);
    (rewrite (proj2 (Z.ltb_ge _ _)) by (simpl length; lia));
    unfold mkcons, Cons_init;
    set (k := fresh (dom h)); set (h1 := <[k := Cell (car cl) r]> h);
    assert (h ⊆ h1) as Hsub1 by (apply insert_subseteq, fresh_cell);
    assert (heap_closed h1) as Hclosed1
      by (apply heap_closed_alloc;
          [done|eapply ref_live_mono; [done|]; by destruct (Hclosed0 x cl Hx)
          |by eapply proper_list_ref_live]);
    assert (proper_list h1 (RCons k) (k :: rcells)) as Hr1
      by (apply proper_list_cons; [done|]; intros y Hy; by eapply proper_list_live);
    assert (cars h1 (k :: rcells) = car cl :: cars h rcells) as Hcars1
      by (simpl; subst h1; rewrite lookup_insert_eq; simpl; f_equal;
          apply cars_mono; [done|]; intros y Hy; by eapply proper_list_live).
  - (* the last cell *)
    exists (RCons k), h1, [k].
    split_and!; [|done|done|done|done|simpl app; rewrite Hcars1; simpl; by rewrite Hx].
    destruct fuel as [|fuel]; [simpl in Hfuel; lia|].
    cbn [mkreverse_loop]. unfold ConsIterator_next. cbn [it_cons it_occurence].
    destruct (cdr cl) as [|d|a] eqn:E; [done| |done].
    rewrite decide_True; [done|].
    destruct (Hstop d eq_refl) as [?|?]; set_solver.
  - (* a cell before the last *)
    apply NoDup_cons in Hnd as [Hxsuf Hnd]. rewrite Hd.
    destruct (IH ({[x]} ∪ occ) h1 (RCons k) (k :: rcells) fuel)
      as (r' & h' & cells' & Hloop & Hcl' & Hsub' & Hpl & Hlen & Hcars);
      [done| | |done|by etrans|done|simpl in Hfuel; lia|].
    { intros y Hy. specialize (Hfresh y). set_solver. }
    { intros e He. destruct (Hstop e He) as [?|[->|?]%elem_of_cons]; set_solver. }
    exists r', h', (cells' ++ [k]).
    replace (Z.of_nat (length (x :: suf)) - 1)%Z with (Z.of_nat (length suf))
      by (simpl length; lia).
    split_and!; [done|done|by etrans|by rewrite <-app_assoc|rewrite length_app; simpl; lia|].
    rewrite <-app_assoc. simpl app. rewrite Hcars, Hcars1. simpl. rewrite Hx. simpl.
    by rewrite <-app_assoc.
Qed.

Lemma mkreverse_chain h c cells t :
  heap_closed h → chain h c cells t → NoDup cells → chain_stops cells t →
  ∃ r h' cells',
    mkreverse h (RCons c) = Some (Ok r, h') ∧ heap_closed h' ∧ h ⊆ h' ∧
    proper_list h' r cells' ∧ length cells' = length cells ∧
    cars h' cells' = rev (cars h cells).
Proof.
  intros Hclosed Hch Hnd Hstop.
  destruct (mkreverse_loop_chain h Hclosed cells c t ∅ h RNil [] (size h + 2))
    as (r & h' & cells' & Hloop & Hcl' & Hsub & Hpl & Hlen & Hcars);
    [done|done|set_solver| |done|done|done| |].
  { intros d Hd. right. by apply Hstop. }
  { pose proof (chain_length_le _ _ _ _ Hch Hnd). lia. }
  exists r, h', cells'. rewrite !app_nil_r in *.
  split_and!; [|done..].
  unfold mkreverse, list_len. rewrite (Cons_len_of_chain h c cells t) by done.
  unfold ConsIterator_init. by rewrite Hloop.
Qed.

(** X6.  [mkreverse] of a chain, proper, dotted or circular, makes a proper
    list of new cells that holds the [car]s of the chain's distinct cells
    in reverse order; the atom that ends a dotted chain is left out, and
    the chain itself is as it was.  Reversing the result gives the
    [car]s in their first order. *)
Lemma mkreverse_reverses h c cells t :
  heap_closed h → chain h c cells t → NoDup cells → chain_stops cells t →
  ∃ r h', mkreverse h (RCons c) = Some (Ok r, h') ∧ heap_closed h' ∧ h ⊆ h' ∧
          Cons_iter h' r = Some (rev (cars h cells)) ∧
          list_len h' r = Some (Z.of_nat (length cells)) ∧
          ∃ r2 h2, mkreverse h' r = Some (Ok r2, h2) ∧
                   Cons_iter h2 r2 = Some (cars h cells).
Proof.
  intros Hclosed Hch Hnd Hstop.
  destruct (mkreverse_chain h c cells t) as (r & h' & cells' & Hrev & Hcl' & Hsub & Hpl & Hlen & Hcars);
    [done..|].
  exists r, h'. split_and!; [done..| | |].
  - by rewrite (proj1 (proper_list_iter h' r _ Hcl' Hpl)), Hcars.
  - by rewrite (proj2 (proper_list_iter h' r _ Hcl' Hpl)), Hlen.
  - destruct r as [|c'|a]; simpl in Hpl; [|destruct Hpl as [Hch' Hnd']|done].
    { subst. destruct (chain_head _ _ _ _ Hch) as [tl ->]. done. }
    destruct (mkreverse_chain h' c' cells' RNil)
      as (r2 & h2 & cells2 & Hrev2 & Hcl2 & Hsub2 & Hpl2 & Hlen2 & Hcars2); [done..|].
    exists r2, h2. split; [done|].
    rewrite (proj1 (proper_list_iter h2 r2 _ Hcl2 Hpl2)), Hcars2, Hcars.
    by rewrite rev_involutive.
Qed.

(** *** Appending *)

Lemma chain_last_cell h c cells t :
  chain h c cells t → ∃ p cl, last cells = Some p ∧ h !! p = Some cl ∧ cdr cl = t.
Proof.
  induction 1 as [c cl Hc|c cl d cells t Hc Hd Hch (p & cl' & Hlast & Hp & Ht)].
  - by exists c, cl.
  - exists p, cl'. split; [|done].
    destruct (chain_head _ _ _ _ Hch) as [tl ->]. done.
Qed.

Lemma nconc_loop_chain h c cells t p :
  chain h c cells t → last cells = Some p →
  nconc_loop h (length cells - 1) (RCons c) = Some (RCons p).
Proof.
  induction 1 as [c cl Hc|c cl d cells t Hc Hd Hch IH]; intros Hlast.
  - simpl in *. congruence.
  - destruct (chain_head _ _ _ _ Hch) as [tl ->].
    simpl length. replace (S (S (length tl)) - 1) with (S (length (d :: tl) - 1))
      by (simpl; lia).
    cbn [nconc_loop ref_cdr]. rewrite Hc. simpl. rewrite Hd. by apply IH.
Qed.

(** Setting the [cdr] of the last cell of a chain of distinct cells
    changes what ends the chain and nothing else of it. *)
Lemma chain_set_last h c cells t p cl (t' : ref atom) :
  chain h c cells t → NoDup cells → last cells = Some p → h !! p = Some cl →
  chain (<[p := Cell (car cl) t']> h) c cells t'.
Proof.
  induction 1 as [c cl0 Hc|c cl0 d cells t Hc Hd Hch IH]; intros Hnd Hlast Hp.
  - simpl in Hlast. injection Hlast as ->.
    apply (chain_last _ _ (Cell (car cl) t')). by rewrite lookup_insert_eq.
  - destruct (chain_head _ _ _ _ Hch) as [tl ->].
    apply NoDup_cons in Hnd as [Hc' Hnd].
    assert (p ≠ c) as Hne.
    { intros ->. apply Hc'. apply last_Some_elem_of. by rewrite <-Hlast. }
    eapply chain_next; [by rewrite lookup_insert_ne|done|]. by apply IH.
Qed.

(** X7.  [nconc(l1, l2)] changes one field: the [cdr] of the last of the
    distinct cells of [l1], which becomes [l2], whatever it was; the
    atom that ended a dotted chain is lost and a circular chain is cut
    open.  It returns [l1], now the chain of the same cells ended by
    [l2]. *)
Lemma nconc_sets_last_cdr h c cells t (l2 : ref atom) :
  heap_closed h → chain h c cells t → NoDup cells → chain_stops cells t →
  ∃ p cl, last cells = Some p ∧ h !! p = Some cl ∧ cdr cl = t ∧
    nconc h (RCons c) l2 = Some (Ok (RCons c), <[p := Cell (car cl) l2]> h) ∧
    chain (<[p := Cell (car cl) l2]> h) c cells l2.
Proof.
  intros Hclosed Hch Hnd Hstop.
  destruct (chain_last_cell _ _ _ _ Hch) as (p & cl & Hlast & Hp & Ht).
  exists p, cl. split_and!; [done..| |by eapply chain_set_last].
  unfold nconc. rewrite (Cons_len_of_chain h c cells t) by done.
  replace (Z.to_nat (Z.of_nat (length cells) - 1)) with (length cells - 1) by lia.
  rewrite (nconc_loop_chain _ _ _ _ _ Hch Hlast). simpl. by rewrite Hp.
Qed.

Lemma chain_app h c cells d cells2 t :
  chain h c cells (RCons d) → chain h d cells2 t → chain h c (cells ++ cells2) t.
Proof.
  intros Hch Hch2. remember (RCons d) as t0 eqn:Ht0.
  induction Hch as [c cl Hc|c cl e cells t0 Hc He Hch IH]; subst.
  - simpl. by eapply chain_next.
  - simpl. eapply chain_next; [done..|]. by apply IH.
Qed.

Lemma cars_same_car h h' (cells : list loc) :
  (∀ x, x ∈ cells → car <$> h' !! x = car <$> h !! x) → cars h' cells = cars h cells.
Proof.
  induction cells as [|x cells IH]; intros Hsame; [done|].
  simpl. pose proof (Hsame x ltac:(set_solver)) as Hx.
  rewrite IH by (intros y Hy; apply Hsame; set_solver).
  destruct (h' !! x), (h !! x); simplify_eq/=; congruence.
Qed.

Lemma cars_app h (cells1 cells2 : list loc) :
  cars h (cells1 ++ cells2) = cars h cells1 ++ cars h cells2.
Proof.
  induction cells1 as [|x cells1 IH]; [done|].
  simpl. destruct (h !! x); simpl; by rewrite IH.
Qed.

(** A new cell hung on the last cell of a chain. *)
Lemma chain_snoc h r cells t p clp (a t' : ref atom) :
  chain h r cells t → NoDup cells → last cells = Some p → h !! p = Some clp →
  chain (<[p := Cell (car clp) (RCons (fresh (dom h)))]>
           (<[fresh (dom h) := Cell a t']> h))
        r (cells ++ [fresh (dom h)]) t'.
Proof.
  intros Hch Hnd Hlast Hp.
  set (k := fresh (dom h)). set (h1 := <[k := Cell a t']> h).
  assert (h ⊆ h1) as Hsub by (apply insert_subseteq, fresh_cell).
  assert (p ≠ k) as Hne.
  { intros E. rewrite E in Hp. subst k. by rewrite fresh_cell in Hp. }
  eapply chain_app.
  - eapply chain_set_last; [by eapply chain_mono|done|done|].
    by eapply lookup_weaken.
  - apply (chain_last _ _ (Cell a t')).
    rewrite lookup_insert_ne by done. subst h1. by rewrite lookup_insert_eq.
Qed.

(** One turn of the loop of [mkappend]: a new cell that holds [a] is
    hung on [c_last], the last copy made. *)
Lemma mkappend_step h0 h r pre c_last (a : ref atom) :
  heap_closed h → h0 ⊆ h → ref_live h a →
  chain h r (pre ++ [c_last]) RNil → NoDup (pre ++ [c_last]) →
  (∀ y, y ∈ pre ++ [c_last] → h0 !! y = None) →
  ∃ cll, h !! c_last = Some cll ∧
    let k := fresh (dom h) in
    let h2 := <[c_last := Cell (car cll) (RCons k)]> (<[k := Cell a RNil]> h) in
    heap_closed h2 ∧ h0 ⊆ h2 ∧ chain h2 r ((pre ++ [c_last]) ++ [k]) RNil ∧
    NoDup ((pre ++ [c_last]) ++ [k]) ∧ h0 !! k = None ∧
    cars h2 ((pre ++ [c_last]) ++ [k]) = cars h (pre ++ [c_last]) ++ [a].
Proof.
  intros Hclosed Hsub Ha Hr Hnd Hfresh.
  assert (is_Some (h !! c_last)) as [cll Hcl] by (eapply chain_live; [done|set_solver]).
  exists cll. split; [done|]. intros k h2.
  set (h1 := <[k := Cell a RNil]> h) in *.
  assert (h !! k = None) as Hk by apply fresh_cell.
  assert (h ⊆ h1) as Hsub1 by (by apply insert_subseteq).
  assert (k ≠ c_last) as Hne by (intros E; rewrite E in Hk; congruence).
  assert (h1 !! c_last = Some cll) as Hcl1 by (subst h1; by rewrite lookup_insert_ne).
  assert (heap_closed h1) as Hclosed1 by (by apply heap_closed_alloc).
  assert (k ∉ pre ++ [c_last]) as Hkn.
  { intros Hin. destruct (chain_live _ _ _ _ _ Hr Hin) as [? ?]. congruence. }
  split_and!.
  - apply (heap_closed_update h1 c_last cll); [done..| |]; simpl.
    + by destruct (Hclosed1 c_last cll Hcl1).
    + subst h1. rewrite lookup_insert_eq. eauto.
  - apply map_subseteq_spec. intros y cl Hy.
    assert (y ≠ c_last).
    { intros ->. rewrite Hfresh in Hy; [done|set_solver]. }
    subst h2. rewrite lookup_insert_ne by done.
    eapply lookup_weaken; [|exact Hsub1]. by eapply lookup_weaken.
  - eapply chain_snoc; [done|done| |done]. by rewrite last_snoc.
  - apply NoDup_app. split_and!; [done| |apply NoDup_singleton].
    intros y Hy ->%list_elem_of_singleton. done.
  - eapply lookup_weaken_None; [exact Hk|done].
  - rewrite cars_app. f_equal.
    + apply cars_same_car. intros y Hy.
      assert (y ≠ k) by (intros ->; done).
      subst h2. destruct (decide (y = c_last)) as [->|Hyc].
      * rewrite lookup_insert_eq, Hcl. done.
      * rewrite lookup_insert_ne by done. subst h1. by rewrite lookup_insert_ne.
    + simpl. subst h2. rewrite lookup_insert_ne by done.
      subst h1. by rewrite lookup_insert_eq.
Qed.

(** The loop of [mkappend]: [suf] are the cells of the chain still to
    copy, [pre ++ [c_last]] the copies made. *)
Lemma mkappend_loop_chain h0 :
  heap_closed h0 →
  ∀ suf x t, chain h0 x suf t →
  ∀ h r pre c_last,
    heap_closed h → h0 ⊆ h →
    chain h r (pre ++ [c_last]) RNil → NoDup (pre ++ [c_last]) →
    (∀ y, y ∈ pre ++ [c_last] → h0 !! y = None) →
    ∃ cells2 c' h',
      mkappend_loop h (length suf) (RCons c_last) (RCons x) = Some (RCons c', h') ∧
      heap_closed h' ∧ h0 ⊆ h' ∧
      chain h' r (pre ++ [c_last] ++ cells2) RNil ∧
      last (c_last :: cells2) = Some c' ∧
      NoDup (pre ++ [c_last] ++ cells2) ∧
      (∀ y, y ∈ cells2 → h0 !! y = None) ∧
      length cells2 = length suf ∧
      cars h' (pre ++ [c_last] ++ cells2) = cars h (pre ++ [c_last]) ++ cars h0 suf.
Proof.
  intros Hclosed0.
  induction 1 as [x cl Hx|x cl d suf t Hx Hd Hch IH];
    intros h r pre c_last Hclosed Hsub Hr Hnd Hfresh;
    (assert (ref_live h (car cl)) as Ha
       by (eapply ref_live_mono; [done|]; by destruct (Hclosed0 x cl Hx)));
    destruct (mkappend_step h0 h r pre c_last (car cl) Hclosed Hsub Ha Hr Hnd Hfresh)
      as (cll & Hcl & Hcl2 & Hsub2 & Hr2 & Hnd2 & Hk & Hcars2);
    (assert (fresh (dom h) ≠ c_last) as Hne
       by (intros E; rewrite <-E in Hcl; by rewrite fresh_cell in Hcl));
    simpl length; cbn [mkappend_loop ref_car ref_cdr];
    rewrite (lookup_weaken _ _ _ _ Hx Hsub); simpl;
    rewrite lookup_insert_ne by done; rewrite Hcl; simpl.
  - exists [fresh (dom h)], (fresh (dom h)). eexists. split_and!; [done|done|done| |done| | |done|].
    + by rewrite <-app_assoc in Hr2.
    + by rewrite <-app_assoc in Hnd2.
    + by intros y ->%list_elem_of_singleton.
    + rewrite <-app_assoc in Hcars2. simpl app in *. rewrite Hcars2. simpl. by rewrite Hx.
  - rewrite Hd.
    edestruct (IH _ r (pre ++ [c_last]) (fresh (dom h)) Hcl2 Hsub2 Hr2 Hnd2)
      as (cells2 & c' & h' & Hloop & Hcl' & Hsub' & Hr' & Hlast & Hnd' & Hfresh' & Hlen & Hcars').
    { intros y [Hy| ->%list_elem_of_singleton]%elem_of_app; [by apply Hfresh|done]. }
    exists (fresh (dom h) :: cells2), c', h'.
    split_and!; [done|done|done| | | | | |].
    + by rewrite <-app_assoc in Hr'.
    + done.
    + by rewrite <-app_assoc in Hnd'.
    + by intros y [->|Hy]%elem_of_cons; [|apply Hfresh'].
    + simpl. by rewrite Hlen.
    + rewrite <-app_assoc in Hcars'. simpl app in *. rewrite Hcars', Hcars2. simpl.
      rewrite Hx. simpl. by rewrite <-app_assoc.
Qed.

(** The end of [mkappend]: [c.cdr = l2] on the last copy. *)
Lemma mkappend_finish h h2 r cells' c' (l2 : ref atom) :
  heap_closed h → heap_closed h2 → h ⊆ h2 → ref_live h l2 →
  chain h2 r cells' RNil → last cells' = Some c' → NoDup cells' →
  (∀ y, y ∈ cells' → h !! y = None) →
  ∃ h3, set_cdr h2 (RCons c') l2 = Some (Ok tt, h3) ∧
    heap_closed h3 ∧ h ⊆ h3 ∧ chain h3 r cells' l2 ∧ cars h3 cells' = cars h2 cells' ∧
    (∀ cells2, proper_list h l2 cells2 →
       Cons_iter h3 (RCons r) = Some (cars h2 cells' ++ cars h cells2)).
Proof.
  intros Hclosed Hclosed2 Hsub Hl2 Hr Hlast Hnd Hfresh.
  assert (c' ∈ cells') as Hc' by (by apply last_Some_elem_of).
  destruct (chain_live _ _ _ _ _ Hr Hc') as [clc Hclc].
  set (h3 := <[c' := Cell (car clc) l2]> h2).
  assert (heap_closed h3) as Hclosed3.
  { apply (heap_closed_update h2 c' clc); [done..| |]; simpl.
    - by destruct (Hclosed2 c' clc Hclc).
    - by eapply ref_live_mono. }
  assert (h ⊆ h3) as Hsub3 by (apply insert_subseteq_r; [by apply Hfresh|done]).
  assert (chain h3 r cells' l2) as Hr3 by (by eapply chain_set_last).
  assert (cars h3 cells' = cars h2 cells') as Hcars.
  { apply cars_same_car. intros y Hy. subst h3.
    destruct (decide (y = c')) as [->|Hne].
    - by rewrite lookup_insert_eq, Hclc.
    - by rewrite lookup_insert_ne. }
  exists h3. split_and!; [by simpl; rewrite Hclc|done..|].
  intros cells2 Hpl. rewrite <-Hcars.
  destruct l2 as [|c2|a]; simpl in Hpl; [subst|destruct Hpl as [Hch2 Hnd2]|done].
  - rewrite (Cons_iter_of_chain h3 r cells' RNil); [done..|]. by intros d.
  - rewrite (Cons_iter_of_chain h3 r (cells' ++ cells2) RNil).
    + rewrite app_nil_r, cars_app. do 2 f_equal. apply cars_mono; [done|].
      intros y Hy. by eapply chain_live.
    + done.
    + eapply chain_app; [done|]. by eapply chain_mono.
    + apply NoDup_app. split_and!; [done| |done].
      intros y Hy Hy2. destruct (chain_live _ _ _ _ _ Hch2 Hy2) as [? Hlive].
      rewrite Hfresh in Hlive; done.
    + by intros d.
Qed.

(** X8.  [mkappend(l1, l2)] for a chain [l1], proper, dotted or circular,
    leaves every cell there was as it was and makes a chain of new
    cells that holds the [car]s of the distinct cells of [l1] in order
    and ends in [l2] itself; the atom that ends a dotted [l1] is left
    out.  When [l2] is a proper list, iterating the result yields the
    [car]s of [l1] and then those of [l2]. *)
Lemma mkappend_copies h c cells t (l2 : ref atom) :
  heap_closed h → ref_live h l2 → chain h c cells t → NoDup cells → chain_stops cells t →
  ∃ r cells' h',
    mkappend h (RCons c) l2 = Some (Ok (RCons r), h') ∧
    heap_closed h' ∧ h ⊆ h' ∧
    chain h' r cells' l2 ∧ NoDup cells' ∧ (∀ y, y ∈ cells' → h !! y = None) ∧
    cars h' cells' = cars h cells ∧
    (∀ cells2, proper_list h l2 cells2 →
       Cons_iter h' (RCons r) = Some (cars h cells ++ cars h cells2)).
Proof.
  intros Hclosed Hl2 Hch Hnd Hstop.
  unfold mkappend. rewrite (Cons_len_of_chain h c cells t) by done.
  replace (Z.to_nat (Z.of_nat (length cells) - 1)) with (length cells - 1) by lia.
  destruct (chain_inv _ _ _ _ Hch) as (cl & Hc & Hcases).
  cbn [ref_car ref_cdr]. rewrite Hc. simpl. unfold Cons_init.
  set (k := fresh (dom h)). set (h1 := <[k := Cell (car cl) RNil]> h).
  assert (h !! k = None) as Hk by apply fresh_cell.
  assert (h ⊆ h1) as Hsub1 by (by apply insert_subseteq).
  assert (heap_closed h1) as Hclosed1.
  { apply heap_closed_alloc; [done| |done]. by destruct (Hclosed c cl Hc). }
  assert (chain h1 k ([] ++ [k]) RNil) as Hr1.
  { apply (chain_last _ _ (Cell (car cl) RNil)). subst h1. by rewrite lookup_insert_eq. }
  assert (cars h1 [k] = [car cl]) as Hcars1.
  { simpl. subst h1. by rewrite lookup_insert_eq. }
  destruct Hcases as [[-> ->]|(d & cells2 & Hd & -> & Hch2)].
  - simpl length. simpl mkappend_loop.
    destruct (mkappend_finish h h1 k [k] k l2) as (h3 & -> & Hcl3 & Hsub3 & Hr3 & Hcars3 & Hit);
      [done..|apply NoDup_singleton|by intros y ->%list_elem_of_singleton|].
    exists k, [k], h3.
    split_and!; [done..|apply NoDup_singleton|by intros y ->%list_elem_of_singleton| |].
    + rewrite Hcars3, Hcars1. simpl. by rewrite Hc.
    + intros cs Hcs. rewrite (Hit cs Hcs), Hcars1. simpl. by rewrite Hc.
  - replace (length (c :: cells2) - 1) with (length cells2) by (simpl; lia). rewrite Hd.
    destruct (mkappend_loop_chain h Hclosed cells2 d t Hch2 h1 k [] k)
      as (cells' & c' & h2 & -> & Hclosed2 & Hsub2 & Hr2 & Hlast & Hnd2 & Hfresh & Hlen & Hcars2);
      [done..|apply NoDup_singleton|by intros y ->%list_elem_of_singleton|].
    change ([] ++ [k] ++ cells') with (k :: cells') in *.
    change ([] ++ [k]) with [k] in *.
    destruct (mkappend_finish h h2 k (k :: cells') c' l2) as (h3 & -> & Hcl3 & Hsub3 & Hr3 & Hcars3 & Hit);
      [done..| |].
    { intros y [->|Hy]%elem_of_cons; [done|by apply Hfresh]. }
    exists k, (k :: cells'), h3.
    split_and!; [done..| | |].
    + intros y [->|Hy]%elem_of_cons; [done|by apply Hfresh].
    + rewrite Hcars3, Hcars2, Hcars1. simpl. by rewrite Hc.
    + intros cs Hcs. rewrite (Hit cs Hcs), Hcars2, Hcars1. simpl. by rewrite Hc.
Qed.

End ConsCellsFacts.

(** ** Complex numbers *)

Section NumbersFacts.
Context `{Host}.

Lemma reduce_frac_reduced x : reduced (reduce_frac x).
Proof.
  destruct x as [z|q|f]; cbn; try done.
  destruct (denominator q =? 1)%Z eqn:E; cbn; [done|]. by apply Z.eqb_neq.
Qed.

Lemma reduce_frac_idem x : reduce_frac (reduce_frac x) = reduce_frac x.
Proof.
  destruct x as [z|q|f]; cbn; try done.
  destruct (denominator q =? 1)%Z eqn:E; cbn; [done|]. by rewrite E.
Qed.

Lemma reduce_frac_is_zero x : num_is_zero (reduce_frac x) = num_is_zero x.
Proof.
  destruct x as [z|q|f]; cbn; try done.
  by destruct (denominator q =? 1)%Z.
Qed.

Lemma reduce_frac_exact x : is_exact (reduce_frac x) = is_exact x.
Proof.
  destruct x as [z|q|f]; cbn; try done.
  by destruct (denominator q =? 1)%Z.
Qed.

Lemma Complex_components_reduced v1 v2 :
  reduced (fst (Complex_components v1 v2)) ∧ reduced (snd (Complex_components v1 v2)).
Proof.
  unfold Complex_components.
  destruct v1, v2; simpl; split; apply reduce_frac_reduced.
Qed.

(** C3.  Whatever the two arguments, [Complex(v1, v2)] hands back reduced
    components only: a real number that is no Fraction of denominator 1,
    or a Complex whose two attributes are such and whose imaginary part is
    not zero.  For two real arguments the components are
    [__reduce_frac(real)] and [__reduce_frac(imag)], where [__reduce_frac]
    turns a Fraction of denominator 1 into its numerator and leaves
    everything else alone; when the reduced imaginary part is zero the
    constructor returns the reduced real component itself.
    [Complex(Fraction(1, 2), 0)] is [Fraction(1, 2)]. *)
Theorem Complex_constructor_reduces :
  (∀ v1 v2,
     match Complex_value v1 v2 with
     | CReal x => reduced x
     | CComplex re im => reduced re ∧ reduced im ∧ num_is_zero im = false
     end) ∧
  (∀ q, reduce_frac (Fraction q) =
        if (denominator q =? 1)%Z then Int (numerator q) else Fraction q) ∧
  (∀ real imag,
     Complex_value (ArgReal real) (ArgReal imag) =
     if num_is_zero (reduce_frac imag) then CReal (reduce_frac real)
     else CComplex (reduce_frac real) (reduce_frac imag)) ∧
  (∀ v1 v2,
     num_is_zero (snd (Complex_components v1 v2)) = true →
     Complex_value v1 v2 = CReal (fst (Complex_components v1 v2))) ∧
  Complex_value (ArgReal (Fraction (1 # 2))) (ArgReal (Int 0)) = CReal (Fraction (1 # 2)).
Proof.
  split_and!.
  - intros v1 v2. unfold Complex_value.
    pose proof (Complex_components_reduced v1 v2) as [Hre Him].
    destruct (Complex_components v1 v2) as [re im]. simpl in *.
    destruct (num_is_zero im) eqn:E; auto.
  - done.
  - done.
  - intros v1 v2. unfold Complex_value.
    destruct (Complex_components v1 v2) as [re im]. simpl. by intros ->.
  - done.
Qed.

(** *** Division *)

Lemma reduce_comp_float real imag :
  is_exact real = false → is_exact imag = false →
  float_components (reduce_comp real imag) = true.
Proof.
  destruct real as [| |fr], imag as [| |fi]; try done. intros _ _.
  unfold reduce_comp, Complex_value. simpl.
  by destruct (float_is_zero fi).
Qed.

Lemma reduce_comp_exact real imag :
  is_exact real = true → is_exact imag = true →
  exact_components (reduce_comp real imag) = true.
Proof.
  intros Hre Him. unfold reduce_comp, Complex_value, Complex_components.
  rewrite !reduce_frac_idem.
  destruct (num_is_zero (reduce_frac imag)); simpl; rewrite ?reduce_frac_exact, ?Hre, ?Him; done.
Qed.

(** Where the code keeps its promise: a Complex with exact components
    divided by a nonzero Fraction has exact components, and so has one
    whose components are both Fractions divided by a nonzero int. *)
Lemma Complex_truediv_Fraction_exact real imag q :
  is_exact real = true → is_exact imag = true → numerator q ≠ 0%Z →
  ∃ c, Complex_truediv real imag (ArgReal (Fraction q)) = Ok c ∧
       exact_components c = true.
Proof.
  intros Hre Him Hq. unfold Complex_truediv, num_truediv. simpl.
  rewrite (proj2 (Z.eqb_neq _ _) Hq).
  destruct real as [a|p|], imag as [b|r|]; try done;
    eexists; (split; [reflexivity|by apply reduce_comp_exact]).
Qed.

Lemma Complex_truediv_Fractions_exact p r (x : number) :
  is_exact x = true → num_is_zero x = false →
  ∃ c, Complex_truediv (Fraction p) (Fraction r) (ArgReal x) = Ok c ∧
       exact_components c = true.
Proof.
  intros Hx Hz. unfold Complex_truediv, num_truediv. rewrite Hz.
  destruct x as [b|q|]; try done;
    eexists; (split; [reflexivity|by apply reduce_comp_exact]).
Qed.

(** Where it does not: on int components and an int divisor, [/] is true
    division and both components of the quotient are floats. *)
Lemma Complex_truediv_ints_float (a b c : Z) :
  c ≠ 0%Z →
  ∃ v, Complex_truediv (Int a) (Int b) (ArgReal (Int c)) = Ok v ∧
       float_components v = true.
Proof.
  intros Hc. unfold Complex_truediv, num_truediv. simpl.
  rewrite (proj2 (Z.eqb_neq _ _) Hc).
  eexists. split; [reflexivity|]. by apply reduce_comp_float.
Qed.

(** C4, at the failing input.  [Complex(1, 2) / 2]: the dividend has int
    components and the divisor is a nonzero int, and the quotient's
    components are floats, not exact rationals. *)
Theorem Complex_truediv_int_gives_float :
  ∃ v, Complex_truediv (Int 1) (Int 2) (ArgReal (Int 2)) = Ok v ∧
       float_components v = true ∧ exact_components v = false.
Proof.
  destruct (Complex_truediv_ints_float 1 2 2) as (v & Hv & Hf); [done|].
  exists v. split_and!; [done..|].
  destruct v as [[]|[] []]; simpl in *; done.
Qed.

(** The same for a Complex divisor: [Complex(1, 2) / Complex(1, 1)]. *)
Lemma Complex_truediv_Complex_gives_float :
  ∃ v, Complex_truediv (Int 1) (Int 2) (ArgComplex (Int 1) (Int 1)) = Ok v ∧
       float_components v = true.
Proof.
  unfold Complex_truediv, num_truediv. simpl.
  eexists. split; [reflexivity|]. by apply reduce_comp_float.
Qed.


(** *** Arithmetic *)

Section Arithmetic.
Context (float_neg : float → float).





(** *** Exact arithmetic *)

Lemma Qred_inject_Z a : Qred (inject_Z a) = inject_Z a.
Proof.
  pose proof (Qred_correct (inject_Z a)) as Heq.
  pose proof (gcd_Qred (inject_Z a)) as Hgcd.
  destruct (Qred (inject_Z a)) as [n d]. unfold Qeq, inject_Z in *. simpl in *.
  assert (Z.pos d = 1)%Z as Hd.
  { replace n with (Z.pos d * a)%Z in Hgcd by lia.
    rewrite Z.gcd_comm, Z.gcd_mul_diag_l in Hgcd by lia. done. }
  assert (d = 1%positive) as -> by lia. f_equal. lia.
Qed.

Lemma Qred_Qred q : Qred (Qred q) = Qred q.
Proof. apply Qred_complete, Qred_correct. Qed.

Lemma num_neg_exact x : exact_number x → exact_number (num_neg float_neg x).
Proof. destruct x; simpl; [done| |done]. intros _. apply Qred_Qred. Qed.

Lemma num_add_exact x y : exact_number x → exact_number y → exact_number (num_add x y).
Proof. destruct x, y; simpl; try done; intros _ _; apply Qred_Qred. Qed.

Lemma num_sub_exact x y : exact_number x → exact_number y → exact_number (num_sub x y).
Proof. destruct x, y; simpl; try done; intros _ _; apply Qred_Qred. Qed.

Lemma num_mul_exact x y : exact_number x → exact_number y → exact_number (num_mul x y).
Proof. destruct x, y; simpl; try done; intros _ _; apply Qred_Qred. Qed.

Lemma num_neg_Q x : exact_number x → num_Q (num_neg float_neg x) == - num_Q x.
Proof.
  destruct x; cbn [num_Q num_neg exact_number]; [|intros _; apply Qred_correct|done].
  intros _. unfold Qeq, inject_Z. simpl. lia.
Qed.

Lemma num_add_Q x y :
  exact_number x → exact_number y → num_Q (num_add x y) == num_Q x + num_Q y.
Proof.
  destruct x, y; cbn [num_Q num_add exact_number]; try done; intros _ _;
    try apply Qred_correct; try (unfold Qeq, inject_Z, Qplus; simpl; lia).
Qed.

Lemma num_sub_Q x y :
  exact_number x → exact_number y → num_Q (num_sub x y) == num_Q x - num_Q y.
Proof.
  destruct x, y; cbn [num_Q num_sub exact_number]; try done; intros _ _;
    try apply Qred_correct; try (unfold Qeq, inject_Z, Qminus, Qplus, Qopp; simpl; lia).
Qed.

Lemma num_mul_Q x y :
  exact_number x → exact_number y → num_Q (num_mul x y) == num_Q x * num_Q y.
Proof.
  destruct x, y; cbn [num_Q num_mul exact_number]; try done; intros _ _;
    try apply Qred_correct; try (unfold Qeq, inject_Z, Qmult; simpl; lia).
Qed.

Lemma num_is_zero_Q x : exact_number x → num_is_zero x = true ↔ num_Q x == 0.
Proof.
  destruct x as [a|q|f]; simpl; [| |done]; intros _.
  - rewrite Z.eqb_eq. unfold Qeq, inject_Z. simpl. lia.
  - unfold numerator. rewrite Z.eqb_eq. unfold Qeq. simpl. lia.
Qed.

(** Two exact numbers that stand for the same rational are reduced to
    the same number. *)
Lemma reduce_frac_canon x y :
  exact_number x → exact_number y → num_Q x == num_Q y → reduce_frac x = reduce_frac y.
Proof.
  assert (∀ a q, Qred q = q → inject_Z a == q → reduce_frac (Fraction q) = Int a) as Hmix.
  { intros a q Hq Heq. apply Qred_complete in Heq.
    rewrite Qred_inject_Z, Hq in Heq. by subst. }
  destruct x as [a|p|], y as [b|q|]; simpl num_Q; try done; intros Hx Hy Heq.
  - apply (proj1 (inject_Z_injective a b)) in Heq. by subst.
  - symmetry. by apply Hmix.
  - apply Hmix; [done|by symmetry].
  - apply Qred_complete in Heq. simpl in Hx, Hy. by rewrite Hx, Hy in Heq; subst.
Qed.

Lemma reduce_frac_id x : reduced x → reduce_frac x = x.
Proof.
  destruct x as [a|q|f]; unfold reduce_frac, reduced; try done.
  intros Hq. by rewrite (proj2 (Z.eqb_neq _ _) Hq).
Qed.

Lemma reduce_comp_real real imag :
  num_is_zero imag = true → reduce_comp real imag = CReal (reduce_frac real).
Proof. intros Hz. unfold reduce_comp. by rewrite reduce_frac_is_zero, Hz. Qed.

Lemma reduce_comp_complex real imag :
  num_is_zero imag = false →
  reduce_comp real imag = CComplex (reduce_frac real) (reduce_frac imag).
Proof.
  intros Hz. unfold reduce_comp, Complex_value, Complex_components.
  by rewrite !reduce_frac_idem, !reduce_frac_is_zero, Hz.
Qed.

(** X10.  For a Complex [z] of exact components, [z.conjugate()] is the
    Complex of the same real part and the negated imaginary part, and
    [z * z.conjugate()] is no Complex: it is the real number
    [real * real + imag * imag], an int when it has denominator 1. *)
Lemma Complex_mul_conjugate re im :
  exact_number re → exact_number im → reduced re → reduced im →
  num_is_zero im = false →
  conjugate float_neg re im = CComplex re (num_neg float_neg im) ∧
  Complex_mul re im (ArgComplex re (num_neg float_neg im)) =
    CReal (reduce_frac (num_add (num_mul re re) (num_mul im im))).
Proof.
  intros Hre Him Hrre Hrim Hz.
  pose proof (num_neg_exact im Him) as Hneg.
  pose proof (num_neg_Q im Him) as HnegQ.
  split.
  - unfold conjugate, Complex_value, Complex_components.
    assert (num_is_zero (num_neg float_neg im) = false) as Hnz.
    { apply not_true_iff_false. rewrite num_is_zero_Q by done. rewrite HnegQ.
      intros E. apply not_true_iff_false in Hz. apply Hz.
      rewrite num_is_zero_Q by done. rewrite <-(Qopp_involutive (num_Q im)), E. reflexivity. }
    rewrite reduce_frac_is_zero, Hnz. f_equal; [by apply reduce_frac_id|].
    apply reduce_frac_id. destruct im as [a|q|f]; simpl in *; [done| |done].
    rewrite Qred_opp, Him. done.
  - unfold Complex_mul. rewrite reduce_comp_real.
    + f_equal. apply reduce_frac_canon.
      * by repeat first [apply num_sub_exact|apply num_mul_exact].
      * by repeat first [apply num_add_exact|apply num_mul_exact].
      * rewrite num_sub_Q, num_add_Q, !num_mul_Q, HnegQ
          by (by repeat first [apply num_add_exact|apply num_mul_exact]).
        ring.
    + rewrite num_is_zero_Q by (by repeat first [apply num_add_exact|apply num_mul_exact]).
      rewrite num_add_Q, !num_mul_Q, HnegQ
        by (by repeat first [apply num_add_exact|apply num_mul_exact]).
      ring.
Qed.


Lemma reduce_comp_canon real imag real' imag' :
  exact_number real → exact_number imag → exact_number real' → exact_number imag' →
  num_Q real == num_Q real' → num_Q imag == num_Q imag' →
  reduce_comp real imag = reduce_comp real' imag'.
Proof.
  intros Hre Him Hre' Him' Hr Hi. unfold reduce_comp.
  by rewrite (reduce_frac_canon real real'), (reduce_frac_canon imag imag').
Qed.

Ltac exact_numbers :=
  by repeat first [apply num_add_exact|apply num_sub_exact|apply num_mul_exact
                  |apply num_neg_exact].

Ltac to_Q :=
  rewrite ?num_add_Q, ?num_sub_Q, ?num_mul_Q, ?num_neg_Q by exact_numbers.

(** X11.  On exact components, addition and multiplication of Complex
    numbers commute: the two orders hand back the same value. *)
Lemma Complex_add_mul_comm a b c d :
  exact_number a → exact_number b → exact_number c → exact_number d →
  Complex_add a b (ArgComplex c d) = Complex_add c d (ArgComplex a b) ∧
  Complex_mul a b (ArgComplex c d) = Complex_mul c d (ArgComplex a b).
Proof.
  intros Ha Hb Hc Hd. split; simpl; apply reduce_comp_canon; try exact_numbers;
    repeat to_Q; ring.
Qed.

(** X12.  On exact components, [z - z] and [z + (-z)] are the int 0, no
    Complex and no Fraction. *)
Lemma Complex_sub_self re im :
  exact_number re → exact_number im →
  Complex_sub re im (ArgComplex re im) = CReal (Int 0) ∧
  Complex_add re im (ArgComplex (num_neg float_neg re) (num_neg float_neg im)) =
    CReal (Int 0).
Proof.
  intros Hre Him.
  assert (reduce_comp (Int 0) (Int 0) = CReal (Int 0)) as <- by done.
  split; simpl; apply reduce_comp_canon; try exact_numbers; try done;
    repeat to_Q; simpl num_Q; ring.
Qed.




End Arithmetic.

End NumbersFacts.

(** ** Write-once attributes and interning *)

Section ObjectsFacts.
Context `{Host}.
Implicit Types (o : object) (σ : store) (l : loc) (name : list N).

Lemma setattr_guarded o name value :
  name ∈ write_once (obj_class o) → is_Some (obj_dict o !! name) →
  setattr o name value = (Raise (PermissionError name), o).
Proof.
  intros Hin Hset. unfold setattr.
  by rewrite !bool_decide_eq_true_2.
Qed.

Lemma delattr_guarded o name :
  name ∈ write_once (obj_class o) →
  delattr o name = (Raise (PermissionError name), o).
Proof. intros Hin. unfold delattr. by rewrite bool_decide_eq_true_2. Qed.

Lemma same_guarded_refl o : same_guarded o o.
Proof. by split. Qed.

Lemma same_guarded_trans o1 o2 o3 :
  same_guarded o1 o2 → same_guarded o2 o3 → same_guarded o1 o3.
Proof.
  intros [Hc1 Hd1] [Hc2 Hd2]. split; [congruence|].
  intros name Hin. rewrite Hd2, Hd1; [done..|]. by rewrite Hc1.
Qed.

Lemma same_guarded_constructed o o' :
  same_guarded o o' → constructed o → constructed o'.
Proof.
  intros [Hc Hd] Ho name Hin. rewrite Hc in Hin. rewrite Hd by done. by apply Ho.
Qed.

(** An assignment to a constructed object leaves what is guarded as it
    was, whether it raises or not. *)
Lemma setattr_same_guarded o name value :
  constructed o → same_guarded o (snd (setattr o name value)).
Proof.
  intros Ho. unfold setattr.
  destruct (bool_decide (name ∈ write_once (obj_class o))) eqn:Hin; simpl.
  - apply bool_decide_eq_true_1 in Hin.
    rewrite bool_decide_eq_true_2 by by apply Ho. apply same_guarded_refl.
  - apply bool_decide_eq_false_1 in Hin. split; [done|]. simpl.
    intros name' Hin'. rewrite lookup_insert_ne; [done|]. by intros ->.
Qed.

Lemma delattr_same_guarded o name : same_guarded o (snd (delattr o name)).
Proof.
  unfold delattr.
  destruct (bool_decide (name ∈ write_once (obj_class o))) eqn:Hin; simpl;
    [apply same_guarded_refl|].
  apply bool_decide_eq_false_1 in Hin.
  destruct (obj_dict o !! name) eqn:E; simpl; [|apply same_guarded_refl].
  split; [done|]. simpl. intros name' Hin'. rewrite lookup_delete_ne; [done|]. by intros ->.
Qed.

Lemma same_guarded_key_text o o' :
  obj_class o ≠ cls_Complex →
  same_guarded o o' → object_key_text o' = object_key_text o.
Proof.
  intros Hc [_ Hd]. unfold object_key_text. rewrite Hd; [done|].
  destruct (obj_class o); set_solver.
Qed.

Lemma same_guarded_key_complex o o' :
  obj_class o = cls_Complex →
  same_guarded o o' → object_key_complex o' = object_key_complex o.
Proof.
  intros Hc [_ Hd]. unfold object_key_complex.
  rewrite !Hd; [done|rewrite Hc; set_solver..].
Qed.

(** *** What the constructors make *)

Lemma new_object_text c v :
  c ≠ cls_Complex →
  new_object c [(py "value", AStr v)] = Object c {[py "value" := AStr v]}.
Proof. by destruct c. Qed.

Lemma new_object_complex real imag :
  new_object cls_Complex [(py "real", ANum real); (py "imag", ANum imag)] =
  Object cls_Complex (<[py "imag" := ANum imag]> {[py "real" := ANum real]}).
Proof. done. Qed.

Lemma new_id_fresh σ : objects σ !! new_id σ = None.
Proof. apply not_elem_of_dom. apply is_fresh. Qed.

(** *** Intern tables *)

Section Table.
Context {K : Type} `{Countable K}.
Implicit Types (T : gmap K loc) (objs : gmap loc object) (key_of : object → option K).


Lemma table_ok_update c key_of T objs l o o' :
  table_ok c key_of T objs →
  objs !! l = Some o → obj_class o' = obj_class o →
  (obj_class o = c → key_of o' = key_of o) →
  table_ok c key_of T (<[l := o']> objs).
Proof.
  intros [Hfwd Hback] Hl Hc Hk. split.
  - intros k l0 HT. destruct (Hfwd k l0 HT) as (o0 & Hl0 & Hc0 & Hk0).
    destruct (decide (l0 = l)) as [->|Hne].
    + exists o'. rewrite lookup_insert_eq. simplify_eq.
      split_and!; [done|done|]. by rewrite Hk.
    + exists o0. by rewrite lookup_insert_ne.
  - intros l0 o0 Hl0 Hc0. destruct (decide (l0 = l)) as [->|Hne].
    + rewrite lookup_insert_eq in Hl0. simplify_eq.
      destruct (Hback l o Hl) as (k & Hk0 & HT); [congruence|].
      exists k. split; [|done]. rewrite Hk; [done|congruence].
    + rewrite lookup_insert_ne in Hl0 by done. by apply Hback.
Qed.

Lemma table_ok_alloc_other c key_of T objs l onew :
  table_ok c key_of T objs →
  objs !! l = None → obj_class onew ≠ c →
  table_ok c key_of T (<[l := onew]> objs).
Proof.
  intros [Hfwd Hback] Hl Hc. split.
  - intros k l0 HT. destruct (Hfwd k l0 HT) as (o0 & Hl0 & Hc0 & Hk0).
    exists o0. rewrite lookup_insert_ne; [done|]. by intros ->; simplify_eq.
  - intros l0 o0 Hl0 Hc0. destruct (decide (l0 = l)) as [->|Hne].
    + rewrite lookup_insert_eq in Hl0. by simplify_eq.
    + rewrite lookup_insert_ne in Hl0 by done. by apply Hback.
Qed.

Lemma table_ok_alloc c key_of T objs l onew k :
  table_ok c key_of T objs →
  objs !! l = None → obj_class onew = c → key_of onew = Some k →
  T !! k = None →
  table_ok c key_of (<[k := l]> T) (<[l := onew]> objs).
Proof.
  intros [Hfwd Hback] Hl Hc Hk HT. split.
  - intros k0 l0 HT0. destruct (decide (k0 = k)) as [->|Hne].
    + rewrite lookup_insert_eq in HT0. simplify_eq.
      exists onew. by rewrite lookup_insert_eq.
    + rewrite lookup_insert_ne in HT0 by done.
      destruct (Hfwd k0 l0 HT0) as (o0 & Hl0 & Hc0 & Hk0).
      exists o0. rewrite lookup_insert_ne; [done|]. by intros ->; simplify_eq.
  - intros l0 o0 Hl0 Hc0. destruct (decide (l0 = l)) as [->|Hne].
    + rewrite lookup_insert_eq in Hl0. simplify_eq.
      exists k. by rewrite lookup_insert_eq.
    + rewrite lookup_insert_ne in Hl0 by done.
      destruct (Hback l0 o0 Hl0 Hc0) as (k0 & Hk0 & HT0).
      exists k0. split; [done|]. rewrite lookup_insert_ne; [done|]. by intros ->; simplify_eq.
Qed.

End Table.

(** *** The invariant of the store *)

Lemma store_ok_empty : store_ok empty_store.
Proof.
  unfold store_ok, table_ok. simpl.
  split_and!; intros ?? Hl; by rewrite lookup_empty in Hl.
Qed.

(** A new object of a class with an intern table, entered under its key. *)
Lemma store_ok_update σ l o o' :
  store_ok σ → objects σ !! l = Some o → constructed o → same_guarded o o' →
  store_ok (Store (<[l := o']> (objects σ))
                  (SymbolInstance σ) (CharInstance σ) (ComplexInstance σ)).
Proof.
  intros (Hcon & HS & HC & HX) Hl Ho Hsame.
  pose proof Hsame as [Hcls Hd].
  split_and!; simpl.
  - intros l0 o0 Hl0. destruct (decide (l0 = l)) as [->|Hne].
    + rewrite lookup_insert_eq in Hl0. simplify_eq. by eapply same_guarded_constructed.
    + rewrite lookup_insert_ne in Hl0 by done. by eapply Hcon.
  - eapply table_ok_update; [done..|]. intros Hc.
    apply same_guarded_key_text; [by rewrite Hc|done].
  - eapply table_ok_update; [done..|]. intros Hc.
    apply same_guarded_key_text; [by rewrite Hc|done].
  - eapply table_ok_update; [done..|]. intros Hc.
    by apply same_guarded_key_complex.
Qed.

Lemma constructed_text c v : c ≠ cls_Complex → constructed (Object c {[py "value" := AStr v]}).
Proof.
  intros Hc name Hin. simpl in *.
  assert (name = py "value") as -> by (destruct c; set_solver).
  by rewrite lookup_singleton_eq.
Qed.

Lemma constructed_complex real imag :
  constructed (Object cls_Complex (<[py "imag" := ANum imag]> {[py "real" := ANum real]})).
Proof.
  intros name Hin. simpl in *.
  apply elem_of_cons in Hin as [->|Hin]; [done|].
  apply list_elem_of_singleton in Hin as ->. by rewrite lookup_insert_eq.
Qed.

(** Every call keeps the invariant. *)
Lemma store_step_ok cfg σ σ' : store_ok σ → store_step cfg σ σ' → store_ok σ'.
Proof.
  intros Hok Hstep. pose proof Hok as (Hcon & HS & HC & HX).
  pose proof (new_id_fresh σ) as Hfresh.
  destruct Hstep as [value σ r σ' Hnew|value σ r σ' Hnew|value σ l σ' Hnew
                    |v1 v2 σ r σ' Hnew|l name value σ r σ' Hset|l name σ r σ' Hdel].
  - unfold Symbol_new in Hnew.
    destruct (arg_text σ cls_Symbol value) as [[l|v]|]; simplify_eq; [done|].
    destruct (Symbol_value cfg v) as [v'|e]; simplify_eq; [|done].
    destruct (SymbolInstance σ !! v') eqn:HT; simplify_eq; [done|].
    rewrite new_object_text by done.
    split_and!; simpl.
    + intros l0 o0 [[<- <-]|[? Hl0]]%lookup_insert_Some; [by apply constructed_text|by eapply Hcon].
    + by apply table_ok_alloc.
    + by apply table_ok_alloc_other.
    + by apply table_ok_alloc_other.
  - unfold Char_new in Hnew.
    destruct (arg_text σ cls_Char value) as [[l|v]|]; simplify_eq; [done|].
    destruct (Char_value v) as [v'|e]; simplify_eq; [|done].
    destruct (CharInstance σ !! v') eqn:HT; simplify_eq; [done|].
    rewrite new_object_text by done.
    split_and!; simpl.
    + intros l0 o0 [[<- <-]|[? Hl0]]%lookup_insert_Some; [by apply constructed_text|by eapply Hcon].
    + by apply table_ok_alloc_other.
    + by apply table_ok_alloc.
    + by apply table_ok_alloc_other.
  - unfold String_new in Hnew.
    match type of Hnew with match ?t with _ => _ end = _ => destruct t as [v|] end;
      simplify_eq.
    rewrite new_object_text by done.
    split_and!; simpl.
    + intros l0 o0 [[<- <-]|[? Hl0]]%lookup_insert_Some; [by apply constructed_text|by eapply Hcon].
    + by apply table_ok_alloc_other.
    + by apply table_ok_alloc_other.
    + by apply table_ok_alloc_other.
  - unfold Complex_new in Hnew.
    destruct (Complex_value v1 v2) as [x|real imag]; simplify_eq; [done|].
    destruct (ComplexInstance σ !! complex_key real imag) eqn:HT; simplify_eq; [done|].
    rewrite new_object_complex.
    split_and!; simpl.
    + intros l0 o0 [[<- <-]|[? Hl0]]%lookup_insert_Some; [by apply constructed_complex|by eapply Hcon].
    + by apply table_ok_alloc_other.
    + by apply table_ok_alloc_other.
    + by apply table_ok_alloc.
  - unfold store_setattr in Hset.
    destruct (objects σ !! l) as [o|] eqn:Hl; simplify_eq.
    pose proof (setattr_same_guarded o name value (Hcon l o Hl)) as Hsame.
    destruct (setattr o name value) as [r0 o']. simplify_eq.
    by eapply store_ok_update; [| |eapply Hcon|].
  - unfold store_delattr in Hdel.
    destruct (objects σ !! l) as [o|] eqn:Hl; simplify_eq.
    pose proof (delattr_same_guarded o name) as Hsame.
    destruct (delattr o name) as [r0 o']. simplify_eq.
    by eapply store_ok_update; [| |eapply Hcon|].
Qed.

Lemma reachable_ok cfg σ : reachable cfg σ → store_ok σ.
Proof.
  induction 1 as [|σ σ' _ IH Hstep]; [apply store_ok_empty|by eapply store_step_ok].
Qed.

Lemma reachable_steps cfg σ σ' :
  reachable cfg σ → rtc (store_step cfg) σ σ' → reachable cfg σ'.
Proof. intros Hr. induction 1; [done|]. eauto using reachable_step. Qed.

(** A call leaves every live object live, in its class, and with what
    its class guards. *)
Lemma store_step_frame cfg σ σ' l o :
  store_ok σ → store_step cfg σ σ' → objects σ !! l = Some o →
  ∃ o', objects σ' !! l = Some o' ∧ same_guarded o o'.
Proof.
  intros (Hcon & _) Hstep Hl.
  pose proof (new_id_fresh σ) as Hfresh.
  assert (l ≠ new_id σ) as Hne by (intros ->; congruence).
  destruct Hstep as [value σ r σ' Hnew|value σ r σ' Hnew|value σ l0 σ' Hnew
                    |v1 v2 σ r σ' Hnew|l0 name value σ r σ' Hset|l0 name σ r σ' Hdel].
  - unfold Symbol_new in Hnew.
    destruct (arg_text σ cls_Symbol value) as [[?|v]|]; simplify_eq;
      [by eauto using same_guarded_refl|].
    destruct (Symbol_value cfg v) as [v'|e]; simplify_eq; [|by eauto using same_guarded_refl].
    destruct (SymbolInstance σ !! v'); simplify_eq; [by eauto using same_guarded_refl|].
    exists o. simpl. rewrite lookup_insert_ne by done. eauto using same_guarded_refl.
  - unfold Char_new in Hnew.
    destruct (arg_text σ cls_Char value) as [[?|v]|]; simplify_eq;
      [by eauto using same_guarded_refl|].
    destruct (Char_value v) as [v'|e]; simplify_eq; [|by eauto using same_guarded_refl].
    destruct (CharInstance σ !! v'); simplify_eq; [by eauto using same_guarded_refl|].
    exists o. simpl. rewrite lookup_insert_ne by done. eauto using same_guarded_refl.
  - unfold String_new in Hnew.
    match type of Hnew with match ?t with _ => _ end = _ => destruct t as [v|] end;
      simplify_eq.
    exists o. simpl. rewrite lookup_insert_ne by done. eauto using same_guarded_refl.
  - unfold Complex_new in Hnew.
    destruct (Complex_value v1 v2) as [x|real imag]; simplify_eq;
      [by eauto using same_guarded_refl|].
    destruct (ComplexInstance σ !! complex_key real imag); simplify_eq;
      [by eauto using same_guarded_refl|].
    exists o. simpl. rewrite lookup_insert_ne by done. eauto using same_guarded_refl.
  - unfold store_setattr in Hset.
    destruct (objects σ !! l0) as [o0|] eqn:Hl0; simplify_eq.
    pose proof (setattr_same_guarded o0 name value (Hcon l0 o0 Hl0)) as Hsame.
    destruct (setattr o0 name value) as [r0 o']. simplify_eq. simpl in *.
    destruct (decide (l = l0)) as [->|Hne'].
    + exists o'. rewrite lookup_insert_eq. by simplify_eq.
    + exists o. rewrite lookup_insert_ne by done. eauto using same_guarded_refl.
  - unfold store_delattr in Hdel.
    destruct (objects σ !! l0) as [o0|] eqn:Hl0; simplify_eq.
    pose proof (delattr_same_guarded o0 name) as Hsame.
    destruct (delattr o0 name) as [r0 o']. simplify_eq. simpl in *.
    destruct (decide (l = l0)) as [->|Hne'].
    + exists o'. rewrite lookup_insert_eq. by simplify_eq.
    + exists o. rewrite lookup_insert_ne by done. eauto using same_guarded_refl.
Qed.

Lemma store_steps_frame cfg σ σ' l o :
  store_ok σ → rtc (store_step cfg) σ σ' → objects σ !! l = Some o →
  ∃ o', objects σ' !! l = Some o' ∧ same_guarded o o'.
Proof.
  intros Hok Hsteps. revert o Hok.
  induction Hsteps as [σ|σ σ1 σ2 Hstep Hsteps IH]; intros o Hok Hl;
    [by eauto using same_guarded_refl|].
  destruct (store_step_frame _ _ _ _ _ Hok Hstep Hl) as (o1 & Hl1 & Hs1).
  destruct (IH o1) as (o2 & Hl2 & Hs2); [by eapply store_step_ok|done|].
  eauto using same_guarded_trans.
Qed.

Lemma store_insert_id σ l o :
  objects σ !! l = Some o →
  Store (<[l := o]> (objects σ)) (SymbolInstance σ) (CharInstance σ) (ComplexInstance σ) = σ.
Proof. intros Hl. destruct σ; simpl in *. by rewrite insert_id. Qed.

(** C8.  In every store a run of the program reaches, for every live
    Symbol, Char, String or Complex [l] and every attribute [name] its
    class guards ([value]; [real] and [imag] for a Complex): the attribute
    is set; assigning to it raises [PermissionError] and leaves the store
    as it was; deleting it raises [PermissionError] and leaves the store as
    it was; and whatever calls follow, the attribute keeps its value. *)
Theorem write_once_attributes cfg σ l o name :
  reachable cfg σ → objects σ !! l = Some o →
  name ∈ write_once (obj_class o) →
  is_Some (getattr σ l name) ∧
  (∀ value, store_setattr l name value σ = Some (Raise (PermissionError name), σ)) ∧
  store_delattr l name σ = Some (Raise (PermissionError name), σ) ∧
  (∀ σ', rtc (store_step cfg) σ σ' → getattr σ' l name = getattr σ l name).
Proof.
  intros Hreach Hl Hin.
  pose proof (reachable_ok _ _ Hreach) as Hok.
  pose proof Hok as (Hcon & _).
  pose proof (Hcon l o Hl name Hin) as Hset.
  split_and!.
  - unfold getattr. by rewrite Hl.
  - intros value. unfold store_setattr. rewrite Hl, setattr_guarded by done.
    by rewrite store_insert_id.
  - unfold store_delattr. rewrite Hl, delattr_guarded by done.
    by rewrite store_insert_id.
  - intros σ' Hsteps.
    destruct (store_steps_frame _ _ _ _ _ Hok Hsteps Hl) as (o' & Hl' & _ & Hd).
    unfold getattr. rewrite Hl, Hl'. simpl. by apply Hd.
Qed.

(** *** Constructing twice *)




(** *** Division in the store *)

Lemma key_part_float x (f : float) :
  float_as_int f = None → key_part x = key_part (Float f) → x = Float f.
Proof.
  intros Hf. unfold key_part at 2. rewrite Hf.
  destruct x as [z|q|f']; cbn [key_part]; [done..|].
  destruct (float_as_int f'); [done|]. by intros [= ->].
Qed.

(** X1.  In every store a run of the program reaches, [z / 2] for the
    Complex [z] of attributes 1 and 2 is an object whose attribute [real]
    is the float [1 / 2], whether the object is new or was in the intern
    table: given that this float is no integer and that the float [2 / 2]
    is not zero, as Python has them. *)
Lemma store_truediv_real_float cfg σ z :
  float_as_int (int_truediv 1 2) = None →
  float_is_zero (int_truediv 2 2) = false →
  reachable cfg σ →
  getattr σ z (py "real") = Some (ANum (Int 1)) →
  getattr σ z (py "imag") = Some (ANum (Int 2)) →
  ∃ w σ', store_truediv z (ArgReal (Int 2)) σ = Some (Ok (inr w), σ') ∧
          getattr σ' w (py "real") = Some (ANum (Float (int_truediv 1 2))).
Proof.
  intros Hhalf Hone Hreach Hre Him.
  pose proof (reachable_ok _ _ Hreach) as (_ & _ & _ & [HX _]).
  unfold store_truediv. rewrite Hre, Him.
  unfold Complex_truediv, num_truediv, reduce_comp, Complex_new, Complex_value,
    Complex_components.
  cbn [num_is_zero]. change (2 =? 0)%Z with false. cbv iota.
  unfold reduce_frac, num_is_zero. rewrite !Hone.
  set (f1 := int_truediv 1 2) in *. set (f2 := int_truediv 2 2) in *.
  destruct (ComplexInstance σ !! complex_key (Float f1) (Float f2)) as [w|] eqn:HT.
  - exists w, σ. split; [done|].
    destruct (HX _ _ HT) as (o & Ho & _ & Hkey).
    unfold object_key_complex in Hkey. unfold getattr. rewrite Ho.
    change (Some o ≫= λ o, obj_dict o !! py "real") with (obj_dict o !! py "real").
    destruct (obj_dict o !! py "real") as [[|x]|]; try done.
    destruct (obj_dict o !! py "imag") as [[|y]|]; try done.
    injection Hkey as Hx _. by rewrite (key_part_float x f1 Hhalf Hx).
  - eexists _, _. split; [done|]. unfold getattr. cbn [objects].
    rewrite lookup_insert_eq, new_object_complex.
    change (Some ?o ≫= λ o, obj_dict o !! py "real") with (obj_dict o !! py "real").
    cbn [obj_dict]. rewrite lookup_insert_ne by done. by rewrite lookup_singleton_eq.
Qed.


End ObjectsFacts.

(** ** The reader *)

Section ReaderFacts.
Context `{Host}.
Implicit Types (cfg : Dialect) (st : streamer) (t : token) (v : value).
Implicit Types (text rest done prev w s : list N) (c : N).
Local Arguments read : simpl never.
Local Arguments state_at : simpl never.
Local Arguments inb : simpl never.
Local Arguments ord : simpl never.
Local Arguments py : simpl never.

(** *** Characters and strings *)

Lemma inb_true c l : inb c l = true ↔ c ∈ l.
Proof.
  unfold inb. rewrite existsb_exists. split.
  - intros (x & Hx & ->%N.eqb_eq). by apply list_elem_of_In.
  - intros Hc. exists c. split; [by apply list_elem_of_In|apply N.eqb_refl].
Qed.

Lemma inb_false c l : inb c l = false ↔ c ∉ l.
Proof. rewrite <-inb_true. by destruct (inb c l). Qed.

Lemma str_eqb_eq s1 s2 : str_eqb s1 s2 = true ↔ s1 = s2.
Proof.
  revert s2. induction s1 as [|c s1 IH]; intros [|d s2]; simpl; try done.
  rewrite andb_true_iff, N.eqb_eq, IH. split; [by intros [-> ->]|by intros [= -> ->]].
Qed.

Lemma str_eqb_refl s : str_eqb s s = true.
Proof. by apply str_eqb_eq. Qed.

(** *** The streamer *)

Lemma position_after_snoc text c :
  position_after (text ++ [c]) = advance_position (position_after text) c.
Proof. unfold position_after. by rewrite fold_left_app. Qed.

Lemma StringStreamer_state_at text : StringStreamer text = state_at [] [] Undef text.
Proof. done. Qed.

Lemma read_state_at done prev t c rest :
  read (state_at done prev t (c :: rest)) = (Some c, state_at (done ++ [c]) prev t rest).
Proof.
  unfold read, state_at.
  cbn [unread lookahead_token lookahead_line lookahead_col line col].
  rewrite position_after_snoc. unfold advance_position.
  by destruct (inb c [13%N; 10%N]).
Qed.

Lemma read_state_at_end done prev t :
  read (state_at done prev t []) = (None, state_at done prev t []).
Proof. done. Qed.

Lemma set_position_state_at done prev t rest :
  set_position (state_at done prev t rest) = state_at done done t rest.
Proof. done. Qed.

Lemma set_lookahead_token_state_at done prev t t' rest :
  set_lookahead_token t' (state_at done prev t rest) = state_at done prev t' rest.
Proof. done. Qed.

Lemma lookahead_char_state_at done prev t rest :
  lookahead_char (state_at done prev t rest) = head rest.
Proof. done. Qed.

Lemma unread_state_at done prev t rest : unread (state_at done prev t rest) = rest.
Proof. done. Qed.

(** *** The loops of the tokenizer *)

Lemma skip_whitespaces_unfold fuel st :
  skip_whitespaces fuel st =
  let '(d, st') := read st in
  match fuel, d with
  | S fuel', Some c => if inb c WHITESPACES then skip_whitespaces fuel' st' else (d, st')
  | _, _ => (d, st')
  end.
Proof. by destruct fuel. Qed.

(** Leading whitespace is skipped, and the first character that is none
    is returned. *)
Lemma skip_whitespaces_spec ws c rest done prev t fuel :
  Forall (λ d, d ∈ WHITESPACES) ws → c ∉ WHITESPACES →
  length ws ≤ fuel →
  skip_whitespaces fuel (state_at done prev t (ws ++ c :: rest)) =
  (Some c, state_at (done ++ ws ++ [c]) prev t rest).
Proof.
  intros Hws Hc. revert done fuel.
  induction Hws as [|d ws Hd Hws IH]; intros done fuel Hfuel;
    rewrite skip_whitespaces_unfold; simpl; rewrite read_state_at.
  - apply inb_false in Hc. rewrite Hc. by destruct fuel.
  - apply inb_true in Hd.
    destruct fuel as [|fuel]; [simpl in Hfuel; lia|]. rewrite Hd.
    rewrite IH by (simpl in Hfuel; lia). by rewrite <-app_assoc.
Qed.

(** At the end of the input there is nothing but whitespace to skip. *)
Lemma skip_whitespaces_end ws done prev t fuel :
  Forall (λ d, d ∈ WHITESPACES) ws → length ws ≤ fuel →
  skip_whitespaces fuel (state_at done prev t ws) =
  (None, state_at (done ++ ws) prev t []).
Proof.
  intros Hws. revert done fuel.
  induction Hws as [|d ws Hd Hws IH]; intros done fuel Hfuel;
    rewrite skip_whitespaces_unfold; simpl.
  - rewrite ?read_state_at_end, app_nil_r. by destruct fuel.
  - rewrite read_state_at. apply inb_true in Hd.
    destruct fuel as [|fuel]; [simpl in Hfuel; lia|]. rewrite Hd.
    rewrite IH by (simpl in Hfuel; lia). by rewrite <-app_assoc.
Qed.

Lemma read_run_unfold fuel s st :
  read_run fuel s st =
  match fuel, lookahead_char st with
  | S fuel', Some c =>
    if inb c DELIMITERS then (s, st)
    else read_run fuel' (s ++ [c]) (snd (read st))
  | _, _ => (s, st)
  end.
Proof. by destruct fuel. Qed.

(** The run of characters up to the next delimiter. *)
Lemma read_run_spec w rest s done prev t fuel :
  Forall (λ d, d ∉ DELIMITERS) w → stops_run rest → length w ≤ fuel →
  read_run fuel s (state_at done prev t (w ++ rest)) =
  (s ++ w, state_at (done ++ w) prev t rest).
Proof.
  intros Hw Hrest. revert s done fuel.
  induction Hw as [|d w Hd Hw IH]; intros s done fuel Hfuel;
    rewrite read_run_unfold, lookahead_char_state_at; simpl.
  - rewrite !app_nil_r. destruct fuel, rest as [|c rest]; simpl; try done.
    simpl in Hrest. apply inb_true in Hrest. by rewrite Hrest.
  - destruct fuel as [|fuel]; [simpl in Hfuel; lia|].
    apply inb_false in Hd. rewrite Hd, read_state_at. simpl.
    rewrite IH by (simpl in Hfuel; lia). by rewrite <-!app_assoc.
Qed.

(** *** The tokenizer on the first token of a text *)

Lemma lookahead_is_state_at done prev t rest c :
  lookahead_is c (state_at done prev t rest) =
  match rest with d :: _ => (d =? c)%N | [] => false end.
Proof. by destruct rest. Qed.

Lemma lookahead_in_state_at done prev t rest l :
  lookahead_in l (state_at done prev t rest) =
  match rest with d :: _ => inb d l | [] => false end.
Proof. by destruct rest. Qed.

Lemma tokenize_end cfg ws done prev t0 :
  Forall (λ d, d ∈ WHITESPACES) ws →
  tokenize cfg (state_at done prev t0 ws) = Some (Ok TNone, state_at (done ++ ws) prev t0 []).
Proof.
  intros Hws. unfold tokenize. cbn [_sxpr_tokenizer].
  rewrite unread_state_at, skip_whitespaces_end by done.
  by rewrite !andb_false_r.
Qed.

Lemma tokenize_start cfg ws c more done prev t0 :
  Forall (λ d, d ∈ WHITESPACES) ws → c ∉ WHITESPACES →
  (sxprlib_enableLineComment cfg && (c =? ord ";")%N) = false →
  (sxprlib_enableBlockComment cfg && (c =? ord "#")%N
    && match more with d :: _ => (d =? ord "|")%N | [] => false end) = false →
  tokenize cfg (state_at done prev t0 (ws ++ c :: more)) =
  token_from cfg c (state_at (done ++ ws ++ [c]) prev t0 more).
Proof.
  intros Hws Hc Hlc Hbc. unfold tokenize. cbn [_sxpr_tokenizer].
  rewrite unread_state_at, skip_whitespaces_spec by (rewrite ?length_app; simpl; done || lia).
  by rewrite Hlc, lookahead_is_state_at, Hbc.
Qed.

Lemma run_start_true cfg c more :
  run_start cfg c more = true →
  (c ∉ WHITESPACES) ∧
  (sxprlib_enableLineComment cfg && (c =? ord ";")%N) = false ∧
  (sxprlib_enableBlockComment cfg && (c =? ord "#")%N
    && match more with d :: _ => (d =? ord "|")%N | [] => false end) = false ∧
  (sxprlib_enableQuote cfg && (c =? ord "'")%N) = false ∧
  (sxprlib_enableFuncRef cfg && (c =? ord "#")%N
    && match more with d :: _ => (d =? ord "'")%N | [] => false end) = false ∧
  (c =? ord "(")%N = false ∧ (c =? ord ")")%N = false ∧
  ((c =? ord ".")%N && match more with d :: _ => inb d DELIMITERS | [] => false end) = false ∧
  (c =? DQUOTE)%N = false.
Proof.
  unfold run_start. rewrite !andb_true_iff, !negb_true_iff, inb_false. naive_solver.
Qed.

(** A token that is a run of characters: the tokenizer reads the run and
    classifies it. *)
Lemma tokenize_run cfg ws c w rest done prev t0 :
  Forall (λ d, d ∈ WHITESPACES) ws →
  run_start cfg c (w ++ rest) = true →
  Forall (λ d, d ∉ DELIMITERS) w → stops_run rest →
  tokenize cfg (state_at done prev t0 (ws ++ c :: w ++ rest)) =
  classify cfg (c :: w) (state_at (done ++ ws ++ c :: w) prev t0 rest).
Proof.
  intros Hws (Hc & Hlc & Hbc & Hq & Hf & Hl & Hr & Hd & Hs)%run_start_true Hw Hrest.
  rewrite tokenize_start by done. unfold token_from.
  rewrite Hq, lookahead_is_state_at, Hf, Hl, Hr, lookahead_in_state_at, Hd, Hs.
  rewrite unread_state_at, read_run_spec by (done || rewrite length_app; lia).
  simpl. by rewrite <-!app_assoc.
Qed.

(** *** Decimal numerals *)

Lemma uint_chars_digits d : Forall (λ c, is_digit c = true) (uint_chars d).
Proof. induction d; simpl; constructor; done. Qed.

Lemma digits_value_uint d (a : N) :
  digits_value 10 (Z.of_N a) (uint_chars d) =
  Some (Z.of_N match a with
               | N0 => Pos.of_uint d
               | Npos p => Npos (Pos.of_uint_acc d p)
               end).
Proof.
  revert a. induction d as [|d IH|d IH|d IH|d IH|d IH|d IH|d IH|d IH|d IH|d IH]; intros a;
    [by destruct a|..];
    cbn [uint_chars digits_value];
    match goal with
    | |- context [digit_value ?c] =>
      let v := eval vm_compute in (digit_value c) in
      change (digit_value c) with v; cbv iota;
      match v with
      | Some ?k =>
        change (k <? 10)%Z with true; cbv iota;
        replace (Z.of_N a * 10 + k)%Z with (Z.of_N (a * 10 + Z.to_N k)) by lia;
        rewrite IH; destruct a as [|p]; simpl; try done;
        do 3 f_equal; lia
      end
    end.
Qed.

(** [int(s)] in base 10: the sign, then the digits. *)
Lemma int_of_str_10 s :
  int_of_str 10 s =
  match strip_sign s with
  | [] => None
  | body =>
    match digits_value 10 0 body with
    | Some n =>
      match s with
      | c :: _ => if (c =? ord "-")%N then Some (- n)%Z else Some n
      | [] => Some n
      end
    | None => None
    end
  end.
Proof.
  unfold int_of_str. change (base_prefix 10) with (@nil N).
  change ((10 <? 2)%Z || (36 <? 10)%Z) with false. cbv iota.
  destruct (strip_sign s) as [|z [|l r]]; try done.
  change (inb l []) with false. by rewrite andb_false_r.
Qed.

Lemma int_of_str_uint d :
  d ≠ Decimal.Nil → int_of_str 10 (uint_chars d) = Some (Z.of_uint d).
Proof.
  intros Hd. rewrite int_of_str_10.
  assert (strip_sign (uint_chars d) = uint_chars d) as -> by (by destruct d).
  pose proof (digits_value_uint d 0) as Hv. change (Z.of_N 0) with 0%Z in Hv.
  pose proof (uint_chars_digits d) as Hdig.
  destruct (uint_chars d) as [|c w] eqn:E; [by destruct d|]. rewrite Hv.
  apply Forall_cons in Hdig as [Hc _].
  destruct (c =? ord "-")%N eqn:Ec; [|done].
  apply N.eqb_eq in Ec. by subst.
Qed.

Lemma int_of_str_int_str z : int_of_str 10 (int_str z) = Some z.
Proof.
  unfold int_str. rewrite <-(DecimalZ.of_to z) at 2.
  assert (∀ p, Pos.to_uint p ≠ Decimal.Nil) as Hnn
    by apply DecimalPos.Unsigned.to_uint_nonnil.
  destruct (Z.to_int z) as [d|d] eqn:E.
  - apply int_of_str_uint. by destruct z; simpl in E; simplify_eq.
  - assert (d ≠ Decimal.Nil) as Hd by (by destruct z; simpl in E; simplify_eq).
    rewrite int_of_str_10. change (strip_sign (ord "-" :: uint_chars d)) with (uint_chars d).
    pose proof (digits_value_uint d 0) as Hv. change (Z.of_N 0) with 0%Z in Hv.
    destruct (uint_chars d) as [|c w] eqn:Ec; [by destruct d|]. by rewrite Hv.
Qed.


(** Comparisons of characters that are known, and what is left of the
    conjunctions around them. *)
Ltac char_eqs :=
  repeat match goal with
  | |- context [N.eqb ?a ?b] =>
    let v := eval vm_compute in (N.eqb a b) in
    match v with
    | true => change (N.eqb a b) with true
    | false => change (N.eqb a b) with false
    end
  | |- context [inb ?a ?l] =>
    let v := eval vm_compute in (inb a l) in
    match v with
    | true => change (inb a l) with true
    | false => change (inb a l) with false
    end
  end;
  rewrite ?andb_false_r, ?andb_true_r, ?andb_false_l, ?andb_true_l; cbv iota.

Lemma tokenizes_fun cfg text t w rest t' w' rest' :
  tokenizes cfg text t w rest → tokenizes cfg text t' w' rest' →
  t = t' ∧ w = w' ∧ rest = rest'.
Proof.
  intros [Hw Ht] [Hw' Ht'].
  specialize (Ht [] [] Undef). specialize (Ht' [] [] Undef).
  rewrite Ht in Ht'.
  pose proof (f_equal (λ r, match r with
                            | Some (Ok t, st) => Some (t, unread st)
                            | _ => None
                            end) Ht') as E.
  simpl in E. injection E as -> ->.
  split; [done|]. split; [|done]. subst text. by apply app_inv_tail in Hw'.
Qed.

Lemma tokenizes_end cfg ws :
  Forall (λ d, d ∈ WHITESPACES) ws → tokenizes cfg ws TNone ws [].
Proof.
  intros Hws. split; [by rewrite app_nil_r|]. intros. by apply tokenize_end.
Qed.

Lemma tokenizes_LPar cfg ws rest :
  Forall (λ d, d ∈ WHITESPACES) ws →
  tokenizes cfg (ws ++ ord "(" :: rest) LPar (ws ++ [ord "("]) rest.
Proof.
  intros Hws. split; [by rewrite <-?app_assoc|]. intros.
  rewrite tokenize_start; [|done|by vm_compute; set_solver|by char_eqs..].
  unfold token_from. char_eqs. by rewrite <-?app_assoc.
Qed.

Lemma tokenizes_RPar cfg ws rest :
  Forall (λ d, d ∈ WHITESPACES) ws →
  tokenizes cfg (ws ++ ord ")" :: rest) RPar (ws ++ [ord ")"]) rest.
Proof.
  intros Hws. split; [by rewrite <-?app_assoc|]. intros.
  rewrite tokenize_start; [|done|by vm_compute; set_solver|by char_eqs..].
  unfold token_from. char_eqs. by rewrite <-?app_assoc.
Qed.

Lemma tokenizes_Dot cfg ws d rest :
  Forall (λ d, d ∈ WHITESPACES) ws → d ∈ DELIMITERS →
  tokenizes cfg (ws ++ ord "." :: d :: rest) Dot (ws ++ [ord "."]) (d :: rest).
Proof.
  intros Hws Hd%inb_true. split; [by rewrite <-?app_assoc|]. intros.
  rewrite tokenize_start; [|done|by vm_compute; set_solver|by char_eqs..].
  unfold token_from. char_eqs. rewrite lookahead_in_state_at, Hd. by rewrite <-?app_assoc.
Qed.

Lemma tokenizes_Quote cfg ws rest :
  Forall (λ d, d ∈ WHITESPACES) ws →
  sxprlib_enableQuote cfg = true →
  match rest with d :: _ => d ∉ WHITESPACES | [] => True end →
  tokenizes cfg (ws ++ ord "'" :: rest) Quote (ws ++ [ord "'"]) rest.
Proof.
  intros Hws Hq Hrest. split; [by rewrite <-?app_assoc|]. intros.
  rewrite tokenize_start; [|done|by vm_compute; set_solver|by char_eqs..].
  unfold token_from. rewrite Hq. char_eqs. rewrite lookahead_in_state_at.
  rewrite <-?app_assoc. destruct rest as [|d rest]; [done|].
  apply inb_false in Hrest. by rewrite Hrest.
Qed.

Lemma tokenizes_FuncRef cfg ws rest :
  Forall (λ d, d ∈ WHITESPACES) ws →
  sxprlib_enableFuncRef cfg = true →
  match rest with d :: _ => d ∉ DELIMITERS | [] => True end →
  tokenizes cfg (ws ++ py "#'" ++ rest) FuncRef (ws ++ py "#'") rest.
Proof.
  intros Hws Hf Hrest. split; [by rewrite <-?app_assoc|]. intros.
  change (py "#'" ++ rest) with (ord "#" :: ord "'" :: rest).
  rewrite tokenize_start; [|done|by vm_compute; set_solver|by char_eqs..].
  unfold token_from. rewrite Hf, lookahead_is_state_at. char_eqs.
  rewrite read_state_at, lookahead_in_state_at.
  rewrite <-?app_assoc. simpl.
  destruct rest as [|d rest]; [done|].
  apply inb_false in Hrest. by rewrite Hrest.
Qed.

(** *** Ints and symbols as tokens *)

Lemma forallb_Forall (P : N → bool) s : forallb P s = true ↔ Forall (λ c, P c = true) s.
Proof.
  induction s as [|c s IH]; simpl; [by split|].
  rewrite andb_true_iff, Forall_cons, IH. done.
Qed.

Lemma int_str_uint z :
  ∃ d, d ≠ Decimal.Nil ∧
       (int_str z = uint_chars d ∨ int_str z = ord "-" :: uint_chars d).
Proof.
  unfold int_str. pose proof DecimalPos.Unsigned.to_uint_nonnil as Hnn.
  destruct z as [|p|p]; simpl; eauto.
  exists (Decimal.D0 Decimal.Nil). split; [done|by left].
Qed.

Lemma uint_chars_nonempty d : d ≠ Decimal.Nil → uint_chars d ≠ [].
Proof. by destruct d. Qed.

Lemma is_integer_int_str z : _is_integer (int_str z) = true.
Proof.
  destruct (int_str_uint z) as (d & Hd & [->| ->]); unfold _is_integer.
  - assert (strip_sign (uint_chars d) = uint_chars d) as -> by (by destruct d).
    pose proof (uint_chars_digits d) as Hdig. apply forallb_Forall in Hdig.
    unfold all1. by destruct (uint_chars d) eqn:E; [destruct d|].
  - change (strip_sign (ord "-" :: uint_chars d)) with (uint_chars d).
    pose proof (uint_chars_digits d) as Hdig. apply forallb_Forall in Hdig.
    unfold all1. by destruct (uint_chars d) eqn:E; [destruct d|].
Qed.

Lemma run_start_plain cfg c more : plain_start c → run_start cfg c more = true.
Proof.
  unfold plain_start. rewrite !not_elem_of_cons. intros (?&?&?&?&?&?&?&?&?&?&?&_).
  unfold run_start.
  assert (inb c WHITESPACES = false) as ->.
  { apply inb_false. unfold WHITESPACES. rewrite !not_elem_of_cons. set_solver. }
  repeat match goal with
  | |- context [N.eqb c ?b] =>
    let v := eval vm_compute in b in
    replace (N.eqb c b) with false by (symmetry; apply N.eqb_neq; by change b with v)
  end.
  by rewrite ?andb_false_r, ?andb_false_l.
Qed.

Lemma digit_plain c : is_digit c = true → plain_start c ∧ c ∉ DELIMITERS.
Proof.
  unfold is_digit. rewrite andb_true_iff, !N.leb_le. intros [? ?].
  unfold plain_start, DELIMITERS, WHITESPACES, DQUOTE. simpl.
  rewrite !not_elem_of_cons. split_and!; try lia; apply not_elem_of_nil.
Qed.

Lemma digits_not_delimiters w :
  Forall (λ c, is_digit c = true) w → Forall (λ c, c ∉ DELIMITERS) w.
Proof. intros Hw. eapply Forall_impl; [exact Hw|]. intros c Hc. by apply digit_plain. Qed.

Lemma classify_int cfg z st :
  classify cfg (int_str z) st = Some (Ok (TValue (Number (Int z))), st).
Proof. unfold classify. by rewrite is_integer_int_str, int_of_str_int_str. Qed.

(** An int is read as the token of that int. *)
Lemma tokenizes_int cfg ws z rest :
  Forall (λ d, d ∈ WHITESPACES) ws → stops_run rest →
  tokenizes cfg (ws ++ int_str z ++ rest) (TValue (Number (Int z))) (ws ++ int_str z) rest.
Proof.
  intros Hws Hrest. split; [by rewrite <-?app_assoc|]. intros.
  pose proof (classify_int cfg z) as Hcls.
  destruct (int_str_uint z) as (d & Hd & [E|E]); rewrite E in *.
  - pose proof (uint_chars_digits d) as Hdig.
    destruct (uint_chars d) as [|c w] eqn:Ec; [by destruct d|].
    apply Forall_cons in Hdig as [Hc Hw].
    change ((c :: w) ++ rest) with (c :: w ++ rest).
    rewrite tokenize_run, Hcls; [by rewrite <-?app_assoc|done| |by apply digits_not_delimiters|done].
    apply run_start_plain. by apply digit_plain.
  - change ((ord "-" :: uint_chars d) ++ rest) with (ord "-" :: uint_chars d ++ rest).
    rewrite tokenize_run, Hcls; [by rewrite <-?app_assoc|done| | |done].
    + apply run_start_plain. unfold plain_start. vm_compute. set_solver.
    + apply digits_not_delimiters, uint_chars_digits.
Qed.

(** What [symbol_reads_back] asks. *)
Lemma symbol_reads_back_true cfg (v : list N) :
  symbol_reads_back cfg v = true →
  ∃ c w, v = c :: w ∧
    Forall (λ d, d ∉ symbol_special) v ∧
    number_like cfg v = false ∧
    v ≠ py "." ∧
    run_start cfg c w = true ∧
    c ≠ ord "#" ∧
    (sxprlib_ignoreCase cfg = true → str_lower v = v).
Proof.
  destruct v as [|c w]; [done|]. unfold symbol_reads_back.
  rewrite !andb_true_iff, !negb_true_iff, forallb_Forall.
  intros (((((Hs & Hn) & Hd) & Hr) & Hh) & Hi).
  exists c, w. split_and!; try done.
  - eapply Forall_impl; [exact Hs|]. intros d Hd'. simpl in Hd'.
    by apply inb_false, negb_true_iff.
  - intros E. by rewrite E, str_eqb_refl in Hd.
  - by apply N.eqb_neq.
  - intros Hic. rewrite Hic in Hi. simpl in Hi. by apply str_eqb_eq.
Qed.

Lemma symbol_special_delimiter d : d ∉ symbol_special → d ∉ DELIMITERS.
Proof.
  unfold symbol_special, DELIMITERS, WHITESPACES. simpl.
  rewrite !not_elem_of_cons. naive_solver.
Qed.

Lemma symbol_escape_plain d : d ∉ symbol_special → symbol_escape d = [d].
Proof.
  unfold symbol_special, DQUOTE. rewrite !not_elem_of_cons.
  intros (?&?&?&?&?&?&?&?&?&?&?&?&_). unfold symbol_escape, DQUOTE.
  repeat match goal with
  | |- context [N.eqb d ?b] =>
    let v := eval vm_compute in b in
    replace (N.eqb d b) with false by (symmetry; apply N.eqb_neq; by change b with v)
  end.
  done.
Qed.

Lemma flat_map_symbol_escape (v : list N) :
  Forall (λ d, d ∉ symbol_special) v → flat_map symbol_escape v = v.
Proof.
  induction 1 as [|d v Hd Hv IH]; simpl; [done|].
  by rewrite symbol_escape_plain, IH.
Qed.

(** Such a symbol is printed as its name. *)
Lemma Symbol_str_plain cfg (v : list N) : symbol_reads_back cfg v = true → Symbol_str cfg v = v.
Proof.
  intros (c & w & -> & Hs & Hn & Hd & _)%symbol_reads_back_true.
  unfold Symbol_str. rewrite flat_map_symbol_escape by done. rewrite Hn.
  destruct (str_eqb (c :: w) (py ".")) eqn:E; [|done].
  by apply str_eqb_eq in E.
Qed.

Lemma startswith_hash c w : c ≠ ord "#" → startswith (py "#") (c :: w) = false.
Proof.
  intros Hc. change (startswith (py "#") (c :: w)) with ((ord "#" =? c)%N && true).
  rewrite andb_true_r. apply N.eqb_neq. congruence.
Qed.

Lemma classify_symbol cfg (v : list N) st :
  symbol_reads_back cfg v = true →
  classify cfg v st = Some (Ok (TValue (Symbol v)), st).
Proof.
  intros (c & w & -> & Hs & Hn & Hd & Hr & Hh & Hi)%symbol_reads_back_true.
  unfold number_like in Hn. rewrite !orb_false_iff in Hn.
  destruct Hn as ((((((Hint & Hbin) & Hoct) & Hhex) & Hrad) & Hfrac) & Hnum).
  unfold classify. rewrite Hint, Hnum.
  rewrite (andb_comm (_is_bin _)), Hbin, (andb_comm (_is_oct _)), Hoct,
    (andb_comm (_is_hex _)), Hhex, (andb_comm (_is_radix _)), Hrad,
    (andb_comm (_is_fraction _)), Hfrac, startswith_hash by done.
  unfold bind, of_result, ret, mkSymbol, Symbol_value.
  destruct (sxprlib_ignoreCase cfg); [rewrite Hi by done|]; done.
Qed.

Lemma run_start_app cfg c w rest :
  run_start cfg c w = true → c ≠ ord "#" → c :: w ≠ py "." →
  Forall (λ d, d ∉ DELIMITERS) w →
  run_start cfg c (w ++ rest) = true.
Proof.
  intros Hr Hh Hd Hw. destruct w as [|d w]; [|done].
  unfold run_start in *. simpl in *.
  replace (c =? ord "#")%N with false in * by (symmetry; by apply N.eqb_neq).
  replace (c =? ord ".")%N with false in *.
  2:{ symmetry. apply N.eqb_neq. intros ->. by apply Hd. }
  by rewrite ?andb_false_r, ?andb_false_l in *.
Qed.

(** Such a symbol is read as the token of that symbol. *)
Lemma tokenizes_symbol cfg ws (v : list N) rest :
  Forall (λ d, d ∈ WHITESPACES) ws → stops_run rest →
  symbol_reads_back cfg v = true →
  tokenizes cfg (ws ++ v ++ rest) (TValue (Symbol v)) (ws ++ v) rest.
Proof.
  intros Hws Hrest Hv. split; [by rewrite <-?app_assoc|]. intros.
  pose proof (classify_symbol cfg v) as Hcls.
  destruct (symbol_reads_back_true _ _ Hv) as (c & w & -> & Hs & Hn & Hd & Hr & Hh & Hi).
  apply Forall_cons in Hs as [Hc Hw].
  assert (Forall (λ d, d ∉ DELIMITERS) w) as Hw'
    by (eapply Forall_impl; [exact Hw|apply symbol_special_delimiter]).
  change ((c :: w) ++ rest) with (c :: w ++ rest).
  rewrite tokenize_run, Hcls; [by rewrite <-?app_assoc|done..|by apply run_start_app|done|done].
Qed.

(** *** Strings *)

Lemma json_escape_plain c :
  c ≠ DQUOTE → c ≠ ord "\" → (c <? 32)%N = false → json_escape c = [c].
Proof.
  intros Hq Hb Hc. unfold json_escape.
  apply N.eqb_neq in Hq, Hb. rewrite Hq, Hb, Hc.
  apply N.ltb_ge in Hc.
  repeat match goal with
  | |- context [N.eqb c ?b] =>
    replace (N.eqb c b) with false by (symmetry; apply N.eqb_neq; lia)
  end.
  done.
Qed.

Lemma json_escape_backslash : json_escape (ord "\") = py "\\".
Proof. done. Qed.

(** [replace("\\\\", "\\")] undoes the doubling of the backslashes. *)
Lemma replace_escaped (v tail : list N) :
  Forall (λ c, c ≠ DQUOTE ∧ (c <? 32)%N = false) v →
  replace_from (py "\\") (py "\") 0 (flat_map json_escape v ++ tail) =
  v ++ replace_from (py "\\") (py "\") 0 tail.
Proof.
  induction 1 as [|c v [Hq Hc] _ IH]; [done|].
  cbn [flat_map]. rewrite <-app_assoc.
  destruct (decide (c = ord "\")) as [->|Hb].
  - rewrite json_escape_backslash.
    change (py "\\" ++ ?x) with (ord "\" :: ord "\" :: x).
    cbn [replace_from].
    change (startswith (py "\\") (ord "\" :: ord "\" :: ?x)) with true. cbv iota.
    change (length (py "\\") - 1) with 1. cbn [app]. by rewrite IH.
  - rewrite json_escape_plain by done. cbn [app replace_from].
    change (startswith (py "\\") (c :: ?x))
      with ((ord "\" =? c)%N && startswith [ord "\"] x).
    replace (ord "\" =? c)%N with false by (symmetry; by apply N.eqb_neq).
    cbn [andb]. cbv iota. by rewrite IH.
Qed.

Lemma string_reads_back_true cfg (v : list N) :
  string_reads_back cfg v = true →
  sxprlib_enableEscape cfg = true ∨
  sxprlib_enableEscape cfg = false ∧
  Forall (λ c, c ≠ DQUOTE ∧ (c <? 32)%N = false) v.
Proof.
  unfold string_reads_back. destruct (sxprlib_enableEscape cfg); [by left|].
  cbn [orb]. rewrite forallb_Forall. intros Hv. right. split; [done|].
  eapply Forall_impl; [exact Hv|]. intros c.
  rewrite andb_true_iff, !negb_true_iff, N.eqb_neq. naive_solver.
Qed.

(** The printed form of a string that reads back: the quotes around
    what is written for its characters. *)
Lemma String_str_written cfg (v : list N) :
  string_reads_back cfg v = true →
  String_str cfg v = DQUOTE :: flat_map (written_char cfg) v ++ [DQUOTE].
Proof.
  intros [He|[He Hv]]%string_reads_back_true; unfold String_str, written_char, _dumps;
    rewrite He; cbn [negb]; [done|].
  unfold replace. cbn [replace_from].
  change (startswith (py "\\") (DQUOTE :: ?x)) with false. cbv iota.
  rewrite replace_escaped by done. do 2 f_equal.
  clear Hv. induction v as [|c v IH]; [done|]. cbn [flat_map app]. by rewrite <-IH.
Qed.

Lemma String_str_head cfg (v : list N) : ∃ tl, String_str cfg v = DQUOTE :: tl.
Proof.
  unfold String_str, _dumps. destruct (negb _); [|eauto].
  unfold replace. cbn [replace_from].
  change (startswith (py "\\") (DQUOTE :: ?x)) with false. cbv iota. eauto.
Qed.

Lemma written_char_length cfg c : 0 < length (written_char cfg c).
Proof.
  unfold written_char. destruct (sxprlib_enableEscape cfg); [|simpl; lia].
  unfold json_escape.
  repeat match goal with |- context [if ?b then _ else _] => destruct b end;
    rewrite ?length_app; simpl; lia.
Qed.

Lemma written_length cfg (v : list N) : length v ≤ length (flat_map (written_char cfg) v).
Proof.
  induction v as [|c v IH]; [done|]. cbn [flat_map]. rewrite length_app.
  pose proof (written_char_length cfg c). simpl. lia.
Qed.

Lemma read_string_unfold fuel cfg s st :
  read_string fuel cfg s st =
  match fuel, lookahead_char st with
  | S fuel', Some c =>
    if (c =? DQUOTE)%N then (Ok s, st)
    else
      let '(_, st) := read st in
      if sxprlib_enableEscape cfg && (c =? ord "\")%N then
        match read_escape st with
        | (Ok d, st) => read_string fuel' cfg (s ++ d) st
        | (Raise e, st) => (Raise e, st)
        end
      else read_string fuel' cfg (s ++ [c]) st
  | _, _ => (Ok s, st)
  end.
Proof. by destruct fuel. Qed.

(** A character written as it is takes one turn of the loop. *)
Lemma read_string_char cfg c fuel s done prev t0 rest :
  c ≠ DQUOTE → sxprlib_enableEscape cfg && (c =? ord "\")%N = false →
  read_string (S fuel) cfg s (state_at done prev t0 (c :: rest)) =
  read_string fuel cfg (s ++ [c]) (state_at (done ++ [c]) prev t0 rest).
Proof.
  intros Hq%N.eqb_neq Hb. rewrite read_string_unfold, lookahead_char_state_at.
  cbn [head]. by rewrite Hq, read_state_at, Hb.
Qed.

Lemma read_digits_state_at k P digit done prev t c rest :
  read_digits (S k) P digit (state_at done prev t (c :: rest)) =
  if P c then read_digits k P (digit ++ [c]) (state_at (done ++ [c]) prev t rest)
  else (digit, state_at done prev t (c :: rest)).
Proof. cbn [read_digits]. by rewrite lookahead_char_state_at, read_state_at. Qed.

(** An escape takes one turn of the loop too. *)
Lemma read_string_escape cfg (d x : list N) fuel s done prev t0 rest :
  sxprlib_enableEscape cfg = true →
  read_escape (state_at (done ++ [ord "\"]) prev t0 (d ++ rest)) =
    (Ok x, state_at (done ++ ord "\" :: d) prev t0 rest) →
  read_string (S fuel) cfg s (state_at done prev t0 (ord "\" :: d ++ rest)) =
  read_string fuel cfg (s ++ x) (state_at (done ++ ord "\" :: d) prev t0 rest).
Proof.
  intros He Hesc. rewrite read_string_unfold, lookahead_char_state_at. cbn [head].
  change (ord "\" =? DQUOTE)%N with false. cbv iota.
  by rewrite read_state_at, He, N.eqb_refl, Hesc.
Qed.

(** What follows the backslash of an escape: a character of the escape
    table, or [u] and four hexadecimal digits. *)
Lemma read_escape_char b d done prev t0 rest :
  is_oct_digit d = false → inb d (py "xXuU") = false →
  read_escape (state_at (done ++ [b]) prev t0 (d :: rest)) =
  (Ok [escape_char d], state_at (done ++ [b; d]) prev t0 rest).
Proof.
  intros Ho Hx%inb_false. unfold read_escape. rewrite read_state_at, Ho.
  assert (inb d (py "xX") = false) as ->.
  { apply inb_false. intros Hin. apply Hx. revert Hin. vm_compute. set_solver. }
  assert ((d =? ord "u")%N = false) as ->.
  { apply N.eqb_neq. intros ->. apply Hx. vm_compute. set_solver. }
  assert ((d =? ord "U")%N = false) as ->.
  { apply N.eqb_neq. intros ->. apply Hx. vm_compute. set_solver. }
  cbn [andb]. by rewrite <-app_assoc.
Qed.

Lemma read_escape_u b d1 d2 d3 d4 n done prev t0 rest :
  is_hex_digit d1 = true → is_hex_digit d2 = true →
  is_hex_digit d3 = true → is_hex_digit d4 = true →
  int_of_str 16 [d1; d2; d3; d4] = Some n →
  read_escape (state_at (done ++ [b]) prev t0 (ord "u" :: d1 :: d2 :: d3 :: d4 :: rest)) =
  (format_c n, state_at (done ++ [b; ord "u"; d1; d2; d3; d4]) prev t0 rest).
Proof.
  intros H1 H2 H3 H4 Hn. unfold read_escape. rewrite read_state_at.
  change (is_oct_digit (ord "u")) with false. change (inb (ord "u") (py "xX")) with false.
  cbn [andb]. cbv iota. rewrite N.eqb_refl, lookahead_char_state_at. cbn [head andb].
  rewrite H1.
  rewrite !read_digits_state_at, H1, H2, H3, H4. cbn [read_digits app].
  rewrite Hn. by rewrite <-!app_assoc.
Qed.

(** What [json.dumps] writes for a character is read as that character,
    in one turn of the loop. *)
Lemma read_string_json cfg c fuel s done prev t0 rest :
  sxprlib_enableEscape cfg = true →
  read_string (S fuel) cfg s (state_at done prev t0 (json_escape c ++ rest)) =
  read_string fuel cfg (s ++ [c]) (state_at (done ++ json_escape c) prev t0 rest).
Proof.
  intros He. destruct (c <? 32)%N eqn:Hc.
  - apply N.ltb_lt in Hc.
    destruct c as [|p]; [|repeat (destruct p as [p|p|]; try lia)];
      match goal with
      | |- context [json_escape ?k] =>
        let e := eval vm_compute in (json_escape k) in
        change (json_escape k) with e;
        match e with
        | ?b :: ?d =>
          change ((b :: d) ++ rest) with (ord "\" :: d ++ rest);
          apply read_string_escape; [done|];
          first [ by apply read_escape_char
                | by apply (read_escape_u (ord "\") _ _ _ _ (Z.of_N k)) ]
        end
      end.
  - destruct (decide (c = DQUOTE)) as [->|Hq];
      [by apply (read_string_escape cfg [DQUOTE]); [|apply read_escape_char]|].
    destruct (decide (c = ord "\")) as [->|Hb];
      [by apply (read_string_escape cfg [ord "\"]); [|apply read_escape_char]|].
    rewrite json_escape_plain by done. apply read_string_char; [done|].
    apply N.eqb_neq in Hb. by rewrite Hb, andb_false_r.
Qed.

Lemma read_string_written cfg c fuel s done prev t0 rest :
  sxprlib_enableEscape cfg = true ∨ c ≠ DQUOTE →
  read_string (S fuel) cfg s (state_at done prev t0 (written_char cfg c ++ rest)) =
  read_string fuel cfg (s ++ [c]) (state_at (done ++ written_char cfg c) prev t0 rest).
Proof.
  intros Hc. unfold written_char. destruct (sxprlib_enableEscape cfg) eqn:He.
  - by apply read_string_json.
  - destruct Hc as [?|Hc]; [done|]. apply read_string_char; [done|]. by rewrite He.
Qed.

Lemma read_string_spec cfg (v : list N) rest fuel s done prev t0 :
  sxprlib_enableEscape cfg = true ∨ Forall (λ c, c ≠ DQUOTE) v →
  length v < fuel →
  read_string fuel cfg s
    (state_at done prev t0 (flat_map (written_char cfg) v ++ DQUOTE :: rest)) =
  (Ok (s ++ v), state_at (done ++ flat_map (written_char cfg) v) prev t0 (DQUOTE :: rest)).
Proof.
  intros Hv. revert fuel s done.
  induction v as [|c v IH]; intros fuel s done Hf;
    (destruct fuel as [|fuel]; [simpl in Hf; lia|]).
  - rewrite read_string_unfold, lookahead_char_state_at.
    cbn [flat_map app head]. by rewrite N.eqb_refl, !app_nil_r.
  - cbn [flat_map length] in *. rewrite <-app_assoc.
    rewrite read_string_written.
    2:{ destruct Hv as [?|Hv]; [by left|right]. by apply Forall_cons in Hv as [? _]. }
    rewrite IH; [by rewrite <-!app_assoc| |lia].
    destruct Hv as [?|Hv]; [by left|right]. by apply Forall_cons in Hv as [_ ?].
Qed.

(** A string that reads back is read as the token of that string. *)
Lemma tokenizes_string cfg ws (v : list N) rest :
  Forall (λ d, d ∈ WHITESPACES) ws →
  string_reads_back cfg v = true →
  tokenizes cfg (ws ++ String_str cfg v ++ rest) (TValue (String v))
            (ws ++ String_str cfg v) rest.
Proof.
  intros Hws Hv. split; [by rewrite <-?app_assoc|]. intros.
  rewrite String_str_written by done.
  change ((DQUOTE :: ?x ++ [DQUOTE]) ++ rest) with (DQUOTE :: (x ++ [DQUOTE]) ++ rest).
  rewrite <-(app_assoc _ [DQUOTE]). cbn [app].
  rewrite tokenize_start; [|done|by vm_compute; set_solver|by char_eqs..].
  unfold token_from. char_eqs.
  rewrite unread_state_at, (read_string_spec cfg v rest).
  - rewrite lookahead_char_state_at. cbn [head app]. rewrite read_state_at.
    by rewrite <-?app_assoc.
  - apply string_reads_back_true in Hv as [?|[_ Hv]]; [by left|right].
    eapply Forall_impl; [exact Hv|]. naive_solver.
  - pose proof (written_length cfg v). rewrite length_app. simpl. lia.
Qed.

(** *** Steps of the reader *)

Lemma bind_Ok {A B} (m : M A) (k : A → M B) st a st' :
  m st = Some (Ok a, st') → bind m k st = k a st'.
Proof. unfold bind. by intros ->. Qed.

Lemma bind_Raise {A B} (m : M A) (k : A → M B) st e st' :
  m st = Some (Raise e, st') → bind m k st = Some (Raise e, st').
Proof. unfold bind. by intros ->. Qed.

Lemma bind_gets {A B} (f : streamer → A) (k : A → M B) st :
  bind (gets f) k st = k (f st) st.
Proof. done. Qed.

Lemma bind_lift {A B} (f : streamer → A * streamer) (k : A → M B) st :
  bind (lift f) k st = k (fst (f st)) (snd (f st)).
Proof. unfold bind, lift. by destruct (f st). Qed.

Lemma lookahead_token_state_at done prev t rest :
  lookahead_token (state_at done prev t rest) = t.
Proof. done. Qed.

Lemma fill_lookahead_spec cfg text t w rest done prev t0 :
  tokenizes cfg text t w rest →
  fill_lookahead cfg (state_at done prev t0 text) =
  Some (Ok tt, state_at (done ++ w) prev t rest).
Proof. intros [_ Ht]. unfold fill_lookahead, bind, lift. by rewrite Ht. Qed.

(** [_next_token] with a token in hand: it returns the token, notes the
    position, and reads the next one. *)
Lemma next_token_primed cfg done prev t rest t' w rest' :
  t ≠ Undef → t ≠ TNone →
  tokenizes cfg rest t' w rest' →
  _next_token cfg (state_at done prev t rest) =
  Some (Ok t, state_at (done ++ w) done t' rest').
Proof.
  intros Hu Hn Ht. unfold _next_token.
  rewrite bind_gets, lookahead_token_state_at.
  destruct t; try done;
    by rewrite (bind_Ok _ _ _ tt _ eq_refl), bind_gets, lookahead_token_state_at,
         (bind_Ok _ _ _ tt _ eq_refl), set_position_state_at,
         (bind_Ok _ _ _ _ _ (fill_lookahead_spec _ _ _ _ _ _ _ _ Ht)).
Qed.

(** [_next_token] at the end of the input. *)
Lemma next_token_TNone cfg done prev rest :
  _next_token cfg (state_at done prev TNone rest) =
  Some (Ok TNone, state_at done done TNone rest).
Proof. done. Qed.

(** The first call of [_next_token] reads the first token, then goes on
    as above. *)
Lemma next_token_Undef cfg done prev text t w rest :
  tokenizes cfg text t w rest → t ≠ Undef →
  _next_token cfg (state_at done prev Undef text) =
  _next_token cfg (state_at (done ++ w) prev t rest).
Proof.
  intros Ht Hu. unfold _next_token.
  rewrite !bind_gets, !lookahead_token_state_at.
  rewrite (bind_Ok _ _ _ _ _ (fill_lookahead_spec _ _ _ _ _ _ _ _ Ht)).
  rewrite bind_gets, lookahead_token_state_at.
  destruct t; try done.
Qed.

Lemma mkSymbol_quote cfg : mkSymbol cfg (py "quote") = Ok (Symbol (py "quote")).
Proof. unfold mkSymbol, Symbol_value. by destruct (sxprlib_ignoreCase cfg). Qed.

Lemma mkSymbol_function cfg : mkSymbol cfg (py "function") = Ok (Symbol (py "function")).
Proof. unfold mkSymbol, Symbol_value. by destruct (sxprlib_ignoreCase cfg). Qed.

(** *** The printed form *)

Lemma abbreviation_Some cfg a d p x :
  abbreviation cfg a d = Some (p, x) →
  d = Cons x NIL ∧
  (p = py "'" ∧ sxprlib_enableQuote cfg = true ∧ a = Symbol (py "quote") ∨
   p = py "#'" ∧ sxprlib_enableFuncRef cfg = true ∧ a = Symbol (py "function") ∧
     ∃ s, x = Symbol s).
Proof.
  unfold abbreviation. destruct a as [| | | | |q| | |]; try done.
  destruct d as [| |x' d| | | | | |]; try done. destruct d; try done.
  destruct (sxprlib_enableQuote cfg && _) eqn:Eq.
  { apply andb_true_iff in Eq as [? ->%str_eqb_eq]. intros [= <- <-]. split; [done|]. by left. }
  destruct (sxprlib_enableFuncRef cfg && _) eqn:Ef; [|done].
  apply andb_true_iff in Ef as [? ->%str_eqb_eq].
  destruct x'; try done. intros [= <- <-]. split; [done|]. right. eauto.
Qed.

Lemma Sxpr2Str_Cons cfg a d :
  Sxpr2Str cfg (Cons a d) =
  match abbreviation cfg a d with
  | Some (p, x) => p ++ Sxpr2Str cfg x
  | None => py "(" ++ Sxpr2Str cfg a ++ Cons2SeqStr cfg d ++ py ")"
  end.
Proof.
  cbn [Sxpr2Str]. unfold abbreviation. destruct a; try done.
  destruct d as [| |x d| | | | | |]; try done. destruct d; try done.
  destruct (sxprlib_enableQuote cfg && _); [done|].
  destruct (sxprlib_enableFuncRef cfg && _); [|done].
  by destruct x.
Qed.

(** *** Fractions *)

Lemma split_no_sep sep (a : list N) :
  Forall (λ c, c ≠ sep) a → split sep a = [a].
Proof.
  induction 1 as [|c a Hc _ IH]; [done|].
  cbn [split]. apply N.eqb_neq in Hc. by rewrite Hc, IH.
Qed.

Lemma split_app sep (a b : list N) :
  Forall (λ c, c ≠ sep) a → split sep (a ++ sep :: b) = a :: split sep b.
Proof.
  induction 1 as [|c a Hc _ IH]; cbn [split app].
  - by rewrite N.eqb_refl.
  - apply N.eqb_neq in Hc. by rewrite Hc, IH.
Qed.

Lemma span_digits (a r : list N) :
  Forall (λ c, is_digit c = true) a →
  match r with c :: _ => is_digit c = false | [] => True end →
  span is_digit (a ++ r) = (a, r).
Proof.
  intros Ha Hr. induction Ha as [|c a Hc _ IH]; cbn [span app].
  - destruct r as [|c r]; [done|]. cbn [span]. by rewrite Hr.
  - by rewrite Hc, IH.
Qed.

Lemma all1_digits (a : list N) :
  a ≠ [] → Forall (λ c, is_digit c = true) a → all1 is_digit a = true.
Proof. intros Hne Ha. destruct a; [done|]. by apply forallb_Forall. Qed.

Lemma digit_not_slash c : is_digit c = true → c ≠ ord "/".
Proof. intros Hc ->. done. Qed.

Lemma digits_no_slash (a : list N) :
  Forall (λ c, is_digit c = true) a → Forall (λ c, c ≠ ord "/") a.
Proof. intros Ha. eapply Forall_impl; [exact Ha|]. apply digit_not_slash. Qed.

(** The text of a fraction: a sign or none, digits, a slash, digits. *)
Lemma int_str_digits z :
  ∃ a, a ≠ [] ∧ Forall (λ c, is_digit c = true) a ∧
       (int_str z = a ∨ int_str z = ord "-" :: a).
Proof.
  destruct (int_str_uint z) as (d & Hd & E). exists (uint_chars d).
  split; [by apply uint_chars_nonempty|]. split; [apply uint_chars_digits|done].
Qed.

Lemma int_str_pos_digits p :
  int_str (Z.pos p) ≠ [] ∧ Forall (λ c, is_digit c = true) (int_str (Z.pos p)).
Proof.
  unfold int_str. cbn [Z.to_int]. split; [|apply uint_chars_digits].
  apply uint_chars_nonempty, DecimalPos.Unsigned.to_uint_nonnil.
Qed.

Lemma strip_sign_digits (a r : list N) :
  a ≠ [] → Forall (λ c, is_digit c = true) a → strip_sign (a ++ r) = a ++ r.
Proof.
  intros Hne Ha. destruct a as [|c a]; [done|]. apply Forall_cons in Ha as [Hc _].
  cbn [app strip_sign].
  assert (inb c (py "+-") = false) as ->; [|done].
  apply inb_false. unfold is_digit in Hc.
  apply andb_true_iff in Hc as [H1%N.leb_le H2%N.leb_le].
  change (py "+-") with [43%N; 45%N]. rewrite !not_elem_of_cons.
  split_and!; [lia..|]. apply not_elem_of_nil.
Qed.
Lemma fraction_text_tests (a b s : list N) :
  a ≠ [] → Forall (λ c, is_digit c = true) a →
  b ≠ [] → Forall (λ c, is_digit c = true) b →
  s = a ++ ord "/" :: b ∨ s = ord "-" :: a ++ ord "/" :: b →
  strip_sign s = a ++ ord "/" :: b ∧
  _is_integer s = false ∧ _is_number s = false ∧
  (∀ letters P, is_prefixed letters P s = false) ∧
  _is_radix s = false ∧ _is_fraction s = true.
Proof.
  intros Ha Hda Hb Hdb Hs.
  assert (strip_sign s = a ++ ord "/" :: b) as Hstrip.
  { destruct Hs as [-> | ->]; [by apply strip_sign_digits|done]. }
  assert (∃ h l s', a ++ ord "/" :: b = h :: l :: s' ∧ (h =? ord "#")%N = false)
    as (h & l & s' & Ehl & Hh).
  { destruct a as [|h a]; [done|]. apply Forall_cons in Hda as [Hh _].
    assert ((h =? ord "#")%N = false).
    { apply N.eqb_neq. intros ->. done. }
    destruct a as [|l a]; eexists _, _, _; (split; [reflexivity|done]). }
  split; [done|]. split_and!.
  - unfold _is_integer. rewrite Hstrip. unfold all1.
    destruct a as [|c a]; [done|]. cbn [app]. rewrite <-not_true_iff_false, forallb_Forall.
    change (c :: a ++ ord "/" :: b) with ((c :: a) ++ ord "/" :: b).
    intros [_ Hslash]%Forall_app. by apply Forall_cons in Hslash as [Hslash _].
  - unfold _is_number. rewrite Hstrip, span_digits by done.
    change (ord "/" =? ord ".")%N with false. cbv iota.
    change (inb (ord "/") (py "defsDEFS")) with false. by rewrite andb_false_r.
  - intros letters P. unfold is_prefixed. by rewrite Hstrip, Ehl, Hh.
  - unfold _is_radix. by rewrite Hstrip, Ehl, Hh.
  - unfold _is_fraction. rewrite Hstrip, split_app, split_no_sep by by apply digits_no_slash.
    by rewrite !all1_digits.
Qed.

Lemma lowest_terms_Qred q : lowest_terms q = true → Qred q = q.
Proof.
  unfold lowest_terms. rewrite andb_true_iff, Z.eqb_eq, Pos.eqb_eq.
  destruct (Qred q) as [n d], q as [n' d']. simpl. by intros [-> ->].
Qed.

(** A fraction in lowest terms, when the dialect reads fractions, is
    read as the token of that fraction. *)
Lemma classify_fraction cfg q st :
  sxprlib_enableFrac cfg = true → lowest_terms q = true →
  classify cfg (int_str (numerator q) ++ py "/" ++ int_str (denominator q)) st =
  Some (Ok (TValue (Number (reduce_frac (Fraction q)))), st).
Proof.
  intros Hf Hq.
  destruct (int_str_digits (numerator q)) as (a & Ha & Hda & Ea).
  destruct (int_str_pos_digits (Qden q)) as [Hb Hdb].
  unfold denominator. set (b := int_str (Z.pos (Qden q))) in *.
  assert (int_str (numerator q) ++ py "/" ++ b = a ++ ord "/" :: b ∨
          int_str (numerator q) ++ py "/" ++ b = ord "-" :: a ++ ord "/" :: b) as Hs
    by (destruct Ea as [-> | ->]; [by left|by right]).
  destruct (fraction_text_tests a b _ Ha Hda Hb Hdb Hs) as (_ & Hi & Hn & Hp & Hr & Hfr).
  unfold classify. unfold _is_bin, _is_oct, _is_hex. rewrite Hi, Hn, !Hp, Hr, Hfr, Hf.
  cbn [andb]. cbv iota.
  assert (fraction_number (int_str (numerator q) ++ py "/" ++ b) =
          Ok (Number (reduce_frac (Fraction q)))) as ->; [|done].
  unfold fraction_number.
  assert (split (ord "/") (int_str (numerator q) ++ py "/" ++ b) =
          [int_str (numerator q); b]) as ->.
  { change (py "/" ++ b) with (ord "/" :: b).
    rewrite split_app, split_no_sep; [done|by apply digits_no_slash|].
    destruct Ea as [-> | ->]; [by apply digits_no_slash|].
    constructor; [done|by apply digits_no_slash]. }
  subst b. rewrite !int_of_str_int_str. cbn [Fraction_of].
  replace (numerator q # Qden q) with q by (by destruct q).
  by rewrite lowest_terms_Qred.
Qed.

Lemma tokenizes_fraction cfg ws q rest :
  Forall (λ d, d ∈ WHITESPACES) ws → stops_run rest →
  sxprlib_enableFrac cfg = true → lowest_terms q = true →
  tokenizes cfg (ws ++ (int_str (numerator q) ++ py "/" ++ int_str (denominator q)) ++ rest)
            (TValue (Number (reduce_frac (Fraction q))))
            (ws ++ int_str (numerator q) ++ py "/" ++ int_str (denominator q)) rest.
Proof.
  intros Hws Hrest Hf Hq. split; [by rewrite <-?app_assoc|]. intros.
  pose proof (classify_fraction cfg q) as Hcls.
  destruct (int_str_digits (numerator q)) as (a & Ha & Hda & Ea).
  destruct (int_str_pos_digits (Qden q)) as [Hb Hdb].
  unfold denominator in *. set (b := int_str (Z.pos (Qden q))) in *.
  assert (Forall (λ c, c ∉ DELIMITERS) (a ++ py "/" ++ b)) as Hnd.
  { apply Forall_app. split; [by apply digits_not_delimiters|].
    constructor; [vm_compute; set_solver|by apply digits_not_delimiters]. }
  destruct a as [|c a]; [done|]. apply Forall_cons in Hda as [Hc Hda].
  destruct Ea as [E|E]; rewrite E in *.
  - change (((c :: a) ++ py "/" ++ b) ++ rest) with (c :: (a ++ py "/" ++ b) ++ rest).
    rewrite tokenize_run, Hcls by
      (done || (apply run_start_plain; by apply digit_plain) || by inversion Hnd).
    by rewrite <-?app_assoc.
  - change (((ord "-" :: c :: a) ++ py "/" ++ b) ++ rest)
      with (ord "-" :: ((c :: a) ++ py "/" ++ b) ++ rest).
    rewrite tokenize_run, Hcls by
      (done || (apply run_start_plain; unfold plain_start; vm_compute; set_solver)).
    by rewrite <-?app_assoc.
Qed.

(** *** First tokens of printed values *)

Lemma not_delimiter_not_whitespace c : c ∉ DELIMITERS → c ∉ WHITESPACES.
Proof. unfold DELIMITERS. set_solver. Qed.

Lemma whitespace_delimiter c : c ∈ WHITESPACES → c ∈ DELIMITERS.
Proof. unfold DELIMITERS. set_solver. Qed.

Lemma skip_lookahead_whitespaces_stop fuel done prev t c rest :
  c ∉ WHITESPACES →
  skip_lookahead_whitespaces fuel (state_at done prev t (c :: rest)) =
  state_at done prev t (c :: rest).
Proof.
  intros Hc%inb_false. destruct fuel as [|fuel]; [done|].
  cbn [skip_lookahead_whitespaces]. by rewrite lookahead_in_state_at, Hc.
Qed.

(** The prefix of a Complex, before a left parenthesis. *)
Lemma tokenizes_ComplexPrefix cfg ws rest :
  Forall (λ c, c ∈ WHITESPACES) ws →
  sxprlib_enableComplex cfg = true →
  tokenizes cfg (ws ++ py "#C" ++ ord "(" :: rest) ComplexPrefix
            (ws ++ py "#C") (ord "(" :: rest).
Proof.
  intros Hws Hc. split; [by rewrite <-?app_assoc|]. intros.
  change (py "#C" ++ ord "(" :: rest) with (ord "#" :: [ord "C"] ++ ord "(" :: rest).
  rewrite tokenize_run; [|done| |repeat constructor; vm_compute; set_solver
                          |vm_compute; set_solver].
  2:{ unfold run_start. cbn [app]. char_eqs. done. }
  unfold classify.
  change (_is_integer [ord "#"; ord "C"]) with false.
  change (_is_number [ord "#"; ord "C"]) with false.
  change (_is_bin [ord "#"; ord "C"]) with false.
  change (_is_oct [ord "#"; ord "C"]) with false.
  change (_is_hex [ord "#"; ord "C"]) with false.
  change (_is_radix [ord "#"; ord "C"]) with false.
  change (_is_fraction [ord "#"; ord "C"]) with false.
  change (startswith (py "#") [ord "#"; ord "C"]) with true.
  change (startswith (py "#\") [ord "#"; ord "C"]) with false.
  change (str_eqb [ord "#"; ord "C"] (py "#")) with false.
  change (str_eqb (str_upper [ord "#"; ord "C"]) (py "#C")) with true.
  cbn [andb]. rewrite !andb_false_r. cbn [andb]. cbv iota.
  rewrite bind_gets. cbv iota.
  rewrite bind_lift. cbn [fst snd]. rewrite unread_state_at.
  rewrite skip_lookahead_whitespaces_stop by (vm_compute; set_solver).
  rewrite bind_gets, lookahead_is_state_at, N.eqb_refl, Hc.
  by rewrite <-?app_assoc.
Qed.

(** The prefix of an array of one dimension, before a left
    parenthesis. *)
Lemma tokenizes_Array1 cfg ws rest :
  Forall (λ c, c ∈ WHITESPACES) ws →
  sxprlib_enableArray cfg = true →
  tokenizes cfg (ws ++ py "#" ++ ord "(" :: rest) (TValue (Array 1 NIL))
            (ws ++ py "#") (ord "(" :: rest).
Proof.
  intros Hws Ha. split; [by rewrite <-?app_assoc|]. intros.
  change (py "#" ++ ord "(" :: rest) with (ord "#" :: [] ++ ord "(" :: rest).
  rewrite tokenize_run; [|done| |constructor|vm_compute; set_solver].
  2:{ unfold run_start. cbn [app]. char_eqs. done. }
  unfold classify.
  change (_is_integer [ord "#"]) with false.
  change (_is_number [ord "#"]) with false.
  change (_is_bin [ord "#"]) with false.
  change (_is_oct [ord "#"]) with false.
  change (_is_hex [ord "#"]) with false.
  change (_is_radix [ord "#"]) with false.
  change (_is_fraction [ord "#"]) with false.
  change (startswith (py "#") [ord "#"]) with true.
  change (startswith (py "#\") [ord "#"]) with false.
  change (str_eqb [ord "#"] (py "#")) with true.
  cbn [andb]. rewrite !andb_false_r. cbn [andb]. cbv iota.
  rewrite bind_gets, lookahead_is_state_at, N.eqb_refl, Ha. cbn [andb].
  by rewrite <-?app_assoc.
Qed.

(** An atom that reads back is read as the token of that atom. *)
Lemma tokenizes_atom cfg v ws rest :
  atomic v = true → reads_back cfg v = true →
  Forall (λ c, c ∈ WHITESPACES) ws → stops_run rest →
  tokenizes cfg (ws ++ str cfg v ++ rest) (TValue (canonical v)) (ws ++ str cfg v) rest.
Proof.
  intros Ha Hv Hws Hrest. destruct v as [| |? ?|x|? ?|s|s|?|? ?]; try done.
  - destruct x as [z|q|]; try done; [by apply tokenizes_int|].
    cbn [reads_back number_reads_back] in Hv. apply andb_true_iff in Hv as [Hq Hd].
    unfold str. cbn [Sxpr2Str atom_str number_str canonical reduce_frac].
    destruct (denominator q =? 1)%Z eqn:Hden; [by apply tokenizes_int|].
    pose proof (tokenizes_fraction cfg ws q rest Hws Hrest Hd Hq) as Ht.
    cbn [reduce_frac] in Ht. by rewrite Hden in Ht.
  - unfold str. cbn [Sxpr2Str atom_str]. rewrite Symbol_str_plain by done.
    by apply tokenizes_symbol.
  - by apply tokenizes_string.
Qed.

(** The printed form of an atom that reads back starts with no
    delimiter. *)
Lemma atom_head cfg v :
  atomic v = true → reads_back cfg v = true →
  ∃ c tl, str cfg v = c :: tl ∧ (c ∉ DELIMITERS ∨ c = DQUOTE).
Proof.
  intros Ha Hv. destruct v as [| |? ?|x|? ?|s|s|?|? ?]; try done.
  - assert (∃ z, str cfg (Number x) = int_str z ∨
                 ∃ more, str cfg (Number x) = int_str z ++ ord "/" :: more) as (z & Hz).
    { destruct x as [z|q|]; try done; unfold str; cbn [Sxpr2Str atom_str number_str].
      - exists z. by left.
      - exists (numerator q). destruct (denominator q =? 1)%Z; [by left|right; eauto]. }
    assert (∃ more, str cfg (Number x) = int_str z ++ more) as [more ->].
    { destruct Hz as [->|[more ->]]; [exists []; by rewrite app_nil_r|eauto]. }
    destruct (int_str_uint z) as (d & Hd & [E|E]); rewrite E.
    + pose proof (uint_chars_digits d) as Hdig.
      destruct (uint_chars d) as [|c w] eqn:Ec; [by destruct d|].
      apply Forall_cons in Hdig as [Hc _]. exists c, (w ++ more). split; [done|].
      left. by apply digit_plain.
    + eexists _, _. split; [done|]. left. vm_compute. set_solver.
  - unfold str. cbn [Sxpr2Str atom_str]. rewrite Symbol_str_plain by done.
    destruct (symbol_reads_back_true _ _ Hv) as (c & w & -> & Hs & _).
    apply Forall_cons in Hs as [Hc _]. exists c, w. split; [done|].
    left. by apply symbol_special_delimiter.
  - unfold str. cbn [Sxpr2Str atom_str]. destruct (String_str_head cfg s) as [tl ->].
    eexists _, _. split; [done|]. by right.
Qed.

(** The printed form of a value that reads back starts with no
    whitespace. *)
Lemma str_head cfg v :
  reads_back cfg v = true → ∃ c tl, str cfg v = c :: tl ∧ c ∉ WHITESPACES.
Proof.
  intros Hv. destruct (atomic v) eqn:Ha.
  { destruct (atom_head cfg v Ha Hv) as (c & tl & E & [Hc|Hc]); exists c, tl.
    - split; [done|]. by apply not_delimiter_not_whitespace.
    - split; [done|]. subst c. vm_compute. set_solver. }
  destruct v as [| |a d| | | | | |]; try done.
  - eexists _, _. split; [done|]. vm_compute. set_solver.
  - unfold str. rewrite Sxpr2Str_Cons.
    destruct (abbreviation cfg a d) as [[p x]|] eqn:E.
    + apply abbreviation_Some in E as (_ & [(-> & _)|(-> & _)]);
        (eexists _, _; split; [done|]; vm_compute; set_solver).
    + eexists _, _. split; [done|]. vm_compute. set_solver.
  - eexists _, _. split; [done|]. vm_compute. set_solver.
Qed.

(** The reader finds, at the printed form of a value that reads back, a
    token a form begins with. *)
Lemma first_token cfg v ws rest :
  reads_back cfg v = true →
  Forall (λ c, c ∈ WHITESPACES) ws → stops_run rest →
  ∃ t w text', tokenizes cfg (ws ++ str cfg v ++ rest) t w text' ∧ starts_form t.
Proof.
  intros Hv Hws Hrest. destruct (atomic v) eqn:Ha.
  { eexists _, _, _. split; [by apply tokenizes_atom|done]. }
  destruct v as [| |a d| |real imag| | | |]; try done.
  - exists LPar. eexists _, _. split; [|done].
    change (str cfg NIL ++ rest) with (ord "(" :: ord ")" :: rest).
    by apply tokenizes_LPar.
  - unfold str. rewrite Sxpr2Str_Cons.
    destruct (abbreviation cfg a d) as [[p x]|] eqn:E.
    + apply abbreviation_Some in E as (-> & [(-> & Hq & ->)|(-> & Hf & -> & s & ->)]).
      * exists Quote. eexists _, _. split; [|done].
        change ((py "'" ++ Sxpr2Str cfg x) ++ rest) with (ord "'" :: str cfg x ++ rest).
        apply tokenizes_Quote; [done..|].
        cbn [reads_back] in Hv. apply andb_true_iff in Hv as [_ [Hx _]%andb_true_iff].
        by destruct (str_head cfg x Hx) as (c & tl & -> & Hc).
      * exists FuncRef. eexists _, _. split; [|done].
        rewrite <-app_assoc.
        apply tokenizes_FuncRef; [done..|].
        cbn [reads_back] in Hv. apply andb_true_iff in Hv as [_ [Hx _]%andb_true_iff].
        destruct (atom_head cfg (Symbol s) eq_refl Hx) as (c & tl & E & [Hc|Hc]).
        -- unfold str in E. by rewrite E.
        -- exfalso. unfold str in E. cbn [Sxpr2Str atom_str] in E.
           rewrite Symbol_str_plain in E by done. subst s.
           destruct (symbol_reads_back_true _ _ Hx) as (c' & w & [= <- <-] & Hs & _).
           apply Forall_cons in Hs as [Hs _]. apply Hs. subst c. vm_compute. set_solver.
    + exists LPar. eexists _, _. split; [|done].
      change ((py "(" ++ ?x) ++ rest) with (ord "(" :: x ++ rest).
      by apply tokenizes_LPar.
  - cbn [reads_back] in Hv. apply andb_true_iff in Hv as [[Hc _]%andb_true_iff _].
    exists ComplexPrefix. eexists _, _. split; [|done].
    change (str cfg (Complex real imag) ++ rest)
      with (py "#C" ++ ord "(" ::
            (number_str real ++ py " " ++ number_str imag ++ py ")") ++ rest).
    by apply tokenizes_ComplexPrefix.
Qed.

(** *** Reading a printed value *)

Lemma Cons2SeqStr_atom cfg v :
  atomic v = true → Cons2SeqStr cfg v = py " " ++ py ". " ++ str cfg v.
Proof. by destruct v. Qed.

Lemma Cons2SeqStr_Complex cfg real imag :
  Cons2SeqStr cfg (Complex real imag) = py " " ++ py ". " ++ str cfg (Complex real imag).
Proof. done. Qed.

Lemma tokenizes_dotted cfg (s rest : list N) :
  tokenizes cfg ((py " " ++ py ". " ++ s) ++ py ")" ++ rest) Dot
            (py " .") (ord " " :: s ++ py ")" ++ rest).
Proof.
  rewrite <-!app_assoc.
  apply (tokenizes_Dot cfg [ord " "] (ord " ")); [repeat constructor|].
  vm_compute. set_solver.
Qed.

(** What follows the first element of a printed chain starts with a
    delimiter. *)
Lemma stops_run_rest cfg d rest :
  reads_back cfg d = true → stops_run (Cons2SeqStr cfg d ++ py ")" ++ rest).
Proof.
  intros Hd. destruct d; try done; try (vm_compute; set_solver).
  all: cbn [Cons2SeqStr]; unfold stops_run; cbn [app py]; vm_compute; set_solver.
Qed.

(** The reader finds a token there. *)
Lemma first_token_rest cfg d rest :
  reads_back cfg d = true →
  ∃ t w text', tokenizes cfg (Cons2SeqStr cfg d ++ py ")" ++ rest) t w text' ∧
               t ≠ Undef ∧ t ≠ TNone.
Proof.
  intros Hd. destruct (atomic d) eqn:Ha.
  { rewrite Cons2SeqStr_atom by done. exists Dot. eexists _, _.
    split; [apply tokenizes_dotted|done]. }
  destruct d as [| |a d| |real imag| | | |]; try done.
  - exists RPar. eexists _, _. split; [|done]. by apply (tokenizes_RPar cfg []).
  - cbn [reads_back] in Hd. apply andb_true_iff in Hd as [Ha' Hd].
    destruct (first_token cfg a [ord " "] (Cons2SeqStr cfg d ++ py ")" ++ rest))
      as (t & w & text' & Ht & Hs);
      [done|repeat constructor|by apply stops_run_rest|].
    exists t, w, text'. split; [|by destruct t].
    cbn [Cons2SeqStr]. by rewrite <-!app_assoc.
  - rewrite Cons2SeqStr_Complex. exists Dot. eexists _, _.
    split; [apply tokenizes_dotted|done].
Qed.

Lemma atomic_canonical v : atomic v = true → atomic (canonical v) = true.
Proof. by destruct v. Qed.

(** Reading an atom takes one call. *)
Lemma read_atom cfg v fuel done prev rest t_r w_r rest_r :
  atomic v = true →
  tokenizes cfg rest t_r w_r rest_r →
  _sxpr_read_obj (S fuel) cfg (state_at done prev (TValue v) rest) =
  Some (Ok v, state_at (done ++ w_r) done t_r rest_r).
Proof.
  intros Ha Htr. cbn [_sxpr_read_obj].
  rewrite (bind_Ok _ _ _ _ _ (next_token_primed cfg done prev (TValue v) _ _ _ _
             ltac:(done) ltac:(done) Htr)).
  by destruct v.
Qed.

Lemma whitespace_space : Forall (λ c : N, c ∈ WHITESPACES) [ord " "].
Proof. repeat constructor. Qed.

Lemma stops_run_RPar rest : stops_run (py ")" ++ rest).
Proof. vm_compute. set_solver. Qed.

Lemma stops_run_space rest : stops_run (py " " ++ rest).
Proof. vm_compute. set_solver. Qed.

Lemma atom_reads_at_once cfg v :
  atomic v = true → reads_back cfg v = true → reads_at_once cfg v.
Proof.
  intros Ha Hv fuel ws rest done prev t1 w1 text1 t_r w_r rest_r Hws Hrest Ht1 Htr.
  destruct (tokenizes_fun _ _ _ _ _ _ _ _ Ht1 (tokenizes_atom cfg v ws rest Ha Hv Hws Hrest))
    as (-> & -> & ->).
  rewrite (read_atom cfg (canonical v) _ _ _ _ _ _ _ (atomic_canonical v Ha) Htr).
  by rewrite <-!app_assoc.
Qed.

Lemma mkComplex_reduce_frac real imag :
  mkComplex (reduce_frac real) (reduce_frac imag) = mkComplex real imag.
Proof.
  unfold mkComplex, Complex_value, Complex_components. by rewrite !reduce_frac_idem.
Qed.

(** A Complex is read in one call: the prefix, the left parenthesis, the
    two components and the right parenthesis are five tokens. *)
Lemma Complex_reads_at_once cfg real imag :
  reads_back cfg (Complex real imag) = true → reads_at_once cfg (Complex real imag).
Proof.
  intros Hv fuel ws rest done prev t1 w1 text1 t_r w_r rest_r Hws Hrest Ht1 Htr.
  cbn [reads_back] in Hv. apply andb_true_iff in Hv as [[Hc Hre]%andb_true_iff Him].
  assert (str cfg (Complex real imag) =
          py "#C" ++ ord "(" :: number_str real ++ py " " ++ number_str imag ++ py ")")
    as Hstr by done.
  rewrite Hstr in *. rewrite <-!app_assoc in Ht1. cbn [app] in Ht1.
  rewrite <-!app_assoc in Ht1.
  destruct (tokenizes_fun _ _ _ _ _ _ _ _ Ht1
              (tokenizes_ComplexPrefix cfg ws _ Hws Hc)) as (-> & -> & ->).
  pose proof (tokenizes_LPar cfg []
                (number_str real ++ py " " ++ number_str imag ++ py ")" ++ rest)
                ltac:(done)) as T1.
  pose proof (tokenizes_atom cfg (Number real) []
                (py " " ++ number_str imag ++ py ")" ++ rest)
                eq_refl Hre ltac:(done) (stops_run_space _)) as T2.
  pose proof (tokenizes_atom cfg (Number imag) [ord " "] (py ")" ++ rest)
                eq_refl Him whitespace_space (stops_run_RPar _)) as T3.
  pose proof (tokenizes_RPar cfg [] rest ltac:(done)) as T4.
  unfold str in T2, T3. cbn [Sxpr2Str atom_str app canonical] in T1, T2, T3, T4.
  cbn [_sxpr_read_obj].
  rewrite (bind_Ok _ _ _ _ _ (next_token_primed cfg _ _ ComplexPrefix _ _ _ _
             ltac:(done) ltac:(done) T1)).
  cbv zeta.
  rewrite (bind_Ok _ _ _ _ _ (next_token_primed cfg _ _ LPar _ _ _ _
             ltac:(done) ltac:(done) T2)).
  rewrite (bind_Ok _ _ _ _ _ (next_token_primed cfg _ _ (TValue _) _ _ _ _
             ltac:(done) ltac:(done) T3)).
  cbn [canonical real_token].
  rewrite (bind_Ok _ _ _ _ _ (next_token_primed cfg _ _ (TValue _) _ _ _ _
             ltac:(done) ltac:(done) T4)).
  cbn [real_token].
  rewrite (bind_Ok _ _ _ _ _ (next_token_primed cfg _ _ RPar _ _ _ _
             ltac:(done) ltac:(done) Htr)).
  unfold ret. rewrite mkComplex_reduce_frac.
  change (py "#C") with [ord "#"; ord "C"]. change (py " ") with [ord " "].
  change (py ")") with [ord ")"].
  by repeat (progress (rewrite <-?app_assoc; cbn [app])).
Qed.

(** A value read in one call is read as a form. *)
Lemma reads_at_once_form cfg v : reads_at_once cfg v → reads_form cfg v.
Proof.
  intros Hv fuel ws rest done prev t1 w1 text1 t_r w_r rest_r Hf Hws Hrest Ht1 Htr.
  destruct fuel as [|fuel]; [destruct v; simpl in Hf; lia|].
  by apply (Hv fuel ws rest).
Qed.

(** And as the rest of a chain, after a dot. *)
Lemma reads_at_once_rest cfg v :
  Cons2SeqStr cfg v = py " " ++ py ". " ++ str cfg v →
  reads_back cfg v = true → reads_at_once cfg v → reads_rest cfg v.
Proof.
  intros Hseq Hv Hat fuel rest done prev t1 w1 text1 t_r w_r rest_r Hf Ht1 Htr.
  rewrite Hseq in *.
  destruct (tokenizes_fun _ _ _ _ _ _ _ _ Ht1 (tokenizes_dotted cfg _ rest))
    as (-> & -> & ->).
  destruct fuel as [|[|fuel]]; [destruct v; simpl in Hf; lia..|].
  cbn [consseq]. rewrite bind_gets, lookahead_token_state_at.
  destruct (first_token cfg v [ord " "] (py ")" ++ rest) Hv whitespace_space
              (stops_run_RPar rest)) as (t & w & text' & Ht & _).
  rewrite (bind_Ok _ _ _ _ _ (next_token_primed cfg _ _ Dot _ _ _ _
             ltac:(done) ltac:(done) Ht)).
  rewrite (bind_Ok _ _ _ _ _ (Hat fuel [ord " "] _ _ _ _ _ _ _ _ _
             whitespace_space (stops_run_RPar rest) Ht
             (tokenizes_RPar cfg [] rest ltac:(done)))).
  rewrite bind_gets, lookahead_token_state_at. cbn [is_RPar].
  rewrite (bind_Ok _ _ _ _ _ (next_token_primed cfg _ _ RPar _ _ _ _
             ltac:(done) ltac:(done) Htr)).
  unfold ret. by rewrite <-?app_assoc.
Qed.

(** The loop of [_sxpr_read_list] at a token a form begins with: it
    reads the form, then the rest. *)
Lemma consseq_form fuel cfg st :
  starts_form (lookahead_token st) →
  consseq (S fuel) cfg st =
  bind (_sxpr_read_obj fuel cfg)
       (λ a, bind (consseq fuel cfg) (λ d, ret (Cons a d))) st.
Proof. intros Hs. cbn [consseq]. rewrite bind_gets. by destruct (lookahead_token st). Qed.

Lemma tokenizes_quoted cfg x ws rest :
  sxprlib_enableQuote cfg = true → reads_back cfg x = true →
  Forall (λ c, c ∈ WHITESPACES) ws →
  tokenizes cfg (ws ++ py "'" ++ str cfg x ++ rest) Quote (ws ++ py "'") (str cfg x ++ rest).
Proof.
  intros Hq Hx Hws. apply tokenizes_Quote; [done..|].
  by destruct (str_head cfg x Hx) as (c & tl & -> & Hc).
Qed.

Lemma tokenizes_function cfg (s : list N) ws rest :
  sxprlib_enableFuncRef cfg = true → reads_back cfg (Symbol s) = true →
  Forall (λ c, c ∈ WHITESPACES) ws →
  tokenizes cfg (ws ++ py "#'" ++ str cfg (Symbol s) ++ rest) FuncRef
            (ws ++ py "#'") (str cfg (Symbol s) ++ rest).
Proof.
  intros Hf Hx Hws. apply tokenizes_FuncRef; [done..|].
  unfold str. cbn [Sxpr2Str atom_str]. rewrite Symbol_str_plain by done.
  destruct (symbol_reads_back_true _ _ Hx) as (c & w & -> & Hs & _).
  apply Forall_cons in Hs as [Hs _]. by apply symbol_special_delimiter.
Qed.

Lemma reads_back_reads cfg n v :
  depth v ≤ n → reads_back cfg v = true → reads_form cfg v ∧ reads_rest cfg v.
Proof.
  revert v. induction n as [|n IH]; intros v Hn Hv.
  { destruct v; simpl in Hn; lia. }
  destruct (atomic v) eqn:Ha.
  { pose proof (atom_reads_at_once cfg v Ha Hv) as Hat.
    split; [by apply reads_at_once_form|].
    by apply reads_at_once_rest; [apply Cons2SeqStr_atom|..]. }
  destruct v as [| |a d| |real imag| | | |]; try done.
  - split.
    + intros fuel ws rest done prev t1 w1 text1 t_r w_r rest_r Hf Hws Hrest Ht1 Htr.
      destruct (tokenizes_fun _ _ _ _ _ _ _ _ Ht1
                  (tokenizes_LPar cfg ws (py ")" ++ rest) Hws)) as (-> & -> & ->).
      destruct fuel as [|[|fuel]]; [simpl in Hf; lia..|].
      cbn [_sxpr_read_obj].
      rewrite (bind_Ok _ _ _ _ _ (next_token_primed cfg _ _ LPar _ _ _ _
                 ltac:(done) ltac:(done) (tokenizes_RPar cfg [] rest ltac:(done)))).
      cbn [_sxpr_read_list]. rewrite bind_gets, lookahead_token_state_at. cbn [is_RPar].
      rewrite (bind_Ok _ _ _ _ _ (next_token_primed cfg _ _ RPar _ _ _ _
                 ltac:(done) ltac:(done) Htr)).
      unfold ret. by rewrite <-?app_assoc.
    + intros fuel rest done prev t1 w1 text1 t_r w_r rest_r Hf Ht1 Htr.
      destruct (tokenizes_fun _ _ _ _ _ _ _ _ Ht1
                  (tokenizes_RPar cfg [] rest ltac:(done))) as (-> & -> & ->).
      destruct fuel as [|fuel]; [simpl in Hf; lia|].
      cbn [consseq]. rewrite bind_gets, lookahead_token_state_at.
      rewrite (bind_Ok _ _ _ _ _ (next_token_primed cfg _ _ RPar _ _ _ _
                 ltac:(done) ltac:(done) Htr)).
      unfold ret. by rewrite <-?app_assoc.
  - cbn [reads_back] in Hv. apply andb_true_iff in Hv as [Hva Hvd].
    cbn [depth] in Hn.
    destruct (IH a ltac:(lia) Hva) as [IHa _].
    destruct (IH d ltac:(lia) Hvd) as [_ IHd].
    split.
    + intros fuel ws rest done prev t1 w1 text1 t_r w_r rest_r Hf Hws Hrest Ht1 Htr.
      unfold str in *. rewrite Sxpr2Str_Cons in *.
      destruct (abbreviation cfg a d) as [[p x]|] eqn:E.
      * apply abbreviation_Some in E as (-> & [(-> & Hq & ->)|(-> & Hfr & -> & s & ->)]).
        -- cbn [reads_back] in Hvd. apply andb_true_iff in Hvd as [Hx _].
           cbn [depth] in Hn, Hf.
           destruct (IH x ltac:(lia) Hx) as [IHx _].
           rewrite <-!app_assoc in Ht1.
           destruct (tokenizes_fun _ _ _ _ _ _ _ _ Ht1
                       (tokenizes_quoted cfg x ws rest Hq Hx Hws)) as (-> & -> & ->).
           destruct (first_token cfg x [] rest Hx ltac:(done) Hrest)
             as (tx & wx & textx & Htx & _).
           destruct fuel as [|fuel]; [lia|].
           cbn [_sxpr_read_obj].
           rewrite (bind_Ok _ _ _ _ _ (next_token_primed cfg _ _ Quote _ _ _ _
                      ltac:(done) ltac:(done) Htx)).
           rewrite mkSymbol_quote, (bind_Ok _ _ _ _ _ eq_refl).
           rewrite (bind_Ok _ _ _ _ _ (IHx fuel [] rest _ _ tx wx textx t_r w_r rest_r
                      ltac:(lia) ltac:(done) Hrest Htx Htr)).
           unfold ret. by rewrite <-?app_assoc.
        -- cbn [reads_back] in Hvd. apply andb_true_iff in Hvd as [Hx _].
           cbn [depth] in Hn, Hf.
           destruct (IH (Symbol s) ltac:(simpl; lia) Hx) as [IHx _].
           rewrite <-!app_assoc in Ht1.
           destruct (tokenizes_fun _ _ _ _ _ _ _ _ Ht1
                       (tokenizes_function cfg s ws rest Hfr Hx Hws)) as (-> & -> & ->).
           destruct (first_token cfg (Symbol s) [] rest Hx ltac:(done) Hrest)
             as (tx & wx & textx & Htx & _).
           destruct fuel as [|fuel]; [lia|].
           cbn [_sxpr_read_obj].
           rewrite (bind_Ok _ _ _ _ _ (next_token_primed cfg _ _ FuncRef _ _ _ _
                      ltac:(done) ltac:(done) Htx)).
           rewrite mkSymbol_function, (bind_Ok _ _ _ _ _ eq_refl).
           rewrite (bind_Ok _ _ _ _ _ (IHx fuel [] rest _ _ tx wx textx t_r w_r rest_r
                      ltac:(simpl; lia) ltac:(done) Hrest Htx Htr)).
           unfold ret. by rewrite <-?app_assoc.
      * rewrite <-!app_assoc in Ht1.
        destruct (tokenizes_fun _ _ _ _ _ _ _ _ Ht1
                    (tokenizes_LPar cfg ws _ Hws)) as (-> & -> & ->).
        destruct (first_token cfg a [] _ Hva ltac:(done) (stops_run_rest cfg d rest Hvd))
          as (ta & wa & texta & Hta & Hsa).
        destruct (first_token_rest cfg d rest Hvd) as (ts & wd & texts & Hts & _).
        cbn [depth] in Hf.
        destruct fuel as [|[|fuel]]; [lia..|].
        cbn [_sxpr_read_obj].
        rewrite (bind_Ok _ _ _ _ _ (next_token_primed cfg _ _ LPar _ _ _ _
                   ltac:(done) ltac:(done) Hta)).
        cbn [_sxpr_read_list]. rewrite bind_gets, lookahead_token_state_at.
        assert (is_RPar ta = false) as -> by (by destruct ta).
        rewrite (bind_Ok _ _ _ _ _ (IHa fuel [] _ _ _ ta wa texta ts wd texts
                   ltac:(lia) ltac:(done) (stops_run_rest cfg d rest Hvd) Hta Hts)).
        replace ((done ++ ws ++ [ord "("]) ++ [] ++ str cfg a ++ wd)
          with (((done ++ ws ++ [ord "("]) ++ str cfg a) ++ wd)
          by (by rewrite <-?app_assoc).
        rewrite (bind_Ok _ _ _ _ _ (IHd fuel rest _ _ ts wd texts t_r w_r rest_r
                   ltac:(lia) Hts Htr)).
        unfold ret. by rewrite <-?app_assoc.
    + intros fuel rest done prev t1 w1 text1 t_r w_r rest_r Hf Ht1 Htr.
      cbn [Cons2SeqStr] in *. rewrite <-!app_assoc in Ht1.
      destruct (first_token cfg a [ord " "] _ Hva whitespace_space
                  (stops_run_rest cfg d rest Hvd)) as (ta & wa & texta & Hta & Hsa).
      destruct (tokenizes_fun _ _ _ _ _ _ _ _ Ht1 Hta) as (-> & -> & ->).
      destruct (first_token_rest cfg d rest Hvd) as (ts & wd & texts & Hts & _).
      cbn [depth] in Hf.
      destruct fuel as [|fuel]; [lia|].
      rewrite consseq_form by done.
      rewrite (bind_Ok _ _ _ _ _ (IHa fuel [ord " "] _ _ _ ta wa texta ts wd texts
                 ltac:(lia) whitespace_space (stops_run_rest cfg d rest Hvd) Hta Hts)).
      replace (done ++ [ord " "] ++ str cfg a ++ wd)
        with ((done ++ [ord " "] ++ str cfg a) ++ wd)
        by (by rewrite <-?app_assoc).
      rewrite (bind_Ok _ _ _ _ _ (IHd fuel rest _ _ ts wd texts t_r w_r rest_r
                 ltac:(lia) Hts Htr)).
      unfold ret. by rewrite <-?app_assoc.
  - pose proof (Complex_reads_at_once cfg real imag Hv) as Hat.
    split; [by apply reads_at_once_form|].
    by apply reads_at_once_rest; [apply Cons2SeqStr_Complex|..].
Qed.

(** *** Fuel *)

(** The printed form of a value is at least a quarter as long as the
    value is deep. *)
Lemma depth_str cfg n v :
  depth v ≤ n →
  depth v ≤ 4 * length (Sxpr2Str cfg v) + 2 ∧
  depth v ≤ 4 * length (Cons2SeqStr cfg v) + 2.
Proof.
  revert v. induction n as [|n IH]; intros v Hn.
  { destruct v; simpl in Hn; lia. }
  destruct v as [| |a d| | | | | |dim val]; try (simpl; lia).
  - cbn [depth] in *.
    destruct (IH a ltac:(lia)) as [IHa _]. destruct (IH d ltac:(lia)) as [_ IHd].
    split.
    + rewrite Sxpr2Str_Cons. destruct (abbreviation cfg a d) as [[p x]|] eqn:E.
      * apply abbreviation_Some in E as (-> & [(-> & _ & ->)|(-> & _ & -> & _)]);
          cbn [depth] in *; destruct (IH x ltac:(lia)) as [IHx _];
          rewrite length_app; simpl; lia.
      * rewrite !length_app. simpl. lia.
    + cbn [Cons2SeqStr]. rewrite !length_app. simpl. lia.
  - cbn [depth] in *. destruct (IH val ltac:(lia)) as [IHv _].
    assert (S (length (Sxpr2Str cfg val)) ≤ length (Array_str dim (Sxpr2Str cfg val))) as Hl.
    { unfold Array_str. destruct (dim =? 1)%Z; rewrite !length_app; simpl; lia. }
    split; [cbn [Sxpr2Str]; lia|].
    cbn [Cons2SeqStr]. rewrite !length_app. lia.
Qed.

(** The reader's first call reads the first token. *)
Lemma read_obj_Undef cfg fuel done prev text t w rest :
  tokenizes cfg text t w rest → t ≠ Undef →
  _sxpr_read_obj fuel cfg (state_at done prev Undef text) =
  _sxpr_read_obj fuel cfg (state_at (done ++ w) prev t rest).
Proof.
  intros Ht Hu. destruct fuel as [|fuel]; [done|].
  cbn [_sxpr_read_obj]. unfold bind at 1 3. by rewrite (next_token_Undef _ _ _ _ _ _ _ Ht Hu).
Qed.

(** *** Reading back what was printed *)



Lemma reads_back_sxparse cfg v :
  reads_back cfg v = true → sxparse cfg (str cfg v) = Some (Ok (canonical v)).
Proof.
  intros Hv. unfold sxparse. rewrite StringStreamer_state_at.
  destruct (first_token cfg v [] [] Hv ltac:(done) I) as (t & w & text' & Ht & Hs).
  destruct (reads_back_reads cfg _ v (le_n _) Hv) as [Hform _].
  pose proof (proj1 (depth_str cfg _ v (le_n _))) as Hdepth.
  pose proof (Hform (4 * length (str cfg v) + 4) [] [] [] [] t w text' TNone [] []
                ltac:(unfold str; lia) ltac:(done) I Ht
                (tokenizes_end cfg [] ltac:(done))) as Hr.
  cbn [app] in Ht. rewrite app_nil_r in Ht.
  rewrite (read_obj_Undef cfg _ [] [] _ t w text' Ht ltac:(by destruct t)).
  by rewrite Hr.
Qed.


(** *** The quote *)

Lemma number_like_false cfg (s : list N) :
  _is_integer s = false → _is_bin s = false → _is_oct s = false →
  _is_hex s = false → _is_radix s = false → _is_fraction s = false →
  _is_number s = false →
  number_like cfg s = false.
Proof. unfold number_like. intros -> -> -> -> -> -> ->. by rewrite !andb_false_r. Qed.

(** A symbol that reads back whatever the dialect. *)
Lemma symbol_reads_back_plain cfg c (w : list N) :
  plain_start c →
  forallb (λ d, negb (inb d symbol_special)) (c :: w) = true →
  _is_integer (c :: w) = false → _is_bin (c :: w) = false → _is_oct (c :: w) = false →
  _is_hex (c :: w) = false → _is_radix (c :: w) = false → _is_fraction (c :: w) = false →
  _is_number (c :: w) = false →
  str_lower (c :: w) = c :: w →
  symbol_reads_back cfg (c :: w) = true.
Proof.
  intros Hc Hs H1 H2 H3 H4 H5 H6 H7 Hl. unfold symbol_reads_back.
  rewrite Hs, number_like_false, run_start_plain, Hl, str_eqb_refl, orb_true_r by done.
  assert (c ≠ ord "#" ∧ c ≠ ord ".") as [Hh Hd].
  { unfold plain_start in Hc. rewrite !not_elem_of_cons in Hc. split; intros ->; naive_solver. }
  apply N.eqb_neq in Hh, Hd. rewrite Hh.
  change (str_eqb (c :: w) (py ".")) with ((c =? ord ".")%N && str_eqb w []).
  by rewrite Hd.
Qed.

Lemma quote_reads_back cfg : symbol_reads_back cfg (py "quote") = true.
Proof. apply symbol_reads_back_plain; try done. vm_compute. set_solver. Qed.

Lemma foo_reads_back cfg : symbol_reads_back cfg (py "foo") = true.
Proof. apply symbol_reads_back_plain; try done. vm_compute. set_solver. Qed.

(** C9: with the quote enabled, ['foo] is read as the chain of the
    symbols [quote] and [foo], and that chain is printed ['foo]. *)
Theorem sxparse_quote_foo cfg :
  sxprlib_enableQuote cfg = true →
  sxparse cfg (py "'foo") =
    Some (Ok (Cons (Symbol (py "quote")) (Cons (Symbol (py "foo")) NIL))) ∧
  str cfg (Cons (Symbol (py "quote")) (Cons (Symbol (py "foo")) NIL)) = py "'foo".
Proof.
  intros Hq.
  assert (str cfg (Cons (Symbol (py "quote")) (Cons (Symbol (py "foo")) NIL)) = py "'foo")
    as Hstr.
  { unfold str. rewrite Sxpr2Str_Cons. unfold abbreviation. rewrite Hq.
    cbn [andb]. change (str_eqb (py "quote") (py "quote")) with true. cbv iota.
    cbn [Sxpr2Str atom_str]. by rewrite Symbol_str_plain by apply foo_reads_back. }
  split; [|done]. rewrite <-Hstr.
  apply (reads_back_sxparse cfg (Cons (Symbol (py "quote")) (Cons (Symbol (py "foo")) NIL))).
  cbn [reads_back]. by rewrite quote_reads_back, foo_reads_back.
Qed.

(** *** The end of the input *)

Lemma read_obj_TNone cfg fuel done prev rest :
  _sxpr_read_obj (S fuel) cfg (state_at done prev TNone rest) =
  Some (Ok None_, state_at done done TNone rest).
Proof. done. Qed.

Lemma consseq_TNone cfg fuel done prev rest :
  consseq (S fuel) cfg (state_at done prev TNone rest) =
  Some (Raise (eof_at done), state_at done done TNone rest).
Proof. done. Qed.

(** The reader finds a token in what is left of a list that is not
    closed. *)
Lemma open_items_token cfg text :
  open_items cfg text → ∃ t w rest, tokenizes cfg text t w rest ∧ t ≠ Undef.
Proof.
  intros [ws Hws|ws v text' Hws Hv Hstop _|ws text' Hws _].
  - exists TNone, ws, []. split; [by apply tokenizes_end|done].
  - destruct (first_token cfg v ws text' Hv Hws Hstop) as (t & w & rest & Ht & Hs).
    exists t, w, rest. split; [done|by destruct t].
  - exists LPar. eexists _, _. split; [by apply tokenizes_LPar|done].
Qed.

Lemma str_nonempty cfg v : reads_back cfg v = true → 0 < length (str cfg v).
Proof. intros (c & tl & -> & _)%str_head. simpl. lia. Qed.

(** Reading a list that is not closed raises at the end of the input,
    from the loop of [_sxpr_read_list] and from its start. *)
Lemma open_items_raise cfg text :
  open_items cfg text →
  ∀ fuel done prev t1 w1 text1,
    4 * length text + 3 ≤ fuel →
    tokenizes cfg text t1 w1 text1 →
    (∃ st', _sxpr_read_list fuel cfg (state_at (done ++ w1) prev t1 text1) =
            Some (Raise (eof_at (done ++ text)), st')) ∧
    (∃ st', consseq fuel cfg (state_at (done ++ w1) prev t1 text1) =
            Some (Raise (eof_at (done ++ text)), st')).
Proof.
  induction 1 as [ws Hws|ws v text Hws Hv Hstop Hopen IH|ws text Hws Hopen IH];
    intros fuel done prev t1 w1 text1 Hf Ht1.
  - destruct (tokenizes_fun _ _ _ _ _ _ _ _ Ht1 (tokenizes_end cfg ws Hws)) as (-> & -> & ->).
    destruct fuel as [|[|fuel]]; [lia..|]. split.
    + cbn [_sxpr_read_list]. rewrite bind_gets, lookahead_token_state_at. cbn [is_RPar].
      rewrite (bind_Ok _ _ _ _ _ (read_obj_TNone cfg fuel _ _ _)).
      rewrite (bind_Raise _ _ _ _ _ (consseq_TNone cfg fuel _ _ _)). eauto.
    + rewrite consseq_TNone. eauto.
  - destruct (first_token cfg v ws text Hv Hws Hstop) as (t & w & rest & Ht & Hs).
    destruct (tokenizes_fun _ _ _ _ _ _ _ _ Ht1 Ht) as (-> & -> & ->).
    destruct (open_items_token cfg text Hopen) as (t' & w' & rest' & Ht' & _).
    destruct (reads_back_reads cfg _ v (le_n _) Hv) as [Hform _].
    pose proof (proj1 (depth_str cfg _ v (le_n _))) as Hdepth.
    pose proof (str_nonempty cfg v Hv) as Hlen.
    rewrite !length_app in Hf. unfold str in *.
    destruct fuel as [|fuel]; [lia|].
    pose proof (Hform fuel ws text done prev t w rest t' w' rest'
                  ltac:(lia) Hws Hstop Ht Ht') as Hr.
    destruct (IH fuel (done ++ ws ++ Sxpr2Str cfg v) (done ++ ws ++ Sxpr2Str cfg v)
                t' w' rest' ltac:(lia) Ht') as [_ [st' Hst']].
    rewrite <-!app_assoc in Hst'.
    split.
    + cbn [_sxpr_read_list]. rewrite bind_gets, lookahead_token_state_at.
      assert (is_RPar t = false) as -> by (by destruct t).
      rewrite (bind_Ok _ _ _ _ _ Hr). rewrite (bind_Raise _ _ _ _ _ Hst'). eauto.
    + rewrite consseq_form by done.
      rewrite (bind_Ok _ _ _ _ _ Hr). rewrite (bind_Raise _ _ _ _ _ Hst'). eauto.
  - destruct (tokenizes_fun _ _ _ _ _ _ _ _ Ht1 (tokenizes_LPar cfg ws text Hws))
      as (-> & -> & ->).
    destruct (open_items_token cfg text Hopen) as (t' & w' & rest' & Ht' & Hu).
    rewrite !length_app in Hf. simpl in Hf.
    destruct fuel as [|[|fuel]]; [lia..|].
    destruct (IH fuel (done ++ ws ++ [ord "("]) (done ++ ws ++ [ord "("])
                t' w' rest' ltac:(lia) Ht') as [[st' Hst'] _].
    rewrite <-!app_assoc in Hst'.
    assert (_sxpr_read_obj (S fuel) cfg (state_at (done ++ ws ++ [ord "("]) prev LPar text) =
            Some (Raise (eof_at (done ++ ws ++ py "(" ++ text)), st')) as Hobj.
    { cbn [_sxpr_read_obj].
      rewrite (bind_Ok _ _ _ _ _ (next_token_primed cfg _ _ LPar _ _ _ _
                 ltac:(done) ltac:(done) Ht')).
      rewrite <-!app_assoc. exact Hst'. }
    split.
    + cbn [_sxpr_read_list]. rewrite bind_gets, lookahead_token_state_at. cbn [is_RPar].
      rewrite (bind_Raise _ _ _ _ _ Hobj). eauto.
    + rewrite consseq_form by done. rewrite (bind_Raise _ _ _ _ _ Hobj). eauto.
Qed.


(** X2.  An array cut short: in a dialect that reads arrays, a text that is
    the prefix [#] of a one-dimensional array, a left parenthesis and
    then forms that read back or further left parentheses, none of them
    closed, makes the reader raise
    [SyntaxError("Unexpected EOF: line, col")] with the position of the
    end of the text. *)
Lemma sxparse_array_cut_short cfg ws body :
  sxprlib_enableArray cfg = true →
  Forall (λ c, c ∈ WHITESPACES) ws → open_items cfg body →
  sxparse cfg (ws ++ py "#(" ++ body) = Some (Raise (eof_at (ws ++ py "#(" ++ body))).
Proof.
  intros Ha Hws Hopen. unfold sxparse. rewrite StringStreamer_state_at.
  destruct (open_items_token cfg body Hopen) as (t' & w' & rest' & Ht' & _).
  change (py "#(" ++ body) with (py "#" ++ ord "(" :: body).
  rewrite (read_obj_Undef cfg _ [] [] _ _ _ _ (tokenizes_Array1 cfg ws body Hws Ha)
             ltac:(done)).
  replace (4 * length (ws ++ py "#" ++ ord "(" :: body) + 4)
    with (S (4 * length (ws ++ py "#" ++ ord "(" :: body) + 3)) by lia.
  cbn [_sxpr_read_obj].
  rewrite (bind_Ok _ _ _ _ _ (next_token_primed cfg _ _ (TValue (Array 1 NIL)) _ _ _ _
             ltac:(done) ltac:(done) (tokenizes_LPar cfg [] body ltac:(done)))).
  rewrite bind_gets, lookahead_token_state_at.
  rewrite (bind_Ok _ _ _ _ _ (next_token_primed cfg _ _ LPar _ _ _ _
             ltac:(done) ltac:(done) Ht')).
  destruct (open_items_raise cfg body Hopen
              (4 * length (ws ++ py "#" ++ ord "(" :: body) + 3)
              ((([] ++ ws ++ py "#") ++ [] ++ [ord "("]))
              (([] ++ ws ++ py "#") ++ [] ++ [ord "("]) t' w' rest'
              ltac:(rewrite !length_app; simpl; lia) Ht') as [[st' Hst'] _].
  rewrite (bind_Raise _ _ _ _ _ Hst').
  cbn [app fmap option_fmap option_map fst].
  change (py "#") with [ord "#"]. by repeat (progress (rewrite <-?app_assoc; cbn [app])).
Qed.


(** *** Line comments *)

Lemma skip_line_unfold fuel st :
  skip_line fuel st =
  let '(d, st') := read st in
  match fuel, d with
  | S fuel', Some c => if inb c [13%N; 10%N] then st' else skip_line fuel' st'
  | _, _ => st'
  end.
Proof. by destruct fuel. Qed.

Lemma skip_line_spec comment nl rest done prev t fuel :
  Forall (λ c, c ∉ [13%N; 10%N]) comment → nl ∈ [13%N; 10%N] →
  length comment < fuel →
  skip_line fuel (state_at done prev t (comment ++ nl :: rest)) =
  state_at (done ++ comment ++ [nl]) prev t rest.
Proof.
  intros Hc Hnl. revert done fuel.
  induction Hc as [|d comment Hd Hc IH]; intros done fuel Hfuel;
    rewrite skip_line_unfold; simpl; rewrite read_state_at;
    (destruct fuel as [|fuel]; [simpl in Hfuel; lia|]).
  - apply inb_true in Hnl. by rewrite Hnl.
  - apply inb_false in Hd. rewrite Hd.
    rewrite IH by (simpl in Hfuel; lia). by rewrite <-app_assoc.
Qed.

Lemma skip_line_end comment done prev t fuel :
  Forall (λ c, c ∉ [13%N; 10%N]) comment → length comment ≤ fuel →
  skip_line fuel (state_at done prev t comment) = state_at (done ++ comment) prev t [].
Proof.
  intros Hc. revert done fuel.
  induction Hc as [|d comment Hd Hc IH]; intros done fuel Hfuel;
    rewrite skip_line_unfold; simpl.
  - rewrite ?read_state_at_end, app_nil_r. by destruct fuel.
  - rewrite read_state_at.
    destruct fuel as [|fuel]; [simpl in Hfuel; lia|].
    apply inb_false in Hd. rewrite Hd.
    rewrite IH by (simpl in Hfuel; lia). by rewrite <-app_assoc.
Qed.

(** More fuel changes nothing of what the tokenizer returns. *)
Lemma tokenizer_fuel_mono cfg f :
  ∀ f' st r, _sxpr_tokenizer f cfg st = Some r → f ≤ f' →
             _sxpr_tokenizer f' cfg st = Some r.
Proof.
  induction f as [|f IH]; intros f' st r Hr Hf; [done|].
  destruct f' as [|f']; [lia|].
  cbn [_sxpr_tokenizer] in *.
  destruct (skip_whitespaces (length (unread st)) st) as [d st1].
  destruct (sxprlib_enableLineComment cfg &&
            match d with Some c => (c =? ord ";")%N | None => false end).
  { apply IH; [done|lia]. }
  destruct (sxprlib_enableBlockComment cfg &&
            match d with Some c => (c =? ord "#")%N | None => false end &&
            lookahead_is (ord "|") st1); [|done].
  destruct (read st1) as [? st2]. destruct (read st2) as [d3 st3].
  destruct (skip_block (length (unread st3)) d3 st3) as [[? |?] st4]; [|done].
  destruct (read st4) as [? st5]. apply IH; [done|lia].
Qed.

Lemma semicolon_not_whitespace : ord ";" ∉ WHITESPACES.
Proof. vm_compute. set_solver. Qed.

(** A line comment before a token is skipped. *)
Lemma tokenizes_comment cfg ws comment nl text t w rest :
  sxprlib_enableLineComment cfg = true →
  Forall (λ c, c ∈ WHITESPACES) ws →
  Forall (λ c, c ∉ [13%N; 10%N]) comment → nl ∈ [13%N; 10%N] →
  tokenizes cfg text t w rest →
  tokenizes cfg (ws ++ py ";" ++ comment ++ nl :: text) t
            (ws ++ py ";" ++ comment ++ nl :: w) rest.
Proof.
  intros Hlc Hws Hc Hnl [-> Ht]. split.
  { by rewrite <-!app_assoc. }
  intros done prev t0. unfold tokenize. cbn [_sxpr_tokenizer].
  rewrite unread_state_at.
  change (py ";" ++ comment ++ nl :: w ++ rest)
    with (ord ";" :: comment ++ nl :: w ++ rest).
  rewrite skip_whitespaces_spec
    by (done || apply semicolon_not_whitespace || (rewrite length_app; lia)).
  rewrite Hlc, N.eqb_refl. cbn [andb].
  rewrite unread_state_at.
  rewrite skip_line_spec; [|done|done|rewrite length_app; simpl; lia].
  specialize (Ht (done ++ ws ++ py ";" ++ comment ++ [nl]) prev t0).
  unfold tokenize in Ht. rewrite unread_state_at in Ht.
  replace ((done ++ ws ++ [ord ";"]) ++ comment ++ [nl])
    with (done ++ ws ++ py ";" ++ comment ++ [nl])
    by (change (py ";") with [ord ";"]; by rewrite <-!app_assoc).
  rewrite (tokenizer_fuel_mono cfg _ _ _ _ Ht)
    by (repeat (rewrite ?length_app; cbn [length]); lia).
  do 3 f_equal. change (py ";") with [ord ";"].
  repeat (progress (rewrite <-?app_assoc; cbn [app])). done.
Qed.

(** A line comment that the input ends in. *)
Lemma tokenizes_comment_end cfg ws comment :
  sxprlib_enableLineComment cfg = true →
  Forall (λ c, c ∈ WHITESPACES) ws →
  Forall (λ c, c ∉ [13%N; 10%N]) comment →
  tokenizes cfg (ws ++ py ";" ++ comment) TNone (ws ++ py ";" ++ comment) [].
Proof.
  intros Hlc Hws Hc. split; [by rewrite app_nil_r|].
  intros done prev t0. unfold tokenize. cbn [_sxpr_tokenizer].
  rewrite unread_state_at.
  change (py ";" ++ comment) with (ord ";" :: comment).
  rewrite skip_whitespaces_spec
    by (done || apply semicolon_not_whitespace || (rewrite length_app; lia)).
  rewrite Hlc, N.eqb_refl. cbn [andb].
  rewrite unread_state_at, skip_line_end by done.
  destruct (length (ws ++ ord ";" :: comment)) as [|n] eqn:E.
  { rewrite length_app in E. simpl in E. lia. }
  cbn [_sxpr_tokenizer]. rewrite unread_state_at. cbn [length skip_whitespaces].
  rewrite read_state_at_end. rewrite !andb_false_r.
  do 3 f_equal. by rewrite <-!app_assoc.
Qed.

(** *** Block comments *)

Lemma skip_block_unfold fuel d st :
  skip_block fuel d st =
  if match d with Some c => (c =? ord "|")%N | None => false end
     && lookahead_is (ord "#") st
  then (Ok tt, st)
  else
    let '(d', st') := read st in
    match d' with
    | None => (Raise (EOFError_UnexpectedEOF (line st') (col st')), st')
    | Some _ =>
      match fuel with
      | S fuel' => skip_block fuel' d' st'
      | O => (Raise (EOFError_UnexpectedEOF (line st') (col st')), st')
      end
    end.
Proof. by destruct fuel. Qed.

(** The loop of a block comment stops at the first bar that a hash
    follows. *)
Lemma skip_block_spec s : ∀ c text done prev t fuel,
  block_body (c :: s) = true → length s < fuel →
  skip_block fuel (Some c) (state_at done prev t (s ++ py "|#" ++ text)) =
  (Ok tt, state_at (done ++ s ++ py "|") prev t (py "#" ++ text)).
Proof.
  induction s as [|d s IH]; intros c text done prev t fuel Hb Hfuel;
    rewrite skip_block_unfold, lookahead_is_state_at;
    (destruct fuel as [|fuel]; [simpl in Hfuel; lia|]).
  - change ([] ++ py "|#" ++ text) with (ord "|" :: ord "#" :: text).
    cbn [head]. char_eqs. rewrite read_state_at.
    rewrite skip_block_unfold, lookahead_is_state_at. cbn [head]. char_eqs.
    done.
  - cbn [app head]. cbn [block_body] in Hb.
    apply andb_true_iff in Hb as [Hcd Hb]. apply negb_true_iff in Hcd.
    rewrite Hcd. rewrite read_state_at.
    rewrite IH by (done || (simpl in Hfuel; lia)).
    by rewrite <-app_assoc.
Qed.

Lemma hash_not_whitespace : ord "#" ∉ WHITESPACES.
Proof. vm_compute. set_solver. Qed.

(** A block comment before a token is skipped. *)
Lemma tokenizes_block cfg ws body text t w rest :
  sxprlib_enableBlockComment cfg = true →
  Forall (λ c, c ∈ WHITESPACES) ws → block_body body = true →
  tokenizes cfg text t w rest →
  tokenizes cfg (ws ++ py "#|" ++ body ++ py "|#" ++ text) t
            (ws ++ py "#|" ++ body ++ py "|#" ++ w) rest.
Proof.
  intros Hbc Hws Hb [-> Ht]. split.
  { by rewrite <-!app_assoc. }
  intros done prev t0. unfold tokenize. cbn [_sxpr_tokenizer].
  rewrite unread_state_at.
  change (py "#|" ++ body ++ py "|#" ++ w ++ rest)
    with (ord "#" :: ord "|" :: body ++ py "|#" ++ w ++ rest).
  rewrite skip_whitespaces_spec
    by (done || apply hash_not_whitespace || (rewrite length_app; lia)).
  rewrite Hbc, lookahead_is_state_at. cbn [head]. char_eqs.
  rewrite read_state_at.
  assert (∃ done', 
    (let '(d, st) := read (state_at ((done ++ ws ++ [ord "#"]) ++ [ord "|"]) prev t0
                             (body ++ py "|#" ++ w ++ rest)) in
     skip_block (length (unread st)) d st) =
    (Ok tt, state_at done' prev t0 (py "#" ++ w ++ rest)) ∧
    done' ++ py "#" = done ++ ws ++ py "#|" ++ body ++ py "|#") as (done' & Hskip & Hdone).
  { destruct body as [|c s].
    - exists ((done ++ ws ++ [ord "#"]) ++ [ord "|"] ++ [ord "|"]). split.
      + change ([] ++ py "|#" ++ w ++ rest) with (ord "|" :: ord "#" :: w ++ rest).
        rewrite read_state_at, skip_block_unfold, lookahead_is_state_at.
        cbn [head]. char_eqs. by rewrite <-!app_assoc.
      + by repeat (progress (rewrite <-?app_assoc; cbn [app])).
    - exists ((done ++ ws ++ [ord "#"]) ++ [ord "|"] ++ [c] ++ s ++ py "|").
      split.
      + cbn [app]. rewrite read_state_at, unread_state_at.
        rewrite skip_block_spec by (done || (rewrite length_app; simpl; lia)).
        by repeat (progress (rewrite <-?app_assoc; cbn [app])).
      + by repeat (progress (rewrite <-?app_assoc; cbn [app])). }
  destruct (read _) as [d st]. rewrite Hskip.
  change (py "#" ++ w ++ rest) with (ord "#" :: w ++ rest).
  rewrite read_state_at.
  specialize (Ht (done' ++ [ord "#"]) prev t0).
  unfold tokenize in Ht. rewrite unread_state_at in Ht.
  rewrite (tokenizer_fuel_mono cfg _ _ _ _ Ht)
    by (repeat (rewrite ?length_app; cbn [length]); lia).
  change [ord "#"] with (py "#"). rewrite Hdone.
  do 3 f_equal. by repeat (progress (rewrite <-?app_assoc; cbn [app])).
Qed.

(** *** Texts of several forms *)

Lemma forms_token cfg vs text :
  forms_text cfg vs text →
  ∃ t w rest, tokenizes cfg text t w rest ∧
              match vs with [] => t = TNone | _ => starts_form t end.
Proof.
  induction 1 as [ws Hws|ws comment Hlc Hws Hc|ws comment nl vs text Hlc Hws Hc Hnl Hf IH
                 |ws body vs text Hbc Hws Hb Hf IH
                 |ws v vs text Hws Hv Hstop Hf IH].
  - exists TNone, ws, []. split; [by apply tokenizes_end|done].
  - exists TNone, (ws ++ py ";" ++ comment), []. split; [by apply tokenizes_comment_end|done].
  - destruct IH as (t & w & rest & Ht & Hvs).
    exists t, (ws ++ py ";" ++ comment ++ nl :: w), rest.
    split; [by apply tokenizes_comment|done].
  - destruct IH as (t & w & rest & Ht & Hvs).
    exists t, (ws ++ py "#|" ++ body ++ py "|#" ++ w), rest.
    split; [by apply tokenizes_block|done].
  - destruct (first_token cfg v ws text Hv Hws Hstop) as (t & w & rest & Ht & Hs).
    by exists t, w, rest.
Qed.

Lemma starts_form_not_Undef t : starts_form t → t ≠ Undef.
Proof. by destruct t. Qed.

Lemma canonical_not_None cfg v : reads_back cfg v = true → canonical v ≠ None_.
Proof.
  destruct v; try done. intros _. simpl. unfold mkComplex.
  by destruct (Complex_value _ _).
Qed.

Lemma Reader_next_Some cfg fuel st v st' :
  _sxpr_read_obj fuel cfg st = Some (Ok v, st') → v ≠ None_ →
  Reader_next fuel cfg st = Some (Ok (Some v), st').
Proof. intros Hr Hv. unfold Reader_next. rewrite (bind_Ok _ _ _ _ _ Hr). by destruct v. Qed.

(** One call of the reader on a text of forms, with the first token in
    hand: at the end of the forms it returns [None]; else it returns the
    first form and is left with the first token of the text of the
    others in hand. *)
Lemma forms_step cfg vs text :
  forms_text cfg vs text →
  ∀ fuel done prev t w rest,
    tokenizes cfg text t w rest → 0 < fuel → Forall (λ v, depth v ≤ fuel) vs →
    match vs with
    | [] =>
      _sxpr_read_obj fuel cfg (state_at (done ++ w) prev t rest) =
      Some (Ok None_, state_at (done ++ w) (done ++ w) TNone rest)
    | v :: vs' =>
      ∃ done' prev' t' w' rest' text',
        forms_text cfg vs' text' ∧ tokenizes cfg text' t' w' rest' ∧
        _sxpr_read_obj fuel cfg (state_at (done ++ w) prev t rest) =
        Some (Ok (canonical v), state_at (done' ++ w') prev' t' rest')
    end.
Proof.
  induction 1 as [ws Hws|ws comment Hlc Hws Hc|ws comment nl vs text Hlc Hws Hc Hnl Hf IH
                 |ws body vs text Hbc Hws Hb Hf IH
                 |ws v vs text Hws Hv Hstop Hf IH];
    intros fuel done prev t w rest Ht Hfuel Hdepth.
  - destruct (tokenizes_fun _ _ _ _ _ _ _ _ Ht (tokenizes_end cfg ws Hws)) as (-> & -> & ->).
    destruct fuel as [|fuel]; [lia|]. apply read_obj_TNone.
  - destruct (tokenizes_fun _ _ _ _ _ _ _ _ Ht (tokenizes_comment_end cfg ws comment Hlc Hws Hc))
      as (-> & -> & ->).
    destruct fuel as [|fuel]; [lia|]. apply read_obj_TNone.
  - destruct (forms_token cfg vs text Hf) as (t' & w' & rest' & Ht' & _).
    destruct (tokenizes_fun _ _ _ _ _ _ _ _ Ht
                (tokenizes_comment cfg ws comment nl text t' w' rest' Hlc Hws Hc Hnl Ht'))
      as (-> & -> & ->).
    specialize (IH fuel (done ++ ws ++ py ";" ++ comment ++ [nl]) prev t' w' rest'
                  Ht' Hfuel Hdepth).
    replace (done ++ ws ++ py ";" ++ comment ++ nl :: w')
      with ((done ++ ws ++ py ";" ++ comment ++ [nl]) ++ w')
      by (by repeat (progress (rewrite <-?app_assoc; cbn [app]))).
    exact IH.
  - destruct (forms_token cfg vs text Hf) as (t' & w' & rest' & Ht' & _).
    destruct (tokenizes_fun _ _ _ _ _ _ _ _ Ht
                (tokenizes_block cfg ws body text t' w' rest' Hbc Hws Hb Ht'))
      as (-> & -> & ->).
    specialize (IH fuel (done ++ ws ++ py "#|" ++ body ++ py "|#") prev t' w' rest'
                  Ht' Hfuel Hdepth).
    replace (done ++ ws ++ py "#|" ++ body ++ py "|#" ++ w')
      with ((done ++ ws ++ py "#|" ++ body ++ py "|#") ++ w')
      by (by repeat (progress (rewrite <-?app_assoc; cbn [app]))).
    exact IH.
  - destruct (forms_token cfg vs text Hf) as (t' & w' & rest' & Ht' & _).
    apply Forall_cons in Hdepth as [Hdv Hdepth].
    destruct (reads_back_reads cfg (depth v) v (le_n _) Hv) as [Hform _].
    exists (done ++ ws ++ str cfg v), (done ++ ws ++ str cfg v), t', w', rest', text.
    split_and!; [done..|].
    rewrite (Hform fuel ws text done prev t w rest t' w' rest' Hdv Hws Hstop Ht Ht').
    by rewrite <-!app_assoc.
Qed.

Lemma Reader_list_forms cfg vs :
  ∀ text n fuel done prev t w rest,
    forms_text cfg vs text → tokenizes cfg text t w rest →
    length vs < n → 0 < fuel → Forall (λ v, depth v ≤ fuel) vs →
    Forall (λ v, reads_back cfg v = true) vs →
    ∃ st', Reader_list n fuel cfg (state_at (done ++ w) prev t rest) =
           Some (Ok (map canonical vs), st').
Proof.
  induction vs as [|v vs IH]; intros text n fuel done prev t w rest Hf Ht Hn Hfuel Hdepth Hrb;
    (destruct n as [|n]; [simpl in Hn; lia|]);
    pose proof (forms_step cfg _ text Hf fuel done prev t w rest Ht Hfuel Hdepth) as Hstep;
    cbn [Reader_list].
  - unfold Reader_next. rewrite (bind_Ok _ _ _ _ _ (bind_Ok _ _ _ _ _ Hstep)).
    cbn. eauto.
  - destruct Hstep as (done' & prev' & t' & w' & rest' & text' & Hf' & Ht' & Hread).
    apply Forall_cons in Hdepth as [_ Hdepth]. apply Forall_cons in Hrb as [Hv Hrb].
    rewrite (bind_Ok _ _ _ _ _ (Reader_next_Some _ _ _ _ _ Hread (canonical_not_None cfg v Hv))).
    destruct (IH text' n fuel done' prev' t' w' rest' Hf' Ht' ltac:(simpl in Hn; lia)
                Hfuel Hdepth Hrb) as [st' Hst'].
    rewrite (bind_Ok _ _ _ _ _ Hst'). cbn. eauto.
Qed.

Lemma forms_length cfg vs text :
  forms_text cfg vs text →
  length vs ≤ length text ∧
  Forall (λ v, reads_back cfg v = true ∧ length (str cfg v) ≤ length text) vs.
Proof.
  induction 1 as [ws Hws|ws comment Hlc Hws Hc|ws comment nl vs text Hlc Hws Hc Hnl Hf [IH1 IH2]
                 |ws body vs text Hbc Hws Hb Hf [IH1 IH2]
                 |ws v vs text Hws Hv Hstop Hf [IH1 IH2]].
  - split; [simpl; lia|done].
  - split; [simpl; lia|done].
  - repeat (rewrite ?length_app; cbn [length]). split; [lia|].
    eapply Forall_impl; [done|]. intros v [? ?]. split; [done|lia].
  - repeat (rewrite ?length_app; cbn [length]). split; [lia|].
    eapply Forall_impl; [done|]. intros v [? ?]. split; [done|lia].
  - pose proof (str_nonempty cfg v Hv). rewrite !length_app. split; [simpl; lia|].
    apply Forall_cons. split; [split; [done|lia]|].
    eapply Forall_impl; [done|]. intros v' [? ?]. split; [done|lia].
Qed.

Lemma Reader_list_Undef cfg n fuel done prev text t w rest :
  tokenizes cfg text t w rest → t ≠ Undef →
  Reader_list n fuel cfg (state_at done prev Undef text) =
  Reader_list n fuel cfg (state_at (done ++ w) prev t rest).
Proof.
  intros Ht Hu. destruct n as [|n]; [done|].
  cbn [Reader_list]. unfold Reader_next, bind at 1 2 5 6.
  by rewrite (read_obj_Undef cfg fuel done prev text t w rest Ht Hu).
Qed.

Lemma forms_depth cfg vs text :
  forms_text cfg vs text → Forall (λ v, depth v ≤ 4 * length text + 4) vs.
Proof.
  intros Hf. destruct (forms_length cfg vs text Hf) as [_ Hlen].
  eapply Forall_impl; [done|]. intros v [Hv Hl]. simpl in *.
  pose proof (proj1 (depth_str cfg (depth v) v (le_n _))) as Hd. unfold str in Hl. lia.
Qed.

Lemma forms_token_not_Undef cfg vs text t w rest :
  forms_text cfg vs text → tokenizes cfg text t w rest → t ≠ Undef.
Proof.
  intros Hf Ht. destruct (forms_token cfg vs text Hf) as (t' & w' & rest' & Ht' & Hvs).
  destruct (tokenizes_fun _ _ _ _ _ _ _ _ Ht Ht') as (-> & _).
  destruct vs; [by subst|by apply starts_form_not_Undef].
Qed.

(** X14.  Iterating a reader over a text that holds forms that read back,
    set apart by blanks, line comments and block comments, yields the
    forms in order, as the reader makes them, and then stops. *)
Theorem read_all_forms cfg vs text :
  forms_text cfg vs text → read_all cfg text = Some (Ok (map canonical vs)).
Proof.
  intros Hf. unfold read_all. rewrite StringStreamer_state_at.
  destruct (forms_token cfg vs text Hf) as (t & w & rest & Ht & _).
  rewrite (Reader_list_Undef cfg _ _ [] [] text t w rest Ht
             (forms_token_not_Undef cfg vs text t w rest Hf Ht)).
  destruct (forms_length cfg vs text Hf) as [Hlen Hrb].
  destruct (Reader_list_forms cfg vs text (length text + 1) (4 * length text + 4)
              [] [] t w rest Hf Ht ltac:(lia) ltac:(lia) (forms_depth cfg vs text Hf))
    as [st' ->]; [|done].
  eapply Forall_impl; [done|]. by intros v [? ?].
Qed.

(** X15.  [sxparse] reads the first form of such a text and leaves the rest;
    when the text holds blanks and comments only, it returns [None]. *)
Theorem sxparse_first_form cfg vs text :
  forms_text cfg vs text →
  sxparse cfg text = Some (Ok (match vs with [] => None_ | v :: _ => canonical v end)).
Proof.
  intros Hf. unfold sxparse. rewrite StringStreamer_state_at.
  destruct (forms_token cfg vs text Hf) as (t & w & rest & Ht & _).
  rewrite (read_obj_Undef cfg _ [] [] text t w rest Ht
             (forms_token_not_Undef cfg vs text t w rest Hf Ht)).
  pose proof (forms_step cfg vs text Hf (4 * length text + 4) [] [] t w rest Ht
                ltac:(lia) (forms_depth cfg vs text Hf)) as Hstep.
  destruct vs as [|v vs].
  - by rewrite Hstep.
  - destruct Hstep as (? & ? & ? & ? & ? & ? & _ & _ & ->). done.
Qed.

(** *** Tokens out of place *)

(** X16.  A right parenthesis where a form is expected, and a dot that stands
    alone there, raise [SyntaxError("Unexpected token ...")] with the
    position the streamer has once it has read the token. *)
Theorem sxparse_unexpected_token cfg ws rest t w rest' :
  Forall (λ c, c ∈ WHITESPACES) ws → tokenizes cfg rest t w rest' →
  sxparse cfg (ws ++ py ")" ++ rest) =
    Some (Raise (SyntaxError_UnexpectedToken
                   (fst (position_after (ws ++ py ")")))
                   (snd (position_after (ws ++ py ")"))))) ∧
  (stops_run rest → rest ≠ [] →
   sxparse cfg (ws ++ py "." ++ rest) =
     Some (Raise (SyntaxError_UnexpectedToken
                    (fst (position_after (ws ++ py ".")))
                    (snd (position_after (ws ++ py ".")))))).
Proof.
  intros Hws Ht. split.
  - unfold sxparse. rewrite StringStreamer_state_at.
    rewrite (read_obj_Undef cfg _ [] [] _ RPar _ _ (tokenizes_RPar cfg ws rest Hws)
               ltac:(done)).
    replace (4 * length (ws ++ py ")" ++ rest) + 4)
      with (S (4 * length (ws ++ py ")" ++ rest) + 3)) by lia.
    cbn [_sxpr_read_obj].
    rewrite (bind_Ok _ _ _ _ _ (next_token_primed cfg _ _ RPar _ _ _ _
               ltac:(done) ltac:(done) Ht)).
    by rewrite bind_gets.
  - intros Hstop Hne. destruct rest as [|d rest]; [done|]. simpl in Hstop.
    unfold sxparse. rewrite StringStreamer_state_at.
    rewrite (read_obj_Undef cfg _ [] [] _ Dot _ _ (tokenizes_Dot cfg ws d rest Hws Hstop)
               ltac:(done)).
    replace (4 * length (ws ++ py "." ++ d :: rest) + 4)
      with (S (4 * length (ws ++ py "." ++ d :: rest) + 3)) by lia.
    cbn [_sxpr_read_obj].
    rewrite (bind_Ok _ _ _ _ _ (next_token_primed cfg _ _ Dot _ _ _ _
               ltac:(done) ltac:(done) Ht)).
    by rewrite bind_gets.
Qed.

(** *** A string that is not closed *)

Lemma read_string_eof cfg (x : list N) fuel acc done prev t0 :
  Forall (λ c, c ≠ DQUOTE) x →
  sxprlib_enableEscape cfg = false ∨ Forall (λ c, c ≠ ord "\") x →
  length x ≤ fuel →
  read_string fuel cfg acc (state_at done prev t0 x) =
  (Ok (acc ++ x), state_at (done ++ x) prev t0 []).
Proof.
  intros Hq Hb. revert fuel acc done.
  induction Hq as [|c x Hc Hq IH]; intros fuel acc done Hfuel.
  { rewrite read_string_unfold, lookahead_char_state_at, !app_nil_r. by destruct fuel. }
  assert (sxprlib_enableEscape cfg && (c =? ord "\")%N = false) as Hesc.
  { destruct Hb as [->|Hb]; [done|].
    apply Forall_cons in Hb as [Hb%N.eqb_neq _]. by rewrite Hb, andb_false_r. }
  assert (sxprlib_enableEscape cfg = false ∨ Forall (λ c, c ≠ ord "\") x) as Hb'.
  { destruct Hb as [?|Hb]; [by left|right]. by apply Forall_cons in Hb as [_ ?]. }
  destruct fuel as [|fuel]; [simpl in Hfuel; lia|].
  rewrite read_string_char by done.
  rewrite IH by (done || (simpl in Hfuel; lia)). by rewrite <-!app_assoc.
Qed.

(** The tokenizer on a string that the input ends in: it raises
    [EOFError] with the position [_next_token] last noted. *)
Lemma tokenize_unterminated cfg ws (x : list N) done prev t0 :
  Forall (λ c, c ∈ WHITESPACES) ws → Forall (λ c, c ≠ DQUOTE) x →
  sxprlib_enableEscape cfg = false ∨ Forall (λ c, c ≠ ord "\") x →
  tokenize cfg (state_at done prev t0 (ws ++ DQUOTE :: x)) =
  Some (Raise (EOFError_UnexpectedEOF (fst (position_after prev))
                                      (snd (position_after prev))),
        state_at (done ++ ws ++ DQUOTE :: x) prev t0 []).
Proof.
  intros Hws Hq Hb.
  rewrite tokenize_start; [|done|by vm_compute; set_solver|by char_eqs..].
  unfold token_from. char_eqs.
  rewrite unread_state_at, (read_string_eof cfg x) by done.
  rewrite lookahead_char_state_at. cbn [head].
  do 3 f_equal. by repeat (progress (rewrite <-?app_assoc; cbn [app])).
Qed.

Lemma next_token_primed_raise cfg done prev t rest e st' :
  t ≠ Undef → t ≠ TNone →
  tokenize cfg (state_at done done t rest) = Some (Raise e, st') →
  _next_token cfg (state_at done prev t rest) = Some (Raise e, st').
Proof.
  intros Hu Hn Ht. unfold _next_token.
  rewrite bind_gets, lookahead_token_state_at.
  assert (fill_lookahead cfg (state_at done done t rest) = Some (Raise e, st')) as Hfill.
  { unfold fill_lookahead, bind. by rewrite Ht. }
  destruct t; try done;
    by rewrite (bind_Ok _ _ _ tt _ eq_refl), bind_gets, lookahead_token_state_at,
         (bind_Ok _ _ _ tt _ eq_refl), set_position_state_at,
         (bind_Raise _ _ _ _ _ Hfill).
Qed.

Lemma next_token_Undef_raise cfg done prev text e st' :
  tokenize cfg (state_at done prev Undef text) = Some (Raise e, st') →
  _next_token cfg (state_at done prev Undef text) = Some (Raise e, st').
Proof.
  intros Ht. unfold _next_token. rewrite bind_gets, lookahead_token_state_at.
  assert (fill_lookahead cfg (state_at done prev Undef text) = Some (Raise e, st')) as Hfill.
  { unfold fill_lookahead, bind. by rewrite Ht. }
  by rewrite (bind_Raise _ _ _ _ _ Hfill).
Qed.

(** X17.  A string literal that is not closed raises [EOFError("Unexpected
    EOF: line, col")], and the position it carries is not where the
    input ends: it is the one [_next_token] last noted, line 1 and
    column 0 when the string is the first token of the input, and the
    end of the atom before it when the string comes second; the atom is
    not returned. *)
Theorem sxparse_unterminated_string cfg ws (x : list N) :
  Forall (λ c, c ∈ WHITESPACES) ws → Forall (λ c, c ≠ DQUOTE) x →
  sxprlib_enableEscape cfg = false ∨ Forall (λ c, c ≠ ord "\") x →
  sxparse cfg (ws ++ DQUOTE :: x) = Some (Raise (EOFError_UnexpectedEOF 1 0)) ∧
  ∀ v, atomic v = true → reads_back cfg v = true →
    sxparse cfg (str cfg v ++ ws ++ DQUOTE :: x) =
    Some (Raise (EOFError_UnexpectedEOF (fst (position_after (str cfg v)))
                                        (snd (position_after (str cfg v))))).
Proof.
  intros Hws Hq Hb. split.
  - unfold sxparse. rewrite StringStreamer_state_at.
    replace (4 * length (ws ++ DQUOTE :: x) + 4)
      with (S (4 * length (ws ++ DQUOTE :: x) + 3)) by lia.
    cbn [_sxpr_read_obj].
    by rewrite (bind_Raise _ _ _ _ _ (next_token_Undef_raise cfg _ _ _ _ _
                 (tokenize_unterminated cfg ws x [] [] Undef Hws Hq Hb))).
  - intros v Ha Hv. unfold sxparse. rewrite StringStreamer_state_at.
    assert (stops_run (ws ++ DQUOTE :: x)) as Hstop.
    { destruct Hws as [|c ws Hc Hws]; simpl; [vm_compute; set_solver|].
      by apply whitespace_delimiter. }
    pose proof (tokenizes_atom cfg v [] (ws ++ DQUOTE :: x) Ha Hv ltac:(done) Hstop) as Ht.
    cbn [app] in Ht.
    rewrite (read_obj_Undef cfg _ [] [] _ _ _ _ Ht ltac:(done)).
    replace (4 * length (str cfg v ++ ws ++ DQUOTE :: x) + 4)
      with (S (4 * length (str cfg v ++ ws ++ DQUOTE :: x) + 3)) by lia.
    cbn [_sxpr_read_obj].
    cbn [app].
    by rewrite (bind_Raise _ _ _ _ _ (next_token_primed_raise cfg (str cfg v) []
                 (TValue (canonical v)) _ _ _ ltac:(done) ltac:(done)
                 (tokenize_unterminated cfg ws x _ _ _ Hws Hq Hb))).
Qed.


(** *** A block comment that is not closed *)

Lemma skip_block_eof s : ∀ d done prev t fuel,
  block_body (match d with Some c => c :: s | None => s end) = true →
  (d = None → s = []) → length s ≤ fuel →
  skip_block fuel d (state_at done prev t s) =
  (Raise (EOFError_UnexpectedEOF (fst (position_after prev)) (snd (position_after prev))),
   state_at (done ++ s) prev t []).
Proof.
  induction s as [|e s IH]; intros d done prev t fuel Hb Hd Hfuel;
    rewrite skip_block_unfold, lookahead_is_state_at.
  - cbn [head]. rewrite andb_false_r, read_state_at_end, app_nil_r. done.
  - destruct d as [c|]; [|by specialize (Hd eq_refl)].
    cbn [head]. cbn [block_body] in Hb.
    apply andb_true_iff in Hb as [Hcd Hb]. apply negb_true_iff in Hcd.
    rewrite Hcd, read_state_at.
    destruct fuel as [|fuel]; [simpl in Hfuel; lia|].
    rewrite (IH (Some e)) by (done || (simpl in Hfuel; lia)).
    by rewrite <-app_assoc.
Qed.

(** The tokenizer on a block comment that the input ends in: it raises
    [EOFError] with the position [_next_token] last noted. *)
Lemma tokenize_block_unterminated cfg ws body done prev t0 :
  sxprlib_enableBlockComment cfg = true →
  Forall (λ c, c ∈ WHITESPACES) ws → block_body body = true →
  tokenize cfg (state_at done prev t0 (ws ++ py "#|" ++ body)) =
  Some (Raise (EOFError_UnexpectedEOF (fst (position_after prev))
                                      (snd (position_after prev))),
        state_at (done ++ ws ++ py "#|" ++ body) prev t0 []).
Proof.
  intros Hbc Hws Hb. unfold tokenize. cbn [_sxpr_tokenizer].
  rewrite unread_state_at.
  change (py "#|" ++ body) with (ord "#" :: ord "|" :: body).
  rewrite skip_whitespaces_spec
    by (done || apply hash_not_whitespace || (rewrite length_app; lia)).
  rewrite Hbc, lookahead_is_state_at. cbn [head]. char_eqs.
  rewrite read_state_at.
  destruct body as [|c s].
  - rewrite read_state_at_end, (skip_block_eof [] None) by done.
    do 3 f_equal. by repeat (progress (rewrite <-?app_assoc; cbn [app])).
  - rewrite read_state_at, unread_state_at, (skip_block_eof s (Some c)) by done.
    do 3 f_equal. by repeat (progress (rewrite <-?app_assoc; cbn [app])).
Qed.

(** X21.  With [enableBlockComment] set, a block comment that is not
    closed raises [EOFError("Unexpected EOF: line, col")] with the
    position [_next_token] last noted, not the end of the input: line 1
    and column 0 when nothing but blanks comes before the comment, and
    the end of the atom before it when an atom and a blank do; the atom
    is not returned. *)
Theorem sxparse_unterminated_block cfg ws body :
  sxprlib_enableBlockComment cfg = true →
  Forall (λ c, c ∈ WHITESPACES) ws → block_body body = true →
  sxparse cfg (ws ++ py "#|" ++ body) = Some (Raise (EOFError_UnexpectedEOF 1 0)) ∧
  ∀ v, atomic v = true → reads_back cfg v = true → ws ≠ [] →
    sxparse cfg (str cfg v ++ ws ++ py "#|" ++ body) =
    Some (Raise (EOFError_UnexpectedEOF (fst (position_after (str cfg v)))
                                        (snd (position_after (str cfg v))))).
Proof.
  intros Hbc Hws Hb. split.
  - unfold sxparse. rewrite StringStreamer_state_at.
    replace (4 * length (ws ++ py "#|" ++ body) + 4)
      with (S (4 * length (ws ++ py "#|" ++ body) + 3)) by lia.
    cbn [_sxpr_read_obj].
    by rewrite (bind_Raise _ _ _ _ _ (next_token_Undef_raise cfg _ _ _ _ _
                 (tokenize_block_unterminated cfg ws body [] [] Undef Hbc Hws Hb))).
  - intros v Ha Hv Hne. unfold sxparse. rewrite StringStreamer_state_at.
    assert (stops_run (ws ++ py "#|" ++ body)) as Hstop.
    { destruct Hws as [|c ws Hc Hws]; [done|]. by apply whitespace_delimiter. }
    pose proof (tokenizes_atom cfg v [] (ws ++ py "#|" ++ body) Ha Hv ltac:(done) Hstop) as Ht.
    cbn [app] in Ht.
    rewrite (read_obj_Undef cfg _ [] [] _ _ _ _ Ht ltac:(done)).
    replace (4 * length (str cfg v ++ ws ++ py "#|" ++ body) + 4)
      with (S (4 * length (str cfg v ++ ws ++ py "#|" ++ body) + 3)) by lia.
    cbn [_sxpr_read_obj].
    cbn [app].
    by rewrite (bind_Raise _ _ _ _ _ (next_token_primed_raise cfg (str cfg v) []
                 (TValue (canonical v)) _ _ _ ltac:(done) ltac:(done)
                 (tokenize_block_unterminated cfg ws body _ _ _ Hbc Hws Hb))).
Qed.


(** *** Characters *)

Lemma ascii_chars (P : N → bool) :
  forallb P (map N.of_nat (seq 0 128)) = true → ∀ c, (c < 128)%N → P c = true.
Proof.
  intros Hall c Hc. rewrite forallb_forall in Hall. apply Hall.
  apply in_map_iff. exists (N.to_nat c). split; [lia|].
  apply in_seq. lia.
Qed.

(** X18.  [Char(str(Char(c)))] is [Char(c)] for every ASCII character [c]:
    the name, the hexadecimal form or the escaped character that
    [Char.__str__] writes is a legal argument of [Char], which resolves
    it to [c]. *)
Theorem Char_str_value c :
  (c < 128)%N →
  IsChar (Char_str [c]) = true ∧ Char_value (Char_str [c]) = Ok [c].
Proof.
  intros Hc.
  pose proof (ascii_chars
    (λ c, IsChar (Char_str [c]) &&
          match Char_value (Char_str [c]) with
          | Ok v => str_eqb v [c]
          | Raise _ => false
          end) ltac:(by vm_compute) c Hc) as Hok.
  cbv beta in Hok. apply andb_true_iff in Hok as [His Hval]. split; [done|].
  destruct (Char_value (Char_str [c])) as [v|]; [|done].
  by apply str_eqb_eq in Hval as ->.
Qed.

(** What the tokenizer tests on the printed form of an ASCII character
    other than the double quote and the parentheses: it starts with [#]
    and a backslash, holds no delimiter, matches none of the number
    patterns, and is a legal argument of [Char]. *)
Lemma Char_str_tests c :
  (c < 128)%N → c ∉ [34%N; 40%N; 41%N] →
  ∃ w, Char_str [c] = ord "#" :: ord "\" :: w ∧
       Forall (λ d, d ∉ DELIMITERS) (ord "\" :: w) ∧
       _is_integer (Char_str [c]) = false ∧ _is_number (Char_str [c]) = false ∧
       _is_bin (Char_str [c]) = false ∧ _is_oct (Char_str [c]) = false ∧
       _is_hex (Char_str [c]) = false ∧ _is_radix (Char_str [c]) = false ∧
       _is_fraction (Char_str [c]) = false.
Proof.
  intros Hc Hne.
  pose proof (ascii_chars
    (λ c, inb c [34%N; 40%N; 41%N] ||
          match Char_str [c] with
          | h :: b :: w =>
            (h =? ord "#")%N && (b =? ord "\")%N &&
            forallb (λ d, negb (inb d DELIMITERS)) (b :: w) &&
            negb (_is_integer (Char_str [c])) && negb (_is_number (Char_str [c])) &&
            negb (_is_bin (Char_str [c])) && negb (_is_oct (Char_str [c])) &&
            negb (_is_hex (Char_str [c])) && negb (_is_radix (Char_str [c])) &&
            negb (_is_fraction (Char_str [c]))
          | _ => false
          end) ltac:(by vm_compute) c Hc) as Hok.
  cbv beta in Hok. apply inb_false in Hne. rewrite Hne in Hok. cbn [orb] in Hok.
  destruct (Char_str [c]) as [|h [|b w]] eqn:E; [done..|].
  rewrite !andb_true_iff, !negb_true_iff in Hok.
  destruct Hok as (((((((((Hh%N.eqb_eq & Hb%N.eqb_eq) & Hw) & ?) & ?) & ?) & ?) & ?) & ?) & ?).
  subst h b. exists w. split_and!; [done| |done..].
  apply forallb_Forall in Hw. eapply Forall_impl; [exact Hw|].
  intros d Hd%negb_true_iff. by apply inb_false.
Qed.

Lemma tokenizes_Char cfg c ws rest :
  sxprlib_enableChar cfg = true → (c < 128)%N → c ∉ [34%N; 40%N; 41%N] →
  Forall (λ d, d ∈ WHITESPACES) ws → stops_run rest →
  tokenizes cfg (ws ++ Char_str [c] ++ rest) (TValue (Char [c])) (ws ++ Char_str [c]) rest.
Proof.
  intros Hch Hc Hne Hws Hrest.
  destruct (Char_str_tests c Hc Hne)
    as (w & E & Hw & Hint & Hnum & Hbin & Hoct & Hhex & Hrad & Hfrac).
  destruct (Char_str_value c Hc) as [His Hval].
  rewrite E in *. clear E.
  split; [by rewrite <-?app_assoc|]. intros.
  change ((ord "#" :: ord "\" :: w) ++ rest) with (ord "#" :: (ord "\" :: w) ++ rest).
  rewrite tokenize_run; [|done| |done|done].
  2:{ unfold run_start. cbn [app]. char_eqs. done. }
  unfold classify.
  rewrite Hint, Hnum, Hbin, Hoct, Hhex, Hrad, Hfrac. cbn [andb].
  rewrite Hch.
  change (startswith (py "#") (ord "#" :: ord "\" :: w)) with true.
  change (startswith (py "#\") (ord "#" :: ord "\" :: w)) with true.
  cbn [andb]. rewrite His. unfold mkChar. rewrite Hval.
  rewrite (bind_Ok _ _ _ _ _ eq_refl). unfold ret.
  by rewrite <-?app_assoc.
Qed.

(** X19.  With [enableChar] set, the printed form of an ASCII character other
    than the double quote and the parentheses is read back as that
    character. *)
Theorem sxparse_Char cfg c :
  sxprlib_enableChar cfg = true → (c < 128)%N → c ∉ [34%N; 40%N; 41%N] →
  sxparse cfg (str cfg (Char [c])) = Some (Ok (Char [c])).
Proof.
  intros Hch Hc Hne. unfold sxparse. rewrite StringStreamer_state_at.
  pose proof (tokenizes_Char cfg c [] [] Hch Hc Hne ltac:(done) I) as Ht.
  cbn [app] in Ht. rewrite app_nil_r in Ht.
  unfold str. cbn [Sxpr2Str atom_str].
  rewrite (read_obj_Undef cfg _ [] [] _ _ _ _ Ht ltac:(done)).
  replace (4 * length (Char_str [c]) + 4) with (S (4 * length (Char_str [c]) + 3)) by lia.
  cbn [_sxpr_read_obj].
  by rewrite (bind_Ok _ _ _ _ _ (next_token_primed cfg _ _ (TValue (Char [c])) _ _ _ _
               ltac:(done) ltac:(done) (tokenizes_end cfg [] ltac:(done)))).
Qed.

(** *** Arrays *)

Lemma digit_neq d k :
  is_digit d = true → (k < 48 ∨ 57 < k)%N → (d =? k)%N = false.
Proof.
  unfold is_digit. intros [?%N.leb_le ?%N.leb_le]%andb_true_iff Hk.
  apply N.eqb_neq. lia.
Qed.

Lemma hash_not_integer (x : list N) : _is_integer (ord "#" :: x) = false.
Proof. done. Qed.

Lemma hash_not_number (x : list N) : _is_number (ord "#" :: x) = false.
Proof. done. Qed.

Lemma hash_not_fraction (x : list N) :
  Forall (λ c, c ≠ ord "/") x → _is_fraction (ord "#" :: x) = false.
Proof.
  intros Hx. unfold _is_fraction.
  change (strip_sign (ord "#" :: x)) with (ord "#" :: x).
  rewrite split_no_sep; [done|]. by constructor.
Qed.

Lemma hash_digit_not_prefixed letters P d (x : list N) :
  is_digit d = true → Forall (λ l, 57 < l)%N letters →
  is_prefixed letters P (ord "#" :: d :: x) = false.
Proof.
  intros Hd Hl. unfold is_prefixed.
  change (strip_sign (ord "#" :: d :: x)) with (ord "#" :: d :: x). cbv iota beta.
  assert (inb d letters = false) as ->; [|by rewrite andb_false_r].
  apply inb_false. intros Hin. rewrite Forall_forall in Hl. specialize (Hl d Hin).
  unfold is_digit in Hd. apply andb_true_iff in Hd as [_ ?%N.leb_le]. lia.
Qed.

Lemma array_prefix_not_radix (ds : list N) :
  Forall (λ c, is_digit c = true) ds →
  _is_radix (ord "#" :: ds ++ py "A") = false.
Proof.
  intros Hds. unfold _is_radix.
  change (strip_sign (ord "#" :: ds ++ py "A")) with (ord "#" :: ds ++ py "A").
  destruct Hds as [|d1 ds Hd1 Hds]; [done|]. cbn [app]. cbv iota beta.
  destruct Hds as [|d2 ds Hd2 Hds].
  { cbn [app]. change (py "A") with [ord "A"]. cbv iota beta.
    change (inb (ord "A") (py "rR")) with false. cbv iota.
    change (is_digit (ord "A")) with false. by rewrite !andb_false_r. }
  cbn [app]. cbv iota beta.
  assert (inb d2 (py "rR") = false) as ->.
  { apply inb_false. intros Hin. unfold is_digit in Hd2.
    apply andb_true_iff in Hd2 as [_ ?%N.leb_le].
    change (py "rR") with [114%N; 82%N] in Hin. set_solver by lia. }
  assert (∃ r s3, ds ++ py "A" = r :: s3 ∧ inb r (py "rR") = false) as (r & s3 & -> & Hr).
  { destruct Hds as [|d3 ds Hd3 Hds].
    - exists (ord "A"), []. done.
    - exists d3, (ds ++ py "A"). split; [done|].
      apply inb_false. intros Hin. unfold is_digit in Hd3.
      apply andb_true_iff in Hd3 as [_ ?%N.leb_le].
      change (py "rR") with [114%N; 82%N] in Hin. set_solver by lia. }
  rewrite Hr. by rewrite !andb_false_r.
Qed.

Lemma replace_char_absent c new (x : list N) :
  Forall (λ d, d ≠ c) x → replace [c] new x = x.
Proof.
  unfold replace. induction 1 as [|d x Hd Hx IH]; [done|].
  cbn [replace_from startswith]. rewrite (proj2 (N.eqb_neq c d)) by done. cbn [andb].
  by rewrite IH.
Qed.

Lemma replace_char_last c (x : list N) :
  Forall (λ d, d ≠ c) x → replace [c] [] (x ++ [c]) = x.
Proof.
  unfold replace. induction 1 as [|d x Hd Hx IH].
  { cbn [app replace_from startswith]. by rewrite N.eqb_refl. }
  cbn [app replace_from startswith]. rewrite (proj2 (N.eqb_neq c d)) by done. cbn [andb].
  by rewrite IH.
Qed.

Lemma replace_char_head c (x : list N) :
  Forall (λ d, d ≠ c) x → replace [c] [] (c :: x) = x.
Proof.
  intros Hx. unfold replace. cbn [replace_from startswith]. rewrite N.eqb_refl.
  cbn [andb app length Nat.sub]. by apply (replace_char_absent c []).
Qed.

Lemma str_upper_same (x : list N) :
  Forall (λ c, c < 97)%N x → str_upper x = x.
Proof.
  intros Hx. unfold str_upper.
  assert (is_ascii x = true) as ->.
  { apply forallb_Forall. eapply Forall_impl; [exact Hx|].
    intros c Hc. cbv beta in *. apply N.ltb_lt. lia. }
  induction Hx as [|c x Hc Hx IH]; [done|].
  cbn [map]. rewrite IH. f_equal. unfold ascii_upper, is_lower_letter.
  rewrite (proj2 (N.leb_gt 97 c)) by lia. done.
Qed.

Lemma digit_bounds d : is_digit d = true → (48 ≤ d ≤ 57)%N.
Proof. unfold is_digit. intros [?%N.leb_le ?%N.leb_le]%andb_true_iff. lia. Qed.

Lemma digit_ne d k : is_digit d = true → (k < 48 ∨ 57 < k)%N → d ≠ k.
Proof. intros Hd Hk. apply N.eqb_neq. by apply digit_neq. Qed.

(** The prefix of an array of any number of dimensions. *)
Lemma tokenizes_ArrayN cfg ws dim rest :
  sxprlib_enableArray cfg = true → (0 ≤ dim)%Z →
  Forall (λ c, c ∈ WHITESPACES) ws →
  tokenizes cfg (ws ++ py "#" ++ int_str dim ++ py "A" ++ ord "(" :: rest)
            (TValue (Array dim NIL)) (ws ++ py "#" ++ int_str dim ++ py "A")
            (ord "(" :: rest).
Proof.
  intros Ha Hdim Hws.
  assert (∃ ds, int_str dim = ds ∧ ds ≠ [] ∧ Forall (λ c, is_digit c = true) ds)
    as (ds & Hds & Hne & Hdig).
  { destruct dim as [|p|p]; [| |lia].
    - exists (py "0"). split_and!; [done..|]. by repeat constructor.
    - exists (int_str (Z.pos p)). by destruct (int_str_pos_digits p). }
  pose proof (int_of_str_int_str dim) as Hint. rewrite Hds in *. clear Hds.
  split; [by rewrite <-?app_assoc|]. intros.
  destruct ds as [|d1 ds]; [done|]. apply Forall_cons in Hdig as [Hd1 Hdig].
  pose proof (digit_bounds d1 Hd1) as Hb1.
  rewrite (app_assoc (d1 :: ds) (py "A") (ord "(" :: rest)).
  change (py "#" ++ ((d1 :: ds) ++ py "A") ++ ord "(" :: rest)
    with (ord "#" :: (d1 :: ds ++ py "A") ++ ord "(" :: rest).
  rewrite tokenize_run; [|done| | |vm_compute; set_solver].
  2:{ unfold run_start. cbn [app]. char_eqs.
      rewrite (digit_neq d1 (ord "|")), (digit_neq d1 (ord "'"))
        by (done || (left; reflexivity) || (right; reflexivity)).
      by rewrite !andb_false_r. }
  2:{ apply Forall_cons. split; [by apply digit_plain|].
      apply Forall_app. split; [by apply digits_not_delimiters|].
      repeat constructor. vm_compute. set_solver. }
  unfold classify.
  rewrite hash_not_integer, hash_not_number.
  unfold _is_bin, _is_oct, _is_hex.
  rewrite !hash_digit_not_prefixed by (done || (repeat constructor; vm_compute; lia)).
  change (d1 :: ds ++ py "A") with ((d1 :: ds) ++ py "A").
  rewrite array_prefix_not_radix by (by constructor).
  rewrite hash_not_fraction.
  2:{ apply Forall_app. split; [apply digits_no_slash; by constructor|by repeat constructor]. }
  cbn [andb app].
  change (startswith (py "#") (ord "#" :: d1 :: ds ++ py "A")) with true.
  assert (startswith (py "#\") (ord "#" :: d1 :: ds ++ py "A") = false) as ->.
  { change (py "#\") with [ord "#"; ord "\"]. cbn [startswith].
    rewrite N.eqb_refl, N.eqb_sym, (digit_neq d1 (ord "\")) by (done || (left; reflexivity) || (right; reflexivity)).
    done. }
  rewrite andb_false_r. cbv iota.
  rewrite bind_gets.
  assert (str_eqb (ord "#" :: d1 :: ds ++ py "A") (py "#") = false) as -> by done.
  rewrite andb_false_r. cbn [andb]. cbv iota.
  rewrite bind_lift, unread_state_at.
  rewrite skip_lookahead_whitespaces_stop by (vm_compute; set_solver). cbn [snd].
  rewrite bind_gets, lookahead_is_state_at, N.eqb_refl.
  assert (Forall (λ c, c < 97)%N (ord "#" :: d1 :: ds ++ py "A")) as Hup.
  { apply Forall_cons. split; [vm_compute; done|].
    apply Forall_cons. split; [lia|].
    apply Forall_app. split; [|by repeat constructor].
    eapply Forall_impl; [exact Hdig|]. intros c Hc%digit_bounds. lia. }
  rewrite (str_upper_same _ Hup).
  assert (str_eqb (ord "#" :: d1 :: ds ++ py "A") (py "#C") = false) as ->.
  { change (py "#C") with [ord "#"; ord "C"]. cbn [str_eqb].
    rewrite N.eqb_refl, (digit_neq d1 (ord "C")) by (done || (left; reflexivity) || (right; reflexivity)). done. }
  rewrite andb_false_r. cbn [andb]. rewrite Ha. cbn [andb].
  assert (_is_arrayprefix (ord "#" :: d1 :: ds ++ py "A") = true) as ->.
  { unfold _is_arrayprefix. rewrite N.eqb_refl. cbn [andb].
    change (d1 :: ds ++ py "A") with ((d1 :: ds) ++ py "A").
    rewrite span_digits; [done|by constructor|done]. }
  cbn [andb].
  assert (Forall (λ c, c ≠ ord "#") (d1 :: ds ++ py "A")) as Hnh.
  { apply Forall_cons. split; [by apply digit_ne; [|left]|].
    apply Forall_app. split; [|by repeat constructor].
    eapply Forall_impl; [exact Hdig|]. intros c Hc. by apply digit_ne; [|left]. }
  change (py "#") with [ord "#"]. rewrite (replace_char_head _ _ Hnh).
  change (py "A") with [ord "A"].
  change (d1 :: ds ++ [ord "A"]) with ((d1 :: ds) ++ [ord "A"]).
  rewrite replace_char_last.
  2:{ apply Forall_cons. split; [by apply digit_ne; [|right]|].
      eapply Forall_impl; [exact Hdig|]. intros c Hc. by apply digit_ne; [|right]. }
  rewrite Hint. unfold ret.
  by repeat (progress (rewrite <-?app_assoc; cbn [app])).
Qed.

Lemma printed_list_str cfg v :
  printed_list cfg v = true → ∃ body, str cfg v = ord "(" :: body.
Proof.
  destruct v as [| |a d| | | | | |]; try done.
  - by exists (py ")").
  - unfold printed_list, str. rewrite Sxpr2Str_Cons.
    destruct (abbreviation cfg a d); [done|]. intros _. by eexists.
Qed.

Lemma bind_assoc {A B C} (m : M A) (f : A → M B) (g : B → M C) st :
  bind (bind m f) g st = bind m (λ a, bind (f a) g) st.
Proof. unfold bind. by destruct (m st) as [[[a|e] st']|]. Qed.

Lemma bind_ext_on {A B} (m : M A) (k k' : A → M B) st :
  (∀ a st', m st = Some (Ok a, st') → k a st' = k' a st') →
  bind m k st = bind m k' st.
Proof. intros Hk. unfold bind. destruct (m st) as [[[a|e] st']|]; auto. Qed.

(** [_next_token] returns the token in hand. *)
Lemma next_token_is_lookahead cfg done prev t rest tkn st2 :
  t ≠ Undef →
  _next_token cfg (state_at done prev t rest) = Some (Ok tkn, st2) → tkn = t.
Proof.
  intros Hu. unfold _next_token. rewrite bind_gets, lookahead_token_state_at.
  destruct t; try done;
    rewrite (bind_Ok _ _ _ tt _ eq_refl), bind_gets, lookahead_token_state_at,
      (bind_Ok _ _ _ tt _ eq_refl), set_position_state_at;
    try (unfold bind; destruct (fill_lookahead cfg _) as [[[[]|?] ?]|]);
    unfold ret; congruence.
Qed.

(** With a left parenthesis in hand, [_sxpr_read_obj] takes it and
    calls [_sxpr_read_list]. *)
Lemma read_list_after_LPar cfg fuel done prev body r :
  _sxpr_read_obj (S fuel) cfg (state_at done prev LPar body) = Some r →
  bind (_next_token cfg) (λ _, _sxpr_read_list fuel cfg) (state_at done prev LPar body)
  = Some r.
Proof.
  intros <-. cbn [_sxpr_read_obj]. apply bind_ext_on.
  intros tkn st' E. by apply next_token_is_lookahead in E as ->.
Qed.

(** The reader on an array, once its prefix has been made a token. *)
Lemma read_Array cfg dim v fuel done prev body :
  reads_back cfg v = true → str cfg v = ord "(" :: body → depth v ≤ S fuel →
  _sxpr_read_obj (S fuel) cfg
    (state_at done prev (TValue (Array dim NIL)) (ord "(" :: body)) =
  Some (Ok (Array dim (canonical v)),
        state_at (done ++ str cfg v) (done ++ str cfg v) TNone []).
Proof.
  intros Hv Hstr Hd.
  destruct (reads_back_reads cfg (depth v) v (le_n _) Hv) as [Hform _].
  pose proof (tokenizes_LPar cfg [] body ltac:(done)) as Ht1. cbn [app] in Ht1.
  pose proof (Hform (S fuel) [] [] done done LPar [ord "("] body TNone [] []
                Hd ltac:(done) I) as Hread.
  rewrite Hstr, !app_nil_r in Hread. cbn [app] in Hread.
  specialize (Hread Ht1 (tokenizes_end cfg [] ltac:(done))).
  apply read_list_after_LPar in Hread.
  cbn [_sxpr_read_obj].
  rewrite (bind_Ok _ _ _ _ _ (next_token_primed cfg _ _ (TValue (Array dim NIL)) _ _ _ _
             ltac:(done) ltac:(done) Ht1)).
  rewrite bind_gets, lookahead_token_state_at.
  rewrite <-(bind_assoc (_next_token cfg) (λ _, _sxpr_read_list fuel cfg)).
  rewrite (bind_Ok _ _ _ _ _ Hread). by rewrite Hstr.
Qed.

(** X20.  With [enableArray] set, the printed form of an array of any number
    of dimensions from 0 on, whose value is Nil or a chain that reads
    back and has no short form, is read back as the array of that
    value. *)
Theorem sxparse_Array cfg dim v :
  sxprlib_enableArray cfg = true → (0 ≤ dim)%Z →
  printed_list cfg v = true → reads_back cfg v = true →
  sxparse cfg (str cfg (Array dim v)) = Some (Ok (Array dim (canonical v))).
Proof.
  intros Ha Hdim Hpl Hv.
  destruct (printed_list_str cfg v Hpl) as [body Hstr].
  pose proof (proj1 (depth_str cfg (depth v) v (le_n _))) as Hdepth.
  unfold sxparse. rewrite StringStreamer_state_at.
  unfold str in *. cbn [Sxpr2Str]. unfold Array_str. rewrite Hstr in *.
  destruct (dim =? 1)%Z eqn:E.
  - apply Z.eqb_eq in E as ->.
    rewrite (read_obj_Undef cfg _ [] [] _ _ _ _ (tokenizes_Array1 cfg [] body ltac:(done) Ha)
               ltac:(done)).
    replace (4 * length (py "#" ++ ord "(" :: body) + 4)
      with (S (4 * length (py "#" ++ ord "(" :: body) + 3)) by lia.
    rewrite (read_Array cfg 1 v _ _ _ body Hv Hstr); [done|].
    rewrite length_app. simpl in *. lia.
  - rewrite (read_obj_Undef cfg _ [] [] _ _ _ _
               (tokenizes_ArrayN cfg [] dim body Ha Hdim ltac:(done)) ltac:(done)).
    replace (4 * length (py "#" ++ int_str dim ++ py "A" ++ ord "(" :: body) + 4)
      with (S (4 * length (py "#" ++ int_str dim ++ py "A" ++ ord "(" :: body) + 3))
      by lia.
    rewrite (read_Array cfg dim v _ _ _ body Hv Hstr); [done|].
    rewrite !length_app. simpl in *. lia.
Qed.


(** *** Digits in a base *)

Ltac char_ranges :=
  unfold digit_value, ascii_lower, is_alnum, is_hex_digit, is_oct_digit, is_bin_digit,
    is_digit, is_lower_letter, is_upper_letter in *;
  repeat match goal with
  | H : context [(?a <=? ?b)%N] |- _ => destruct (N.leb_spec a b); cbn [andb orb] in *
  | |- context [(?a <=? ?b)%N] => destruct (N.leb_spec a b); cbn [andb orb] in *
  end;
  simplify_eq; try done; try lia.

Lemma digit_value_lower c : digit_value (ascii_lower c) = digit_value c.
Proof. char_ranges; f_equal; lia. Qed.

Lemma digits_value_lower base (ds : list N) :
  ∀ acc, digits_value base acc (map ascii_lower ds) = digits_value base acc ds.
Proof.
  induction ds as [|c ds IH]; intros acc; [done|].
  cbn [map digits_value]. rewrite digit_value_lower.
  destruct (digit_value c) as [d|]; [|done]. by destruct (d <? base)%Z.
Qed.

(** The digits of a numeral that has a value in [base]. *)
Lemma digits_value_Some base (ds : list N) :
  ∀ acc n, digits_value base acc ds = Some n →
           Forall (λ c, ∃ d, digit_value c = Some d ∧ (d < base)%Z) ds.
Proof.
  induction ds as [|c ds IH]; intros acc n Hn; [done|].
  cbn [digits_value] in Hn. destruct (digit_value c) as [d|] eqn:Ed; [|done].
  destruct (d <? base)%Z eqn:Elt; [|done]. apply Z.ltb_lt in Elt.
  constructor; [by exists d|by eapply IH].
Qed.

Lemma digit_value_alnum c d : digit_value c = Some d → is_alnum c = true.
Proof. intros Hd. char_ranges. Qed.

Lemma digit_value_class c d base :
  digit_value c = Some d → (d < base)%Z →
  (base = 2%Z → is_bin_digit c = true) ∧
  (base = 8%Z → is_oct_digit c = true) ∧
  (base = 16%Z → is_hex_digit c = true).
Proof. intros Hd Hb. split_and!; intros ->; char_ranges. Qed.

Lemma alnum_not c k : is_alnum c = true → is_alnum k = false → c ≠ k.
Proof. intros Hc Hk ->. by rewrite Hk in Hc. Qed.

Lemma alnum_lower c : is_alnum c = true → is_alnum (ascii_lower c) = true.
Proof. intros Hc. char_ranges. Qed.

Lemma alnum_not_delimiter c : is_alnum c = true → c ∉ DELIMITERS.
Proof.
  intros Hc Hin. unfold DELIMITERS, WHITESPACES in Hin. cbn [app] in Hin.
  rewrite !elem_of_cons, elem_of_nil in Hin.
  destruct_or!; subst; by vm_compute in Hc.
Qed.

Lemma base_prefix_not_digit base l d :
  digit_value l = Some d → (d < base)%Z → inb l (base_prefix base) = false.
Proof.
  intros Hd Hb. apply inb_false. intros Hin. unfold base_prefix in Hin.
  repeat match type of Hin with
  | context [(base =? ?k)%Z] => destruct (Z.eqb_spec base k)
  end; subst;
    [change (py "bB") with [98%N; 66%N] in Hin
    |change (py "oO") with [111%N; 79%N] in Hin
    |change (py "xX") with [120%N; 88%N] in Hin
    |by apply elem_of_nil in Hin];
    rewrite !elem_of_cons, elem_of_nil in Hin; destruct_or!; subst;
    vm_compute in Hd; simplify_eq; lia.
Qed.

Lemma strip_sign_alnum c (x : list N) :
  is_alnum c = true → strip_sign (c :: x) = c :: x.
Proof.
  intros Hc. cbn [strip_sign].
  assert (inb c (py "+-") = false) as ->; [|done].
  apply inb_false. intros Hin. change (py "+-") with [43%N; 45%N] in Hin.
  rewrite !elem_of_cons, elem_of_nil in Hin.
  destruct_or!; subst; by vm_compute in Hc.
Qed.

(** [int(s, base)] on a sign or none and digits of the base. *)
Lemma int_of_str_digits base (ds : list N) n :
  (2 ≤ base ≤ 36)%Z → ds ≠ [] → digits_value base 0 ds = Some n →
  int_of_str base ds = Some n ∧
  int_of_str base (ord "+" :: ds) = Some n ∧
  int_of_str base (ord "-" :: ds) = Some (- n)%Z.
Proof.
  intros Hbase Hne Hn.
  pose proof (digits_value_Some base ds 0 n Hn) as Hds.
  assert ((base <? 2)%Z || (36 <? base)%Z = false) as Hrange.
  { apply orb_false_iff. split; apply Z.ltb_ge; lia. }
  assert (∀ z l r, ds = z :: l :: r → inb l (base_prefix base) = false) as Hpre.
  { intros z l r ->.
    apply Forall_cons in Hds as [_ Hds]. apply Forall_cons in Hds as [(d & Hd & Hlt) _].
    by apply (base_prefix_not_digit base l d). }
  destruct ds as [|c ds']; [done|].
  assert (is_alnum c = true) as Hc.
  { apply Forall_cons in Hds as [(d & Hd & _) _]. by eapply digit_value_alnum. }
  assert ((c =? ord "-")%N = false) as Hminus.
  { apply N.eqb_neq. by apply alnum_not. }
  unfold int_of_str. rewrite Hrange. cbv iota.
  rewrite strip_sign_alnum by done.
  change (strip_sign (ord "+" :: c :: ds')) with (c :: ds').
  change (strip_sign (ord "-" :: c :: ds')) with (c :: ds').
  cbv iota beta.
  destruct ds' as [|l r]; [|rewrite (Hpre c l r eq_refl), andb_false_r];
    by rewrite Hn, Hminus.
Qed.

(** [s.replace(old, "")] *)
Lemma replace_from_absent a (p new x : list N) :
  Forall (λ d, d ≠ a) x → replace_from (a :: p) new 0 x = x.
Proof.
  induction 1 as [|d x Hd Hx IH]; [done|].
  cbn [replace_from startswith]. rewrite (proj2 (N.eqb_neq a d)) by done.
  cbn [andb]. by rewrite IH.
Qed.

Lemma replace_prefix2 a b (x : list N) :
  Forall (λ d, d ≠ a) x → replace [a; b] [] (a :: b :: x) = x.
Proof.
  intros Hx. unfold replace. cbn [replace_from startswith length Nat.sub app].
  rewrite !N.eqb_refl. cbn [andb]. destruct x as [|d x]; [done|].
  by rewrite (replace_from_absent a [b] [] (d :: x)).
Qed.

Lemma replace_skip a (p new : list N) c (x : list N) :
  c ≠ a → replace (a :: p) new (c :: x) = c :: replace (a :: p) new x.
Proof.
  intros Hc. unfold replace. cbn [replace_from startswith].
  by rewrite (proj2 (N.eqb_neq a c)) by done.
Qed.

Lemma split1_app sep (a b : list N) :
  Forall (λ c, c ≠ sep) a → split1 sep (a ++ sep :: b) = [a; b].
Proof.
  induction 1 as [|c a Hc _ IH]; cbn [split1 app].
  - by rewrite N.eqb_refl.
  - apply N.eqb_neq in Hc. by rewrite Hc, IH.
Qed.

(** A sign or none. *)
Lemma strip_sign_hash sg (x : list N) :
  sg ∈ [[]; py "+"; py "-"] → strip_sign (sg ++ ord "#" :: x) = ord "#" :: x.
Proof. rewrite !elem_of_cons, elem_of_nil. intros H0. by destruct_or!; subst. Qed.

Lemma sign_text sg :
  sg ∈ [[]; py "+"; py "-"] →
  map ascii_lower sg = sg ∧ Forall (λ c, c ≠ ord "#" ∧ c ≠ ord "/") sg ∧
  Forall (λ c, c ∉ DELIMITERS) sg.
Proof.
  rewrite !elem_of_cons, elem_of_nil. intros H0.
  destruct_or!; subst; (split; [done|]); split; repeat constructor; try done;
    vm_compute; set_solver.
Qed.

Lemma int_of_str_signed base sg (ds : list N) n :
  (2 ≤ base ≤ 36)%Z → sg ∈ [[]; py "+"; py "-"] → ds ≠ [] →
  digits_value base 0 ds = Some n →
  int_of_str base (sg ++ ds) = Some (if str_eqb sg (py "-") then (- n)%Z else n).
Proof.
  intros Hbase Hsg Hne Hn.
  destruct (int_of_str_digits base ds n Hbase Hne Hn) as (H1 & H2 & H3).
  rewrite !elem_of_cons, elem_of_nil in Hsg. by destruct_or!; subst.
Qed.

(** *** Numbers that are read, not printed *)

(** A token that is a run of characters and makes an atom, first in the
    input: [sxparse] returns the atom. *)
Lemma sxparse_run cfg ws c w rest obj t_r w_r rest_r :
  Forall (λ d, d ∈ WHITESPACES) ws →
  run_start cfg c (w ++ rest) = true →
  Forall (λ d, d ∉ DELIMITERS) w → stops_run rest →
  (∀ st, classify cfg (c :: w) st = Some (Ok (TValue obj), st)) →
  atomic obj = true →
  tokenizes cfg rest t_r w_r rest_r →
  sxparse cfg (ws ++ c :: w ++ rest) = Some (Ok obj).
Proof.
  intros Hws Hstart Hw Hstop Hcls Ha Hr.
  assert (tokenizes cfg (ws ++ c :: w ++ rest) (TValue obj) (ws ++ c :: w) rest) as Ht.
  { split; [by rewrite <-app_assoc|]. intros.
    by rewrite tokenize_run, Hcls by done. }
  unfold sxparse. rewrite StringStreamer_state_at.
  rewrite (read_obj_Undef cfg _ [] [] _ _ _ _ Ht ltac:(done)).
  replace (4 * length (ws ++ c :: w ++ rest) + 4)
    with (S (4 * length (ws ++ c :: w ++ rest) + 3)) by lia.
  by rewrite (read_atom cfg obj _ _ _ rest t_r w_r rest_r Ha Hr).
Qed.

(** The same when the token makes the tokenizer raise. *)
Lemma sxparse_run_raise cfg ws c w rest e :
  Forall (λ d, d ∈ WHITESPACES) ws →
  run_start cfg c (w ++ rest) = true →
  Forall (λ d, d ∉ DELIMITERS) w → stops_run rest →
  (∀ st, classify cfg (c :: w) st = Some (Raise e, st)) →
  sxparse cfg (ws ++ c :: w ++ rest) = Some (Raise e).
Proof.
  intros Hws Hstart Hw Hstop Hcls.
  unfold sxparse. rewrite StringStreamer_state_at.
  replace (4 * length (ws ++ c :: w ++ rest) + 4)
    with (S (4 * length (ws ++ c :: w ++ rest) + 3)) by lia.
  cbn [_sxpr_read_obj].
  assert (tokenize cfg (state_at [] [] Undef (ws ++ c :: w ++ rest)) =
          Some (Raise e, state_at ([] ++ ws ++ c :: w) [] Undef rest)) as Ht.
  { by rewrite tokenize_run, Hcls by done. }
  by rewrite (bind_Raise _ _ _ _ _ (next_token_Undef_raise cfg _ _ _ _ _ Ht)).
Qed.

Lemma int_str_nat_digits d :
  (0 ≤ d)%Z → int_str d ≠ [] ∧ Forall (λ c, is_digit c = true) (int_str d).
Proof.
  intros Hd. destruct d as [|p|p]; [|apply int_str_pos_digits|lia].
  split; [done|]. by repeat constructor.
Qed.

(** The fraction branch on a numerator and a denominator in decimal:
    [Fraction(s)] and the reduction. *)
Lemma classify_ratio cfg n d st :
  sxprlib_enableFrac cfg = true → (0 ≤ d)%Z →
  classify cfg (int_str n ++ py "/" ++ int_str d) st =
  Some (match Fraction_of n d with
        | Raise e => Raise e
        | Ok q => Ok (TValue (Number (reduce_frac (Fraction q))))
        end, st).
Proof.
  intros Hf Hd.
  destruct (int_str_digits n) as (a & Ha & Hda & Ea).
  destruct (int_str_nat_digits d Hd) as [Hb Hdb].
  set (b := int_str d) in *.
  assert (int_str n ++ py "/" ++ b = a ++ ord "/" :: b ∨
          int_str n ++ py "/" ++ b = ord "-" :: a ++ ord "/" :: b) as Hs
    by (destruct Ea as [-> | ->]; [by left|by right]).
  destruct (fraction_text_tests a b _ Ha Hda Hb Hdb Hs) as (_ & Hi & Hn & Hp & Hr & Hfr).
  unfold classify. unfold _is_bin, _is_oct, _is_hex. rewrite Hi, Hn, !Hp, Hr, Hfr, Hf.
  cbn [andb]. cbv iota.
  unfold fraction_number.
  assert (split (ord "/") (int_str n ++ py "/" ++ b) = [int_str n; b]) as ->.
  { change (py "/" ++ b) with (ord "/" :: b).
    rewrite split_app, split_no_sep; [done|by apply digits_no_slash|].
    destruct Ea as [-> | ->]; [by apply digits_no_slash|].
    constructor; [done|by apply digits_no_slash]. }
  subst b. rewrite !int_of_str_int_str.
  by destruct (Fraction_of n d).
Qed.

(** X22.  With [enableFrac] set, a numerator, a slash and a denominator in
    decimal are read as the fraction in lowest terms, and as an int when
    the denominator divides the numerator; a denominator that is zero
    makes the read raise [ZeroDivisionError]. *)
Theorem sxparse_fraction cfg ws n d rest :
  sxprlib_enableFrac cfg = true →
  Forall (λ c, c ∈ WHITESPACES) ws → stops_run rest → (0 ≤ d)%Z →
  (d = 0%Z →
   sxparse cfg (ws ++ int_str n ++ py "/" ++ int_str d ++ rest) =
     Some (Raise ZeroDivisionError)) ∧
  (∀ t w rest', (0 < d)%Z → tokenizes cfg rest t w rest' →
   sxparse cfg (ws ++ int_str n ++ py "/" ++ int_str d ++ rest) =
     Some (Ok (Number (reduce_frac (Fraction (Qred (n # Z.to_pos d))))))).
Proof.
  intros Hf Hws Hstop Hd.
  destruct (int_str_digits n) as (a & Ha & Hda & Ea).
  destruct (int_str_nat_digits d Hd) as [Hb Hdb].
  assert (∃ c w, int_str n ++ py "/" ++ int_str d = c :: w ∧
                 (∀ more, run_start cfg c more = true) ∧
                 Forall (λ c, c ∉ DELIMITERS) w) as (c & w & E & Hstart & Hw).
  { assert (Forall (λ c, c ∉ DELIMITERS) (a ++ py "/" ++ int_str d)) as Hnd.
    { apply Forall_app. split; [by apply digits_not_delimiters|].
      constructor; [vm_compute; set_solver|by apply digits_not_delimiters]. }
    destruct Ea as [E|E]; rewrite E.
    - destruct a as [|c a]; [done|]. exists c, (a ++ py "/" ++ int_str d).
      apply Forall_cons in Hda as [Hc _]. apply Forall_cons in Hnd as [_ Hnd].
      split_and!; [done| |done].
      intros more. apply run_start_plain. by apply digit_plain.
    - exists (ord "-"), (a ++ py "/" ++ int_str d). split_and!; [done| |done].
      intros more. apply run_start_plain. unfold plain_start. vm_compute. set_solver. }
  pose proof (classify_ratio cfg n d) as Hcls. rewrite E in Hcls.
  replace (ws ++ int_str n ++ py "/" ++ int_str d ++ rest) with (ws ++ c :: w ++ rest)
    by (change (c :: w ++ rest) with ((c :: w) ++ rest); by rewrite <-E, <-!app_assoc).
  split.
  - intros ->. apply sxparse_run_raise; try done. intros st. by rewrite Hcls.
  - intros t w' rest' Hpos Hr. destruct d as [|p|p]; try lia.
    eapply sxparse_run; try done. intros st. by rewrite Hcls.
Qed.

(** *** Numbers in base 2, 8 and 16 *)

Lemma run_start_hash cfg l more :
  is_alnum l = true → run_start cfg (ord "#") (l :: more) = true.
Proof.
  intros Hl. unfold run_start. char_eqs.
  rewrite (proj2 (N.eqb_neq l (ord "|"))) by by apply alnum_not.
  rewrite (proj2 (N.eqb_neq l (ord "'"))) by by apply alnum_not.
  by rewrite !andb_false_r.
Qed.

Lemma alnum_text (x : list N) :
  Forall (λ c, is_alnum c = true) x →
  Forall (λ c, c ≠ ord "/") x ∧ Forall (λ c, c ≠ ord "#") x ∧
  Forall (λ c, c ∉ DELIMITERS) x ∧
  Forall (λ c, is_alnum c = true) (map ascii_lower x).
Proof.
  intros Hx. split_and!; [| | |apply Forall_map];
    (eapply Forall_impl; [exact Hx|]); intros c Hc; cbv beta;
    [by apply alnum_not|by apply alnum_not|by apply alnum_not_delimiter|by apply alnum_lower].
Qed.

Lemma digits_alnum base (ds : list N) n :
  digits_value base 0 ds = Some n → Forall (λ c, is_alnum c = true) ds.
Proof.
  intros Hn. eapply Forall_impl; [by eapply digits_value_Some|].
  intros c (d & Hd & _). by eapply digit_value_alnum.
Qed.

(** The text of a sign, a hash and a letter, after [lower()] and
    [replace("#" + letter, "")]. *)
Lemma replace_prefix sg l (x : list N) :
  sg ∈ [[]; py "+"; py "-"] → Forall (λ c, c ≠ ord "#") x →
  replace [ord "#"; l] [] (sg ++ ord "#" :: l :: x) = sg ++ x.
Proof.
  intros Hsg Hx. rewrite !elem_of_cons, elem_of_nil in Hsg.
  change (py "+") with [43%N] in *. change (py "-") with [45%N] in *.
  destruct_or!; subst; cbn [app];
    [|rewrite replace_skip by (by intros E; vm_compute in E)..];
    by rewrite replace_prefix2.
Qed.

Lemma based_number_text base sg l (ds : list N) n :
  (2 ≤ base ≤ 36)%Z → sg ∈ [[]; py "+"; py "-"] → is_alnum l = true →
  ds ≠ [] → digits_value base 0 ds = Some n →
  let z := if str_eqb sg (py "-") then (- n)%Z else n in
  based_number [ord "#"; ascii_lower l] base (sg ++ ord "#" :: l :: ds) =
    Ok (Number (Int z)) ∧
  ∀ (ds2 : list N) m, ds2 ≠ [] → digits_value base 0 ds2 = Some m →
    based_number [ord "#"; ascii_lower l] base (sg ++ ord "#" :: l :: ds ++ ord "/" :: ds2) =
    match Fraction_of z m with
    | Raise e => Raise e
    | Ok q => Ok (Number (reduce_frac (Fraction q)))
    end.
Proof.
  intros Hbase Hsg Hl Hne Hn z.
  destruct (sign_text sg Hsg) as (Hlow & Hsgc & _).
  destruct (alnum_text ds (digits_alnum base ds n Hn)) as (Hslash & Hhash & _ & Hlower).
  assert (Forall (λ c, c ≠ ord "/") (sg ++ ord "#" :: l :: ds)) as Hs.
  { apply Forall_app. split; [eapply Forall_impl; [exact Hsgc|]; by intros ? [_ ?]|].
    constructor; [done|]. constructor; [by apply alnum_not|done]. }
  assert (int_of_str base
            (replace [ord "#"; ascii_lower l] [] (map ascii_lower (sg ++ ord "#" :: l :: ds))) =
          Some z) as Hint.
  { rewrite map_app, Hlow. cbn [map]. change (ascii_lower (ord "#")) with (ord "#").
    rewrite replace_prefix; [|done|].
    2:{ destruct (alnum_text _ Hlower) as (_ & ? & _). done. }
    apply int_of_str_signed; [done..| |by rewrite digits_value_lower].
    by destruct ds. }
  split.
  - unfold based_number. rewrite split_no_sep by done. by rewrite Hint.
  - intros ds2 m Hne2 Hm.
    destruct (alnum_text ds2 (digits_alnum base ds2 m Hm)) as (Hslash2 & _).
    destruct (int_of_str_digits base ds2 m Hbase Hne2 Hm) as (Hm' & _).
    unfold based_number.
    replace (sg ++ ord "#" :: l :: ds ++ ord "/" :: ds2)
      with ((sg ++ ord "#" :: l :: ds) ++ ord "/" :: ds2)
      by (by rewrite <-app_assoc).
    rewrite split_app, split_no_sep by done. by rewrite Hint, Hm'.
Qed.

Lemma ratio_of_digits (P : N → bool) (ds : list N) :
  ds ≠ [] → Forall (λ c, P c = true) ds → Forall (λ c, c ≠ ord "/") ds →
  ratio_of P ds = true ∧
  ∀ ds2 : list N, ds2 ≠ [] → Forall (λ c, P c = true) ds2 → Forall (λ c, c ≠ ord "/") ds2 →
    ratio_of P (ds ++ ord "/" :: ds2) = true.
Proof.
  intros Hne HP Hs.
  assert (∀ x : list N, x ≠ [] → Forall (λ c, P c = true) x → all1 P x = true) as Hall.
  { intros x Hx Hp. destruct x; [done|]. by apply forallb_Forall. }
  split.
  - unfold ratio_of. rewrite split_no_sep by done. by apply Hall.
  - intros ds2 Hne2 HP2 Hs2. unfold ratio_of. rewrite split_app, split_no_sep by done.
    by rewrite !Hall.
Qed.

Lemma classify_prefixed cfg sg l base (body : list N) st :
  prefix_base cfg l base → sg ∈ [[]; py "+"; py "-"] →
  ratio_of (if (base =? 2)%Z then is_bin_digit
            else if (base =? 8)%Z then is_oct_digit else is_hex_digit) body = true →
  classify cfg (sg ++ ord "#" :: l :: body) st =
  Some (match based_number [ord "#"; ascii_lower l] base (sg ++ ord "#" :: l :: body) with
        | Ok obj => Ok (TValue obj)
        | Raise e => Raise e
        end, st).
Proof.
  intros Hl Hsg Hratio. unfold classify.
  assert (_is_integer (sg ++ ord "#" :: l :: body) = false) as ->.
  { unfold _is_integer. by rewrite strip_sign_hash. }
  assert (_is_number (sg ++ ord "#" :: l :: body) = false) as ->.
  { unfold _is_number. by rewrite strip_sign_hash. }
  unfold _is_bin, _is_oct, _is_hex, is_prefixed. rewrite strip_sign_hash by done.
  cbv iota beta. rewrite N.eqb_refl. cbn [andb]. unfold prefix_base in Hl.
  change (py "bB") with [98%N; 66%N] in *.
  change (py "oO") with [111%N; 79%N] in *.
  change (py "xX") with [120%N; 88%N] in *.
  destruct Hl as [(Hf & Hin & ->)|[(Hf & Hin & ->)|(Hf & Hin & ->)]];
    rewrite !elem_of_cons, elem_of_nil in Hin; destruct_or!; subst l;
    cbn [Z.eqb Pos.eqb] in Hratio; char_eqs; rewrite Hratio, Hf; cbn [andb];
    unfold of_result, bind, ret;
    change (py "#b") with [ord "#"; 98%N]; change (py "#o") with [ord "#"; 111%N];
    change (py "#x") with [ord "#"; 120%N];
    change (ascii_lower 98) with 98%N; change (ascii_lower 66) with 98%N;
    change (ascii_lower 111) with 111%N; change (ascii_lower 79) with 111%N;
    change (ascii_lower 120) with 120%N; change (ascii_lower 88) with 120%N;
    match goal with
    | |- context [based_number ?p ?b ?s] => by destruct (based_number p b s)
    end.
Qed.

Lemma hash_run cfg sg l (body rest : list N) :
  sg ∈ [[]; py "+"; py "-"] → is_alnum l = true →
  Forall (λ c, c ∉ DELIMITERS) body →
  ∃ c w, sg ++ ord "#" :: l :: body = c :: w ∧
         run_start cfg c (w ++ rest) = true ∧ Forall (λ c, c ∉ DELIMITERS) w.
Proof.
  intros Hsg Hl Hbody.
  assert (Forall (λ c, c ∉ DELIMITERS) (l :: body)) as Hlb
    by (constructor; [by apply alnum_not_delimiter|done]).
  assert (ord "#" ∉ DELIMITERS) as Hh by (vm_compute; set_solver).
  rewrite !elem_of_cons, elem_of_nil in Hsg.
  change (py "+") with [43%N] in *. change (py "-") with [45%N] in *.
  destruct_or!; subst; cbn [app].
  - exists (ord "#"), (l :: body). split_and!; [done| |done].
    by apply run_start_hash.
  - exists 43%N, (ord "#" :: l :: body). split_and!; [done| |by constructor].
    apply run_start_plain. unfold plain_start. vm_compute. set_solver.
  - exists 45%N, (ord "#" :: l :: body). split_and!; [done| |by constructor].
    apply run_start_plain. unfold plain_start. vm_compute. set_solver.
Qed.

Lemma prefix_base_facts cfg l base (ds : list N) n :
  prefix_base cfg l base → digits_value base 0 ds = Some n →
  (2 ≤ base ≤ 36)%Z ∧ is_alnum l = true ∧
  Forall (λ c, (if (base =? 2)%Z then is_bin_digit
                else if (base =? 8)%Z then is_oct_digit else is_hex_digit) c = true) ds.
Proof.
  intros Hl Hn. pose proof (digits_value_Some base ds 0 n Hn) as Hds.
  unfold prefix_base in Hl.
  change (py "bB") with [98%N; 66%N] in *.
  change (py "oO") with [111%N; 79%N] in *.
  change (py "xX") with [120%N; 88%N] in *.
  destruct Hl as [(Hf & Hin & ->)|[(Hf & Hin & ->)|(Hf & Hin & ->)]];
    (split; [lia|]);
    (split; [rewrite !elem_of_cons, elem_of_nil in Hin; by destruct_or!; subst|]);
    (eapply Forall_impl; [exact Hds|]); intros c (d & Hd & Hlt); cbn [Z.eqb Pos.eqb];
    by apply (digit_value_class c d _ Hd Hlt).
Qed.

(** X23.  With [enableBin], [enableOct] or [enableHex] set, a sign or
    none, the prefix [#b], [#o] or [#x] in either case and digits of the
    base are read as the int they denote; with a slash and more digits,
    as the fraction in lowest terms, or the int it equals; a denominator
    that is zero makes the read raise [ZeroDivisionError]. *)
Theorem sxparse_prefixed cfg ws sg l base (ds : list N) n rest t w rest' :
  prefix_base cfg l base → sg ∈ [[]; py "+"; py "-"] →
  ds ≠ [] → digits_value base 0 ds = Some n →
  Forall (λ c, c ∈ WHITESPACES) ws → stops_run rest → tokenizes cfg rest t w rest' →
  let z := if str_eqb sg (py "-") then (- n)%Z else n in
  sxparse cfg (ws ++ sg ++ py "#" ++ l :: ds ++ rest) = Some (Ok (Number (Int z))) ∧
  ∀ (ds2 : list N) m, ds2 ≠ [] → digits_value base 0 ds2 = Some m →
    sxparse cfg (ws ++ sg ++ py "#" ++ l :: ds ++ py "/" ++ ds2 ++ rest) =
    Some (match Fraction_of z m with
          | Raise e => Raise e
          | Ok q => Ok (Number (reduce_frac (Fraction q)))
          end).
Proof.
  intros Hl Hsg Hne Hn Hws Hstop Hr z. subst z.
  destruct (prefix_base_facts cfg l base ds n Hl Hn) as (Hbase & Hla & HP).
  destruct (alnum_text ds (digits_alnum base ds n Hn)) as (Hslash & _ & Hdel & _).
  destruct (based_number_text base sg l ds n Hbase Hsg Hla Hne Hn) as [Hint Hratio].
  destruct (ratio_of_digits _ ds Hne HP Hslash) as [Hr1 Hr2].
  split.
  - destruct (hash_run cfg sg l ds rest Hsg Hla Hdel) as (c & x & E & Hstart & Hx).
    replace (ws ++ sg ++ py "#" ++ l :: ds ++ rest) with (ws ++ c :: x ++ rest)
      by (change (c :: x ++ rest) with ((c :: x) ++ rest); rewrite <-E;
          by repeat (progress (rewrite <-?app_assoc; cbn [app]))).
    eapply sxparse_run; try done. intros st. rewrite <-E.
    by rewrite (classify_prefixed cfg sg l base ds st Hl Hsg Hr1), Hint.
  - intros ds2 m Hne2 Hm.
    destruct (prefix_base_facts cfg l base ds2 m Hl Hm) as (_ & _ & HP2).
    destruct (alnum_text ds2 (digits_alnum base ds2 m Hm)) as (Hslash2 & _ & Hdel2 & _).
    assert (Forall (λ c, c ∉ DELIMITERS) (ds ++ ord "/" :: ds2)) as Hbody.
    { apply Forall_app. split; [done|]. constructor; [vm_compute; set_solver|done]. }
    destruct (hash_run cfg sg l (ds ++ ord "/" :: ds2) rest Hsg Hla Hbody)
      as (c & x & E & Hstart & Hx).
    replace (ws ++ sg ++ py "#" ++ l :: ds ++ py "/" ++ ds2 ++ rest)
      with (ws ++ c :: x ++ rest)
      by (change (c :: x ++ rest) with ((c :: x) ++ rest); rewrite <-E;
          by repeat (progress (rewrite <-?app_assoc; cbn [app]))).
    pose proof (classify_prefixed cfg sg l base (ds ++ ord "/" :: ds2)) as Hcls.
    rewrite (Hratio ds2 m Hne2 Hm), E in Hcls.
    specialize (Hr2 ds2 Hne2 HP2 Hslash2).
    destruct (Fraction_of _ m) as [q|e].
    + eapply sxparse_run; try done. intros st. by rewrite Hcls.
    + eapply sxparse_run_raise; try done. intros st. by rewrite Hcls.
Qed.

(** *** Numbers in a given radix *)

Lemma digit_text (x : list N) :
  Forall (λ c, is_digit c = true) x →
  map ascii_lower x = x ∧ Forall (λ c, c ≠ ord "r") x ∧ Forall (λ c, c ≠ ord "#") x ∧
  Forall (λ c, c ≠ ord "/") x ∧ Forall (λ c, is_alnum c = true) x.
Proof.
  intros Hx. split_and!.
  - induction Hx as [|c x Hc _ IH]; [done|]. cbn [map]. rewrite IH. f_equal.
    unfold ascii_lower. assert (is_upper_letter c = false) as ->; [|done]. char_ranges.
  - eapply Forall_impl; [exact Hx|]. intros c Hc ->. done.
  - eapply Forall_impl; [exact Hx|]. intros c Hc ->. done.
  - eapply Forall_impl; [exact Hx|]. intros c Hc ->. done.
  - eapply Forall_impl; [exact Hx|]. intros c Hc. unfold is_alnum. by rewrite Hc.
Qed.

(** The decimal numerals from 1 to 99 are those [_is_radix] lets
    through: a digit that is not 0, and one digit more or none. *)
Lemma radix_numeral_small base :
  (1 ≤ base ≤ 99)%Z →
  match int_str base with
  | [d1] => (49 <=? d1)%N && (d1 <=? 57)%N
  | [d1; d2] => (49 <=? d1)%N && (d1 <=? 57)%N && is_digit d2
  | _ => false
  end = true.
Proof.
  intros Hb.
  assert (forallb (λ b, match int_str b with
                        | [d1] => (49 <=? d1)%N && (d1 <=? 57)%N
                        | [d1; d2] => (49 <=? d1)%N && (d1 <=? 57)%N && is_digit d2
                        | _ => false
                        end) (map Z.of_nat (seq 1 99)) = true) as Hall
    by (by vm_compute).
  rewrite forallb_forall in Hall. apply (Hall base).
  apply in_map_iff. exists (Z.to_nat base). split; [lia|]. apply in_seq. lia.
Qed.

Lemma is_radix_text sg base r (body : list N) :
  sg ∈ [[]; py "+"; py "-"] → (1 ≤ base ≤ 99)%Z → r ∈ py "rR" →
  ratio_of is_alnum body = true →
  _is_radix (sg ++ ord "#" :: int_str base ++ r :: body) = true ∧
  ∀ letters P, Forall (λ l, 57 < l)%N letters →
    is_prefixed letters P (sg ++ ord "#" :: int_str base ++ r :: body) = false.
Proof.
  intros Hsg Hb Hr Hbody. apply inb_true in Hr.
  pose proof (radix_numeral_small base Hb) as Hnum.
  destruct (int_str base) as [|d1 [|d2 [|d3 x]]]; try done.
  - split.
    + unfold _is_radix. rewrite strip_sign_hash by done. cbn [app]. cbv iota beta.
      by rewrite N.eqb_refl, Hnum, Hr, Hbody.
    + intros letters P Hl. unfold is_prefixed. rewrite strip_sign_hash by done.
      cbn [app]. cbv iota beta.
      assert (inb d1 letters = false) as ->; [|by rewrite andb_false_r].
      apply inb_false. intros Hin. rewrite Forall_forall in Hl. specialize (Hl d1 Hin).
      apply andb_true_iff in Hnum as [_ ?%N.leb_le]. lia.
  - apply andb_true_iff in Hnum as [Hd1 Hd2]. split.
    + unfold _is_radix. rewrite strip_sign_hash by done. cbn [app]. cbv iota beta.
      rewrite N.eqb_refl, Hd1, Hd2, Hr, Hbody.
      assert (inb d2 (py "rR") = false) as ->; [|done].
      apply inb_false. intros Hin. change (py "rR") with [114%N; 82%N] in Hin.
      rewrite !elem_of_cons, elem_of_nil in Hin. destruct_or!; subst; done.
    + intros letters P Hl. unfold is_prefixed. rewrite strip_sign_hash by done.
      cbn [app]. cbv iota beta.
      assert (inb d1 letters = false) as ->; [|by rewrite andb_false_r].
      apply inb_false. intros Hin. rewrite Forall_forall in Hl. specialize (Hl d1 Hin).
      apply andb_true_iff in Hd1 as [_ ?%N.leb_le]. lia.
Qed.

Lemma classify_radix cfg sg base r (body : list N) st :
  sxprlib_enableRadix cfg = true →
  sg ∈ [[]; py "+"; py "-"] → (1 ≤ base ≤ 99)%Z → r ∈ py "rR" →
  ratio_of is_alnum body = true →
  classify cfg (sg ++ ord "#" :: int_str base ++ r :: body) st =
  Some (match radix_number cfg (sg ++ ord "#" :: int_str base ++ r :: body) with
        | Ok obj => Ok (TValue obj)
        | Raise e => Raise e
        end, st).
Proof.
  intros Hf Hsg Hb Hr Hbody.
  destruct (is_radix_text sg base r body Hsg Hb Hr Hbody) as [Hrad Hpre].
  unfold classify.
  assert (_is_integer (sg ++ ord "#" :: int_str base ++ r :: body) = false) as ->.
  { unfold _is_integer. by rewrite strip_sign_hash. }
  assert (_is_number (sg ++ ord "#" :: int_str base ++ r :: body) = false) as ->.
  { unfold _is_number. by rewrite strip_sign_hash. }
  unfold _is_bin, _is_oct, _is_hex.
  rewrite !Hpre by (by repeat constructor).
  rewrite Hrad, Hf. cbn [andb]. unfold of_result, bind, ret.
  by destruct (radix_number _ _).
Qed.

(** The steps of the radix branch down to the digits: the sign, the base
    and what follows the [r]. *)
Lemma radix_number_split cfg sg base r (body : list N) :
  sg ∈ [[]; py "+"; py "-"] → (0 ≤ base)%Z → r ∈ py "rR" →
  Forall (λ c, c ≠ ord "#") (map ascii_lower body) →
  radix_number cfg (sg ++ ord "#" :: int_str base ++ r :: body) =
  match
    match split (ord "/") (map ascii_lower body) with
    | v0 :: vs =>
      match int_of_str base v0 with
      | None => None
      | Some n =>
        let ret := ((if str_eqb sg (py "-") then (-1) else 1) * n)%Z in
        match vs with
        | [v1] =>
          match int_of_str base v1 with
          | None => None
          | Some x =>
            match Fraction_of ret x with
            | Raise _ => None
            | Ok q => Some (Number (reduce_frac (Fraction q)))
            end
          end
        | _ => Some (Number (Int ret))
        end
      end
    | [] => None
    end
  with
  | Some obj => Ok obj
  | None => mkSymbol cfg (sg ++ ord "#" :: int_str base ++ r :: body)
  end.
Proof.
  intros Hsg Hb Hr Hbody.
  destruct (sign_text sg Hsg) as (Hlow & Hsgc & _).
  destruct (int_str_nat_digits base Hb) as [_ Hdig].
  destruct (digit_text _ Hdig) as (Hdlow & Hdr & Hdh & _).
  assert (ascii_lower r = ord "r") as Hrl.
  { change (py "rR") with [114%N; 82%N] in Hr.
    rewrite !elem_of_cons, elem_of_nil in Hr. by destruct_or!; subst. }
  unfold radix_number.
  rewrite map_app, Hlow. cbn [map]. change (ascii_lower (ord "#")) with (ord "#").
  rewrite map_app, Hdlow. cbn [map]. rewrite Hrl.
  rewrite split_app by (eapply Forall_impl; [exact Hsgc|]; by intros ? [? _]).
  rewrite split_no_sep by (apply Forall_app; split; [done|by constructor]).
  rewrite split1_app by done.
  rewrite int_of_str_int_str.
  by destruct (split (ord "/") (map ascii_lower body)).
Qed.

Lemma alnum_ascii c : is_alnum c = true → (c <? 128)%N = true.
Proof. intros Hc. apply N.ltb_lt. char_ranges. Qed.

Lemma is_ascii_app (x y : list N) : is_ascii (x ++ y) = is_ascii x && is_ascii y.
Proof. unfold is_ascii. apply forallb_app. Qed.

Lemma is_ascii_alnum (x : list N) : Forall (λ c, is_alnum c = true) x → is_ascii x = true.
Proof.
  intros Hx. unfold is_ascii. apply forallb_Forall.
  eapply Forall_impl; [exact Hx|]. intros c Hc. by apply alnum_ascii.
Qed.

(** [Symbol(s)] on a string of ASCII characters. *)
Lemma mkSymbol_ascii cfg (s : list N) :
  s ≠ [] → is_ascii s = true →
  mkSymbol cfg s = Ok (Symbol (if sxprlib_ignoreCase cfg then map ascii_lower s else s)).
Proof.
  intros Hne Ha. unfold mkSymbol, Symbol_value, str_lower. rewrite Ha.
  destruct s; [done|]. by destruct (sxprlib_ignoreCase cfg).
Qed.

Lemma int_of_str_None base (ds : list N) :
  ds ≠ [] → Forall (λ c, is_alnum c = true) ds →
  (base < 2 ∨ 36 < base)%Z ∨ ((base ∉ [2; 8; 16]%Z) ∧ digits_value base 0 ds = None) →
  int_of_str base (map ascii_lower ds) = None.
Proof.
  intros Hne Hds Hcase. unfold int_of_str.
  destruct ((base <? 2)%Z || (36 <? base)%Z) eqn:Hrange; [done|].
  apply orb_false_iff in Hrange as [?%Z.ltb_ge ?%Z.ltb_ge].
  destruct Hcase as [?|[Hb Hn]]; [lia|].
  assert (base_prefix base = []) as ->.
  { unfold base_prefix. rewrite !not_elem_of_cons in Hb. destruct Hb as (?&?&?&_).
    by rewrite !(proj2 (Z.eqb_neq base _)) by done. }
  destruct (alnum_text ds Hds) as (_ & _ & _ & Hlow).
  rewrite <-(digits_value_lower base ds 0) in Hn.
  destruct (map ascii_lower ds) as [|c x] eqn:E; [by destruct ds|].
  apply Forall_cons in Hlow as [Hc _]. rewrite strip_sign_alnum by done.
  destruct x as [|l x]; [by rewrite Hn|].
  change (inb l []) with false. rewrite andb_false_r. by rewrite Hn.
Qed.

Lemma radix_text sg base r (body : list N) :
  sg ∈ [[]; py "+"; py "-"] → (0 ≤ base)%Z → r ∈ py "rR" →
  Forall (λ c, is_alnum c = true ∨ c = ord "/") body →
  let s := sg ++ ord "#" :: int_str base ++ r :: body in
  s ≠ [] ∧ is_ascii s = true ∧
  ∃ l tl, int_str base = l :: tl ∧ is_alnum l = true ∧
          Forall (λ c, c ∉ DELIMITERS) (tl ++ r :: body).
Proof.
  intros Hsg Hb Hr Hbody s.
  destruct (int_str_nat_digits base Hb) as [Hne Hdig].
  destruct (digit_text _ Hdig) as (_ & _ & _ & _ & Hda).
  assert (is_alnum r = true) as Hra.
  { change (py "rR") with [114%N; 82%N] in Hr.
    rewrite !elem_of_cons, elem_of_nil in Hr. by destruct_or!; subst. }
  assert (Forall (λ c, (c ∉ DELIMITERS) ∧ (c <? 128)%N = true) body) as Hb2.
  { eapply Forall_impl; [exact Hbody|]. intros c [Hc| ->].
    - split; [by apply alnum_not_delimiter|by apply alnum_ascii].
    - split; [vm_compute; set_solver|done]. }
  split_and!.
  - subst s. by destruct sg.
  - subst s. rewrite is_ascii_app. apply andb_true_iff. split.
    { rewrite !elem_of_cons, elem_of_nil in Hsg. by destruct_or!; subst. }
    change (ord "#" :: int_str base ++ r :: body)
      with ([ord "#"] ++ int_str base ++ [r] ++ body).
    rewrite !is_ascii_app, (is_ascii_alnum _ Hda), (is_ascii_alnum [r]) by by constructor.
    cbn [andb]. change (is_ascii [ord "#"]) with true. cbn [andb].
    unfold is_ascii. apply forallb_Forall. eapply Forall_impl; [exact Hb2|]. by intros c [_ ?].
  - destruct (int_str base) as [|l tl]; [done|]. exists l, tl.
    apply Forall_cons in Hda as [Hl Htl]. split_and!; [done..|].
    apply Forall_app. split.
    + eapply Forall_impl; [exact Htl|]. intros c. apply alnum_not_delimiter.
    + constructor; [by apply alnum_not_delimiter|].
      eapply Forall_impl; [exact Hb2|]. by intros c [? _].
Qed.

(** X24.  With [enableRadix] set, a sign or none, [#], a base from 2 to 36
    in decimal, [r] in either case and digits of that base are read as
    the int they denote; with a slash and more digits, as the fraction
    in lowest terms, or the int it equals.  Nothing is raised: with a
    denominator that is zero, with a base out of range, or with a digit
    that is none of the base, the token is read as a Symbol. *)
Theorem sxparse_radix cfg ws sg base r (ds : list N) rest t w rest' :
  sxprlib_enableRadix cfg = true →
  sg ∈ [[]; py "+"; py "-"] → (1 ≤ base ≤ 99)%Z → r ∈ py "rR" →
  ds ≠ [] → Forall (λ c, is_alnum c = true) ds →
  Forall (λ c, c ∈ WHITESPACES) ws → stops_run rest → tokenizes cfg rest t w rest' →
  let s := sg ++ py "#" ++ int_str base ++ r :: ds in
  let symbol x := Symbol (if sxprlib_ignoreCase cfg then map ascii_lower x else x) in
  (∀ n, (2 ≤ base ≤ 36)%Z → digits_value base 0 ds = Some n →
     let z := if str_eqb sg (py "-") then (- n)%Z else n in
     sxparse cfg (ws ++ s ++ rest) = Some (Ok (Number (Int z))) ∧
     ∀ (ds2 : list N) m, ds2 ≠ [] → digits_value base 0 ds2 = Some m →
       sxparse cfg (ws ++ s ++ py "/" ++ ds2 ++ rest) =
       Some (Ok (match Fraction_of z m with
                 | Ok q => Number (reduce_frac (Fraction q))
                 | Raise _ => symbol (s ++ py "/" ++ ds2)
                 end))) ∧
  ((base < 2 ∨ 36 < base)%Z ∨ ((base ∉ [2; 8; 16]%Z) ∧ digits_value base 0 ds = None) →
   sxparse cfg (ws ++ s ++ rest) = Some (Ok (symbol s))).
Proof.
  intros Hf Hsg Hb Hr Hne Hds Hws Hstop Hrest s symbol. subst s symbol. cbv beta.
  assert (0 ≤ base)%Z as Hb0 by lia.
  destruct (alnum_text ds Hds) as (Hslash & _ & _ & Hlow).
  destruct (alnum_text _ Hlow) as (Hlslash & Hlhash & _ & _).
  destruct (ratio_of_digits is_alnum ds Hne Hds Hslash) as [Hr1 Hr2].
  assert (map ascii_lower ds ≠ []) as Hlne by (by destruct ds).
  assert (∀ n, ((if str_eqb sg (py "-") then -1 else 1) * n)%Z =
               if str_eqb sg (py "-") then (- n)%Z else n) as Hsgn.
  { intros n. destruct (str_eqb sg (py "-")); lia. }
  (* the text with what follows the [r] *)
  assert (∀ (body : list N) obj,
    Forall (λ c, is_alnum c = true ∨ c = ord "/") body →
    ratio_of is_alnum body = true →
    radix_number cfg (sg ++ ord "#" :: int_str base ++ r :: body) = Ok obj →
    atomic obj = true →
    sxparse cfg (ws ++ (sg ++ py "#" ++ int_str base ++ r :: body) ++ rest) = Some (Ok obj))
    as Hread.
  { intros body obj Hbody Hratio Hnum Ha.
    destruct (radix_text sg base r body Hsg Hb0 Hr Hbody) as (_ & _ & l & tl & El & Hl & Hdel).
    change (py "#" ++ int_str base ++ r :: body) with (ord "#" :: int_str base ++ r :: body).
    pose proof (classify_radix cfg sg base r body) as Hcls.
    rewrite Hnum, El in Hcls. rewrite El.
    destruct (hash_run cfg sg l (tl ++ r :: body) rest Hsg Hl Hdel)
      as (c & x & E & Hstart & Hx).
    change ((l :: tl) ++ r :: body) with (l :: tl ++ r :: body) in *.
    rewrite E in *.
    change ((c :: x) ++ rest) with (c :: x ++ rest).
    eapply sxparse_run; try done. intros st. by rewrite Hcls. }
  split.
  - intros n Hbase Hn z. subst z.
    destruct (int_of_str_digits base (map ascii_lower ds) n Hbase Hlne
                ltac:(by rewrite digits_value_lower)) as (Hint & _).
    split.
    + apply Hread; [eapply Forall_impl; [exact Hds|]; by left|done| |done].
      rewrite radix_number_split by done.
      by rewrite split_no_sep, Hint, Hsgn by done.
    + intros ds2 m Hne2 Hm.
      pose proof (digits_alnum base ds2 m Hm) as Hds2.
      destruct (alnum_text ds2 Hds2) as (Hslash2 & _ & _ & Hlow2).
      destruct (alnum_text _ Hlow2) as (Hlslash2 & Hlhash2 & _ & _).
      destruct (int_of_str_digits base (map ascii_lower ds2) m Hbase
                  ltac:(by destruct ds2) ltac:(by rewrite digits_value_lower)) as (Hint2 & _).
      assert (Forall (λ c, is_alnum c = true ∨ c = ord "/") (ds ++ ord "/" :: ds2)) as Hbody.
      { apply Forall_app. split; [eapply Forall_impl; [exact Hds|]; by left|].
        constructor; [by right|]. eapply Forall_impl; [exact Hds2|]; by left. }
      replace (ws ++ (sg ++ py "#" ++ int_str base ++ r :: ds) ++ py "/" ++ ds2 ++ rest)
        with (ws ++ (sg ++ py "#" ++ int_str base ++ r :: ds ++ ord "/" :: ds2) ++ rest)
        by (by repeat (progress (rewrite <-?app_assoc; cbn [app]))).
      apply Hread; [done|by apply Hr2| |by destruct (Fraction_of _ m)].
      rewrite radix_number_split; [|done..|].
      2:{ rewrite map_app. apply Forall_app. split; [done|]. by constructor. }
      rewrite map_app. cbn [map]. change (ascii_lower (ord "/")) with (ord "/").
      rewrite split_app, split_no_sep, Hint, Hint2, Hsgn by done.
      destruct (Fraction_of _ m) as [q|e]; [done|].
      destruct (radix_text sg base r _ Hsg Hb0 Hr Hbody) as (Hsne & Hascii & _).
      rewrite mkSymbol_ascii by done.
      do 2 f_equal. by repeat (progress (rewrite <-?app_assoc; cbn [app])).
  - intros Hcase.
    assert (Forall (λ c, is_alnum c = true ∨ c = ord "/") ds) as Hbody
      by (eapply Forall_impl; [exact Hds|]; by left).
    apply Hread; [done..| |done].
    rewrite radix_number_split by done.
    rewrite split_no_sep, (int_of_str_None base ds) by done.
    destruct (radix_text sg base r ds Hsg Hb0 Hr Hbody) as (Hsne & Hascii & _).
    by rewrite mkSymbol_ascii.
Qed.

End ReaderFacts.

(** * Examples *)

Section Examples.
Local Existing Instance ascii_host.

Lemma cells4_closed : heap_closed cells4.
Proof.
  intros l cl Hl. unfold cells4 in Hl.
  repeat (apply lookup_insert_Some in Hl as [[<- <-]|[? Hl]];
          [split; vm_compute; eauto|]).
  by rewrite lookup_empty in Hl.
Qed.

(** The proper list [(10 20)] has two cells and the chain [c.cdr = c]
    has one. *)
Example len_proper : Cons_len cells4 1 = Some 2%Z.
Proof. by vm_compute. Qed.

Example len_cyclic : Cons_len cells4 4 = Some 1%Z.
Proof. by vm_compute. Qed.

Example iter_proper : Cons_iter cells4 (RCons 1) = Some [RAtom 10%Z; RAtom 20%Z].
Proof. by vm_compute. Qed.

Example iter_dotted : Cons_iter cells4 (RCons 3) = Some [RAtom 1%Z; RAtom 5%Z].
Proof. by vm_compute. Qed.

Example iter_cyclic : Cons_iter cells4 (RCons 4) = Some [RAtom 1%Z].
Proof. by vm_compute. Qed.

(** C5 on the circular chain. *)
Lemma Cons_len_counts_reachable_witness :
  heap_closed cells4 ∧ is_Some (cells4 !! 4%positive) ∧
  ∃ X : gset loc,
    (∀ x, x ∈ X ↔ cdr_reach cells4 4 x) ∧
    Cons_len cells4 4 = Some (Z.of_nat (size X)).
Proof.
  split; [exact cells4_closed|]. split; [by vm_compute; eauto|].
  apply (Cons_len_counts_reachable cells4 4 cells4_closed). by vm_compute; eauto.
Defined.

(** C10 on the four cells. *)
Lemma Cons_iter_yields_witness :
  heap_closed cells4 ∧
  Cons_iter cells4 RNil = Some [] ∧
  ∀ c, is_Some (cells4 !! c) →
    ∃ cells t,
      chain cells4 c cells t ∧ NoDup cells ∧ chain_stops cells t ∧
      Cons_iter cells4 (RCons c) = Some (cars cells4 cells ++ dotted_tail t).
Proof.
  split; [exact cells4_closed|]. exact (Cons_iter_yields cells4 cells4_closed).
Defined.

(** C6 as stated does not hold: the list [(10 20)] read at index 5 walks
    past its Nil terminator with indexing left, and the read returns Nil;
    no [IndexError] is raised. *)
Lemma Cons_getitem_past_Nil :
  cdr_walk cells4 2 (RCons 1) RNil ∧ (2 < 5)%Z ∧
  Cons_getitem cells4 1 5 = Some (Ok RNil) ∧
  Cons_getitem cells4 1 5 ≠ Some (Raise IndexError).
Proof.
  split_and!; [|done|by vm_compute|by vm_compute].
  eapply cdr_walk_S; [by vm_compute|]. simpl.
  eapply cdr_walk_S; [by vm_compute|]. simpl. constructor.
Qed.

(** C6 as amended, on the dotted pair [(1 . 5)]: index 1 is the terminal
    atom, index 2 raises. *)
Lemma Cons_getitem_walk_witness :
  heap_closed cells4 ∧ is_Some (cells4 !! 3%positive) ∧
  Cons_getitem cells4 3 1 = Some (Ok (RAtom 5%Z)) ∧
  Cons_getitem cells4 3 2 = Some (Raise IndexError).
Proof.
  assert (is_Some (cells4 !! 3%positive)) as Hlive by (by vm_compute; eauto).
  assert (cdr_walk cells4 1 (RCons 3) (RAtom 5%Z)) as Hwalk.
  { eapply cdr_walk_S; [by vm_compute|]. simpl. constructor. }
  split; [exact cells4_closed|]. split; [exact Hlive|]. split.
  - destruct (Cons_getitem_walk cells4 3 1 cells4_closed Hlive) as (_ & _ & _ & _ & Hatom & _).
    by apply Hatom.
  - destruct (Cons_getitem_walk cells4 3 2 cells4_closed Hlive) as (_ & Hraise & _).
    by apply (Hraise 1%nat 5%Z).
Defined.



(** C9 under the dialect that enables the quote and nothing else. *)
Lemma sxparse_quote_foo_witness :
  sxprlib_enableQuote quote_dialect = true ∧
  sxparse quote_dialect (py "'foo") =
    Some (Ok (Cons (Symbol (py "quote")) (Cons (Symbol (py "foo")) NIL))) ∧
  str quote_dialect (Cons (Symbol (py "quote")) (Cons (Symbol (py "foo")) NIL)) =
    py "'foo".
Proof. split; [reflexivity|]. apply sxparse_quote_foo. reflexivity. Defined.




(** C8 on the store that holds the symbol [a]. *)
Lemma write_once_attributes_witness :
  reachable default_dialect store_a ∧
  objects store_a !! 1%positive = Some symbol_a ∧
  py "value" ∈ write_once (obj_class symbol_a) ∧
  getattr store_a 1 (py "value") = Some (AStr (py "a")) ∧
  (∀ value, store_setattr 1 (py "value") value store_a =
            Some (Raise (PermissionError (py "value")), store_a)) ∧
  store_delattr 1 (py "value") store_a =
    Some (Raise (PermissionError (py "value")), store_a) ∧
  (∀ σ', rtc (store_step default_dialect) store_a σ' →
         getattr σ' 1 (py "value") = Some (AStr (py "a"))).
Proof.
  assert (reachable default_dialect store_a) as Hreach.
  { eapply reachable_step; [apply reachable_empty|].
    by eapply (step_Symbol _ (ArgStr (py "a"))). }
  assert (objects store_a !! 1%positive = Some symbol_a) as Hl by (by vm_compute).
  assert (py "value" ∈ write_once (obj_class symbol_a)) as Hin by (vm_compute; set_solver).
  assert (getattr store_a 1 (py "value") = Some (AStr (py "a"))) as Hget by (by vm_compute).
  destruct (write_once_attributes default_dialect store_a 1 symbol_a (py "value")
              Hreach Hl Hin) as (_ & Hset & Hdel & Hkeep).
  split_and!; [done..|]. intros σ' Hsteps. by rewrite (Hkeep σ' Hsteps).
Defined.

(** X1 on the store that holds [Complex(1, 2)] alone. *)
Lemma store_truediv_real_float_witness :
  reachable default_dialect store_z ∧
  getattr store_z 1 (py "real") = Some (ANum (Int 1)) ∧
  getattr store_z 1 (py "imag") = Some (ANum (Int 2)) ∧
  ∃ w σ', store_truediv 1 (ArgReal (Int 2)) store_z = Some (Ok (inr w), σ') ∧
          getattr σ' w (py "real") = Some (ANum (Float (int_truediv 1 2))).
Proof.
  assert (reachable default_dialect store_z) as Hreach.
  { eapply reachable_step; [apply reachable_empty|].
    by eapply (step_Complex _ (ArgReal (Int 1)) (ArgReal (Int 2))). }
  assert (getattr store_z 1 (py "real") = Some (ANum (Int 1))) as Hre by (by vm_compute).
  assert (getattr store_z 1 (py "imag") = Some (ANum (Int 2))) as Him by (by vm_compute).
  split_and!; [done..|].
  exact (store_truediv_real_float default_dialect store_z 1 eq_refl eq_refl Hreach Hre Him).
Defined.


(** Assigning to the second item of the list [(10 20)]. *)
Lemma Cons_setitem_then_getitem_witness :
  heap_closed cells4 ∧ cdr_walk cells4 1 (RCons 1) (RCons 2) ∧
  ∃ h', Cons_setitem cells4 1 1 (RAtom 7%Z) = Some (Ok tt, h') ∧
        heap_closed h' ∧
        Cons_getitem h' 1 1 = Some (Ok (RAtom 7%Z)) ∧
        Cons_len h' 1 = Cons_len cells4 1 ∧
        (∀ l', l' ≠ 2%positive → h' !! l' = cells4 !! l').
Proof.
  assert (cdr_walk cells4 1 (RCons 1) (RCons 2)) as Hwalk.
  { eapply cdr_walk_S; [by vm_compute|]. simpl. constructor. }
  split; [exact cells4_closed|]. split; [exact Hwalk|].
  apply (Cons_setitem_then_getitem cells4 1 1 2 (RAtom 7%Z) cells4_closed I Hwalk).
  by vm_compute; eauto.
Defined.

(** Assigning past the end of the list [(10 20)]: index 2 makes it
    [(10 20 . 99)], index 3 raises. *)
Lemma Cons_setitem_past_last_witness :
  cdr_walk cells4 1 (RCons 1) (RCons 2) ∧
  cells4 !! 2%positive = Some (Cell (RAtom 20%Z) RNil) ∧
  Cons_setitem cells4 1 2 (RAtom 99%Z) =
    Some (Ok tt, <[2%positive := Cell (RAtom 20%Z) (RAtom 99%Z)]> cells4) ∧
  Cons_setitem cells4 1 3 (RAtom 99%Z) = Some (Raise IndexError, cells4).
Proof.
  assert (cdr_walk cells4 1 (RCons 1) (RCons 2)) as Hwalk.
  { eapply cdr_walk_S; [by vm_compute|]. simpl. constructor. }
  assert (cells4 !! 2%positive = Some (Cell (RAtom 20%Z) RNil)) as Hp by (by vm_compute).
  destruct (Cons_setitem_past_last cells4 1 1 2 (Cell (RAtom 20%Z) RNil) (RAtom 99%Z)
              Hwalk Hp ltac:(done)) as (Hset & Hraise & _).
  split_and!; [done..|exact Hset|]. by apply Hraise.
Defined.

(** [mklist(1, c)] for the cell [c] at 3. *)
Lemma mklist_iter_witness :
  heap_closed cells4 ∧ Forall (ref_live cells4) [RAtom 1%Z; RCons 3] ∧
  ∃ r h', mklist cells4 [RAtom 1%Z; RCons 3] = (r, h') ∧ heap_closed h' ∧ cells4 ⊆ h' ∧
          Cons_iter h' r = Some [RAtom 1%Z; RCons 3] ∧
          list_len h' r = Some 2%Z.
Proof.
  assert (Forall (ref_live cells4) [RAtom 1%Z; RCons 3]) as Hlive.
  { repeat constructor. by vm_compute; eauto. }
  split; [exact cells4_closed|]. split; [exact Hlive|].
  exact (mklist_iter cells4 [RAtom 1%Z; RCons 3] cells4_closed Hlive).
Defined.

(** [mkreverse] of the dotted pair [(1 . 5)]: the list [(1)]. *)
Lemma mkreverse_reverses_witness :
  heap_closed cells4 ∧ chain cells4 3 [3%positive] (RAtom 5%Z) ∧
  ∃ r h', mkreverse cells4 (RCons 3) = Some (Ok r, h') ∧ heap_closed h' ∧ cells4 ⊆ h' ∧
          Cons_iter h' r = Some [RAtom 1%Z] ∧
          list_len h' r = Some 1%Z ∧
          ∃ r2 h2, mkreverse h' r = Some (Ok r2, h2) ∧
                   Cons_iter h2 r2 = Some [RAtom 1%Z].
Proof.
  assert (chain cells4 3 [3%positive] (RAtom 5%Z)) as Hch.
  { by apply (chain_last cells4 3 (Cell (RAtom 1%Z) (RAtom 5%Z))). }
  split; [exact cells4_closed|]. split; [exact Hch|].
  apply (mkreverse_reverses cells4 3 [3%positive] (RAtom 5%Z) cells4_closed Hch).
  - apply NoDup_singleton.
  - by intros d.
Defined.

(** [nconc] of the circular chain at 4 and the list at 1: the chain is
    cut open. *)
Lemma nconc_sets_last_cdr_witness :
  heap_closed cells4 ∧ chain cells4 4 [4%positive] (RCons 4) ∧
  ∃ p cl, last [4%positive] = Some p ∧ cells4 !! p = Some cl ∧ cdr cl = RCons 4 ∧
    nconc cells4 (RCons 4) (RCons 1) =
      Some (Ok (RCons 4), <[p := Cell (car cl) (RCons 1)]> cells4) ∧
    chain (<[p := Cell (car cl) (RCons 1)]> cells4) 4 [4%positive] (RCons 1).
Proof.
  assert (chain cells4 4 [4%positive] (RCons 4)) as Hch.
  { by apply (chain_last cells4 4 (Cell (RAtom 1%Z) (RCons 4))). }
  split; [exact cells4_closed|]. split; [exact Hch|].
  apply (nconc_sets_last_cdr cells4 4 [4%positive] (RCons 4) (RCons 1) cells4_closed Hch).
  - apply NoDup_singleton.
  - intros d [= <-]. set_solver.
Defined.

(** [mkappend] of the list [(10 20)] and the dotted pair at 3. *)
Lemma mkappend_copies_witness :
  heap_closed cells4 ∧ chain cells4 1 [1%positive; 2%positive] RNil ∧
  ∃ r cells' h',
    mkappend cells4 (RCons 1) (RCons 3) = Some (Ok (RCons r), h') ∧
    heap_closed h' ∧ cells4 ⊆ h' ∧
    chain h' r cells' (RCons 3) ∧ NoDup cells' ∧ (∀ y, y ∈ cells' → cells4 !! y = None) ∧
    cars h' cells' = [RAtom 10%Z; RAtom 20%Z] ∧
    (∀ cells2, proper_list cells4 (RCons 3) cells2 →
       Cons_iter h' (RCons r) =
       Some (cars cells4 [1%positive; 2%positive] ++ cars cells4 cells2)).
Proof.
  assert (chain cells4 1 [1%positive; 2%positive] RNil) as Hch.
  { eapply (chain_next cells4 1 (Cell (RAtom 10%Z) (RCons 2))); [done..|].
    by apply (chain_last cells4 2 (Cell (RAtom 20%Z) RNil)). }
  split; [exact cells4_closed|]. split; [exact Hch|].
  apply (mkappend_copies cells4 1 [1%positive; 2%positive] RNil (RCons 3) cells4_closed).
  - by vm_compute; eauto.
  - exact Hch.
  - apply NoDup_cons. split; [set_solver|apply NoDup_singleton].
  - by intros d.
Defined.

(** [z = Complex(1, Fraction(1, 2))]: [z * z.conjugate()] is
    [Fraction(5, 4)]. *)
Lemma Complex_mul_conjugate_witness :
  exact_number (Int 1) ∧ exact_number (Fraction (1 # 2)) ∧
  reduced (Int 1) ∧ reduced (Fraction (1 # 2)) ∧
  num_is_zero (Fraction (1 # 2)) = false ∧
  conjugate (λ f, f) (Int 1) (Fraction (1 # 2)) =
    CComplex (Int 1) (Fraction (-1 # 2)) ∧
  Complex_mul (Int 1) (Fraction (1 # 2)) (ArgComplex (Int 1) (Fraction (-1 # 2))) =
    CReal (Fraction (5 # 4)).
Proof.
  split_and!; [done..| |];
    apply (Complex_mul_conjugate (λ f, f) (Int 1) (Fraction (1 # 2))); done.
Defined.

(** [Complex(1, 2)] and [Complex(Fraction(1, 2), 3)] in either order. *)
Lemma Complex_add_mul_comm_witness :
  exact_number (Int 1) ∧ exact_number (Int 2) ∧
  exact_number (Fraction (1 # 2)) ∧ exact_number (Int 3) ∧
  Complex_add (Int 1) (Int 2) (ArgComplex (Fraction (1 # 2)) (Int 3)) =
    Complex_add (Fraction (1 # 2)) (Int 3) (ArgComplex (Int 1) (Int 2)) ∧
  Complex_mul (Int 1) (Int 2) (ArgComplex (Fraction (1 # 2)) (Int 3)) =
    Complex_mul (Fraction (1 # 2)) (Int 3) (ArgComplex (Int 1) (Int 2)).
Proof.
  split_and!; [done..| |];
    apply (Complex_add_mul_comm (Int 1) (Int 2) (Fraction (1 # 2)) (Int 3)); done.
Defined.

(** [z - z] for [z = Complex(Fraction(1, 2), 3)]. *)
Lemma Complex_sub_self_witness :
  exact_number (Fraction (1 # 2)) ∧ exact_number (Int 3) ∧
  Complex_sub (Fraction (1 # 2)) (Int 3) (ArgComplex (Fraction (1 # 2)) (Int 3)) =
    CReal (Int 0) ∧
  Complex_add (Fraction (1 # 2)) (Int 3)
              (ArgComplex (num_neg (λ f, f) (Fraction (1 # 2))) (num_neg (λ f, f) (Int 3))) =
    CReal (Int 0).
Proof.
  split; [done|]. split; [done|].
  exact (Complex_sub_self (λ f, f) (Fraction (1 # 2)) (Int 3) eq_refl I).
Defined.


(** The text [#(1 (2] under the dialect that reads arrays. *)
Lemma sxparse_array_cut_short_witness :
  sxprlib_enableArray array_dialect = true ∧
  sxparse array_dialect (py "#(1 (2") = Some (Raise (SyntaxError_UnexpectedEOF 1 6)).
Proof.
  split; [reflexivity|].
  change (SyntaxError_UnexpectedEOF 1 6) with (eof_at ([] ++ py "#(" ++ py "1 (2")).
  apply (sxparse_array_cut_short array_dialect [] (py "1 (2")); [reflexivity|constructor|].
  apply (open_form array_dialect [] (Number (Int 1)) (py " (2"));
    [constructor|reflexivity|vm_compute; set_solver|].
  apply (open_list array_dialect [ord " "] (py "2")); [repeat constructor|].
  apply (open_form array_dialect [] (Number (Int 2)) []);
    [constructor|reflexivity|exact I|].
  apply open_end. constructor.
Defined.

Lemma forms_abc :
  forms_text block_dialect
    [Symbol (py "a"); Cons (Symbol (py "b")) NIL; Number (Int 12)]
    (py "a ; c" ++ 10%N :: py "#| d #| e |#(b) 12").
Proof.
  apply (forms_form block_dialect [] (Symbol (py "a")) _
           (py " ; c" ++ 10%N :: py "#| d #| e |#(b) 12"));
    [constructor|reflexivity|vm_compute; set_solver|].
  apply (forms_comment block_dialect [ord " "] (py " c") 10%N _ (py "#| d #| e |#(b) 12"));
    [reflexivity|repeat constructor|repeat constructor; vm_compute; set_solver
    |vm_compute; set_solver|].
  apply (forms_block block_dialect [] (py " d #| e ") _ (py "(b) 12"));
    [reflexivity|constructor|reflexivity|].
  apply (forms_form block_dialect [] (Cons (Symbol (py "b")) NIL) _ (py " 12"));
    [constructor|reflexivity|vm_compute; set_solver|].
  apply (forms_form block_dialect [ord " "] (Number (Int 12)) _ []);
    [repeat constructor|reflexivity|exact I|].
  apply forms_end. constructor.
Defined.

(** The text [a ; c], a new line, [#| d #| e |#(b) 12]: three forms, a
    line comment and a block comment. *)
Lemma read_all_forms_witness :
  forms_text block_dialect
    [Symbol (py "a"); Cons (Symbol (py "b")) NIL; Number (Int 12)]
    (py "a ; c" ++ 10%N :: py "#| d #| e |#(b) 12") ∧
  read_all block_dialect (py "a ; c" ++ 10%N :: py "#| d #| e |#(b) 12") =
    Some (Ok [Symbol (py "a"); Cons (Symbol (py "b")) NIL; Number (Int 12)]).
Proof.
  split; [exact forms_abc|].
  exact (read_all_forms block_dialect _ _ forms_abc).
Defined.

Lemma sxparse_first_form_witness :
  forms_text block_dialect
    [Symbol (py "a"); Cons (Symbol (py "b")) NIL; Number (Int 12)]
    (py "a ; c" ++ 10%N :: py "#| d #| e |#(b) 12") ∧
  sxparse block_dialect (py "a ; c" ++ 10%N :: py "#| d #| e |#(b) 12") =
    Some (Ok (Symbol (py "a"))).
Proof.
  split; [exact forms_abc|].
  exact (sxparse_first_form block_dialect _ _ forms_abc).
Defined.

(** The text [ ) ]: the parenthesis ends at column 2. *)
Lemma sxparse_unexpected_token_witness :
  tokenizes default_dialect (py " ") TNone (py " ") [] ∧
  sxparse default_dialect (py " ) ") = Some (Raise (SyntaxError_UnexpectedToken 1 2)).
Proof.
  assert (tokenizes default_dialect (py " ") TNone (py " ") []) as Ht.
  { apply tokenizes_end. repeat constructor. }
  split; [exact Ht|].
  apply (proj1 (sxparse_unexpected_token default_dialect [ord " "] (py " ") TNone (py " ") []
                  ltac:(repeat constructor) Ht)).
Defined.

(** The texts ["abc] and [x "abc]. *)
Lemma sxparse_unterminated_string_witness :
  sxparse default_dialect (DQUOTE :: py "abc") = Some (Raise (EOFError_UnexpectedEOF 1 0)) ∧
  sxparse default_dialect (py "x " ++ DQUOTE :: py "abc") =
    Some (Raise (EOFError_UnexpectedEOF 1 1)).
Proof.
  assert (Forall (λ c : N, c ≠ DQUOTE) (py "abc")) as Hq by (by repeat constructor).
  split.
  - apply (proj1 (sxparse_unterminated_string default_dialect [] (py "abc")
                    ltac:(constructor) Hq ltac:(by left))).
  - apply (proj2 (sxparse_unterminated_string default_dialect [ord " "] (py "abc")
                    ltac:(repeat constructor) Hq ltac:(by left))
             (Symbol (py "x")) eq_refl eq_refl).
Defined.


(** The texts [ #| a] and [x #| a]. *)
Lemma sxparse_unterminated_block_witness :
  sxparse block_dialect (py " #| a") = Some (Raise (EOFError_UnexpectedEOF 1 0)) ∧
  sxparse block_dialect (py "x #| a") = Some (Raise (EOFError_UnexpectedEOF 1 1)).
Proof.
  split.
  - apply (proj1 (sxparse_unterminated_block block_dialect [ord " "] (py " a")
                    eq_refl ltac:(repeat constructor) eq_refl)).
  - apply (proj2 (sxparse_unterminated_block block_dialect [ord " "] (py " a")
                    eq_refl ltac:(repeat constructor) eq_refl)
             (Symbol (py "x")) eq_refl eq_refl ltac:(done)).
Defined.


(** The space: [str(Char(" "))] is [#\Space], and [Char] takes it
    back. *)
Lemma Char_str_value_witness :
  (32 < 128)%N ∧ Char_str [32%N] = py "#\Space" ∧
  IsChar (py "#\Space") = true ∧ Char_value (py "#\Space") = Ok [32%N].
Proof.
  split; [reflexivity|]. split; [reflexivity|].
  exact (Char_str_value 32 eq_refl).
Defined.

(** The text [#\Space] under the dialect that reads characters. *)
Lemma sxparse_Char_witness :
  sxprlib_enableChar char_dialect = true ∧ (32 < 128)%N ∧ (32%N ∉ [34%N; 40%N; 41%N]) ∧
  sxparse char_dialect (py "#\Space") = Some (Ok (Char [32%N])).
Proof.
  assert (32%N ∉ [34%N; 40%N; 41%N]) as Hne by set_solver.
  split; [reflexivity|]. split; [reflexivity|]. split; [exact Hne|].
  exact (sxparse_Char char_dialect 32 eq_refl eq_refl Hne).
Defined.

(** The text [#2A(1 2)] under the dialect that reads arrays. *)
Lemma sxparse_Array_witness :
  sxprlib_enableArray array_dialect = true ∧ (0 ≤ 2)%Z ∧
  sxparse array_dialect (py "#2A(1 2)") =
    Some (Ok (Array 2 (Cons (Number (Int 1)) (Cons (Number (Int 2)) NIL)))).
Proof.
  split; [reflexivity|]. split; [done|].
  exact (sxparse_Array array_dialect 2 (Cons (Number (Int 1)) (Cons (Number (Int 2)) NIL))
           eq_refl ltac:(done) eq_refl eq_refl).
Defined.


(** The texts [1/0], [4/6] and [6/3]. *)
Lemma sxparse_fraction_witness :
  sxparse number_dialect (py "1/0") = Some (Raise ZeroDivisionError) ∧
  sxparse number_dialect (py "4/6") = Some (Ok (Number (Fraction (2 # 3)))) ∧
  sxparse number_dialect (py "6/3") = Some (Ok (Number (Int 2))).
Proof.
  assert (tokenizes number_dialect [] TNone [] []) as Ht
    by (apply tokenizes_end; constructor).
  split_and!.
  - exact (proj1 (sxparse_fraction number_dialect [] 1 0 [] eq_refl
                    ltac:(constructor) I ltac:(done)) eq_refl).
  - exact (proj2 (sxparse_fraction number_dialect [] 4 6 [] eq_refl
                    ltac:(constructor) I ltac:(done)) TNone [] [] eq_refl Ht).
  - exact (proj2 (sxparse_fraction number_dialect [] 6 3 [] eq_refl
                    ltac:(constructor) I ltac:(done)) TNone [] [] eq_refl Ht).
Defined.

(** The texts [-#xff], [-#xff/11] and [-#xff/0]. *)
Lemma sxparse_prefixed_witness :
  sxparse number_dialect (py "-#xff") = Some (Ok (Number (Int (-255)))) ∧
  sxparse number_dialect (py "-#xff/11") = Some (Ok (Number (Int (-15)))) ∧
  sxparse number_dialect (py "-#xff/0") = Some (Raise ZeroDivisionError).
Proof.
  assert (tokenizes number_dialect [] TNone [] []) as Ht
    by (apply tokenizes_end; constructor).
  assert (prefix_base number_dialect 120 16) as Hp.
  { right. right. split_and!; [reflexivity|vm_compute; set_solver|reflexivity]. }
  assert (py "-" ∈ [[]; py "+"; py "-"]) as Hsg by set_solver.
  pose proof (sxparse_prefixed number_dialect [] (py "-") 120 16 (py "ff") 255 []
                TNone [] [] Hp Hsg ltac:(done) eq_refl ltac:(constructor) I Ht) as [H1 H2].
  split_and!.
  - exact H1.
  - exact (H2 (py "11") 17%Z ltac:(done) eq_refl).
  - exact (H2 (py "0") 0%Z ltac:(done) eq_refl).
Defined.

(** The texts [#16rFF], [#16rFF/11], [#16rFF/0], [#37r10] and [#3r13]. *)
Lemma sxparse_radix_witness :
  sxparse number_dialect (py "#16rFF") = Some (Ok (Number (Int 255))) ∧
  sxparse number_dialect (py "#16rFF/11") = Some (Ok (Number (Int 15))) ∧
  sxparse number_dialect (py "#16rFF/0") = Some (Ok (Symbol (py "#16rFF/0"))) ∧
  sxparse number_dialect (py "#37r10") = Some (Ok (Symbol (py "#37r10"))) ∧
  sxparse number_dialect (py "#3r13") = Some (Ok (Symbol (py "#3r13"))).
Proof.
  assert (tokenizes number_dialect [] TNone [] []) as Ht
    by (apply tokenizes_end; constructor).
  assert ([] ∈ [[]; py "+"; py "-"]) as Hsg by set_solver.
  assert (114%N ∈ py "rR") as Hr by (vm_compute; set_solver).
  assert (∀ x : list N, forallb is_alnum x = true → Forall (λ c, is_alnum c = true) x) as Hal.
  { intros x Hx. by apply forallb_Forall. }
  pose proof (sxparse_radix number_dialect [] [] 16 114 (py "FF") [] TNone [] []
                eq_refl Hsg ltac:(lia) Hr ltac:(done) (Hal (py "FF") eq_refl)
                ltac:(constructor) I Ht) as [H16 _].
  destruct (H16 255%Z ltac:(lia) eq_refl) as [H1 H2].
  pose proof (sxparse_radix number_dialect [] [] 37 114 (py "10") [] TNone [] []
                eq_refl Hsg ltac:(lia) Hr ltac:(done) (Hal (py "10") eq_refl)
                ltac:(constructor) I Ht) as [_ H37].
  pose proof (sxparse_radix number_dialect [] [] 3 114 (py "13") [] TNone [] []
                eq_refl Hsg ltac:(lia) Hr ltac:(done) (Hal (py "13") eq_refl)
                ltac:(constructor) I Ht) as [_ H3].
  split_and!.
  - exact H1.
  - exact (H2 (py "11") 17%Z ltac:(done) eq_refl).
  - exact (H2 (py "0") 0%Z ltac:(done) eq_refl).
  - apply H37. left. lia.
  - apply H3. right. split; [|reflexivity].
    rewrite !not_elem_of_cons. split_and!; [lia..|apply not_elem_of_nil].
Defined.

End Examples.
